(** * MediaWall: the virtualised media grid, checked against its source

    A shallow embedding of the parts of the MediaWall viewer that manage
    state: the slot-height computation of the masonry grid
    ([VideoMasonry.getItemHeight], [ImageItem.calcHeight]), the render
    decision of [VideoMasonry], the load/unload/play life cycle of
    [VideoItem] and [ImageItem], and the [useAutoScroll] hook.

    The React components are embedded with their render semantics made
    explicit: a render reads one snapshot of state and props, effects run
    after the commit when one of their dependencies changed (clean-ups first),
    state setters queue their value for the next render, and timer callbacks
    keep the variables of the render that created them.

    The modules [Double], [JS], [Height], [Masonry], [ImageItem],
    [AutoScroll] and [VideoItem] hold the embedding, function by function; [ImageItemInv],
    [AutoScrollInv] and [VideoItemCtl] hold the invariants and, for
    [VideoItem], the projection of an item on the flags that decide its
    branches; the modules whose name ends in [Facts] hold the proofs. *)

From Stdlib Require Import Bool List ZArith QArith Qabs Qround Qminmax String Ascii Lia Lqa
  Permutation Sorted.
From Stdlib Require Floats.SpecFloat.
Import ListNotations.

(** ** JavaScript numbers *)

(** A JavaScript number is an IEEE 754 double. The arithmetic of the
    slot heights is done on [SpecFloat.spec_float] with 53 bits of
    precision, rounding to nearest, ties to even. *)
Module Double.

Definition double : Type := SpecFloat.spec_float.

Definition prec : Z := 53.
Definition emax : Z := 1024.

(** [x / y] and [x + y]. *)
Definition div (x y : double) : double := SpecFloat.SFdiv prec emax x y.
Definition add (x y : double) : double := SpecFloat.SFadd prec emax x y.

(** The double nearest to an integer. *)
Definition ofZ (z : Z) : double := SpecFloat.binary_normalize prec emax z 0 false.

(** The double nearest to a rational: the quotient of numerator and
    denominator, rounded once. *)
Definition ofQ (q : Q) : double :=
  match Qnum q with
  | Z0 => SpecFloat.S754_zero false
  | Zpos n =>
      div (SpecFloat.S754_finite false n 0) (SpecFloat.S754_finite false (Qden q) 0)
  | Zneg n =>
      div (SpecFloat.S754_finite true n 0) (SpecFloat.S754_finite false (Qden q) 0)
  end.

Definition NaN : double := SpecFloat.S754_nan.

(** A number that may be NaN ([None]), as a double. *)
Definition ofNumber (n : option Q) : double :=
  match n with
  | Some q => ofQ q
  | None => NaN
  end.

(** The value of a finite double. *)
Definition value (x : double) : option Q :=
  match x with
  | SpecFloat.S754_zero _ => Some 0
  | SpecFloat.S754_finite s m e =>
      Some ((if s then -1 else 1) * inject_Z (Zpos m) * Qpower 2 e)
  | _ => None
  end.

(** The double is finite and its value is [q]. *)
Definition hasValue (x : double) (q : Q) : bool :=
  match value x with
  | Some r => Qeq_bool r q
  | None => false
  end.

(** The rational is the value of a double. *)
Definition isDouble (q : Q) : bool := hasValue (ofQ q) q.

End Double.

(** ** JavaScript values of media descriptors *)

Module JS.

Local Open Scope string_scope.

(** The descriptors arrive as parsed JSON: absent fields read as
    [undefined]; no property is a function and there are no arrays. A
    number is finite and given by its value, a rational; it stands for a
    JavaScript number when that value is the value of a double
    ([Double.isDouble]). Comparisons and [parseInt] work on the value;
    the divisions of the slot heights round ([Double]). *)
#[warnings="-register-all"]
Inductive jsval : Type :=
| JUndefined
| JNull
| JBool (b : bool)
| JNum (q : Q)
| JStr (s : string)
| JObj (props : list (string * jsval)).

(** Result of evaluating a piece of JavaScript: a value, a thrown
    [TypeError], or an operation whose operands leave the modelled fragment
    (a string used as an arithmetic operand, [parseInt] of a number that
    prints in exponent notation). *)
Inductive outcome (A : Type) : Type :=
| Returns (a : A)
| Throws
| Unmodelled.

Arguments Returns {A} a.
Arguments Throws {A}.
Arguments Unmodelled {A}.

Definition bind {A B : Type} (m : outcome A) (k : A -> outcome B) : outcome B :=
  match m with
  | Returns a => k a
  | Throws => Throws
  | Unmodelled => Unmodelled
  end.

Notation "x <- m ;; k" := (bind m (fun x => k))
  (at level 61, m at next level, right associativity).

Fixpoint lookup (k : string) (props : list (string * jsval)) : jsval :=
  match props with
  | [] => JUndefined
  | (k', v) :: rest => if String.eqb k k' then v else lookup k rest
  end.

(** [o.k]: reading a property of [undefined] or [null] throws; primitives
    have none of the properties read here. *)
Definition get (o : jsval) (k : string) : outcome jsval :=
  match o with
  | JUndefined | JNull => Throws
  | JObj props => Returns (lookup k props)
  | JBool _ | JNum _ | JStr _ => Returns JUndefined
  end.

(** Property read that cannot throw, used to word the specification. *)
Definition field (o : jsval) (k : string) : jsval :=
  match o with
  | JObj props => lookup k props
  | _ => JUndefined
  end.

(** The object has an own property [k], whatever its value. *)
Definition hasOwn (k : string) (props : list (string * jsval)) : bool :=
  existsb (fun kv => String.eqb k (fst kv)) props.

(** ToPrimitive on an object of parsed JSON, for ToString and ToNumber
    alike. No own property is callable, so an own [toString] hides
    [Object.prototype.toString], [valueOf] gives no primitive, and the
    conversion throws a TypeError. Without it the object converts to
    ["[object Object]"], which is not a number: [None], NaN. *)
Definition objectToNumber (props : list (string * jsval)) : outcome (option Q) :=
  if hasOwn "toString" props then Throws else Returns None.

(** ToBoolean. *)
Definition truthy (v : jsval) : bool :=
  match v with
  | JUndefined | JNull => false
  | JBool b => b
  | JNum q => negb (Qeq_bool q 0)
  | JStr s => negb (String.eqb s "")
  | JObj _ => true
  end.

(** An operand of [&&] inside a condition, reduced to its truth value. *)
Definition test (v : outcome jsval) : outcome bool :=
  x <- v ;; Returns (truthy x).

(** [a && b] inside a condition: [b] is evaluated only when [a] holds. *)
Definition and_then (a b : outcome bool) : outcome bool :=
  x <- a ;; if x then b else Returns false.

Notation "a &&& b" := (and_then a b) (at level 40, left associativity).

Definition posQ (q : Q) : bool := negb (Qle_bool q 0).
Definition posZ (z : Z) : bool := (0 <? z)%Z.

(** *** parseInt *)

Definition is_ws (c : ascii) : bool :=
  let n := nat_of_ascii c in
  ((9 <=? n)%nat && (n <=? 13)%nat) || (n =? 32)%nat.

Fixpoint skip_ws (s : string) : string :=
  match s with
  | String c r => if is_ws c then skip_ws r else s
  | EmptyString => s
  end.

Definition digit_of (radix : Z) (c : ascii) : option Z :=
  let n := Z.of_nat (nat_of_ascii c) in
  let d := (if (48 <=? n) && (n <=? 57) then n - 48
            else if (97 <=? n) && (n <=? 122) then n - 87
            else if (65 <=? n) && (n <=? 90) then n - 55
            else radix)%Z in
  if (d <? radix)%Z then Some d else None.

(** The longest prefix of digits; [None] when there is no digit (NaN). *)
Fixpoint digits (radix : Z) (acc : option Z) (s : string) : option Z :=
  match s with
  | String c r =>
      match digit_of radix c with
      | Some d =>
          digits radix (Some (radix * match acc with Some a => a | None => 0 end + d)%Z) r
      | None => acc
      end
  | EmptyString => acc
  end.

Definition unsigned_int (s : string) : option Z :=
  match s with
  | String "0" (String "x" r) | String "0" (String "X" r) => digits 16 None r
  | _ => digits 10 None s
  end.

(** [parseInt(s)] without radix: white space, a sign, [0x] for base 16, then
    digits; the rest of the string is ignored. [None] is NaN. *)
Definition parseInt_string (s : string) : option Z :=
  match skip_ws s with
  | String "-" r => option_map Z.opp (unsigned_int r)
  | String "+" r => unsigned_int r
  | t => unsigned_int t
  end.

(** Numbers that [Number.prototype.toString] prints as plain decimal digits:
    zero, or a magnitude in [[1e-6, 1e21)]. *)
Definition plain_decimal (q : Q) : bool :=
  Qeq_bool q 0 ||
  (Qle_bool (1 # 1000000) (Qabs q) && negb (Qle_bool (inject_Z (10 ^ 21)) (Qabs q))).

Definition Qtrunc (q : Q) : Z := if Qle_bool 0 q then Qfloor q else Qceiling q.

(** [parseInt(v)]: the argument is converted to a string first. *)
Definition parseInt (v : jsval) : outcome (option Z) :=
  match v with
  | JStr s => Returns (parseInt_string s)
  | JNum q => if plain_decimal q then Returns (Some (Qtrunc q)) else Unmodelled
  | JUndefined | JNull | JBool _ => Returns None
  | JObj props => if hasOwn "toString" props then Throws else Returns None
  end.

(** ToNumber on the operands of [>] and [/]; [None] is NaN. *)
Definition toNumber (v : jsval) : outcome (option Q) :=
  match v with
  | JNum q => Returns (Some q)
  | JNull => Returns (Some 0)
  | JBool b => Returns (Some (if b then 1 else 0))
  | JUndefined => Returns None
  | JObj props => objectToNumber props
  | JStr _ => Unmodelled
  end.

(** [v > 0]. *)
Definition gt0 (v : jsval) : outcome bool :=
  n <- toNumber v ;;
  Returns (match n with Some q => posQ q | None => false end).

(** [v === "s"]. *)
Definition is_string (v : jsval) (s : string) : bool :=
  match v with
  | JStr t => String.eqb t s
  | _ => false
  end.

End JS.

(** ** Slot height: [getItemHeight], [calcHeight] *)

Module Height.

Import JS.
Import Double.
Local Open Scope string_scope.
Local Open Scope Q_scope.

(** A guarded [return]: [Some h] when the statement returned [h], [None]
    when control falls through to the next statement. *)
Definition orElse {A : Type} (a b : outcome (option A)) : outcome (option A) :=
  r <- a ;; match r with Some h => Returns (Some h) | None => b end.

(** [[
  if (item.metadata && item.metadata.dimensions &&
      item.metadata.dimensions.width && item.metadata.dimensions.height) {
    const w = parseInt(item.metadata.dimensions.width);
    const h = parseInt(item.metadata.dimensions.height);
    if (w > 0 && h > 0) return width / (w / h);
  }
]]
    [parseInt] gives the double nearest to the integer it read. *)
Definition byMetadata (item : jsval) (width : double) : outcome (option double) :=
  c <- test (get item "metadata")
       &&& test (m <- get item "metadata" ;; get m "dimensions")
       &&& test (m <- get item "metadata" ;; d <- get m "dimensions" ;; get d "width")
       &&& test (m <- get item "metadata" ;; d <- get m "dimensions" ;; get d "height") ;;
  if c then
    w <- (m <- get item "metadata" ;; d <- get m "dimensions" ;;
          x <- get d "width" ;; parseInt x) ;;
    h <- (m <- get item "metadata" ;; d <- get m "dimensions" ;;
          x <- get d "height" ;; parseInt x) ;;
    match w, h with
    | Some w, Some h =>
        if posZ w && posZ h
        then Returns (Some (div width (div (ofZ w) (ofZ h))))
        else Returns None
    | _, _ => Returns None
    end
  else Returns None.

(** [[
  if (item.width && item.height && item.width > 0 && item.height > 0)
    return width / (item.width / item.height);
]] *)
Definition byTopLevel (item : jsval) (width : double) : outcome (option double) :=
  c <- test (get item "width")
       &&& test (get item "height")
       &&& (x <- get item "width" ;; gt0 x)
       &&& (x <- get item "height" ;; gt0 x) ;;
  if c then
    w <- (x <- get item "width" ;; toNumber x) ;;
    h <- (x <- get item "height" ;; toNumber x) ;;
    Returns (Some (div width (div (ofNumber w) (ofNumber h))))
  else Returns None.

(** [[
  if (item.aspect_ratio && item.aspect_ratio > 0)
    return width / item.aspect_ratio;
]] *)
Definition byAspectRatio (item : jsval) (width : double) : outcome (option double) :=
  c <- test (get item "aspect_ratio")
       &&& (x <- get item "aspect_ratio" ;; gt0 x) ;;
  if c then
    r <- (x <- get item "aspect_ratio" ;; toNumber x) ;;
    Returns (Some (div width (ofNumber r)))
  else Returns None.

(** The three guarded returns in the order in which [getItemHeight] (for
    images and for videos) and [ImageItem.calcHeight] write them. *)
Definition dimensionChain (item : jsval) (width : double) : outcome (option double) :=
  orElse (byMetadata item width)
         (orElse (byTopLevel item width) (byAspectRatio item width)).

Definition finish (fallback : double) (r : outcome (option double)) : outcome double :=
  x <- r ;; Returns (match x with Some h => h | None => fallback end).

(** [VideoMasonry.getItemHeight(itemData, width)]. *)
Definition getItemHeight (itemData : jsval) (width : double) : outcome double :=
  (* if (!itemData || itemData.type === 'placeholder') return 100; *)
  if negb (truthy itemData) then Returns (ofZ 100) else
  ty <- get itemData "type" ;;
  if is_string ty "placeholder" then Returns (ofZ 100) else
  if is_string ty "image" then
    (* const image = itemData.image; ... return width / (4 / 3); *)
    image <- get itemData "image" ;;
    finish (div width (div (ofZ 4) (ofZ 3))) (dimensionChain image width)
  else
    (* if (itemData && itemData.video) { ... } return width / (16 / 9); *)
    video <- get itemData "video" ;;
    if truthy video
    then finish (div width (div (ofZ 16) (ofZ 9))) (dimensionChain video width)
    else Returns (div width (div (ofZ 16) (ofZ 9))).


(** The entries of [itemsData] as [VideoMasonry] builds them. *)
Definition imageItem (image : jsval) (index : nat) : jsval :=
  JObj [("type", JStr "image"); ("image", image);
        ("index", JNum (inject_Z (Z.of_nat index)))].

Definition videoItem (video : jsval) (index : nat) : jsval :=
  JObj [("type", JStr "video"); ("video", video);
        ("index", JNum (inject_Z (Z.of_nat index)))].

Definition placeholderItem : jsval := JObj [("type", JStr "placeholder")].

(** *** The resolution order in the words of the specification *)

Inductive kind : Type := Video | Image.

Definition fallbackRatio (k : kind) : double :=
  match k with
  | Video => div (ofZ 16) (ofZ 9)
  | Image => div (ofZ 4) (ofZ 3)
  end.

(** Pixel dimensions of [metadata.dimensions], parsed as integers. *)
Definition metadataPixels (item : jsval) : option (Z * Z) :=
  let d := field (field item "metadata") "dimensions" in
  match parseInt (field d "width"), parseInt (field d "height") with
  | Returns (Some w), Returns (Some h) => Some (w, h)
  | _, _ => None
  end.

Definition numberField (item : jsval) (k : string) : option Q :=
  match field item k with
  | JNum q => Some q
  | _ => None
  end.

Definition ratioOfPixels (item : jsval) : option double :=
  match metadataPixels item with
  | Some (w, h) => if posZ w && posZ h then Some (div (ofZ w) (ofZ h)) else None
  | None => None
  end.

Definition ratioOfTopLevel (item : jsval) : option double :=
  match numberField item "width", numberField item "height" with
  | Some w, Some h => if posQ w && posQ h then Some (div (ofQ w) (ofQ h)) else None
  | _, _ => None
  end.

Definition ratioProvided (item : jsval) : option double :=
  match numberField item "aspect_ratio" with
  | Some r => if posQ r then Some (ofQ r) else None
  | None => None
  end.

(** Metadata pixels first, then top-level width and height, then the
    provided ratio, then the default of the kind. *)
Definition aspectRatio (k : kind) (item : jsval) : double :=
  match ratioOfPixels item with
  | Some r => r
  | None =>
      match ratioOfTopLevel item with
      | Some r => r
      | None =>
          match ratioProvided item with
          | Some r => r
          | None => fallbackRatio k
          end
      end
  end.

(** *** Descriptors of the documented shape

    [{ width?: number, height?: number, aspect_ratio?: number,
       metadata?: { dimensions?: { width?: string|number,
                                   height?: string|number } } }]

    A number is a JavaScript number. A pixel value given as a number
    prints in plain decimal digits; one given as a string is made of ASCII
    characters (the white space that [parseInt] skips is modelled for
    ASCII only) and has at most 20 digits to parse, beyond which
    [parseInt] may round as the implementation likes. *)

Fixpoint isAscii (s : string) : bool :=
  match s with
  | EmptyString => true
  | String c r => (nat_of_ascii c <? 128)%nat && isAscii r
  end.

Definition optional (p : jsval -> bool) (v : jsval) : bool :=
  match v with
  | JUndefined | JNull => true
  | _ => p v
  end.

Definition isNumber (v : jsval) : bool :=
  match v with JNum q => isDouble q | _ => false end.

Definition isPixelValue (v : jsval) : bool :=
  match v with
  | JNum q => plain_decimal q && isDouble q
  | JStr s =>
      isAscii s
      && match parseInt_string s with
         | Some z => (Z.abs z <? 10 ^ 20)%Z
         | None => true
         end
  | _ => false
  end.

Definition isDimensions (v : jsval) : bool :=
  match v with
  | JObj _ => optional isPixelValue (field v "width")
              && optional isPixelValue (field v "height")
  | _ => false
  end.

Definition isMetadata (v : jsval) : bool :=
  match v with
  | JObj _ => optional isDimensions (field v "dimensions")
  | _ => false
  end.

Definition descriptor (v : jsval) : bool :=
  match v with
  | JObj _ => optional isNumber (field v "width")
              && optional isNumber (field v "height")
              && optional isNumber (field v "aspect_ratio")
              && optional isMetadata (field v "metadata")
  | _ => false
  end.

Definition itemOf (k : kind) (item : jsval) (index : nat) : jsval :=
  match k with
  | Video => videoItem item index
  | Image => imageItem item index
  end.

End Height.
(** ** [VideoMasonry]: which view is rendered *)

Module Masonry.

Import JS Height.
Local Open Scope string_scope.
Local Open Scope Q_scope.

Inductive displayMode : Type := videos | images | mixed.

Record Props : Type := {
  videoList : list jsval;
  imageList : list jsval;
  mode : displayMode;
  highlightModeEnabled : bool;
  totalVideosCount : nat;
  totalImagesCount : nat
}.

(** What the browser reports: the measured container
    ([containerDimensions]) and [window.innerWidth] ([None] when there is no
    [window]). *)
Record Measured : Type := {
  containerWidth : Q;
  containerHeight : Q;
  innerWidth : option Q
}.

(** The fallback of [effectiveWidth], from the window size and the highlight
    mode. *)
Definition availableWidth (window : option Q) (highlight : bool) : Q :=
  let baseWidth := match window with Some w => w | None => 1200 end in
  if highlight then baseWidth * (7 # 10) else baseWidth.

Definition effectiveWidth (p : Props) (e : Measured) : Q :=
  if posQ (containerWidth e) then containerWidth e
  else availableWidth (innerWidth e) (highlightModeEnabled p).

Fixpoint mapIndexed (f : jsval -> nat -> jsval) (l : list jsval) (i : nat) : list jsval :=
  match l with
  | [] => []
  | x :: r => f x i :: mapIndexed f r (S i)
  end.

(** The loop of the mixed mode: the i-th video, then the i-th image, each
    numbered with the length of the merged list so far. *)
Fixpoint merge (vs ims : list jsval) (n : nat) : list jsval :=
  match vs with
  | [] => mapIndexed imageItem ims n
  | v :: vs' =>
      match ims with
      | [] => videoItem v n :: merge vs' [] (S n)
      | i :: ims' => videoItem v n :: imageItem i (S n) :: merge vs' ims' (S (S n))
      end
  end.

Definition itemsData (p : Props) : list jsval :=
  match mode p with
  | images => mapIndexed imageItem (imageList p) 0
  | mixed => merge (videoList p) (imageList p) 0
  | videos => mapIndexed videoItem (videoList p) 0
  end.

Definition safeItems (p : Props) : list jsval :=
  match itemsData p with
  | [] => [placeholderItem]
  | l => l
  end.

Definition isEmptyForMode (p : Props) : bool :=
  match mode p with
  | videos => (List.length (videoList p) =? 0)%nat
  | images => (List.length (imageList p) =? 0)%nat
  | mixed => (List.length (itemsData p) =? 0)%nat
  end.

Definition emptyMessage (p : Props) : string :=
  let noVideosLoaded := (totalVideosCount p =? 0)%nat in
  let noImagesLoaded := (totalImagesCount p =? 0)%nat in
  match mode p with
  | videos => if noVideosLoaded
              then "No videos loaded. Please start the media server."
              else "No videos match the selected tags."
  | images => if noImagesLoaded
              then "No images loaded. Please start the media server."
              else "No images match the selected tags."
  | mixed => if noVideosLoaded && noImagesLoaded
             then "No media loaded. Please start the media server."
             else "No media match the selected tags."
  end.

(** The three returns of the component. [Grid] is the masonry container:
    the positioner was created with the given width, and the elements come
    from [useMasonry] over the given items. *)
Inductive view : Type :=
| EmptyMessage (message : string)
| Measuring (width height : Q)
| Grid (positionerWidth : Q) (items : list jsval) (autoScrollIndicator : bool).

Definition render (p : Props) (e : Measured) (autoScrollActive : bool) : view :=
  if isEmptyForMode p then EmptyMessage (emptyMessage p)
  else if Qeq_bool (effectiveWidth p e) 0
       then Measuring (effectiveWidth p e) (containerHeight e)
       else Grid (effectiveWidth p e) (safeItems p) autoScrollActive.

End Masonry.

(** ** [ImageItem] *)

Module ImageItem.

Local Open Scope string_scope.

(** One mounted [ImageItem]: its React state, its refs, the inputs of the
    current render ([imageUrl] from the props, [inView] from the
    intersection observer) and, per effect, the dependencies seen by its
    last run ([None] before the first commit). *)
Record Item : Type := {
  isLoaded : bool;
  isFailed : bool;
  shouldLoad : bool;
  hasRequestedLoadRef : bool;
  srcRef : string;
  imageUrl : string;
  inView : bool;
  seenInView : option bool;
  seenUrl : option string
}.

Definition mount (url : string) : Item :=
  {| isLoaded := false; isFailed := false; shouldLoad := false;
     hasRequestedLoadRef := false; srcRef := "";
     imageUrl := url; inView := false;
     seenInView := None; seenUrl := None |}.

(** [[
  useEffect(() => {
    if (inView && !hasRequestedLoadRef.current) {
      hasRequestedLoadRef.current = true;
      setShouldLoad(true);
    }
  }, [inView]);
]] *)
Definition loadEffect (s : Item) : Item :=
  if inView s && negb (hasRequestedLoadRef s)
  then {| isLoaded := isLoaded s; isFailed := isFailed s; shouldLoad := true;
          hasRequestedLoadRef := true; srcRef := srcRef s;
          imageUrl := imageUrl s; inView := inView s;
          seenInView := seenInView s; seenUrl := seenUrl s |}
  else s.

(** [[
  useEffect(() => {
    if (srcRef.current && srcRef.current !== imageUrl) {
      setIsLoaded(false); setIsFailed(false); setShouldLoad(false);
      hasRequestedLoadRef.current = false;
    }
    srcRef.current = imageUrl;
  }, [imageUrl]);
]] *)
Definition sourceEffect (s : Item) : Item :=
  let changed := negb (String.eqb (srcRef s) "")
                 && negb (String.eqb (srcRef s) (imageUrl s)) in
  {| isLoaded := if changed then false else isLoaded s;
     isFailed := if changed then false else isFailed s;
     shouldLoad := if changed then false else shouldLoad s;
     hasRequestedLoadRef := if changed then false else hasRequestedLoadRef s;
     srcRef := imageUrl s;
     imageUrl := imageUrl s; inView := inView s;
     seenInView := seenInView s; seenUrl := seenUrl s |}.

Definition sameBool (a : option bool) (b : bool) : bool :=
  match a with Some x => Bool.eqb x b | None => false end.

Definition sameString (a : option string) (b : string) : bool :=
  match a with Some x => String.eqb x b | None => false end.

(** After a render: the effects whose dependency changed run in the order
    of their declaration, and the dependencies of this render are
    remembered. Neither effect depends on state that an effect sets, so one
    pass settles the component. *)
Definition commit (s : Item) : Item :=
  let s1 := if sameBool (seenInView s) (inView s) then s else loadEffect s in
  let s2 := if sameString (seenUrl s) (imageUrl s) then s1 else sourceEffect s1 in
  {| isLoaded := isLoaded s2; isFailed := isFailed s2; shouldLoad := shouldLoad s2;
     hasRequestedLoadRef := hasRequestedLoadRef s2; srcRef := srcRef s2;
     imageUrl := imageUrl s2; inView := inView s2;
     seenInView := Some (inView s); seenUrl := Some (imageUrl s) |}.

Inductive event : Type :=
| InView (b : bool)        (* the intersection observer reports [inView] *)
| Source (url : string)    (* the parent passes another image *)
| ImgLoad                  (* [onLoad] of the [img] element *)
| ImgError.                (* [onError] of the [img] element *)

Definition handle (ev : event) (s : Item) : Item :=
  match ev with
  | InView b =>
      {| isLoaded := isLoaded s; isFailed := isFailed s; shouldLoad := shouldLoad s;
         hasRequestedLoadRef := hasRequestedLoadRef s; srcRef := srcRef s;
         imageUrl := imageUrl s; inView := b;
         seenInView := seenInView s; seenUrl := seenUrl s |}
  | Source url =>
      {| isLoaded := isLoaded s; isFailed := isFailed s; shouldLoad := shouldLoad s;
         hasRequestedLoadRef := hasRequestedLoadRef s; srcRef := srcRef s;
         imageUrl := url; inView := inView s;
         seenInView := seenInView s; seenUrl := seenUrl s |}
  | ImgLoad =>
      {| isLoaded := true; isFailed := isFailed s; shouldLoad := shouldLoad s;
         hasRequestedLoadRef := hasRequestedLoadRef s; srcRef := srcRef s;
         imageUrl := imageUrl s; inView := inView s;
         seenInView := seenInView s; seenUrl := seenUrl s |}
  | ImgError =>
      {| isLoaded := isLoaded s; isFailed := true; shouldLoad := shouldLoad s;
         hasRequestedLoadRef := hasRequestedLoadRef s; srcRef := srcRef s;
         imageUrl := imageUrl s; inView := inView s;
         seenInView := seenInView s; seenUrl := seenUrl s |}
  end.

Definition step (ev : event) (s : Item) : Item := commit (handle ev s).

Definition run (evs : list event) (s : Item) : Item :=
  fold_left (fun s ev => step ev s) evs s.

(** The states a mounted item can be in. *)
Inductive reachable : Item -> Prop :=
| reach_mount url : reachable (commit (mount url))
| reach_step ev s : reachable s -> reachable (step ev s).

(** The [img] element of the render: not mounted for a failed item,
    otherwise [src={shouldLoad ? imageUrl : undefined}]. *)
Inductive img : Type :=
| NotMounted
| Img (src : option string).

Definition renderedImg (s : Item) : img :=
  if isFailed s then NotMounted
  else Img (if shouldLoad s then Some (imageUrl s) else None).

Definition visibilityOnly (ev : event) : bool :=
  match ev with
  | Source _ => false
  | _ => true
  end.

End ImageItem.

(** ** [useAutoScroll] *)

Module AutoScroll.

Local Open Scope Q_scope.

(** The scrollable element, as far as the hook reads and writes it. *)
Record Element : Type := {
  scrollTop : Q;
  clientHeight : Q;
  scrollHeight : Q
}.

Definition maxScrollTop (e : Element) : Q :=
  Qmax 0 (scrollHeight e - clientHeight e).

(** [element.scrollTop = v]: the browser keeps the offset inside
    [[0, scrollHeight - clientHeight]]. *)
Definition assignScrollTop (v : Q) (e : Element) : Element :=
  {| scrollTop := Qmin (Qmax 0 v) (maxScrollTop e);
     clientHeight := clientHeight e; scrollHeight := scrollHeight e |}.

(** [element.scrollBy(0, dy)]. *)
Definition scrollBy (dy : Q) (e : Element) : Element :=
  assignScrollTop (scrollTop e + dy) e.

(** [scrollTop + clientHeight >= scrollHeight]. *)
Definition atBottom (e : Element) : bool :=
  Qle_bool (scrollHeight e) (scrollTop e + clientHeight e).

(** The callbacks handed to [setInterval] and [setTimeout], with the
    variables of the render that created them: the interval callback of
    [startAutoScroll] keeps [scrollSpeed]; the timeout callback of
    [startMouseIdleTimer] keeps [enabled] and [startAutoScroll], which keeps
    [enabled] and [scrollSpeed] of the same render. *)
Inductive callback : Type :=
| Tick (speed : Q)
| Idle (wasEnabled : bool) (speed : Q).

(** A pending timer; times are in milliseconds. *)
Record timer : Type := {
  id : nat;
  due : Z;
  action : callback
}.

(** One mounted hook: the props of the current render, its state, its refs,
    [lastWheelTime] of the listener effect, the browser side (element,
    pending timers, next timer id, clock) and the dependencies seen by the
    last commit. *)
Record Hook : Type := {
  enabled : bool;
  scrollSpeed : Q;
  idleDelay : Z;
  autoScrollActive : bool;
  autoScrollIntervalRef : option nat;
  mouseIdleTimeoutRef : option nat;
  lastMouseMove : Z;
  isAutoScrolling : bool;
  lastWheelTime : Z;
  element : option Element;
  timers : list timer;
  nextId : nat;
  now : Z;
  seen : option (bool * Q * Z)
}.

Definition set_enabled (v : bool) (h : Hook) : Hook :=
  {| enabled := v; scrollSpeed := scrollSpeed h; idleDelay := idleDelay h;
     autoScrollActive := autoScrollActive h;
     autoScrollIntervalRef := autoScrollIntervalRef h;
     mouseIdleTimeoutRef := mouseIdleTimeoutRef h;
     lastMouseMove := lastMouseMove h; isAutoScrolling := isAutoScrolling h;
     lastWheelTime := lastWheelTime h; element := element h;
     timers := timers h; nextId := nextId h; now := now h; seen := seen h |}.

Definition set_scrollSpeed (v : Q) (h : Hook) : Hook :=
  {| enabled := enabled h; scrollSpeed := v; idleDelay := idleDelay h;
     autoScrollActive := autoScrollActive h;
     autoScrollIntervalRef := autoScrollIntervalRef h;
     mouseIdleTimeoutRef := mouseIdleTimeoutRef h;
     lastMouseMove := lastMouseMove h; isAutoScrolling := isAutoScrolling h;
     lastWheelTime := lastWheelTime h; element := element h;
     timers := timers h; nextId := nextId h; now := now h; seen := seen h |}.

Definition set_idleDelay (v : Z) (h : Hook) : Hook :=
  {| enabled := enabled h; scrollSpeed := scrollSpeed h; idleDelay := v;
     autoScrollActive := autoScrollActive h;
     autoScrollIntervalRef := autoScrollIntervalRef h;
     mouseIdleTimeoutRef := mouseIdleTimeoutRef h;
     lastMouseMove := lastMouseMove h; isAutoScrolling := isAutoScrolling h;
     lastWheelTime := lastWheelTime h; element := element h;
     timers := timers h; nextId := nextId h; now := now h; seen := seen h |}.

Definition set_autoScrollActive (v : bool) (h : Hook) : Hook :=
  {| enabled := enabled h; scrollSpeed := scrollSpeed h;
     idleDelay := idleDelay h; autoScrollActive := v;
     autoScrollIntervalRef := autoScrollIntervalRef h;
     mouseIdleTimeoutRef := mouseIdleTimeoutRef h;
     lastMouseMove := lastMouseMove h; isAutoScrolling := isAutoScrolling h;
     lastWheelTime := lastWheelTime h; element := element h;
     timers := timers h; nextId := nextId h; now := now h; seen := seen h |}.

Definition set_autoScrollIntervalRef (v : option nat) (h : Hook) : Hook :=
  {| enabled := enabled h; scrollSpeed := scrollSpeed h;
     idleDelay := idleDelay h; autoScrollActive := autoScrollActive h;
     autoScrollIntervalRef := v;
     mouseIdleTimeoutRef := mouseIdleTimeoutRef h;
     lastMouseMove := lastMouseMove h; isAutoScrolling := isAutoScrolling h;
     lastWheelTime := lastWheelTime h; element := element h;
     timers := timers h; nextId := nextId h; now := now h; seen := seen h |}.

Definition set_mouseIdleTimeoutRef (v : option nat) (h : Hook) : Hook :=
  {| enabled := enabled h; scrollSpeed := scrollSpeed h;
     idleDelay := idleDelay h; autoScrollActive := autoScrollActive h;
     autoScrollIntervalRef := autoScrollIntervalRef h;
     mouseIdleTimeoutRef := v; lastMouseMove := lastMouseMove h;
     isAutoScrolling := isAutoScrolling h; lastWheelTime := lastWheelTime h;
     element := element h; timers := timers h; nextId := nextId h;
     now := now h; seen := seen h |}.

Definition set_lastMouseMove (v : Z) (h : Hook) : Hook :=
  {| enabled := enabled h; scrollSpeed := scrollSpeed h;
     idleDelay := idleDelay h; autoScrollActive := autoScrollActive h;
     autoScrollIntervalRef := autoScrollIntervalRef h;
     mouseIdleTimeoutRef := mouseIdleTimeoutRef h; lastMouseMove := v;
     isAutoScrolling := isAutoScrolling h; lastWheelTime := lastWheelTime h;
     element := element h; timers := timers h; nextId := nextId h;
     now := now h; seen := seen h |}.

Definition set_isAutoScrolling (v : bool) (h : Hook) : Hook :=
  {| enabled := enabled h; scrollSpeed := scrollSpeed h;
     idleDelay := idleDelay h; autoScrollActive := autoScrollActive h;
     autoScrollIntervalRef := autoScrollIntervalRef h;
     mouseIdleTimeoutRef := mouseIdleTimeoutRef h;
     lastMouseMove := lastMouseMove h; isAutoScrolling := v;
     lastWheelTime := lastWheelTime h; element := element h;
     timers := timers h; nextId := nextId h; now := now h; seen := seen h |}.

Definition set_lastWheelTime (v : Z) (h : Hook) : Hook :=
  {| enabled := enabled h; scrollSpeed := scrollSpeed h;
     idleDelay := idleDelay h; autoScrollActive := autoScrollActive h;
     autoScrollIntervalRef := autoScrollIntervalRef h;
     mouseIdleTimeoutRef := mouseIdleTimeoutRef h;
     lastMouseMove := lastMouseMove h; isAutoScrolling := isAutoScrolling h;
     lastWheelTime := v; element := element h; timers := timers h;
     nextId := nextId h; now := now h; seen := seen h |}.

Definition set_element (v : option Element) (h : Hook) : Hook :=
  {| enabled := enabled h; scrollSpeed := scrollSpeed h;
     idleDelay := idleDelay h; autoScrollActive := autoScrollActive h;
     autoScrollIntervalRef := autoScrollIntervalRef h;
     mouseIdleTimeoutRef := mouseIdleTimeoutRef h;
     lastMouseMove := lastMouseMove h; isAutoScrolling := isAutoScrolling h;
     lastWheelTime := lastWheelTime h; element := v; timers := timers h;
     nextId := nextId h; now := now h; seen := seen h |}.

Definition set_timers (v : list timer) (h : Hook) : Hook :=
  {| enabled := enabled h; scrollSpeed := scrollSpeed h;
     idleDelay := idleDelay h; autoScrollActive := autoScrollActive h;
     autoScrollIntervalRef := autoScrollIntervalRef h;
     mouseIdleTimeoutRef := mouseIdleTimeoutRef h;
     lastMouseMove := lastMouseMove h; isAutoScrolling := isAutoScrolling h;
     lastWheelTime := lastWheelTime h; element := element h; timers := v;
     nextId := nextId h; now := now h; seen := seen h |}.

Definition set_nextId (v : nat) (h : Hook) : Hook :=
  {| enabled := enabled h; scrollSpeed := scrollSpeed h;
     idleDelay := idleDelay h; autoScrollActive := autoScrollActive h;
     autoScrollIntervalRef := autoScrollIntervalRef h;
     mouseIdleTimeoutRef := mouseIdleTimeoutRef h;
     lastMouseMove := lastMouseMove h; isAutoScrolling := isAutoScrolling h;
     lastWheelTime := lastWheelTime h; element := element h;
     timers := timers h; nextId := v; now := now h; seen := seen h |}.

Definition set_now (v : Z) (h : Hook) : Hook :=
  {| enabled := enabled h; scrollSpeed := scrollSpeed h;
     idleDelay := idleDelay h; autoScrollActive := autoScrollActive h;
     autoScrollIntervalRef := autoScrollIntervalRef h;
     mouseIdleTimeoutRef := mouseIdleTimeoutRef h;
     lastMouseMove := lastMouseMove h; isAutoScrolling := isAutoScrolling h;
     lastWheelTime := lastWheelTime h; element := element h;
     timers := timers h; nextId := nextId h; now := v; seen := seen h |}.

Definition set_seen (v : option (bool * Q * Z)) (h : Hook) : Hook :=
  {| enabled := enabled h; scrollSpeed := scrollSpeed h;
     idleDelay := idleDelay h; autoScrollActive := autoScrollActive h;
     autoScrollIntervalRef := autoScrollIntervalRef h;
     mouseIdleTimeoutRef := mouseIdleTimeoutRef h;
     lastMouseMove := lastMouseMove h; isAutoScrolling := isAutoScrolling h;
     lastWheelTime := lastWheelTime h; element := element h;
     timers := timers h; nextId := nextId h; now := now h; seen := v |}.

(** [clearTimeout(ref)] and [clearInterval(ref)]: both remove the timer
    with that id; [null] and ids that are no longer pending remove nothing. *)
Definition removeId (ref : option nat) (l : list timer) : list timer :=
  match ref with
  | Some i => filter (fun t => negb (Nat.eqb (id t) i)) l
  | None => l
  end.

Definition clearTimer (ref : option nat) (h : Hook) : Hook :=
  set_timers (removeId ref (timers h)) h.

(** [setTimeout(cb, delay)] and the first period of [setInterval(cb, delay)];
    the new id is returned. *)
Definition setTimer (cb : callback) (delay : Z) (h : Hook) : nat * Hook :=
  (nextId h,
   set_nextId (S (nextId h))
     (set_timers (timers h ++ [{| id := nextId h; due := (now h + delay)%Z;
                                  action := cb |}]) h)).

(** The body shared by [stopAutoScroll] and the two effects that stop the
    scroll when the setting is off. *)
Definition halt (h : Hook) : Hook :=
  set_autoScrollIntervalRef None
    (clearTimer (mouseIdleTimeoutRef h)
       (clearTimer (autoScrollIntervalRef h)
          (set_isAutoScrolling false (set_autoScrollActive false h)))).

Definition stopAutoScroll (h : Hook) : Hook :=
  if negb (isAutoScrolling h) then h else halt h.

(** [startAutoScroll] of a render with the given [enabled] and
    [scrollSpeed]. *)
Definition startAutoScroll (en : bool) (speed : Q) (h : Hook) : Hook :=
  if isAutoScrolling h || negb en then h else
  match element h with
  | None => h
  | Some _ =>
      let h1 := set_isAutoScrolling true (set_autoScrollActive true h) in
      let (i, h2) := setTimer (Tick speed) 50 h1 in
      set_autoScrollIntervalRef (Some i) h2
  end.

(** [startMouseIdleTimer] of a render with the given props. *)
Definition startMouseIdleTimer (en : bool) (speed : Q) (delay : Z) (h : Hook) : Hook :=
  if negb en then h else
  let (i, h1) := setTimer (Idle en speed) delay (clearTimer (mouseIdleTimeoutRef h) h) in
  set_mouseIdleTimeoutRef (Some i) h1.

(** The interval callback. *)
Definition tick (speed : Q) (h : Hook) : Hook :=
  match element h with
  | Some e =>
      if isAutoScrolling h then
        let oldScrollTop := scrollTop e in
        let e1 := assignScrollTop (scrollTop e + speed) e in
        let e2 := if Qeq_bool (scrollTop e1) oldScrollTop then scrollBy speed e1 else e1 in
        let h1 := set_element (Some e2) h in
        if atBottom e2 then stopAutoScroll h1 else h1
      else
        set_autoScrollIntervalRef None (clearTimer (autoScrollIntervalRef h) h)
  | None =>
      if negb (isAutoScrolling h)
      then set_autoScrollIntervalRef None (clearTimer (autoScrollIntervalRef h) h)
      else h
  end.

(** The timeout callback of the idle timer. *)
Definition idle (wasEnabled : bool) (speed : Q) (h : Hook) : Hook :=
  if wasEnabled then startAutoScroll wasEnabled speed h else h.

Definition handleUserInteraction (h : Hook) : Hook :=
  if isAutoScrolling h
  then startMouseIdleTimer (enabled h) (scrollSpeed h) (idleDelay h) (stopAutoScroll h)
  else h.

(** [handleMouseMove], given the distances to the last position seen on the
    target. *)
Definition handleMouseMove (deltaX deltaY : Q) (h : Hook) : Hook :=
  if JS.posQ (deltaX - 10) || JS.posQ (deltaY - 10) then
    let timeSinceLastMove := (now h - lastMouseMove h)%Z in
    if (100 <? timeSinceLastMove)%Z then
      startMouseIdleTimer (enabled h) (scrollSpeed h) (idleDelay h)
        (stopAutoScroll (set_lastMouseMove (now h) h))
    else h
  else h.

Definition onWheel (deltaY : Q) (h : Hook) : Hook :=
  if isAutoScrolling h && (now h - lastWheelTime h <? 200)%Z then h else
  let h1 := set_lastWheelTime (now h) h in
  if JS.posQ (Qabs deltaY - 5) then handleUserInteraction h1 else h1.

Definition onTouchStart (isTrusted : bool) (h : Hook) : Hook :=
  if isTrusted then handleUserInteraction h else h.

Definition onClick (isTrusted : bool) (h : Hook) : Hook :=
  if isTrusted then handleUserInteraction h else h.

(** *** Effects *)

(** [useEffect(..., [enabled])]: stop at once when the setting is off. *)
Definition disableEffect (h : Hook) : Hook :=
  if negb (enabled h) && isAutoScrolling h then halt h else h.

(** The listener effect attaches [onWheel], [onTouchStart] and [onClick]
    built from the callbacks of this render; its [lastWheelTime] starts
    at 0. *)
Definition listenerEffect (h : Hook) : Hook := set_lastWheelTime 0%Z h.

(** [useEffect(..., [enabled, startMouseIdleTimer])]. *)
Definition mountEffect (h : Hook) : Hook :=
  if enabled h
  then startMouseIdleTimer (enabled h) (scrollSpeed h) (idleDelay h) h
  else if isAutoScrolling h then halt h else h.

(** Its clean-up reads the refs when it runs. *)
Definition mountCleanup (h : Hook) : Hook :=
  clearTimer (mouseIdleTimeoutRef h) (clearTimer (autoScrollIntervalRef h) h).

Definition sameEnabled (h : Hook) : bool :=
  match seen h with
  | Some (en, _, _) => Bool.eqb en (enabled h)
  | None => false
  end.

(** [startMouseIdleTimer] and [handleUserInteraction] are rebuilt exactly
    when [enabled], [scrollSpeed] or [idleDelay] changed
    ([getScrollableElement] and [stopAutoScroll] are stable). *)
Definition sameCallbacks (h : Hook) : bool :=
  match seen h with
  | Some (en, speed, delay) =>
      Bool.eqb en (enabled h) && Qeq_bool speed (scrollSpeed h)
      && (delay =? idleDelay h)%Z
  | None => false
  end.

(** After a render: clean-ups of the effects whose dependencies changed,
    then their bodies in the order of declaration. The only state the hook
    sets, [autoScrollActive], is no dependency, so one pass settles it. *)
Definition commit (h : Hook) : Hook :=
  let h1 := match seen h with
            | Some _ => if sameCallbacks h then h else mountCleanup h
            | None => h
            end in
  let h2 := if sameEnabled h then h1 else disableEffect h1 in
  let h3 := if sameCallbacks h then h2 else mountEffect (listenerEffect h2) in
  set_seen (Some (enabled h, scrollSpeed h, idleDelay h)) h3.

(** *** Timers firing *)

Definition rearm (t : timer) (h : Hook) : Hook :=
  set_timers
    (map (fun u => if Nat.eqb (id u) (id t)
                   then {| id := id u; due := (due u + 50)%Z; action := action u |}
                   else u) (timers h)) h.

(** The browser runs the callback of a due timer: a timeout is removed
    before its callback runs, an interval is scheduled again 50 ms later
    unless the callback cleared it. *)
Definition fire (t : timer) (h : Hook) : Hook :=
  let h0 := set_now (Z.max (now h) (due t)) h in
  match action t with
  | Tick speed => rearm t (tick speed h0)
  | Idle en speed => idle en speed (clearTimer (Some (id t)) h0)
  end.

Definition earlier (a b : timer) : bool :=
  (due a <? due b)%Z || ((due a =? due b)%Z && (id a <=? id b)%nat).

Fixpoint earliest (l : list timer) : option timer :=
  match l with
  | [] => None
  | t :: r =>
      match earliest r with
      | Some u => Some (if earlier t u then t else u)
      | None => Some t
      end
  end.

(** The next timer to run no later than [deadline]. *)
Definition nextDue (deadline : Z) (h : Hook) : option timer :=
  match earliest (timers h) with
  | Some t => if (due t <=? deadline)%Z then Some t else None
  | None => None
  end.

(** Let the clock run to [deadline], firing the due timers in order. Each
    unit of fuel pays for one callback; when it runs out the clock stops
    where it is. *)
Fixpoint advanceTo (fuel : nat) (deadline : Z) (h : Hook) : Hook :=
  match fuel with
  | O => h
  | S fuel' =>
      match nextDue deadline h with
      | Some t => advanceTo fuel' deadline (fire t h)
      | None => set_now deadline h
      end
  end.

(** Enough for every pending timer and every timer started meanwhile to
    tick each 50 ms of the period. *)
Definition fuelFor (dt : Z) (h : Hook) : nat :=
  S ((2 + List.length (timers h)) * S (Z.to_nat (dt / 50))).

Definition advance (dt : Z) (h : Hook) : Hook :=
  advanceTo (fuelFor dt h) (now h + dt)%Z h.

(** *** Events *)

Inductive event : Type :=
| Wheel (deltaY : Q)
| TouchStart (isTrusted : bool)
| Click (isTrusted : bool)
| MouseMove (deltaX deltaY : Q)
| SetEnabled (b : bool)          (* the [autoScroll] setting *)
| SetScrollSpeed (v : Q)         (* the [scrollSpeed] setting *)
| Layout (e : option Element)    (* the element appears, is resized or scrolled *)
| Elapse (dt : N).               (* [dt] milliseconds pass *)

Definition handle (ev : event) (h : Hook) : Hook :=
  match ev with
  | Wheel deltaY => onWheel deltaY h
  | TouchStart isTrusted => onTouchStart isTrusted h
  | Click isTrusted => onClick isTrusted h
  | MouseMove deltaX deltaY => handleMouseMove deltaX deltaY h
  | SetEnabled b => set_enabled b h
  | SetScrollSpeed v => set_scrollSpeed v h
  | Layout e => set_element e h
  | Elapse dt => advance (Z.of_N dt) h
  end.

Definition step (ev : event) (h : Hook) : Hook := commit (handle ev h).

Definition run (evs : list event) (h : Hook) : Hook :=
  fold_left (fun h ev => step ev h) evs h.

(** [useAutoScroll({ enabled, scrollSpeed, idleDelay, getScrollableElement })]
    before its first commit, at time [t]. Timer ids start at 1. *)
Definition mount (en : bool) (speed : Q) (delay : Z) (e : option Element) (t : Z) : Hook :=
  {| enabled := en; scrollSpeed := speed; idleDelay := delay;
     autoScrollActive := false;
     autoScrollIntervalRef := None; mouseIdleTimeoutRef := None;
     lastMouseMove := t; isAutoScrolling := false; lastWheelTime := 0%Z;
     element := e; timers := []; nextId := 1%nat; now := t; seen := None |}.

Inductive reachable : Hook -> Prop :=
| reach_mount en speed delay e t : reachable (commit (mount en speed delay e t))
| reach_step ev h : reachable h -> reachable (step ev h).

(** The interactions on which [handleUserInteraction] or [handleMouseMove]
    act while the scroll runs: a trusted click or touch, a wheel turn of
    more than 5 that is not within 200 ms of the last one, a pointer
    movement of more than 10 pixels at least 100 ms after the last one. *)
Definition qualifying (ev : event) (h : Hook) : bool :=
  match ev with
  | Click isTrusted | TouchStart isTrusted => isTrusted
  | Wheel deltaY =>
      negb (now h - lastWheelTime h <? 200)%Z && JS.posQ (Qabs deltaY - 5)
  | MouseMove deltaX deltaY =>
      (JS.posQ (deltaX - 10) || JS.posQ (deltaY - 10))
      && (100 <? now h - lastMouseMove h)%Z
  | _ => false
  end.

End AutoScroll.

(** ** [VideoItem] *)

Module VideoItem.

Local Open Scope string_scope.

(** What a render of the item reads besides its own state: props and
    settings, and the outputs of the two intersection observers. *)
Record Inputs : Type := {
  videoUrl : string;
  inLoadView : bool;
  inPlayView : bool;
  intersectionRatio : Q;
  autoplay : bool;
  highlightModeEnabled : bool;
  isMuted : bool;
  width : Q;
  index : nat
}.

Definition with_videoUrl (v : string) (i : Inputs) : Inputs :=
  {| videoUrl := v; inLoadView := inLoadView i; inPlayView := inPlayView i;
     intersectionRatio := intersectionRatio i; autoplay := autoplay i;
     highlightModeEnabled := highlightModeEnabled i; isMuted := isMuted i;
     width := width i; index := index i |}.

Definition with_inLoadView (v : bool) (i : Inputs) : Inputs :=
  {| videoUrl := videoUrl i; inLoadView := v; inPlayView := inPlayView i;
     intersectionRatio := intersectionRatio i; autoplay := autoplay i;
     highlightModeEnabled := highlightModeEnabled i; isMuted := isMuted i;
     width := width i; index := index i |}.

Definition with_inPlayView (v : bool) (i : Inputs) : Inputs :=
  {| videoUrl := videoUrl i; inLoadView := inLoadView i; inPlayView := v;
     intersectionRatio := intersectionRatio i; autoplay := autoplay i;
     highlightModeEnabled := highlightModeEnabled i; isMuted := isMuted i;
     width := width i; index := index i |}.

Definition with_intersectionRatio (v : Q) (i : Inputs) : Inputs :=
  {| videoUrl := videoUrl i; inLoadView := inLoadView i;
     inPlayView := inPlayView i; intersectionRatio := v;
     autoplay := autoplay i; highlightModeEnabled := highlightModeEnabled i;
     isMuted := isMuted i; width := width i; index := index i |}.

Definition with_autoplay (v : bool) (i : Inputs) : Inputs :=
  {| videoUrl := videoUrl i; inLoadView := inLoadView i;
     inPlayView := inPlayView i; intersectionRatio := intersectionRatio i;
     autoplay := v; highlightModeEnabled := highlightModeEnabled i;
     isMuted := isMuted i; width := width i; index := index i |}.

Definition with_highlightModeEnabled (v : bool) (i : Inputs) : Inputs :=
  {| videoUrl := videoUrl i; inLoadView := inLoadView i;
     inPlayView := inPlayView i; intersectionRatio := intersectionRatio i;
     autoplay := autoplay i; highlightModeEnabled := v; isMuted := isMuted i;
     width := width i; index := index i |}.

Definition with_isMuted (v : bool) (i : Inputs) : Inputs :=
  {| videoUrl := videoUrl i; inLoadView := inLoadView i;
     inPlayView := inPlayView i; intersectionRatio := intersectionRatio i;
     autoplay := autoplay i; highlightModeEnabled := highlightModeEnabled i;
     isMuted := v; width := width i; index := index i |}.

Definition with_width (v : Q) (i : Inputs) : Inputs :=
  {| videoUrl := videoUrl i; inLoadView := inLoadView i;
     inPlayView := inPlayView i; intersectionRatio := intersectionRatio i;
     autoplay := autoplay i; highlightModeEnabled := highlightModeEnabled i;
     isMuted := isMuted i; width := v; index := index i |}.

Definition with_index (v : nat) (i : Inputs) : Inputs :=
  {| videoUrl := videoUrl i; inLoadView := inLoadView i;
     inPlayView := inPlayView i; intersectionRatio := intersectionRatio i;
     autoplay := autoplay i; highlightModeEnabled := highlightModeEnabled i;
     isMuted := isMuted i; width := width i; index := v |}.

(** The values a render fixes for its closures and that the dependency
    arrays compare: the inputs and the four state flags. *)
Record Snapshot : Type := {
  rendered : Inputs;
  wasLoaded : bool;
  wasPlaying : bool;
  wasFailed : bool;
  wasLoading : bool
}.

(** The callbacks handed to [setTimeout], with the variables they close
    over: the load timeout of [loadVideo] reads [isLoading] and [isLoaded]
    of the render that built that [loadVideo]; the unload timer reads
    [inLoadView] of the render whose effect set it. *)
Inductive callback : Type :=
| LoadTimeout (isLoading isLoaded : bool)
| Unload (inLoadView : bool).

(** A pending timer; times are in milliseconds. *)
Record timer : Type := {
  id : nat;
  due : Z;
  action : callback
}.

(** One mounted item.
    - React state: [isLoaded], [isPlaying], [isFailed], [isLoading],
      [loadingError], holding the value last set;
    - [srcRef];
    - the [video] element: its [src] attribute ([None] when absent), its
      [paused] flag, the expando [_loadTimeout], whether [loadVideo] has
      attached the [error], [play] and [pause] listeners ([wired]), whether
      the once-only [loadedmetadata] listener is attached, and whether the
      browser lets [play()] start ([playAllowed]);
    - the browser's pending timers, next timer id and clock;
    - per commit: the snapshot the effects last ran against, and the timer
      that the clean-up of the unload effect clears. *)
Record Item : Type := {
  inputs : Inputs;
  isLoaded : bool;
  isPlaying : bool;
  isFailed : bool;
  isLoading : bool;
  loadingError : option string;
  srcRef : string;
  src : option string;
  paused : bool;
  loadTimeoutRef : option nat;
  wired : bool;
  metadataListener : bool;
  playAllowed : bool;
  timers : list timer;
  nextId : nat;
  now : Z;
  seen : option Snapshot;
  unloadCleanup : option nat
}.

Definition set_inputs (v : Inputs) (m : Item) : Item :=
  {| inputs := v; isLoaded := isLoaded m; isPlaying := isPlaying m;
     isFailed := isFailed m; isLoading := isLoading m;
     loadingError := loadingError m; srcRef := srcRef m; src := src m;
     paused := paused m; loadTimeoutRef := loadTimeoutRef m;
     wired := wired m; metadataListener := metadataListener m;
     playAllowed := playAllowed m; timers := timers m; nextId := nextId m;
     now := now m; seen := seen m; unloadCleanup := unloadCleanup m |}.

Definition set_isLoaded (v : bool) (m : Item) : Item :=
  {| inputs := inputs m; isLoaded := v; isPlaying := isPlaying m;
     isFailed := isFailed m; isLoading := isLoading m;
     loadingError := loadingError m; srcRef := srcRef m; src := src m;
     paused := paused m; loadTimeoutRef := loadTimeoutRef m;
     wired := wired m; metadataListener := metadataListener m;
     playAllowed := playAllowed m; timers := timers m; nextId := nextId m;
     now := now m; seen := seen m; unloadCleanup := unloadCleanup m |}.

Definition set_isPlaying (v : bool) (m : Item) : Item :=
  {| inputs := inputs m; isLoaded := isLoaded m; isPlaying := v;
     isFailed := isFailed m; isLoading := isLoading m;
     loadingError := loadingError m; srcRef := srcRef m; src := src m;
     paused := paused m; loadTimeoutRef := loadTimeoutRef m;
     wired := wired m; metadataListener := metadataListener m;
     playAllowed := playAllowed m; timers := timers m; nextId := nextId m;
     now := now m; seen := seen m; unloadCleanup := unloadCleanup m |}.

Definition set_isFailed (v : bool) (m : Item) : Item :=
  {| inputs := inputs m; isLoaded := isLoaded m; isPlaying := isPlaying m;
     isFailed := v; isLoading := isLoading m; loadingError := loadingError m;
     srcRef := srcRef m; src := src m; paused := paused m;
     loadTimeoutRef := loadTimeoutRef m; wired := wired m;
     metadataListener := metadataListener m; playAllowed := playAllowed m;
     timers := timers m; nextId := nextId m; now := now m; seen := seen m;
     unloadCleanup := unloadCleanup m |}.

Definition set_isLoading (v : bool) (m : Item) : Item :=
  {| inputs := inputs m; isLoaded := isLoaded m; isPlaying := isPlaying m;
     isFailed := isFailed m; isLoading := v; loadingError := loadingError m;
     srcRef := srcRef m; src := src m; paused := paused m;
     loadTimeoutRef := loadTimeoutRef m; wired := wired m;
     metadataListener := metadataListener m; playAllowed := playAllowed m;
     timers := timers m; nextId := nextId m; now := now m; seen := seen m;
     unloadCleanup := unloadCleanup m |}.

Definition set_loadingError (v : option string) (m : Item) : Item :=
  {| inputs := inputs m; isLoaded := isLoaded m; isPlaying := isPlaying m;
     isFailed := isFailed m; isLoading := isLoading m; loadingError := v;
     srcRef := srcRef m; src := src m; paused := paused m;
     loadTimeoutRef := loadTimeoutRef m; wired := wired m;
     metadataListener := metadataListener m; playAllowed := playAllowed m;
     timers := timers m; nextId := nextId m; now := now m; seen := seen m;
     unloadCleanup := unloadCleanup m |}.

Definition set_srcRef (v : string) (m : Item) : Item :=
  {| inputs := inputs m; isLoaded := isLoaded m; isPlaying := isPlaying m;
     isFailed := isFailed m; isLoading := isLoading m;
     loadingError := loadingError m; srcRef := v; src := src m;
     paused := paused m; loadTimeoutRef := loadTimeoutRef m;
     wired := wired m; metadataListener := metadataListener m;
     playAllowed := playAllowed m; timers := timers m; nextId := nextId m;
     now := now m; seen := seen m; unloadCleanup := unloadCleanup m |}.

Definition set_src (v : option string) (m : Item) : Item :=
  {| inputs := inputs m; isLoaded := isLoaded m; isPlaying := isPlaying m;
     isFailed := isFailed m; isLoading := isLoading m;
     loadingError := loadingError m; srcRef := srcRef m; src := v;
     paused := paused m; loadTimeoutRef := loadTimeoutRef m;
     wired := wired m; metadataListener := metadataListener m;
     playAllowed := playAllowed m; timers := timers m; nextId := nextId m;
     now := now m; seen := seen m; unloadCleanup := unloadCleanup m |}.

Definition set_paused (v : bool) (m : Item) : Item :=
  {| inputs := inputs m; isLoaded := isLoaded m; isPlaying := isPlaying m;
     isFailed := isFailed m; isLoading := isLoading m;
     loadingError := loadingError m; srcRef := srcRef m; src := src m;
     paused := v; loadTimeoutRef := loadTimeoutRef m; wired := wired m;
     metadataListener := metadataListener m; playAllowed := playAllowed m;
     timers := timers m; nextId := nextId m; now := now m; seen := seen m;
     unloadCleanup := unloadCleanup m |}.

Definition set_loadTimeoutRef (v : option nat) (m : Item) : Item :=
  {| inputs := inputs m; isLoaded := isLoaded m; isPlaying := isPlaying m;
     isFailed := isFailed m; isLoading := isLoading m;
     loadingError := loadingError m; srcRef := srcRef m; src := src m;
     paused := paused m; loadTimeoutRef := v; wired := wired m;
     metadataListener := metadataListener m; playAllowed := playAllowed m;
     timers := timers m; nextId := nextId m; now := now m; seen := seen m;
     unloadCleanup := unloadCleanup m |}.

Definition set_wired (v : bool) (m : Item) : Item :=
  {| inputs := inputs m; isLoaded := isLoaded m; isPlaying := isPlaying m;
     isFailed := isFailed m; isLoading := isLoading m;
     loadingError := loadingError m; srcRef := srcRef m; src := src m;
     paused := paused m; loadTimeoutRef := loadTimeoutRef m; wired := v;
     metadataListener := metadataListener m; playAllowed := playAllowed m;
     timers := timers m; nextId := nextId m; now := now m; seen := seen m;
     unloadCleanup := unloadCleanup m |}.

Definition set_metadataListener (v : bool) (m : Item) : Item :=
  {| inputs := inputs m; isLoaded := isLoaded m; isPlaying := isPlaying m;
     isFailed := isFailed m; isLoading := isLoading m;
     loadingError := loadingError m; srcRef := srcRef m; src := src m;
     paused := paused m; loadTimeoutRef := loadTimeoutRef m;
     wired := wired m; metadataListener := v; playAllowed := playAllowed m;
     timers := timers m; nextId := nextId m; now := now m; seen := seen m;
     unloadCleanup := unloadCleanup m |}.

Definition set_playAllowed (v : bool) (m : Item) : Item :=
  {| inputs := inputs m; isLoaded := isLoaded m; isPlaying := isPlaying m;
     isFailed := isFailed m; isLoading := isLoading m;
     loadingError := loadingError m; srcRef := srcRef m; src := src m;
     paused := paused m; loadTimeoutRef := loadTimeoutRef m;
     wired := wired m; metadataListener := metadataListener m;
     playAllowed := v; timers := timers m; nextId := nextId m; now := now m;
     seen := seen m; unloadCleanup := unloadCleanup m |}.

Definition set_timers (v : list timer) (m : Item) : Item :=
  {| inputs := inputs m; isLoaded := isLoaded m; isPlaying := isPlaying m;
     isFailed := isFailed m; isLoading := isLoading m;
     loadingError := loadingError m; srcRef := srcRef m; src := src m;
     paused := paused m; loadTimeoutRef := loadTimeoutRef m;
     wired := wired m; metadataListener := metadataListener m;
     playAllowed := playAllowed m; timers := v; nextId := nextId m;
     now := now m; seen := seen m; unloadCleanup := unloadCleanup m |}.

Definition set_nextId (v : nat) (m : Item) : Item :=
  {| inputs := inputs m; isLoaded := isLoaded m; isPlaying := isPlaying m;
     isFailed := isFailed m; isLoading := isLoading m;
     loadingError := loadingError m; srcRef := srcRef m; src := src m;
     paused := paused m; loadTimeoutRef := loadTimeoutRef m;
     wired := wired m; metadataListener := metadataListener m;
     playAllowed := playAllowed m; timers := timers m; nextId := v;
     now := now m; seen := seen m; unloadCleanup := unloadCleanup m |}.

Definition set_now (v : Z) (m : Item) : Item :=
  {| inputs := inputs m; isLoaded := isLoaded m; isPlaying := isPlaying m;
     isFailed := isFailed m; isLoading := isLoading m;
     loadingError := loadingError m; srcRef := srcRef m; src := src m;
     paused := paused m; loadTimeoutRef := loadTimeoutRef m;
     wired := wired m; metadataListener := metadataListener m;
     playAllowed := playAllowed m; timers := timers m; nextId := nextId m;
     now := v; seen := seen m; unloadCleanup := unloadCleanup m |}.

Definition set_seen (v : option Snapshot) (m : Item) : Item :=
  {| inputs := inputs m; isLoaded := isLoaded m; isPlaying := isPlaying m;
     isFailed := isFailed m; isLoading := isLoading m;
     loadingError := loadingError m; srcRef := srcRef m; src := src m;
     paused := paused m; loadTimeoutRef := loadTimeoutRef m;
     wired := wired m; metadataListener := metadataListener m;
     playAllowed := playAllowed m; timers := timers m; nextId := nextId m;
     now := now m; seen := v; unloadCleanup := unloadCleanup m |}.

Definition set_unloadCleanup (v : option nat) (m : Item) : Item :=
  {| inputs := inputs m; isLoaded := isLoaded m; isPlaying := isPlaying m;
     isFailed := isFailed m; isLoading := isLoading m;
     loadingError := loadingError m; srcRef := srcRef m; src := src m;
     paused := paused m; loadTimeoutRef := loadTimeoutRef m;
     wired := wired m; metadataListener := metadataListener m;
     playAllowed := playAllowed m; timers := timers m; nextId := nextId m;
     now := now m; seen := seen m; unloadCleanup := v |}.

Definition snapshot (m : Item) : Snapshot :=
  {| rendered := inputs m; wasLoaded := isLoaded m; wasPlaying := isPlaying m;
     wasFailed := isFailed m; wasLoading := isLoading m |}.

(** *** The browser *)

Definition removeId (ref : option nat) (l : list timer) : list timer :=
  match ref with
  | Some i => filter (fun t => negb (Nat.eqb (id t) i)) l
  | None => l
  end.

Definition clearTimeout (ref : option nat) (m : Item) : Item :=
  set_timers (removeId ref (timers m)) m.

Definition setTimeout (cb : callback) (delay : Z) (m : Item) : nat * Item :=
  (nextId m,
   set_nextId (S (nextId m))
     (set_timers (timers m ++ [{| id := nextId m; due := (now m + delay)%Z;
                                  action := cb |}]) m)).

(** [video.pause()]: on a playing element, [paused] becomes true and the
    [pause] event runs [handlePause], that is [setIsPlaying(false)]. The
    listener is run with the call, so its update is rendered together with
    those of the caller. In a browser the event may be delivered later, it
    may be dropped when the caller goes on to remove the source, and the
    update of the listener may be rendered before those of a timer
    callback. After a click and in the autoplay effect this makes no
    difference to the state the item settles in. After the unload callback
    and in the source effect it can, and the facts on unloading and on a
    new source leave [isPlaying] and [paused] open. *)
Definition pause (m : Item) : Item :=
  if paused m then m
  else let m1 := set_paused true m in
       if wired m1 then set_isPlaying false m1 else m1.

(** [video.play().then(() => setIsPlaying(true))]: when the browser lets
    the element play, [paused] becomes false, the [play] event runs
    [handlePlay] and the promise resolves; otherwise the promise is
    rejected and only logged. *)
Definition play (m : Item) : Item :=
  if playAllowed m
  then set_isPlaying true (set_paused false m)
  else m.

(** [videoElement.src = ''; videoElement.removeAttribute('src')]. *)
Definition detachSource (m : Item) : Item := set_src None m.

(** [videoElement.load()]: the element starts over with its current
    source; an element that was playing is paused, without a [pause]
    event. *)
Definition load (m : Item) : Item := set_paused true m.

(** *** Callbacks of the component *)

(** [clearTimeout(videoElement._loadTimeout); videoElement._loadTimeout = null]
    when the expando is set. *)
Definition clearLoadTimeout (m : Item) : Item :=
  match loadTimeoutRef m with
  | Some i => set_loadTimeoutRef None (clearTimeout (Some i) m)
  | None => m
  end.

Definition handleError (message : string) (m : Item) : Item :=
  if negb (wired m) then m else
  match src m with
  | None => m
  | Some _ =>
      set_isLoading false
        (set_isFailed true
           (set_loadingError (Some message) (clearLoadTimeout m)))
  end.

Definition handleLoadedMetadata (m : Item) : Item :=
  if negb (metadataListener m) then m else
  let m1 := set_metadataListener false m in   (* { once: true } *)
  match src m1 with
  | None => m1
  | Some _ =>
      set_loadingError None
        (set_isFailed false
           (set_isLoading false
              (set_isLoaded true (clearLoadTimeout m1))))
  end.

(** [loadVideo] of the render [r]. *)
Definition loadVideo (r : Snapshot) (m : Item) : Item :=
  if wasLoading r || wasLoaded r then m else
  let m1 := set_loadingError None (set_isFailed false (set_isLoading true m)) in
  let url := videoUrl (rendered r) in
  let m2 := match src m1 with
            | Some _ =>
                if negb (String.eqb (srcRef m1) url)
                then set_srcRef url (set_src (Some url) m1)
                else m1
            | None => set_srcRef url (set_src (Some url) m1)
            end in
  let m3 := load (set_metadataListener true (set_wired true m2)) in
  let (i, m4) := setTimeout (LoadTimeout (wasLoading r) (wasLoaded r)) 10000 m3 in
  set_loadTimeoutRef (Some i) m4.

(** The callback of the load timeout. *)
Definition onLoadTimeout (capturedLoading capturedLoaded : bool) (m : Item) : Item :=
  if capturedLoading && negb capturedLoaded
  then set_loadingError (Some "Load timeout")
         (set_isFailed true (set_isLoading false m))
  else m.

(** The callback of the unload timer. *)
Definition onUnload (capturedInLoadView : bool) (m : Item) : Item :=
  if negb capturedInLoadView then
    let m1 := if negb (paused m) then set_isPlaying false (pause m) else m in
    set_isLoading false
      (set_loadingError None
         (set_isFailed false
            (set_isLoaded false (detachSource m1))))
  else m.

(** [handleClick] of the render [r]; in highlight mode the click is passed
    to [onHighlight] and the item is left alone. *)
Definition handleClick (r : Snapshot) (m : Item) : Item :=
  if negb (wasLoaded r) then m else
  if highlightModeEnabled (rendered r) then m else
  if paused m then play m
  else set_isPlaying false (pause m).

(** *** Effects, each run against the snapshot [r] of its render *)

(** [useEffect(..., [inLoadView, isLoaded, isFailed, loadVideo, index])]. *)
Definition loadEffect (r : Snapshot) (m : Item) : Item :=
  if inLoadView (rendered r) && negb (wasLoaded r) && negb (wasFailed r)
  then loadVideo r m
  else m.

(** [useEffect(..., [videoUrl])]. *)
Definition sourceEffect (r : Snapshot) (m : Item) : Item :=
  if negb (String.eqb (srcRef m) "")
     && negb (String.eqb (srcRef m) (videoUrl (rendered r)))
  then
    let m1 := set_loadingError None
                (set_isLoading false (set_isFailed false (set_isLoaded false m))) in
    detachSource (pause m1)
  else m.

(** [useEffect(..., [inLoadView, isLoaded, isLoading])]; the clean-up it
    returns clears the timer it set. *)
Definition unloadEffect (r : Snapshot) (m : Item) : Item :=
  if negb (inLoadView (rendered r)) && (wasLoaded r || wasLoading r)
  then let (i, m1) := setTimeout (Unload (inLoadView (rendered r))) 1000 m in
       set_unloadCleanup (Some i) m1
  else set_unloadCleanup None m.

(** [useEffect(..., [inPlayView, entry?.intersectionRatio, settings.autoplay,
    isLoaded, isFailed, isPlaying, index])]. *)
Definition autoplayEffect (r : Snapshot) (m : Item) : Item :=
  if negb (wasLoaded r) || wasFailed r then m else
  if autoplay (rendered r) && inPlayView (rendered r)
     && JS.posQ (intersectionRatio (rendered r) - (1 # 10))
     && negb (wasPlaying r)
  then play m
  else if negb (inPlayView (rendered r)) && wasPlaying r
       then set_isPlaying false (pause m)
       else m.

(** *** Dependency arrays *)

Definition sameFlag (a b : bool) : bool := Bool.eqb a b.

(** [loadVideo] is rebuilt when one of
    [index, videoUrl, width, settings.isMuted, isLoading, isLoaded] changed. *)
Definition sameLoadVideo (a b : Snapshot) : bool :=
  Nat.eqb (index (rendered a)) (index (rendered b))
  && String.eqb (videoUrl (rendered a)) (videoUrl (rendered b))
  && Qeq_bool (width (rendered a)) (width (rendered b))
  && sameFlag (isMuted (rendered a)) (isMuted (rendered b))
  && sameFlag (wasLoading a) (wasLoading b)
  && sameFlag (wasLoaded a) (wasLoaded b).

Definition sameLoadDeps (a b : Snapshot) : bool :=
  sameFlag (inLoadView (rendered a)) (inLoadView (rendered b))
  && sameFlag (wasLoaded a) (wasLoaded b)
  && sameFlag (wasFailed a) (wasFailed b)
  && sameLoadVideo a b
  && Nat.eqb (index (rendered a)) (index (rendered b)).

Definition sameSourceDeps (a b : Snapshot) : bool :=
  String.eqb (videoUrl (rendered a)) (videoUrl (rendered b)).

Definition sameUnloadDeps (a b : Snapshot) : bool :=
  sameFlag (inLoadView (rendered a)) (inLoadView (rendered b))
  && sameFlag (wasLoaded a) (wasLoaded b)
  && sameFlag (wasLoading a) (wasLoading b).

Definition sameAutoplayDeps (a b : Snapshot) : bool :=
  sameFlag (inPlayView (rendered a)) (inPlayView (rendered b))
  && Qeq_bool (intersectionRatio (rendered a)) (intersectionRatio (rendered b))
  && sameFlag (autoplay (rendered a)) (autoplay (rendered b))
  && sameFlag (wasLoaded a) (wasLoaded b)
  && sameFlag (wasFailed a) (wasFailed b)
  && sameFlag (wasPlaying a) (wasPlaying b)
  && Nat.eqb (index (rendered a)) (index (rendered b)).

Definition unchanged (same : Snapshot -> Snapshot -> bool) (m : Item) (r : Snapshot) : bool :=
  match seen m with
  | Some old => same old r
  | None => false
  end.

(** *** Render and commit *)

(** One render with the state as it stands, followed by its effects: first
    the clean-up of the unload effect when that effect is about to run
    again, then the bodies in the order of declaration. The effects on
    [settings.isMuted] and on [width] only write the element's [muted] flag
    and the styled dimensions and are left out. *)
Record Rerun : Type := {
  runLoad : bool;
  runSource : bool;
  runUnload : bool;
  runAutoplay : bool
}.

(** The effects whose dependencies differ from those of the last commit. *)
Definition rerun (m : Item) : Rerun :=
  let r := snapshot m in
  {| runLoad := negb (unchanged sameLoadDeps m r);
     runSource := negb (unchanged sameSourceDeps m r);
     runUnload := negb (unchanged sameUnloadDeps m r);
     runAutoplay := negb (unchanged sameAutoplayDeps m r) |}.

Definition commitWith (ch : Rerun) (m : Item) : Item :=
  let r := snapshot m in
  let m1 := if runUnload ch then clearTimeout (unloadCleanup m) m else m in
  let m2 := if runLoad ch then loadEffect r m1 else m1 in
  let m3 := if runSource ch then sourceEffect r m2 else m2 in
  let m4 := if runUnload ch then unloadEffect r m3 else m3 in
  let m5 := if runAutoplay ch then autoplayEffect r m4 else m4 in
  set_seen (Some r) m5.

Definition commit (m : Item) : Item := commitWith (rerun m) m.

(** The state an effect set differs from the one just rendered: React
    renders again. [loadingError] is no dependency of any effect, so a
    render in which only it changed runs none. *)
Definition needsRender (m : Item) : bool :=
  match seen m with
  | Some r =>
      negb (sameFlag (wasLoaded r) (isLoaded m) && sameFlag (wasPlaying r) (isPlaying m)
            && sameFlag (wasFailed r) (isFailed m) && sameFlag (wasLoading r) (isLoading m))
  | None => true
  end.

(** Render until the effects leave the state alone; [fuel] bounds the
    number of renders. *)
Fixpoint settle (fuel : nat) (m : Item) : Item :=
  match fuel with
  | O => m
  | S fuel' =>
      let m' := commit m in
      if needsRender m' then settle fuel' m' else m'
  end.

Definition renders : nat := 6.

(** *** Timers firing *)

Definition run (cb : callback) (m : Item) : Item :=
  match cb with
  | LoadTimeout capturedLoading capturedLoaded => onLoadTimeout capturedLoading capturedLoaded m
  | Unload capturedInLoadView => onUnload capturedInLoadView m
  end.

(** The browser runs a due timeout: it is no longer pending when its
    callback runs; the state the callback set is then rendered. *)
Definition fire (t : timer) (m : Item) : Item :=
  settle renders
    (run (action t)
       (clearTimeout (Some (id t)) (set_now (Z.max (now m) (due t)) m))).

Definition earlier (a b : timer) : bool :=
  (due a <? due b)%Z || ((due a =? due b)%Z && (id a <=? id b)%nat).

Fixpoint earliest (l : list timer) : option timer :=
  match l with
  | [] => None
  | t :: r =>
      match earliest r with
      | Some u => Some (if earlier t u then t else u)
      | None => Some t
      end
  end.

Definition nextDue (deadline : Z) (m : Item) : option timer :=
  match earliest (timers m) with
  | Some t => if (due t <=? deadline)%Z then Some t else None
  | None => None
  end.

(** Let the clock run to [deadline], firing the due timers in order. Each
    unit of fuel pays for one callback; when it runs out the clock stops
    where it is. *)
Fixpoint advanceTo (fuel : nat) (deadline : Z) (m : Item) : Item :=
  match fuel with
  | O => m
  | S fuel' =>
      match nextDue deadline m with
      | Some t => advanceTo fuel' deadline (fire t m)
      | None => set_now deadline m
      end
  end.

(** A timeout fires once, and a callback sets at most two new ones (a load
    and an unload timer) that are due a second or more later. *)
Definition fuelFor (dt : Z) (m : Item) : nat :=
  S (List.length (timers m) + 2 * S (Z.to_nat (dt / 1000))).

Definition advance (dt : Z) (m : Item) : Item :=
  advanceTo (fuelFor dt m) (now m + dt)%Z m.

(** *** Events

    The events of the component itself. The buttons [Play all] and
    [Pause all] of [App] reach the element from outside the component;
    they are inputs of [VideoItemApp]. *)

Inductive event : Type :=
| LoadView (b : bool)                  (* the load observer reports [inLoadView] *)
| PlayView (b : bool) (ratio : Q)      (* the play observer reports [inPlayView] and the ratio *)
| Source (url : string)                (* the slot is given another video *)
| SetAutoplay (b : bool)
| SetHighlightMode (b : bool)
| Restyle (muted : bool) (w : Q) (i : nat)  (* [settings.isMuted], [width], [index] *)
| Click
| LoadedMetadata                       (* the element fires [loadedmetadata] *)
| MediaError (message : string)        (* the element fires [error] *)
| Policy (allowed : bool)              (* the browser starts or stops allowing [play()] *)
| Elapse (dt : N).                     (* [dt] milliseconds pass *)

Definition set_input (f : Inputs -> Inputs) (m : Item) : Item :=
  set_inputs (f (inputs m)) m.

Definition handle (ev : event) (m : Item) : Item :=
  match ev with
  | LoadView b => set_input (with_inLoadView b) m
  | PlayView b ratio =>
      set_input (fun i => with_intersectionRatio ratio (with_inPlayView b i)) m
  | Source url => set_input (with_videoUrl url) m
  | SetAutoplay b => set_input (with_autoplay b) m
  | SetHighlightMode b => set_input (with_highlightModeEnabled b) m
  | Restyle muted w i =>
      set_input (fun x => with_index i (with_width w (with_isMuted muted x))) m
  | Click => handleClick (snapshot m) m
  | LoadedMetadata => handleLoadedMetadata m
  | MediaError message => handleError message m
  | Policy allowed => set_playAllowed allowed m
  | Elapse dt => advance (Z.of_N dt) m
  end.

Definition step (ev : event) (m : Item) : Item :=
  match ev with
  | Elapse _ => handle ev m
  | _ => settle renders (handle ev m)
  end.

Definition trace (evs : list event) (m : Item) : Item :=
  fold_left (fun m ev => step ev m) evs m.

(** The item before its first commit, at time [t]: nothing loaded, the
    element paused and without [src], the observers not yet reporting. *)
Definition initial (url : string) (auto highlight muted : bool) (w : Q) (i : nat)
                   (allowed : bool) (t : Z) : Item :=
  {| inputs := {| videoUrl := url; inLoadView := false; inPlayView := false;
                  intersectionRatio := 0; autoplay := auto;
                  highlightModeEnabled := highlight; isMuted := muted;
                  width := w; index := i |};
     isLoaded := false; isPlaying := false; isFailed := false; isLoading := false;
     loadingError := None; srcRef := ""; src := None; paused := true;
     loadTimeoutRef := None; wired := false; metadataListener := false;
     playAllowed := allowed; timers := []; nextId := 1%nat; now := t;
     seen := None; unloadCleanup := None |}.

Definition mount (url : string) (auto highlight muted : bool) (w : Q) (i : nat)
                 (allowed : bool) (t : Z) : Item :=
  settle renders (initial url auto highlight muted w i allowed t).

Inductive reachable : Item -> Prop :=
| reach_mount url auto highlight muted w i allowed t :
    reachable (mount url auto highlight muted w i allowed t)
| reach_step ev m : reachable m -> reachable (step ev m).

End VideoItem.

(** ** [ImageItem]: what a commit establishes *)

Module ImageItemInv.

Import ImageItem.
Local Open Scope string_scope.

(** What holds of every reachable item: the effects have seen the inputs of
    the last render, the ref mirrors the state flag, and [srcRef] holds the
    current URL. *)
Definition settled (s : Item) : Prop :=
  seenInView s = Some (inView s) /\ seenUrl s = Some (imageUrl s)
  /\ hasRequestedLoadRef s = shouldLoad s
  /\ srcRef s = imageUrl s.

End ImageItemInv.

(** ** [useAutoScroll]: timers and refs *)

Module AutoScrollInv.

Import AutoScroll.
Local Open Scope Q_scope.

Definition viewport : Element :=
  {| scrollTop := 0; clientHeight := 600; scrollHeight := 611 |}.

(** A pending timer is the one its ref names, and its callback was built
    from the props [en] and [speed]. *)
Definition timerOk (en : bool) (speed : Q) (h : Hook) (t : timer) : Prop :=
  match action t with
  | Tick v =>
      autoScrollIntervalRef h = Some (id t) /\ isAutoScrolling h = true /\ v == speed
  | Idle e v =>
      mouseIdleTimeoutRef h = Some (id t) /\ e = true /\ en = true /\ v == speed
  end.

(** The part that holds between a handler and the commit that follows it,
    stated for the props [en], [speed] of the last commit. *)
Record Core (en : bool) (speed : Q) (h : Hook) : Prop := {
  core_active : autoScrollActive h = isAutoScrolling h;
  core_enabled : isAutoScrolling h = true -> en = true;
  core_timers : Forall (timerOk en speed h) (timers h)
}.

Definition settled (h : Hook) : Prop :=
  exists v, seen h = Some (enabled h, v, idleDelay h) /\ v == scrollSpeed h.

Definition Inv (h : Hook) : Prop :=
  settled h /\ Core (enabled h) (scrollSpeed h) h.

Definition sameProps (h h' : Hook) : Prop :=
  enabled h' = enabled h /\ scrollSpeed h' = scrollSpeed h
  /\ idleDelay h' = idleDelay h /\ seen h' = seen h.

(** The events that change no prop. *)
Definition keepsProps (ev : event) : bool :=
  match ev with
  | SetEnabled _ | SetScrollSpeed _ => false
  | _ => true
  end.

(** The events that do not switch the setting back on. *)
Definition staysOff (ev : event) : bool :=
  match ev with
  | SetEnabled b => negb b
  | _ => true
  end.




End AutoScrollInv.

(** ** [VideoItem]: control part, timers, invariants *)

Module VideoItemCtl.

Import VideoItem.
Local Open Scope string_scope.

(** *** Items used in the examples *)

(** A mounted item: autoplay on, highlight mode off, muted, 260 pixels
    wide, first in the list, in a browser that allows [play()], at time 0. *)
Definition clip : Item := mount "/videos/a.mp4" true false true 260 0 true 0.

(** The item playing in both windows, and the item whose load failed. *)
Definition playing : Item :=
  trace [LoadView true; LoadedMetadata; PlayView true (1 # 2)] clip.

Definition failedEarly : Item := trace [LoadView true; MediaError "network"] clip.

(** The effects have run against the state as it stands. *)
Definition settled (m : Item) : Prop := seen m = Some (snapshot m).

(** *** The control part of an item

    The flags that decide which branch the component takes. Everything
    else (URLs, timers, the clock, the error text) is carried along. *)
Record Ctl : Type := {
  cLoaded : bool;
  cPlaying : bool;
  cFailed : bool;
  cLoading : bool;
  cInLoad : bool;
  cInPlay : bool;
  cAuto : bool;
  cHl : bool;
  cRatio : bool;     (* intersectionRatio > 0.1 *)
  cPaused : bool;
  cWired : bool;
  cMeta : bool;
  cAllowed : bool;
  cAttached : bool;  (* the element has a [src] *)
  cStale : bool      (* [srcRef] is set and differs from [videoUrl] *)
}.

(** Field updates. *)
Definition putLoaded (v : bool) (c : Ctl) : Ctl :=
  {| cLoaded := v; cPlaying := cPlaying c; cFailed := cFailed c;
     cLoading := cLoading c; cInLoad := cInLoad c; cInPlay := cInPlay c;
     cAuto := cAuto c; cHl := cHl c; cRatio := cRatio c;
     cPaused := cPaused c; cWired := cWired c; cMeta := cMeta c;
     cAllowed := cAllowed c; cAttached := cAttached c; cStale := cStale c |}.

Definition putPlaying (v : bool) (c : Ctl) : Ctl :=
  {| cLoaded := cLoaded c; cPlaying := v; cFailed := cFailed c;
     cLoading := cLoading c; cInLoad := cInLoad c; cInPlay := cInPlay c;
     cAuto := cAuto c; cHl := cHl c; cRatio := cRatio c;
     cPaused := cPaused c; cWired := cWired c; cMeta := cMeta c;
     cAllowed := cAllowed c; cAttached := cAttached c; cStale := cStale c |}.

Definition putFailed (v : bool) (c : Ctl) : Ctl :=
  {| cLoaded := cLoaded c; cPlaying := cPlaying c; cFailed := v;
     cLoading := cLoading c; cInLoad := cInLoad c; cInPlay := cInPlay c;
     cAuto := cAuto c; cHl := cHl c; cRatio := cRatio c;
     cPaused := cPaused c; cWired := cWired c; cMeta := cMeta c;
     cAllowed := cAllowed c; cAttached := cAttached c; cStale := cStale c |}.

Definition putLoading (v : bool) (c : Ctl) : Ctl :=
  {| cLoaded := cLoaded c; cPlaying := cPlaying c; cFailed := cFailed c;
     cLoading := v; cInLoad := cInLoad c; cInPlay := cInPlay c;
     cAuto := cAuto c; cHl := cHl c; cRatio := cRatio c;
     cPaused := cPaused c; cWired := cWired c; cMeta := cMeta c;
     cAllowed := cAllowed c; cAttached := cAttached c; cStale := cStale c |}.

Definition putInLoad (v : bool) (c : Ctl) : Ctl :=
  {| cLoaded := cLoaded c; cPlaying := cPlaying c; cFailed := cFailed c;
     cLoading := cLoading c; cInLoad := v; cInPlay := cInPlay c;
     cAuto := cAuto c; cHl := cHl c; cRatio := cRatio c;
     cPaused := cPaused c; cWired := cWired c; cMeta := cMeta c;
     cAllowed := cAllowed c; cAttached := cAttached c; cStale := cStale c |}.

Definition putInPlay (v : bool) (c : Ctl) : Ctl :=
  {| cLoaded := cLoaded c; cPlaying := cPlaying c; cFailed := cFailed c;
     cLoading := cLoading c; cInLoad := cInLoad c; cInPlay := v;
     cAuto := cAuto c; cHl := cHl c; cRatio := cRatio c;
     cPaused := cPaused c; cWired := cWired c; cMeta := cMeta c;
     cAllowed := cAllowed c; cAttached := cAttached c; cStale := cStale c |}.

Definition putAuto (v : bool) (c : Ctl) : Ctl :=
  {| cLoaded := cLoaded c; cPlaying := cPlaying c; cFailed := cFailed c;
     cLoading := cLoading c; cInLoad := cInLoad c; cInPlay := cInPlay c;
     cAuto := v; cHl := cHl c; cRatio := cRatio c; cPaused := cPaused c;
     cWired := cWired c; cMeta := cMeta c; cAllowed := cAllowed c;
     cAttached := cAttached c; cStale := cStale c |}.

Definition putHl (v : bool) (c : Ctl) : Ctl :=
  {| cLoaded := cLoaded c; cPlaying := cPlaying c; cFailed := cFailed c;
     cLoading := cLoading c; cInLoad := cInLoad c; cInPlay := cInPlay c;
     cAuto := cAuto c; cHl := v; cRatio := cRatio c; cPaused := cPaused c;
     cWired := cWired c; cMeta := cMeta c; cAllowed := cAllowed c;
     cAttached := cAttached c; cStale := cStale c |}.

Definition putRatio (v : bool) (c : Ctl) : Ctl :=
  {| cLoaded := cLoaded c; cPlaying := cPlaying c; cFailed := cFailed c;
     cLoading := cLoading c; cInLoad := cInLoad c; cInPlay := cInPlay c;
     cAuto := cAuto c; cHl := cHl c; cRatio := v; cPaused := cPaused c;
     cWired := cWired c; cMeta := cMeta c; cAllowed := cAllowed c;
     cAttached := cAttached c; cStale := cStale c |}.

Definition putPaused (v : bool) (c : Ctl) : Ctl :=
  {| cLoaded := cLoaded c; cPlaying := cPlaying c; cFailed := cFailed c;
     cLoading := cLoading c; cInLoad := cInLoad c; cInPlay := cInPlay c;
     cAuto := cAuto c; cHl := cHl c; cRatio := cRatio c; cPaused := v;
     cWired := cWired c; cMeta := cMeta c; cAllowed := cAllowed c;
     cAttached := cAttached c; cStale := cStale c |}.

Definition putWired (v : bool) (c : Ctl) : Ctl :=
  {| cLoaded := cLoaded c; cPlaying := cPlaying c; cFailed := cFailed c;
     cLoading := cLoading c; cInLoad := cInLoad c; cInPlay := cInPlay c;
     cAuto := cAuto c; cHl := cHl c; cRatio := cRatio c;
     cPaused := cPaused c; cWired := v; cMeta := cMeta c;
     cAllowed := cAllowed c; cAttached := cAttached c; cStale := cStale c |}.

Definition putMeta (v : bool) (c : Ctl) : Ctl :=
  {| cLoaded := cLoaded c; cPlaying := cPlaying c; cFailed := cFailed c;
     cLoading := cLoading c; cInLoad := cInLoad c; cInPlay := cInPlay c;
     cAuto := cAuto c; cHl := cHl c; cRatio := cRatio c;
     cPaused := cPaused c; cWired := cWired c; cMeta := v;
     cAllowed := cAllowed c; cAttached := cAttached c; cStale := cStale c |}.

Definition putAllowed (v : bool) (c : Ctl) : Ctl :=
  {| cLoaded := cLoaded c; cPlaying := cPlaying c; cFailed := cFailed c;
     cLoading := cLoading c; cInLoad := cInLoad c; cInPlay := cInPlay c;
     cAuto := cAuto c; cHl := cHl c; cRatio := cRatio c;
     cPaused := cPaused c; cWired := cWired c; cMeta := cMeta c;
     cAllowed := v; cAttached := cAttached c; cStale := cStale c |}.

Definition putAttached (v : bool) (c : Ctl) : Ctl :=
  {| cLoaded := cLoaded c; cPlaying := cPlaying c; cFailed := cFailed c;
     cLoading := cLoading c; cInLoad := cInLoad c; cInPlay := cInPlay c;
     cAuto := cAuto c; cHl := cHl c; cRatio := cRatio c;
     cPaused := cPaused c; cWired := cWired c; cMeta := cMeta c;
     cAllowed := cAllowed c; cAttached := v; cStale := cStale c |}.

Definition putStale (v : bool) (c : Ctl) : Ctl :=
  {| cLoaded := cLoaded c; cPlaying := cPlaying c; cFailed := cFailed c;
     cLoading := cLoading c; cInLoad := cInLoad c; cInPlay := cInPlay c;
     cAuto := cAuto c; cHl := cHl c; cRatio := cRatio c;
     cPaused := cPaused c; cWired := cWired c; cMeta := cMeta c;
     cAllowed := cAllowed c; cAttached := cAttached c; cStale := v |}.

(** The control part of an item. *)
Definition ctl (m : Item) : Ctl :=
  {| cLoaded := isLoaded m; cPlaying := isPlaying m; cFailed := isFailed m;
     cLoading := isLoading m;
     cInLoad := inLoadView (inputs m); cInPlay := inPlayView (inputs m);
     cAuto := autoplay (inputs m); cHl := highlightModeEnabled (inputs m);
     cRatio := JS.posQ (intersectionRatio (inputs m) - (1 # 10));
     cPaused := paused m; cWired := wired m; cMeta := metadataListener m;
     cAllowed := playAllowed m;
     cAttached := match src m with Some _ => true | None => false end;
     cStale := negb (String.eqb (srcRef m) "")
               && negb (String.eqb (srcRef m) (videoUrl (inputs m))) |}.

(** The operations of the component on the control part, one for one:
    [apause] for [pause], [aloadVideo] for [loadVideo], and so on; a
    snapshot enters by its control part [r]. The unload effect only sets a
    timer and has no counterpart. *)
Definition apause (c : Ctl) : Ctl :=
  if cPaused c then c
  else let c1 := putPaused true c in
       if cWired c1 then putPlaying false c1 else c1.

Definition aplay (c : Ctl) : Ctl :=
  if cAllowed c then putPlaying true (putPaused false c) else c.

Definition ahandleError (c : Ctl) : Ctl :=
  if negb (cWired c) then c else
  if cAttached c then putLoading false (putFailed true c) else c.

Definition ahandleLoadedMetadata (c : Ctl) : Ctl :=
  if negb (cMeta c) then c else
  let c1 := putMeta false c in
  if cAttached c1
  then putFailed false (putLoading false (putLoaded true c1))
  else c1.

Definition aloadVideo (r c : Ctl) : Ctl :=
  if cLoading r || cLoaded r then c else
  putPaused true
    (putMeta true
       (putWired true
          (putStale false (putAttached true (putFailed false (putLoading true c)))))).

Definition aonLoadTimeout (capturedLoading capturedLoaded : bool) (c : Ctl) : Ctl :=
  if capturedLoading && negb capturedLoaded
  then putFailed true (putLoading false c)
  else c.

Definition aonUnload (capturedInLoadView : bool) (c : Ctl) : Ctl :=
  if negb capturedInLoadView then
    let c1 := if negb (cPaused c) then putPlaying false (apause c) else c in
    putLoading false (putFailed false (putLoaded false (putAttached false c1)))
  else c.

Definition ahandleClick (r c : Ctl) : Ctl :=
  if negb (cLoaded r) then c else
  if cHl r then c else
  if cPaused c then aplay c else putPlaying false (apause c).

Definition aloadEffect (r c : Ctl) : Ctl :=
  if cInLoad r && negb (cLoaded r) && negb (cFailed r) then aloadVideo r c else c.

Definition asourceEffect (c : Ctl) : Ctl :=
  if cStale c
  then putAttached false
         (apause (putLoading false (putFailed false (putLoaded false c))))
  else c.

Definition aautoplayEffect (r c : Ctl) : Ctl :=
  if negb (cLoaded r) || cFailed r then c else
  if cAuto r && cInPlay r && cRatio r && negb (cPlaying r)
  then aplay c
  else if negb (cInPlay r) && cPlaying r
       then putPlaying false (apause c)
       else c.

Definition acommit (ch : Rerun) (c : Ctl) : Ctl :=
  let c2 := if runLoad ch then aloadEffect c c else c in
  let c3 := if runSource ch then asourceEffect c2 else c2 in
  if runAutoplay ch then aautoplayEffect c c3 else c3.

(** The flags an effect set differ from the rendered ones. *)
Definition aneeds (c c' : Ctl) : bool :=
  negb (Bool.eqb (cLoaded c) (cLoaded c') && Bool.eqb (cPlaying c) (cPlaying c')
        && Bool.eqb (cFailed c) (cFailed c') && Bool.eqb (cLoading c) (cLoading c')).

(** The effects that run in the render after [c] became [c'] by the
    effects of one commit: only state flags can differ. *)
Definition achanged (c c' : Ctl) : Rerun :=
  {| runLoad := negb (Bool.eqb (cLoaded c) (cLoaded c')
                      && Bool.eqb (cFailed c) (cFailed c')
                      && Bool.eqb (cLoading c) (cLoading c'));
     runSource := false;
     runUnload := negb (Bool.eqb (cLoaded c) (cLoaded c')
                        && Bool.eqb (cLoading c) (cLoading c'));
     runAutoplay := negb (Bool.eqb (cLoaded c) (cLoaded c')
                          && Bool.eqb (cFailed c) (cFailed c')
                          && Bool.eqb (cPlaying c) (cPlaying c')) |}.

(** [settle] on the control part; [ch] are the effects of the next render. *)
Fixpoint asettle (fuel : nat) (ch : Rerun) (c : Ctl) : Ctl :=
  match fuel with
  | O => c
  | S fuel' =>
      let c' := acommit ch c in
      if aneeds c c' then asettle fuel' (achanged c c') c' else c'
  end.

(** Whether the renders end because the state is stable, not because the
    fuel ran out. *)
Fixpoint aquiet (fuel : nat) (ch : Rerun) (c : Ctl) : bool :=
  match fuel with
  | O => false
  | S fuel' =>
      let c' := acommit ch c in
      if aneeds c c' then aquiet fuel' (achanged c c') c' else true
  end.

(** *** Events, as far as the control part sees them *)

Inductive aevent : Type :=
| ALoadView (b : bool)
| APlayView (b ratioOk ratioChanged : bool)
| ASource (changed stale : bool)
| ASetAutoplay (b : bool)
| ASetHighlightMode (b : bool)
| ARestyle (loadVideoChanged indexChanged : bool)
| AClick
| ALoadedMetadata
| AMediaError
| APolicy (allowed : bool)
| AFire (cb : callback).

(** The render after an event that touches no dependency. *)
Definition noRerun : Rerun :=
  {| runLoad := false; runSource := false; runUnload := false; runAutoplay := false |}.

(** The control part after the handler, and the effects of the render that
    follows when the item was settled before. *)
Definition ahandle (a : aevent) (c : Ctl) : Rerun * Ctl :=
  match a with
  | ALoadView b =>
      ({| runLoad := negb (Bool.eqb (cInLoad c) b); runSource := false;
          runUnload := negb (Bool.eqb (cInLoad c) b); runAutoplay := false |},
       putInLoad b c)
  | APlayView b ratioOk ratioChanged =>
      ({| runLoad := false; runSource := false; runUnload := false;
          runAutoplay := negb (Bool.eqb (cInPlay c) b) || ratioChanged |},
       putRatio ratioOk (putInPlay b c))
  | ASource changed stale =>
      ({| runLoad := changed; runSource := changed; runUnload := false;
          runAutoplay := false |},
       putStale stale c)
  | ASetAutoplay b =>
      ({| runLoad := false; runSource := false; runUnload := false;
          runAutoplay := negb (Bool.eqb (cAuto c) b) |},
       putAuto b c)
  | ASetHighlightMode b => (noRerun, putHl b c)
  | ARestyle loadVideoChanged indexChanged =>
      ({| runLoad := loadVideoChanged || indexChanged; runSource := false;
          runUnload := false; runAutoplay := indexChanged |}, c)
  | AClick => let c' := ahandleClick c c in (achanged c c', c')
  | ALoadedMetadata => let c' := ahandleLoadedMetadata c in (achanged c c', c')
  | AMediaError => let c' := ahandleError c in (achanged c c', c')
  | APolicy allowed => (noRerun, putAllowed allowed c)
  | AFire (LoadTimeout a b) => let c' := aonLoadTimeout a b c in (achanged c c', c')
  | AFire (Unload a) => let c' := aonUnload a c in (achanged c c', c')
  end.

(** [step] on the control part, and whether its renders end stable. *)
Definition astep (a : aevent) (c : Ctl) : Ctl :=
  let (ch, c') := ahandle a c in asettle renders ch c'.

Definition aquietStep (a : aevent) (c : Ctl) : bool :=
  let (ch, c') := ahandle a c in aquiet renders ch c'.

(** How a concrete event looks to the control part of [m]. *)
Definition abstraction (ev : event) (m : Item) : aevent :=
  match ev with
  | LoadView b => ALoadView b
  | PlayView b ratio =>
      APlayView b (JS.posQ (ratio - (1 # 10)))
                (negb (Qeq_bool (intersectionRatio (inputs m)) ratio))
  | Source url =>
      ASource (negb (String.eqb (videoUrl (inputs m)) url))
              (negb (String.eqb (srcRef m) "") && negb (String.eqb (srcRef m) url))
  | SetAutoplay b => ASetAutoplay b
  | SetHighlightMode b => ASetHighlightMode b
  | Restyle muted w i =>
      ARestyle (negb (Qeq_bool (width (inputs m)) w
                      && Bool.eqb (isMuted (inputs m)) muted))
               (negb (Nat.eqb (index (inputs m)) i))
  | Click => AClick
  | LoadedMetadata => ALoadedMetadata
  | MediaError _ => AMediaError
  | Policy allowed => APolicy allowed
  | Elapse _ => ARestyle false false
  end.

(** [Elapse] runs timer callbacks and is followed through [fire]. *)
Definition timed (ev : event) : bool :=
  match ev with Elapse _ => true | _ => false end.

(** *** Checking a property on every control state and event *)

Definition forall_bool (f : bool -> bool) : bool := f true && f false.

Definition forallCtl (P : Ctl -> bool) : bool :=
  forall_bool (fun a1 =>
  forall_bool (fun a2 =>
  forall_bool (fun a3 =>
  forall_bool (fun a4 =>
  forall_bool (fun a5 =>
  forall_bool (fun a6 =>
  forall_bool (fun a7 =>
  forall_bool (fun a8 =>
  forall_bool (fun a9 =>
  forall_bool (fun a10 =>
  forall_bool (fun a11 =>
  forall_bool (fun a12 =>
  forall_bool (fun a13 =>
  forall_bool (fun a14 =>
  forall_bool (fun a15 =>
  P (Build_Ctl a1 a2 a3 a4 a5 a6 a7 a8 a9 a10 a11 a12 a13 a14 a15)))))))))))))))).

Definition forallEvent (P : aevent -> bool) : bool :=
  forall_bool (fun b => P (ALoadView b))
  && forall_bool (fun a => forall_bool (fun b => forall_bool (fun c => P (APlayView a b c))))
  && forall_bool (fun a => forall_bool (fun b => P (ASource a b)))
  && forall_bool (fun b => P (ASetAutoplay b))
  && forall_bool (fun b => P (ASetHighlightMode b))
  && forall_bool (fun a => forall_bool (fun b => P (ARestyle a b)))
  && P AClick && P ALoadedMetadata && P AMediaError
  && forall_bool (fun b => P (APolicy b))
  && forall_bool (fun a => forall_bool (fun b => P (AFire (LoadTimeout a b))))
  && forall_bool (fun a => P (AFire (Unload a))).

(** The invariant of the control part:
    - a loaded item has its listeners and a source;
    - the once-only [loadedmetadata] listener is attached only while the
      item is not loaded;
    - [isPlaying] mirrors the element ([isPlaying = !paused]);
    - only a loaded item plays;
    - a playing item without a recorded failure is in the play window;
    - a loading item is neither loaded nor failed, and has listeners and a
      source. *)
Definition W (c : Ctl) : bool :=
  implb (cLoaded c) (cWired c && cAttached c)
  && implb (cMeta c) (cWired c && negb (cLoaded c))
  && Bool.eqb (cPlaying c) (negb (cPaused c))
  && implb (cPlaying c) (cLoaded c)
  && implb (cPlaying c && negb (cFailed c)) (cInPlay c)
  && implb (cLoading c)
           (negb (cLoaded c) && negb (cFailed c) && cWired c && cAttached c).

(** *** Pending timers *)

Definition isUnload (t : timer) : bool :=
  match action t with Unload _ => true | LoadTimeout _ _ => false end.

(** Every pending callback closed over [false]: a load timeout over
    [isLoading = false], an unload timer over [inLoadView = false]; and an
    unload timer is the one the clean-up [uc] clears. *)
Definition okTimer (uc : option nat) (t : timer) : Prop :=
  match action t with
  | LoadTimeout c _ => c = false
  | Unload c => c = false /\ uc = Some (id t)
  end.

Definition okTimers (m : Item) : Prop :=
  Forall (okTimer (unloadCleanup m)) (timers m).

(** A pending unload timer was set by a render that saw the item outside
    the load window and loaded or loading. *)
Definition unloadJustified (m : Item) : Prop :=
  existsb isUnload (timers m) = true ->
  exists r, seen m = Some r /\ inLoadView (rendered r) = false
            /\ (wasLoaded r || wasLoading r) = true.

(** What an operation may do to the timers: drop some ([incl]) or append
    load timeouts that closed over [isLoading = false]. *)
Definition grows (l l' : list timer) : Prop :=
  forall t, In t l' -> In t l \/ exists b, action t = LoadTimeout false b.

(** An operation that leaves [seen] and the clean-up alone and only
    [grows] the timers keeps both timer invariants. *)
Definition tame (m m' : Item) : Prop :=
  grows (timers m) (timers m') /\ unloadCleanup m' = unloadCleanup m
  /\ seen m' = seen m.

(** The two timer invariants. *)
Definition Tim (m : Item) : Prop := okTimers m /\ unloadJustified m.

(** The guard of the unload effect. *)
Definition unloadCondition (r : Snapshot) : bool :=
  negb (inLoadView (rendered r)) && (wasLoaded r || wasLoading r).

(** The item just before the callback of [t] runs. *)
Definition due_state (t : timer) (m : Item) : Item :=
  clearTimeout (Some (id t)) (set_now (Z.max (now m) (due t)) m).

(** Settled, with a well-formed control part. *)
Definition Ok (m : Item) : Prop := settled m /\ W (ctl m) = true.

(** The first render runs every effect; the control part before it. *)
Definition everything : Rerun :=
  {| runLoad := true; runSource := true; runUnload := true; runAutoplay := true |}.

Definition unmounted (auto highlight allowed : bool) : Ctl :=
  {| cLoaded := false; cPlaying := false; cFailed := false; cLoading := false;
     cInLoad := false; cInPlay := false; cAuto := auto; cHl := highlight;
     cRatio := false; cPaused := true; cWired := false; cMeta := false;
     cAllowed := allowed; cAttached := false; cStale := false |}.

(** A load timeout that closed over [isLoading = false]: its callback
    does nothing. *)
Definition inert (t : timer) : Prop := exists b, action t = LoadTimeout false b.

(** *** Timer ids

    [setTimeout] hands out fresh ids: the pending timers have distinct
    ids, all below the next one. *)
Definition ids (l : list timer) (n : nat) : Prop :=
  NoDup (map id l) /\ Forall (fun t => (id t < n)%nat) l.

Definition Ids (m : Item) : Prop := ids (timers m) (nextId m).

(** What holds of every reachable item. *)
Record Inv (m : Item) : Prop := {
  inv_settled : settled m;
  inv_control : W (ctl m) = true;
  inv_timers : Tim m;
  inv_ids : Ids m
}.

(** An item that failed before it was loaded. *)
Definition failedLoading (c : Ctl) : bool :=
  cFailed c && negb (cLoaded c) && negb (cLoading c).

(** Events that neither give the slot another video nor report metadata. *)
Definition keepsSource (url : string) (ev : event) : bool :=
  match ev with
  | Source u => String.eqb url u
  | LoadedMetadata => false
  | _ => true
  end.

(** The same on abstract events; timer callbacks are followed through
    [fire] and left out here. *)
Definition akeepsSource (a : aevent) : bool :=
  match a with
  | ASource changed _ => negb changed
  | ALoadedMetadata => false
  | AFire _ => false
  | _ => true
  end.

(** Checked property: such an event leaves a failed item failed, with the
    source attached or not as before. *)
Definition failedStays (a : aevent) (c c' : Ctl) : bool :=
  implb (failedLoading c && akeepsSource a)
        (failedLoading c' && Bool.eqb (cAttached c') (cAttached c)).

(** *** Crossing the edge of the load window *)

(** The item after the load observer reported [b], before the render. *)
Definition moved (b : bool) (m : Item) : Item := set_input (with_inLoadView b) m.

(** The commit after the load observer reported [b], for an item whose
    load effect has nothing to do: the clean-up of the unload effect, then
    its body. *)
Definition toggled (b : bool) (m : Item) : Item :=
  set_seen (Some (snapshot (moved b m)))
    (unloadEffect (snapshot (moved b m))
       (clearTimeout (unloadCleanup m) (moved b m))).

(** What the item keeps while only the timers and the clock change. *)
Definition kept (m x : Item) : Prop :=
  isLoaded x = isLoaded m /\ isLoading x = isLoading m /\ isFailed x = isFailed m
  /\ isPlaying x = isPlaying m /\ src x = src m /\ paused x = paused m
  /\ loadingError x = loadingError m.

(** The time [dt] passed between [m] and [x]: the clock shows it and no
    pending timer is due. *)
Definition elapsed (dt : Z) (m x : Item) : Prop :=
  now x = (now m + dt)%Z /\ Forall (fun t => (now x < due t)%Z) (timers x).

(** The timer the unload effect sets on leaving the window. *)
Definition unloadTimer (m : Item) : timer :=
  {| id := nextId m; due := (now m + 1000)%Z; action := Unload false |}.

(** The item after its resource was released: nothing is loaded, loading
    or recorded as failed, and the element has no [src]. *)
Definition unloaded (m : Item) : Prop :=
  isLoaded m = false /\ isLoading m = false /\ isFailed m = false
  /\ src m = None.

Definition unloadedCtl (c : Ctl) : bool :=
  negb (cLoaded c) && negb (cLoading c) && negb (cFailed c)
  && negb (cAttached c).

(** A recorded failure belongs to a source that is still attached. *)
Definition failedAttached (c : Ctl) : bool :=
  implb (cFailed c) (cAttached c && cWired c).

(** Timer callbacks as they are pending in a reachable item: see [okTimer]. *)
Definition pendingKind (a : aevent) : bool :=
  match a with
  | AFire (LoadTimeout true _) => false
  | AFire (Unload true) => false
  | _ => true
  end.

(** Checked property: [failedAttached] is kept by every event and by the
    callbacks that can be pending. *)
Definition attachedKept (a : aevent) (c c' : Ctl) : bool :=
  implb (failedAttached c && pendingKind a) (failedAttached c').

(** Checked property: another source, given to an item in the load window
    whose load failed, is loading after the renders. *)
Definition restarts (a : aevent) (c c' : Ctl) : bool :=
  match a with
  | ASource true true =>
      implb (failedLoading c && cInLoad c)
            (cLoading c' && negb (cFailed c') && negb (cLoaded c') && cAttached c')
  | _ => true
  end.

(** Checked property: when a loaded, playing item with no recorded failure
    leaves the play window it is paused and stays loaded; a click on an
    item that is not loaded leaves [isPlaying] and the element alone. *)
Definition leavesPlayWindow (a : aevent) (c c' : Ctl) : bool :=
  match a with
  | APlayView false _ _ =>
      implb (cLoaded c && cPlaying c && negb (cFailed c) && cInPlay c)
            (negb (cPlaying c') && cPaused c' && cLoaded c' && negb (cFailed c')
             && Bool.eqb (cAttached c') (cAttached c))
  | AClick =>
      implb (negb (cLoaded c))
            (Bool.eqb (cPlaying c') (cPlaying c) && Bool.eqb (cPaused c') (cPaused c))
  | _ => true
  end.

(** The conditions of the autoplay effect hold and the element plays. *)
Definition autoplaying (c : Ctl) : bool :=
  cLoaded c && negb (cFailed c) && cInPlay c && cAuto c && cRatio c
  && negb (cPaused c).

(** Checked property: an item that does not play is started by a click or
    by the autoplay effect, and by no timer. *)
Definition autoplayStarts (a : aevent) (c c' : Ctl) : bool :=
  match a with
  | AClick => true
  | AFire _ => implb (negb (cPlaying c)) (negb (cPlaying c'))
  | _ => implb (negb (cPlaying c) && cPlaying c') (autoplaying c')
  end.

End VideoItemCtl.


(** ** [App]: tag filter, displayed items, highlight selection, shuffle *)

Module App.

Import JS Height.
Local Open Scope string_scope.

(** A media descriptor as the server lists it. The values of module [JS]
    have no arrays, so the two array-valued fields the application reads,
    [item.tags] and [item.metadata.tags], are kept beside the other
    properties; [None] is a field that is absent (for [metadataTags] also:
    an [item.metadata] that is absent). *)
Record Entry : Type := {
  props : list (string * jsval);
  tags : option (list string);
  metadataTags : option (list string)
}.

(** The descriptor as [VideoMasonry], [VideoItem] and [ImageItem] read it. *)
Definition body (e : Entry) : jsval := JObj (props e).

(** [x || []]. *)
Definition orEmpty (o : option (list string)) : list string :=
  match o with Some l => l | None => [] end.

(** [[
  const tags = new Set([...(item.tags || []),
                        ...((item.metadata && item.metadata.tags) || [])]);
]] *)
Definition tagSet (item : Entry) : list string :=
  orEmpty (tags item) ++ orEmpty (metadataTags item).

(** [tags.has(t)]. *)
Definition has (ts : list string) (t : string) : bool :=
  existsb (String.eqb t) ts.

(** [[
function filterByTags(items, selectedTags) {
  if (!selectedTags || selectedTags.length === 0) return items;
  return (items || []).filter(item => {
    const tags = new Set([...]);
    return selectedTags.some(t => tags.has(t));
  });
}
]]
    [items] is an array in every call; [selectedTags] is [None] when the
    setting is missing. *)
Definition filterByTags (items : list Entry) (selectedTags : option (list string))
  : list Entry :=
  match selectedTags with
  | None | Some [] => items
  | Some sel => filter (fun item => existsb (has (tagSet item)) sel) items
  end.

(** [obj[k] = v] on the property list: an existing property keeps its
    place, a new one comes last. *)
Fixpoint assign (k : string) (v : jsval) (ps : list (string * jsval))
  : list (string * jsval) :=
  match ps with
  | [] => [(k, v)]
  | (k', v') :: rest =>
      if String.eqb k k' then (k, v) :: rest else (k', v') :: assign k v rest
  end.

(** [{ ...v, type: 'video' }]. *)
Definition withType (ty : string) (e : Entry) : Entry :=
  {| props := assign "type" (JStr ty) (props e);
     tags := tags e;
     metadataTags := metadataTags e |}.

(** [[
  const merged = [];
  const maxLen = Math.max(vids.length, imgs.length);
  for (let i = 0; i < maxLen; i++) {
    if (i < vids.length) merged.push(vids[i]);
    if (i < imgs.length) merged.push(imgs[i]);
  }
]] *)
Fixpoint interleave {A : Type} (vids imgs : list A) : list A :=
  match vids with
  | [] => imgs
  | v :: vids' =>
      match imgs with
      | [] => v :: interleave vids' []
      | i :: imgs' => v :: i :: interleave vids' imgs'
      end
  end.

(** The state of [App] that decides what the grid and the highlight panel
    show. *)
Record State : Type := {
  videos : list Entry;
  images : list Entry;
  displayMode : Masonry.displayMode;
  selectedTags : option (list string);
  highlightModeEnabled : bool;
  highlightedVideo : option nat;
  lockedVideo : option nat
}.

Definition filteredVideos (s : State) : list Entry :=
  filterByTags (videos s) (selectedTags s).

Definition filteredImages (s : State) : list Entry :=
  filterByTags (images s) (selectedTags s).

(** [displayItems]: the list handed to [HighlightSection]. *)
Definition displayItems (s : State) : list Entry :=
  let vids := map (withType "video") (filterByTags (videos s) (selectedTags s)) in
  let imgs := map (withType "image") (filterByTags (images s) (selectedTags s)) in
  match displayMode s with
  | Masonry.images => imgs
  | Masonry.mixed => interleave vids imgs
  | Masonry.videos => vids
  end.

Definition shuffleVisibleCount (s : State) : nat :=
  match displayMode s with
  | Masonry.images => List.length (filteredImages s)
  | Masonry.videos => List.length (filteredVideos s)
  | Masonry.mixed => List.length (filteredImages s) + List.length (filteredVideos s)
  end.

(** The props [App] passes to [VideoMasonry]. *)
Definition masonryProps (s : State) : Masonry.Props :=
  {| Masonry.videoList := map body (filteredVideos s);
     Masonry.imageList := map body (filteredImages s);
     Masonry.mode := displayMode s;
     Masonry.highlightModeEnabled := highlightModeEnabled s;
     Masonry.totalVideosCount := List.length (videos s);
     Masonry.totalImagesCount := List.length (images s) |}.

(** The main area: [App] shows its own message in the images mode when no
    image passes the filter, and [VideoMasonry] otherwise. *)
Inductive mainView : Type :=
| NoImagesMatch
| MasonryView (v : Masonry.view).

Definition mainArea (s : State) (e : Masonry.Measured) (autoScrollActive : bool)
  : mainView :=
  match displayMode s with
  | Masonry.images =>
      if (List.length (filterByTags (images s) (selectedTags s)) =? 0)%nat
      then NoImagesMatch
      else MasonryView (Masonry.render (masonryProps s) e autoScrollActive)
  | _ => MasonryView (Masonry.render (masonryProps s) e autoScrollActive)
  end.

(** *** Highlight selection *)

Definition set_highlight (h l : option nat) (s : State) : State :=
  {| videos := videos s; images := images s; displayMode := displayMode s;
     selectedTags := selectedTags s;
     highlightModeEnabled := highlightModeEnabled s;
     highlightedVideo := h; lockedVideo := l |}.

Definition set_highlightModeEnabled (b : bool) (s : State) : State :=
  {| videos := videos s; images := images s; displayMode := displayMode s;
     selectedTags := selectedTags s;
     highlightModeEnabled := b;
     highlightedVideo := highlightedVideo s; lockedVideo := lockedVideo s |}.

Definition set_media (vs ims : list Entry) (s : State) : State :=
  {| videos := vs; images := ims; displayMode := displayMode s;
     selectedTags := selectedTags s;
     highlightModeEnabled := highlightModeEnabled s;
     highlightedVideo := highlightedVideo s; lockedVideo := lockedVideo s |}.

Definition set_displayMode (m : Masonry.displayMode) (s : State) : State :=
  {| videos := videos s; images := images s; displayMode := m;
     selectedTags := selectedTags s;
     highlightModeEnabled := highlightModeEnabled s;
     highlightedVideo := highlightedVideo s; lockedVideo := lockedVideo s |}.

Definition set_selectedTags (t : option (list string)) (s : State) : State :=
  {| videos := videos s; images := images s; displayMode := displayMode s;
     selectedTags := t;
     highlightModeEnabled := highlightModeEnabled s;
     highlightedVideo := highlightedVideo s; lockedVideo := lockedVideo s |}.

(** [currentLocked === videoIndex]. *)
Definition isIndex (o : option nat) (k : nat) : bool :=
  match o with Some i => (i =? k)%nat | None => false end.

(** [highlightVideo(videoIndex, isLocked)]: a click ([isLocked]) locks the
    item, or unlocks it when it is the locked one; a hover changes the
    highlighted item only while nothing is locked. *)
Definition highlightVideo (videoIndex : nat) (isLocked : bool) (s : State) : State :=
  if isLocked then
    if isIndex (lockedVideo s) videoIndex
    then set_highlight None None s
    else set_highlight (Some videoIndex) (Some videoIndex) s
  else
    match lockedVideo s with
    | None => set_highlight (Some videoIndex) None s
    | Some _ => s
    end.

Definition clearHighlight (s : State) : State := set_highlight None None s.

(** [onToggleHighlightMode]. *)
Definition toggleHighlightMode (enabled : bool) (s : State) : State :=
  let s1 := set_highlightModeEnabled enabled s in
  if enabled then s1 else clearHighlight s1.

(** *** What a grid item reports

    [VideoMasonry.renderItem] passes [itemData.index] as the [index] prop
    and [onHighlightVideo] as [onHighlight]. *)

(** [itemData.index] as a position in an array. *)
Definition itemIndex (itemData : jsval) : option nat :=
  match field itemData "index" with
  | JNum q =>
      if Qeq_bool q (inject_Z (Qfloor q)) && (0 <=? Qfloor q)%Z
      then Some (Z.to_nat (Qfloor q))
      else None
  | _ => None
  end.

Inductive gesture : Type := Click | Enter.

(** The call of [onHighlight] made by [handleClick] and [handleMouseEnter]
    of [ImageItem] and of [VideoItem] (whose handlers do nothing for the
    panel before the video is loaded); the placeholder has no handler. *)
Definition report (g : gesture) (itemData : jsval) (isLoaded highlightMode : bool)
  : option (nat * bool) :=
  let call := option_map (fun k => (k, match g with Click => true | Enter => false end))
                         (itemIndex itemData) in
  if is_string (field itemData "type") "placeholder" then None
  else if is_string (field itemData "type") "image" then
    if highlightMode then call else None
  else
    match g with
    | Click => if negb isLoaded then None else if highlightMode then call else None
    | Enter => if highlightMode && isLoaded then call else None
    end.

(** *** [HighlightSection]: the item shown *)

Definition currentIndex (s : State) : option nat :=
  match lockedVideo s with
  | Some k => Some k
  | None => highlightedVideo s
  end.

(** [[
  if (currentIndex == null || currentIndex < 0 || currentIndex >= items.length)
    return null;
  return items[currentIndex];
]] *)
Definition currentItem (items : list Entry) (s : State) : option Entry :=
  match currentIndex s with
  | None => None
  | Some k => nth_error items k
  end.

(** [HighlightSection.handleMediaClick], away from the controls. *)
Definition panelClick (s : State) : State :=
  match lockedVideo s with
  | Some _ => clearHighlight s
  | None => s
  end.

(** *** Shuffle *)

(** [a[k] = x] for [k] inside the array. *)
Fixpoint store {A : Type} (k : nat) (x : A) (a : list A) : list A :=
  match a, k with
  | [], _ => []
  | _ :: rest, O => x :: rest
  | y :: rest, S k' => y :: store k' x rest
  end.

(** [[ [a[i], a[j]] = [a[j], a[i]]; ]] with both indices inside the array
    ([None]: an index outside, which is not modelled). *)
Definition swap {A : Type} (i j : nat) (a : list A) : option (list A) :=
  match nth_error a i, nth_error a j with
  | Some x, Some y => Some (store j x (store i y a))
  | _, _ => None
  end.

(** The loop of [shuffle], from index [i] down to 1. [random n] is the
    value of the [n]-th call of [Math.random()]; the result comes with the
    number of calls made. *)
Fixpoint shuffleFrom {A : Type} (random : nat -> Q) (calls : nat) (i : nat)
  (a : list A) : option (list A * nat) :=
  match i with
  | O => Some (a, calls)
  | S i' =>
      let j := Qfloor (random calls * inject_Z (Z.of_nat i + 1)) in
      if (j <? 0)%Z then None
      else match swap i (Z.to_nat j) a with
           | Some a' => shuffleFrom random (S calls) i' a'
           | None => None
           end
  end.

Definition shuffle {A : Type} (random : nat -> Q) (calls : nat) (arr : list A)
  : option (list A * nat) :=
  shuffleFrom random calls (List.length arr - 1) arr.

(** [shuffleMedia]: nothing happens in the images and videos modes when the
    list has at most one entry; otherwise the lists of the mode are
    shuffled, and the highlight and the lock are cleared. *)
Definition shuffleMedia (random : nat -> Q) (s : State) : option State :=
  match displayMode s with
  | Masonry.images =>
      if (List.length (images s) <=? 1)%nat then Some s
      else match shuffle random 0 (images s) with
           | Some (ims, _) => Some (clearHighlight (set_media (videos s) ims s))
           | None => None
           end
  | Masonry.videos =>
      if (List.length (videos s) <=? 1)%nat then Some s
      else match shuffle random 0 (videos s) with
           | Some (vs, _) => Some (clearHighlight (set_media vs (images s) s))
           | None => None
           end
  | Masonry.mixed =>
      match (if (1 <? List.length (videos s))%nat
             then shuffle random 0 (videos s) else Some (videos s, 0%nat)) with
      | Some (vs, calls) =>
          match (if (1 <? List.length (images s))%nat
                 then shuffle random calls (images s) else Some (images s, calls)) with
          | Some (ims, _) => Some (clearHighlight (set_media vs ims s))
          | None => None
          end
      | None => None
      end
  end.

(** *** Tags offered and toggled by the settings panel *)

(** The elements of [new Set(l)], in the order of insertion. *)
Fixpoint setOf (l : list string) : list string :=
  match l with
  | [] => []
  | x :: rest => x :: filter (fun y => negb (String.eqb x y)) (setOf rest)
  end.

Fixpoint insertSorted (x : string) (l : list string) : list string :=
  match l with
  | [] => [x]
  | y :: rest => if String.leb x y then x :: l else y :: insertSorted x rest
  end.

(** [Array.prototype.sort()] without comparator, on strings. *)
Definition sort (l : list string) : list string :=
  fold_right insertSorted [] l.

(** [[
  availableTags={Array.from(new Set([
    ...videos.flatMap(v => (v.tags || [])),
    ...images.flatMap(i => (i.tags || []))
  ])).sort()}
]] *)
Definition availableTags (s : State) : list string :=
  sort (setOf (flat_map (fun v => orEmpty (tags v)) (videos s)
               ++ flat_map (fun i => orEmpty (tags i)) (images s))).

(** [[
  const toggleTag = (tag) => {
    const current = new Set(settings.selectedTags || []);
    if (current.has(tag)) current.delete(tag); else current.add(tag);
    onUpdateSetting('selectedTags', Array.from(current));
  };
]] *)
Definition toggleTag (tag : string) (s : State) : State :=
  let current := setOf (orEmpty (selectedTags s)) in
  set_selectedTags
    (Some (if has current tag
           then filter (fun t => negb (String.eqb tag t)) current
           else (current ++ [tag])%list))
    s.

(** *** Events that reach the highlight selection *)

Inductive event : Type :=
| Pointer (g : gesture) (itemData : jsval) (isLoaded : bool)
| PanelClick
| ToggleHighlightMode (enabled : bool)
| ShuffleMedia (random : nat -> Q)
| ToggleTag (tag : string)
| SetDisplayMode (m : Masonry.displayMode).

Definition step (ev : event) (s : State) : State :=
  match ev with
  | Pointer g itemData isLoaded =>
      match report g itemData isLoaded (highlightModeEnabled s) with
      | Some (k, isLocked) => highlightVideo k isLocked s
      | None => s
      end
  | PanelClick => panelClick s
  | ToggleHighlightMode enabled => toggleHighlightMode enabled s
  | ShuffleMedia random =>
      match shuffleMedia random s with
      | Some s' => s'
      | None => s
      end
  | ToggleTag tag => toggleTag tag s
  | SetDisplayMode m => set_displayMode m s
  end.

(** [Math.random()] returns a number of [[0, 1)]. *)
Definition inRange (random : nat -> Q) : Prop :=
  forall n, (0 <= random n /\ random n < 1)%Q.

Definition fair (ev : event) : Prop :=
  match ev with
  | ShuffleMedia random => inRange random
  | _ => True
  end.

(** The highlight selection is consistent: a locked item is the highlighted
    one, and nothing is selected while the highlight mode is off. *)
Definition consistent (s : State) : Prop :=
  (forall k, lockedVideo s = Some k -> highlightedVideo s = Some k)
  /\ (highlightModeEnabled s = false ->
      highlightedVideo s = None /\ lockedVideo s = None).

Definition run (evs : list event) (s : State) : State :=
  fold_left (fun s ev => step ev s) evs s.

(** [App] after the media lists were loaded: nothing is highlighted when
    the highlight mode is off. *)
Definition initial (vs ims : list Entry) (m : Masonry.displayMode)
  (sel : option (list string)) (highlightMode : bool) : State :=
  {| videos := vs; images := ims; displayMode := m; selectedTags := sel;
     highlightModeEnabled := highlightMode;
     highlightedVideo := None; lockedVideo := None |}.

(** The grid entry at a position and the panel entry at the same position:
    the same descriptor of the filtered lists, numbered with the position in
    the grid and marked with its type in the panel. *)
Definition aligned (n : nat) (g : option jsval) (p : option Entry)
  (vs ims : list Entry) : Prop :=
  match g with
  | Some g =>
      exists e,
        (In e vs /\ g = videoItem (body e) n /\ p = Some (withType "video" e))
        \/ (In e ims /\ g = imageItem (body e) n /\ p = Some (withType "image" e))
  | None => p = None
  end.

End App.

(** ** [VideoMasonry]: height estimate, preload margins, rendered items *)

Module Grid.

Import JS Height Masonry.
Import Double.
Local Open Scope string_scope.
Local Open Scope Q_scope.

(** *** [averageAspectRatio] *)

(** [[
  if (video.metadata && video.metadata.dimensions &&
      video.metadata.dimensions.width && video.metadata.dimensions.height) {
    const metaWidth = parseInt(video.metadata.dimensions.width);
    const metaHeight = parseInt(video.metadata.dimensions.height);
    if (metaWidth > 0 && metaHeight > 0) {
      totalAspectRatio += (metaWidth / metaHeight); validAspectRatios++; return;
    }
  }
]]
    [Some r] is the ratio added before the [return]; [None] means that the
    next statement runs. *)
Definition ratioByMetadata (video : jsval) : outcome (option double) :=
  c <- test (get video "metadata")
       &&& test (m <- get video "metadata" ;; get m "dimensions")
       &&& test (m <- get video "metadata" ;; d <- get m "dimensions" ;; get d "width")
       &&& test (m <- get video "metadata" ;; d <- get m "dimensions" ;; get d "height") ;;
  if c then
    w <- (m <- get video "metadata" ;; d <- get m "dimensions" ;;
          x <- get d "width" ;; parseInt x) ;;
    h <- (m <- get video "metadata" ;; d <- get m "dimensions" ;;
          x <- get d "height" ;; parseInt x) ;;
    match w, h with
    | Some w, Some h =>
        if posZ w && posZ h
        then Returns (Some (div (ofZ w) (ofZ h)))
        else Returns None
    | _, _ => Returns None
    end
  else Returns None.

(** [[
  if (video.width && video.height && video.width > 0 && video.height > 0) {
    totalAspectRatio += (video.width / video.height); validAspectRatios++; return;
  }
]] *)
Definition ratioByTopLevel (video : jsval) : outcome (option double) :=
  c <- test (get video "width")
       &&& test (get video "height")
       &&& (x <- get video "width" ;; gt0 x)
       &&& (x <- get video "height" ;; gt0 x) ;;
  if c then
    w <- (x <- get video "width" ;; toNumber x) ;;
    h <- (x <- get video "height" ;; toNumber x) ;;
    Returns (Some (div (ofNumber w) (ofNumber h)))
  else Returns None.

(** [[
  if (video.aspect_ratio && video.aspect_ratio > 0) {
    totalAspectRatio += video.aspect_ratio; validAspectRatios++; return;
  }
]] *)
Definition ratioByAspectRatio (video : jsval) : outcome (option double) :=
  c <- test (get video "aspect_ratio")
       &&& (x <- get video "aspect_ratio" ;; gt0 x) ;;
  if c then
    r <- (x <- get video "aspect_ratio" ;; toNumber x) ;;
    Returns (Some (ofNumber r))
  else Returns None.

(** The callback of [list.forEach]: the ratio of the first priority that
    applies, or none ("no usable dimensions found"). *)
Definition entryRatio (video : jsval) : outcome (option double) :=
  orElse (ratioByMetadata video)
         (orElse (ratioByTopLevel video) (ratioByAspectRatio video)).

(** [[
  const list = mode === 'images' ? images
             : (mode === 'mixed' ? [...videos, ...images] : videos);
]] *)
Definition ratioList (p : Props) : list jsval :=
  match mode p with
  | images => imageList p
  | mixed => videoList p ++ imageList p
  | videos => videoList p
  end.

(** [list.forEach(...)] with its two counters. *)
Fixpoint accumulate (l : list jsval) (totalAspectRatio : double) (validAspectRatios : nat)
  : outcome (double * nat) :=
  match l with
  | [] => Returns (totalAspectRatio, validAspectRatios)
  | video :: rest =>
      r <- entryRatio video ;;
      match r with
      | Some x => accumulate rest (add totalAspectRatio x) (S validAspectRatios)
      | None => accumulate rest totalAspectRatio validAspectRatios
      end
  end.

(** [averageAspectRatio]. The statements after the average only count and
    log the orientations and are left out. *)
Definition averageAspectRatio (p : Props) : outcome double :=
  let list := ratioList p in
  if (List.length list =? 0)%nat then Returns (div (ofZ 16) (ofZ 9)) else
  tv <- accumulate list (ofZ 0) 0 ;;
  Returns (if (0 <? snd tv)%nat
           then div (fst tv) (ofZ (Z.of_nat (snd tv)))
           else div (ofZ 16) (ofZ 9)).

(** [itemHeightEstimate: settings.gridSize / averageAspectRatio]. *)
Definition itemHeightEstimate (gridSize : double) (p : Props) : outcome double :=
  r <- averageAspectRatio p ;; Returns (div gridSize r).

(** *** The ratio of an entry in the words of [Height] *)

(** The ratio that decides the slot height of a descriptor, when it has
    usable dimensions. *)
Definition usableRatio (item : jsval) : option double :=
  match ratioOfPixels item with
  | Some r => Some r
  | None =>
      match ratioOfTopLevel item with
      | Some r => Some r
      | None => ratioProvided item
      end
  end.

Definition usableRatios (l : list jsval) : list double :=
  flat_map (fun item => match usableRatio item with Some r => [r] | None => [] end) l.

(** The mean of the ratios, summed in the order of the list, 16:9 when
    there is none. *)
Definition mean (l : list double) : double :=
  match l with
  | [] => div (ofZ 16) (ofZ 9)
  | _ => div (fold_left add l (ofZ 0)) (ofZ (Z.of_nat (List.length l)))
  end.

(** *** Preload margins *)

(** [Math.round]. *)
Definition round (q : Q) : Z := Qfloor (q + (1 # 2)).

(** [v === undefined || v === null]. *)
Definition nullish (v : jsval) : bool :=
  match v with
  | JUndefined | JNull => true
  | _ => false
  end.

(** [v ?? d]. *)
Definition coalesce (v d : jsval) : jsval := if nullish v then d else v.

(** [[
  const overscanMultiplier = settings?.overscanMultiplier ?? 1.5;
  const imagePreloadMultiplier = settings?.imagePreloadMultiplier ?? overscanMultiplier;
  const videoPreloadMultiplier = settings?.videoPreloadMultiplier ?? overscanMultiplier;
]] *)
Definition overscanMultiplier (settings : jsval) : jsval :=
  coalesce (field settings "overscanMultiplier") (JNum (3 # 2)).

Definition imagePreloadMultiplier (settings : jsval) : jsval :=
  coalesce (field settings "imagePreloadMultiplier") (overscanMultiplier settings).

Definition videoPreloadMultiplier (settings : jsval) : jsval :=
  coalesce (field settings "videoPreloadMultiplier") (overscanMultiplier settings).

(** [[
  const h = containerDimensions.height
            || (typeof window !== 'undefined' ? window.innerHeight : 600);
]] *)
Definition viewportHeight (containerHeight : Q) (innerHeight : option Q) : Q :=
  if Qeq_bool containerHeight 0
  then match innerHeight with Some h => h | None => 600 end
  else containerHeight.

(** [Math.max(0, Math.round(h * multiplier))]; [None] is NaN. *)
Definition preloadMarginPx (h : Q) (multiplier : jsval) : outcome (option Q) :=
  m <- toNumber multiplier ;;
  Returns (option_map (fun m => Qmax 0 (inject_Z (round (h * m)))) m).

(** The [preloadMarginPx] prop of an item: missing, NaN or a number. *)
Inductive marginProp : Type :=
| NoMargin
| NaNMargin
| Margin (px : Q).

(** The margin an item hands to its intersection observer ([None] is NaN):
    [Math.max(0, preloadMarginPx ?? 400)] in [ImageItem],
    [Math.max(0, preloadMarginPx ?? Math.floor(viewportHeight / 2))] in
    [VideoItem], where [viewportHeight] is [window.innerHeight], or 800
    without a window. *)
Definition imageRootMargin (preloadMargin : marginProp) : option Q :=
  match preloadMargin with
  | NoMargin => Some (Qmax 0 400)
  | NaNMargin => None
  | Margin m => Some (Qmax 0 m)
  end.

Definition videoRootMargin (preloadMargin : marginProp) (innerHeight : option Q)
  : option Q :=
  let viewport := match innerHeight with Some h => h | None => 800 end in
  match preloadMargin with
  | NoMargin => Some (Qmax 0 (inject_Z (Qfloor (viewport / 2))))
  | NaNMargin => None
  | Margin m => Some (Qmax 0 m)
  end.

(** *** [renderItem] *)

(** What [renderItem] returns for an entry: the two boxes with a fixed
    height, or an item with its props. *)
Inductive element : Type :=
| ErrorBox (height : Q)
| PlaceholderBox (height : Q)
| ImageElement (image index : jsval) (preloadMargin : marginProp)
| VideoElement (video index : jsval) (preloadMargin : marginProp).

(** A margin computed by [VideoMasonry], as a prop. *)
Definition asProp (margin : option Q) : marginProp :=
  match margin with
  | Some m => Margin m
  | None => NaNMargin
  end.

Definition renderItem (itemData : jsval) (imagePreloadMarginPx videoPreloadMarginPx : option Q)
  : outcome element :=
  if negb (truthy itemData) then Returns (ErrorBox 200) else
  ty <- get itemData "type" ;;
  if is_string ty "placeholder" then Returns (PlaceholderBox 100) else
  if is_string ty "image" then
    image <- get itemData "image" ;;
    index <- get itemData "index" ;;
    Returns (ImageElement image index (asProp imagePreloadMarginPx))
  else
    video <- get itemData "video" ;;
    index <- get itemData "index" ;;
    Returns (VideoElement video index (asProp videoPreloadMarginPx)).

(** *** The entries of [itemsData], by kind *)

Definition videosOf (items : list jsval) : list jsval :=
  map (fun g => field g "video")
      (filter (fun g => is_string (field g "type") "video") items).

Definition imagesOf (items : list jsval) : list jsval :=
  map (fun g => field g "image")
      (filter (fun g => is_string (field g "type") "image") items).

End Grid.

(** ** [App]: settings and their storage *)

Module Settings.

Import JS.
Local Open Scope string_scope.
Local Open Scope Q_scope.

(** The settings object. The values of module [JS] have no arrays, so the
    one array-valued key, [selectedTags], is kept beside the other
    properties ([None]: the key is absent). *)
Record Object : Type := {
  scalars : list (string * jsval);
  selectedTags : option (list string)
}.

(** [obj[k] = v] on the property list: an existing property keeps its
    place, a new one comes last. *)
Fixpoint assign (k : string) (v : jsval) (ps : list (string * jsval))
  : list (string * jsval) :=
  match ps with
  | [] => [(k, v)]
  | (k', v') :: rest =>
      if String.eqb k k' then (k, v) :: rest else (k', v') :: assign k v rest
  end.

Definition set (k : string) (v : jsval) (o : Object) : Object :=
  {| scalars := assign k v (scalars o); selectedTags := selectedTags o |}.

Definition setTags (l : list string) (o : Object) : Object :=
  {| scalars := scalars o; selectedTags := Some l |}.

(** [{ ...a, ...b }]. *)
Definition spread (a b : Object) : Object :=
  {| scalars := fold_left (fun acc kv => assign (fst kv) (snd kv) acc)
                          (scalars b) (scalars a);
     selectedTags := match selectedTags b with
                     | Some l => Some l
                     | None => selectedTags a
                     end |}.

(** [JSON.parse(JSON.stringify(v))]: properties whose value is [undefined]
    are dropped, at every depth. *)
Fixpoint jsonValue (v : jsval) : jsval :=
  match v with
  | JObj props =>
      JObj ((fix go (ps : list (string * jsval)) : list (string * jsval) :=
               match ps with
               | [] => []
               | (k, JUndefined) :: rest => go rest
               | (k, x) :: rest => (k, jsonValue x) :: go rest
               end) props)
  | _ => v
  end.

Fixpoint jsonProps (ps : list (string * jsval)) : list (string * jsval) :=
  match ps with
  | [] => []
  | (k, JUndefined) :: rest => jsonProps rest
  | (k, x) :: rest => (k, jsonValue x) :: jsonProps rest
  end.

Definition json (o : Object) : Object :=
  {| scalars := jsonProps (scalars o); selectedTags := selectedTags o |}.

(** The object [VideoMasonry], [VideoItem] and [useAutoScroll] read their
    settings from; they read no array. *)
Definition view (o : Object) : jsval := JObj (scalars o).

(** The initial value of the [settings] state. *)
Definition initialSettings : Object :=
  {| scalars := [("gridSize", JNum 260); ("autoplay", JBool true);
                 ("autoScroll", JBool true); ("highlightMode", JBool false);
                 ("scrollSpeed", JNum 3); ("isMuted", JBool true);
                 ("displayMode", JStr "videos"); ("overScanMultiplier", JNum 2)];
     selectedTags := Some [] |}.

(** [defaultSettings], which [resetToDefaults] installs. *)
Definition defaultSettings : Object :=
  {| scalars := [("gridSize", JNum 260); ("autoplay", JBool true);
                 ("autoScroll", JBool true); ("volume", JNum (7 # 10));
                 ("playbackRate", JNum 1); ("musicEnabled", JBool true);
                 ("displayMode", JStr "videos")];
     selectedTags := Some [] |}.

(** The state of [App] that is saved, and [localStorage] under
    [SETTINGS_KEY] ([None]: no item). *)
Record App : Type := {
  settings : Object;
  controlsCollapsed : bool;
  highlightModeEnabled : jsval;
  musicEnabled : jsval;
  currentTrackIndex : nat;
  storage : option Object
}.

Definition set_settings (v : Object) (a : App) : App :=
  {| settings := v; controlsCollapsed := controlsCollapsed a;
     highlightModeEnabled := highlightModeEnabled a; musicEnabled := musicEnabled a;
     currentTrackIndex := currentTrackIndex a; storage := storage a |}.

Definition set_controlsCollapsed (v : bool) (a : App) : App :=
  {| settings := settings a; controlsCollapsed := v;
     highlightModeEnabled := highlightModeEnabled a; musicEnabled := musicEnabled a;
     currentTrackIndex := currentTrackIndex a; storage := storage a |}.

Definition set_highlightModeEnabled (v : jsval) (a : App) : App :=
  {| settings := settings a; controlsCollapsed := controlsCollapsed a;
     highlightModeEnabled := v; musicEnabled := musicEnabled a;
     currentTrackIndex := currentTrackIndex a; storage := storage a |}.

Definition set_musicEnabled (v : jsval) (a : App) : App :=
  {| settings := settings a; controlsCollapsed := controlsCollapsed a;
     highlightModeEnabled := highlightModeEnabled a; musicEnabled := v;
     currentTrackIndex := currentTrackIndex a; storage := storage a |}.

Definition set_currentTrackIndex (v : nat) (a : App) : App :=
  {| settings := settings a; controlsCollapsed := controlsCollapsed a;
     highlightModeEnabled := highlightModeEnabled a; musicEnabled := musicEnabled a;
     currentTrackIndex := v; storage := storage a |}.

Definition set_storage (v : option Object) (a : App) : App :=
  {| settings := settings a; controlsCollapsed := controlsCollapsed a;
     highlightModeEnabled := highlightModeEnabled a; musicEnabled := musicEnabled a;
     currentTrackIndex := currentTrackIndex a; storage := v |}.

(** [[
  const settingsToSave = {
    ...settings, controlsCollapsed, highlightMode: highlightModeEnabled,
    musicEnabled, currentTrackIndex, ...overrides
  };
]]
    with the state of the render [r] that built [saveCurrentSettings]. *)
Definition settingsToSave (r : App) (overrides : Object) : Object :=
  spread
    (set "currentTrackIndex" (JNum (inject_Z (Z.of_nat (currentTrackIndex r))))
       (set "musicEnabled" (musicEnabled r)
          (set "highlightMode" (highlightModeEnabled r)
             (set "controlsCollapsed" (JBool (controlsCollapsed r)) (settings r)))))
    overrides.

(** [saveCurrentSettings(overrides)] of the render [r], run by a timeout
    against the storage of [a]. Every timeout of delay 0 is taken to run
    before the next event. *)
Definition saveCurrentSettings (r : App) (overrides : Object) (a : App) : App :=
  set_storage (Some (json (settingsToSave r overrides))) a.

Definition noOverrides : Object := {| scalars := []; selectedTags := None |}.

Definition override (k : string) (v : jsval) : Object :=
  {| scalars := [(k, v)]; selectedTags := None |}.

(** [updateSetting(key, value)]: the new settings are computed from the
    settings as they stand; the save that the timeout runs is the one of
    the render in which the handler was built. *)
Definition updateSetting (key : string) (value : jsval) (a : App) : App :=
  saveCurrentSettings a (override key value)
    (set_settings (set key value (settings a)) a).

(** [updateSetting('selectedTags', tags)]. *)
Definition updateTags (tags : list string) (a : App) : App :=
  saveCurrentSettings a {| scalars := []; selectedTags := Some tags |}
    (set_settings (setTags tags (settings a)) a).

(** [toggleMuteAll]. *)
Definition toggleMuteAll (a : App) : App :=
  let newMuted := negb (truthy (lookup "isMuted" (scalars (settings a)))) in
  updateSetting "isMuted" (JBool newMuted) a.

(** [onToggleMusic]: [setMusicEnabled(!musicEnabled)], then
    [saveSettings()] of the same render in a timeout. *)
Definition toggleMusic (a : App) : App :=
  saveCurrentSettings a noOverrides
    (set_musicEnabled (JBool (negb (truthy (musicEnabled a)))) a).

(** [toggleMusicPlayPause] when the player starts: [play()] resolves and a
    timeout runs the [saveCurrentSettings()] of the render of the click;
    the promise is taken to resolve before the next event. *)
Definition musicStarted (a : App) : App := saveCurrentSettings a noOverrides a.

(** [toggleControls]. *)
Definition toggleControls (a : App) : App :=
  let newCollapsedState := negb (controlsCollapsed a) in
  saveCurrentSettings a (override "controlsCollapsed" (JBool newCollapsedState))
    (set_controlsCollapsed newCollapsedState a).

(** [handleMusicTrackChange(newIndex)]: the index is set and the timeout
    saves it. Between the two, the render may run the effect that restores
    the index; here that is an event of its own, [RestoreTrack], which
    gives the same state when it follows; [changeTrack] below has the
    effect in its place. *)
Definition handleMusicTrackChange (newIndex : nat) (a : App) : App :=
  saveCurrentSettings a
    (override "currentTrackIndex" (JNum (inject_Z (Z.of_nat newIndex))))
    (set_currentTrackIndex newIndex a).

(** [resetToDefaults]. *)
Definition resetToDefaults (a : App) : App :=
  {| settings := defaultSettings; controlsCollapsed := true;
     highlightModeEnabled := JBool false; musicEnabled := JBool true;
     currentTrackIndex := currentTrackIndex a; storage := None |}.

(** [loadSettings], which the mount effect runs. *)
Definition loadSettings (a : App) : App :=
  match storage a with
  | Some parsed =>
      {| settings := spread (settings a) parsed;
         controlsCollapsed :=
           match lookup "controlsCollapsed" (scalars parsed) with
           | JBool false => false
           | _ => true
           end;
         highlightModeEnabled :=
           (let v := lookup "highlightMode" (scalars parsed) in
            if truthy v then v else JBool false);
         musicEnabled :=
           match lookup "musicEnabled" (scalars parsed) with
           | JUndefined => JBool true
           | v => v
           end;
         currentTrackIndex := currentTrackIndex a;
         storage := storage a |}
  | None => set_controlsCollapsed true a
  end.

(** [App] before its mount effect, in a browser whose storage holds
    [stored]. *)
Definition fresh (stored : option Object) : App :=
  {| settings := initialSettings; controlsCollapsed := true;
     highlightModeEnabled := JBool false; musicEnabled := JBool true;
     currentTrackIndex := 0; storage := stored |}.

(** The page is opened with the storage as it stands; the track index is
    restored later, when the tracks have arrived ([RestoreTrack]). *)
Definition reload (a : App) : App := loadSettings (fresh (storage a)).

(** [RestoreTrack] is a [setCurrentTrackIndex] of [restoreTrackIndex] or of
    one of the two restoring effects. *)
Inductive event : Type :=
| UpdateSetting (key : string) (value : jsval)
| UpdateTags (tags : list string)
| ToggleMuteAll
| ToggleHighlightMode (enabled : bool)
| ToggleMusic
| MusicStarted
| ToggleControls
| TrackChange (newIndex : nat)
| RestoreTrack (savedIndex : nat)
| ResetToDefaults
| Reload.

Definition step (ev : event) (a : App) : App :=
  match ev with
  | UpdateSetting key value => updateSetting key value a
  | UpdateTags tags => updateTags tags a
  | ToggleMuteAll => toggleMuteAll a
  | ToggleHighlightMode enabled => set_highlightModeEnabled (JBool enabled) a
  | ToggleMusic => toggleMusic a
  | MusicStarted => musicStarted a
  | ToggleControls => toggleControls a
  | TrackChange newIndex => handleMusicTrackChange newIndex a
  | RestoreTrack savedIndex => set_currentTrackIndex savedIndex a
  | ResetToDefaults => resetToDefaults a
  | Reload => reload a
  end.

Definition run (evs : list event) (a : App) : App :=
  fold_left (fun a ev => step ev a) evs a.

(** The first visit: nothing is stored. *)
Definition firstVisit : App := reload (fresh None).

(** *** What the settings panel sends *)

(** The keys of the sliders, switches and mode buttons of [SettingsPanel]
    and [Controls]; the tags go through [UpdateTags]. *)
Definition panelKeys : list string :=
  ["gridSize"; "scrollSpeed"; "displayMode"; "autoplay"; "autoScroll";
   "overScanMultiplier"].

(** A value of a slider, a switch or a mode button: a number, a boolean, a
    string. *)
Definition plain (v : jsval) : bool :=
  match v with
  | JBool _ | JNum _ | JStr _ => true
  | _ => false
  end.

Definition fromPanel (ev : event) : bool :=
  match ev with
  | UpdateSetting key value => existsb (String.eqb key) panelKeys && plain value
  | _ => true
  end.

Definition keepsDefaults (ev : event) : bool :=
  match ev with
  | ResetToDefaults => false
  | _ => true
  end.

(** The events that neither write [isMuted] nor replace the settings. *)
Definition keepsMute (ev : event) : bool :=
  match ev with
  | ToggleMuteAll | ResetToDefaults | Reload => false
  | _ => true
  end.

(** The keys under which [saveCurrentSettings] stores the state beside the
    settings. *)
Definition stateKeys : list string :=
  ["controlsCollapsed"; "highlightMode"; "musicEnabled"; "currentTrackIndex"].

(** *** [restoreTrackIndex] *)

(** [[
  if (tracks.length === 0) return;
  ... if (parsed.currentTrackIndex !== undefined) {
        const savedIndex = parseInt(parsed.currentTrackIndex);
        if (savedIndex >= 0 && savedIndex < tracks.length) {
          setCurrentTrackIndex(savedIndex); return;
        } }
  setCurrentTrackIndex(0);
]]
    The index after the call, given the number of tracks and the index
    before. *)
Definition restoreTrackIndex (tracks : nat) (stored : option Object) (current : nat)
  : outcome nat :=
  if (tracks =? 0)%nat then Returns current else
  match stored with
  | Some parsed =>
      match lookup "currentTrackIndex" (scalars parsed) with
      | JUndefined => Returns 0%nat
      | v =>
          match parseInt v with
          | Throws => Returns 0%nat   (* catch (error) { setCurrentTrackIndex(0) } *)
          | r =>
              savedIndex <- r ;;
              match savedIndex with
              | Some i =>
                  if (0 <=? i)%Z && (i <? Z.of_nat tracks)%Z
                  then Returns (Z.to_nat i)
                  else Returns 0%nat
              | None => Returns 0%nat
              end
          end
      end
  | None => Returns 0%nat
  end.

(** *** The buttons for the next and the previous track *)

(** The effect that restores the track index while music is enabled:
    [[
  useEffect(() => {
    if (musicEnabled && musicTracks.length > 0 && currentTrackIndex === 0) {
      const saved = localStorage.getItem(SETTINGS_KEY);
      if (saved) {
        try {
          const parsed = JSON.parse(saved);
          const savedIndex = parseInt(parsed.currentTrackIndex);
          if (!isNaN(savedIndex) && savedIndex > 0 && savedIndex < musicTracks.length)
            setCurrentTrackIndex(savedIndex);
        } catch (error) { ... }
      } }
  }, [musicEnabled, musicTracks.length, currentTrackIndex]);
]] *)
Definition restoreWhenEnabled (tracks : nat) (a : App) : outcome App :=
  if truthy (musicEnabled a) && (0 <? tracks)%nat && (currentTrackIndex a =? 0)%nat
  then
    match storage a with
    | Some parsed =>
        match parseInt (lookup "currentTrackIndex" (scalars parsed)) with
        | Returns (Some savedIndex) =>
            if (0 <? savedIndex)%Z && (savedIndex <? Z.of_nat tracks)%Z
            then Returns (set_currentTrackIndex (Z.to_nat savedIndex) a)
            else Returns a
        | Returns None | Throws => Returns a
        | Unmodelled => Unmodelled
        end
    | None => Returns a
    end
  else Returns a.

(** [handleMusicTrackChange(newIndex)] with the renders that follow it,
    [tracks] being [musicTracks.length]: the index is set; when it has
    changed, the render runs the restoring effect, whose own change of the
    index makes it run once more, in vain, since the index is not 0 then;
    after that the timeout saves, with the state of the render in which
    the handler was built and the index handed over. *)
Definition changeTrack (tracks newIndex : nat) (a : App) : outcome App :=
  let a1 := set_currentTrackIndex newIndex a in
  a2 <- (if (currentTrackIndex a =? newIndex)%nat
         then Returns a1
         else restoreWhenEnabled tracks a1) ;;
  Returns (saveCurrentSettings a
             (override "currentTrackIndex" (JNum (inject_Z (Z.of_nat newIndex)))) a2).

(** [onNextTrack] and [onPreviousTrack]:
    [[
  handleMusicTrackChange((currentTrackIndex + 1) % musicTracks.length)
  handleMusicTrackChange(currentTrackIndex === 0 ? musicTracks.length - 1
                                                 : currentTrackIndex - 1)
]]
    The buttons are rendered only while there are tracks. *)
Definition onNextTrack (tracks : nat) (a : App) : outcome App :=
  if (tracks =? 0)%nat then Unmodelled
  else changeTrack tracks ((currentTrackIndex a + 1) mod tracks) a.

Definition onPreviousTrack (tracks : nat) (a : App) : outcome App :=
  if (tracks =? 0)%nat then Unmodelled
  else changeTrack tracks
         (if (currentTrackIndex a =? 0)%nat then tracks - 1 else currentTrackIndex a - 1)
         a.

(** The track index in the storage. *)
Definition storedIndex (a : App) : jsval :=
  match storage a with
  | Some st => lookup "currentTrackIndex" (scalars st)
  | None => JUndefined
  end.

(** The stored index is the current track. *)
Definition indexStored (a : App) : Prop :=
  storedIndex a = JNum (inject_Z (Z.of_nat (currentTrackIndex a))).

(** *** What the grid and its items read *)

(** [useAutoScroll({ scrollSpeed = 2, ... })], called with
    [scrollSpeed: settings.scrollSpeed]: the default stands in for
    [undefined]. *)
Definition scrollSpeedOption (o : Object) : jsval :=
  match lookup "scrollSpeed" (scalars o) with
  | JUndefined => JNum 2
  | v => v
  end.

(** [videoElement.muted = settings.isMuted]: the property holds a boolean. *)
Definition mutedProperty (o : Object) : bool :=
  truthy (lookup "isMuted" (scalars o)).

End Settings.

(** ** [ImageItem]: events that leave the visibility as it is *)

Module ImageItemRules.

Import ImageItem.

(** An event that changes neither the source nor the reported visibility
    [b]: a load or an error of the element, or the observer reporting [b]
    again. *)
Definition sameView (b : bool) (ev : event) : bool :=
  match ev with
  | InView b' => Bool.eqb b' b
  | Source _ => false
  | ImgLoad | ImgError => true
  end.

End ImageItemRules.

(** ** [VideoItem]: clicks, autoplay and source changes on the control part *)

Module VideoItemRules.

Import VideoItem VideoItemCtl.



(** Checked property: another source, given to an item that had one: inside
    the load window the item is loading the new source; outside it has no
    source and loads nothing. *)
Definition reloads (a : aevent) (c c' : Ctl) : bool :=
  match a with
  | ASource true true =>
      negb (cLoaded c') && negb (cFailed c')
      && Bool.eqb (cLoading c') (cInLoad c)
      && Bool.eqb (cAttached c') (cInLoad c)
      && implb (cInLoad c) (negb (cStale c'))
  | _ => true
  end.

(** What an operation may do to the source when the rendered URL is [url]:
    leave [srcRef] alone or set it to [url], and with it keep, detach or
    set the [src] of the element. *)
Definition sourced (url : string) (m x : Item) : Prop :=
  (srcRef x = srcRef m /\ (src x = src m \/ src x = None))
  \/ (srcRef x = url /\ (src x = Some url \/ src x = None)).

(** The element's source is the one [srcRef] names. *)
Definition sourceKept (m : Item) : Prop :=
  forall u, src m = Some u -> u = srcRef m.

End VideoItemRules.

(** ** Invariants of the settings and of the stored object *)

Module SettingsInv.

Import JS Settings.
Local Open Scope string_scope.

Definition keys (ps : list (string * jsval)) : list string := map fst ps.

(** Every key the application writes into its settings or into the
    storage. *)
Definition knownKeys : list string :=
  panelKeys ++ stateKeys ++ ["isMuted"; "volume"; "playbackRate"].

Definition plainProps (ps : list (string * jsval)) : Prop :=
  Forall (fun kv => plain (snd kv) = true) ps.

(** A property list that stands for an object of the application: no key
    twice, known keys, numbers, booleans and strings as values. *)
Definition wellFormed (o : Object) : Prop :=
  plainProps (scalars o)
  /\ NoDup (keys (scalars o))
  /\ incl (keys (scalars o)) knownKeys.

Definition Good (a : App) : Prop :=
  wellFormed (settings a)
  /\ plain (highlightModeEnabled a) = true
  /\ plain (musicEnabled a) = true
  /\ forall st, storage a = Some st -> wellFormed st.

(** The stored object agrees with the state: nothing is stored while the
    settings are the initial ones; otherwise the stored object holds the
    settings, the tags and the state of the controls. *)
Definition Stored (a : App) : Prop :=
  (forall k, In k (keys (scalars initialSettings)) ->
             In k (keys (scalars (settings a))))
  /\ selectedTags (settings a) <> None
  /\ match storage a with
     | None => settings a = initialSettings /\ controlsCollapsed a = true
     | Some st =>
         (forall k, ~ In k stateKeys ->
                    lookup k (scalars st) = lookup k (scalars (settings a)))
         /\ selectedTags st = selectedTags (settings a)
         /\ lookup "controlsCollapsed" (scalars st) = JBool (controlsCollapsed a)
     end.

End SettingsInv.

(** ** [VideoItem] under the buttons of the App that reach its element *)

Module VideoItemApp.

Import VideoItem VideoItemCtl.

(** [video.play().catch(...)] of [App.playAll], on the element of one
    item: when the browser lets a paused element play, [paused] becomes
    false and the [play] event runs [handlePlay], that is
    [setIsPlaying(true)], if the listeners are attached. Nothing else of
    the component takes part: the promise is only logged on rejection. *)
Definition playAll (m : Item) : Item :=
  if playAllowed m && paused m
  then let m1 := set_paused false m in
       if wired m1 then set_isPlaying true m1 else m1
  else m.

(** [video.pause()] of [App.pauseAll], on the element of one item. *)
Definition pauseAll (m : Item) : Item := pause m.

(** What reaches an item: the events of the component, and the two
    buttons. *)
Inductive input : Type :=
| Own (ev : event)
| PlayAll
| PauseAll.

(** One input, with the renders that follow it. *)
Definition act (i : input) (m : Item) : Item :=
  match i with
  | Own ev => step ev m
  | PlayAll => settle renders (playAll m)
  | PauseAll => settle renders (pauseAll m)
  end.

Definition acts (l : list input) (m : Item) : Item :=
  fold_left (fun x i => act i x) l m.

(** The buttons on the control part. *)
Definition aplayAll (c : Ctl) : Ctl :=
  if cAllowed c && cPaused c
  then let c1 := putPaused false c in
       if cWired c1 then putPlaying true c1 else c1
  else c.

(** An operation from outside the component, and the renders after it,
    on the control part. *)
Definition aoutside (f : Ctl -> Ctl) (c : Ctl) : Ctl :=
  let c' := f c in asettle renders (achanged c c') c'.

Definition aquietOutside (f : Ctl -> Ctl) (c : Ctl) : bool :=
  let c' := f c in aquiet renders (achanged c c') c'.

(** Inputs that can start playback with autoplay off: a click, [Play all],
    and switching autoplay on. *)
Definition startsPlayback (i : input) : bool :=
  match i with
  | Own Click | Own (SetAutoplay true) | PlayAll => true
  | _ => false
  end.

Definition starts (a : aevent) : bool :=
  match a with
  | AClick | ASetAutoplay true => true
  | _ => false
  end.

Definition stopped (c : Ctl) : bool := negb (cAuto c) && negb (cPlaying c).

(** Checked property: with autoplay off, an item that does not play is not
    started by any other event of the component, nor by a timer. *)
Definition staysStopped (a : aevent) (c c' : Ctl) : bool :=
  implb (stopped c && negb (starts a)) (stopped c').

(** An item [Play all] starts: loaded without a recorded failure, inside
    the play window, its listeners attached, its element paused and
    allowed to play. *)
Definition startable (c : Ctl) : bool :=
  cLoaded c && negb (cFailed c) && cInPlay c && cWired c && cPaused c
  && cAllowed c.

End VideoItemApp.
(** * Facts *)

(** ** Slot height *)

Module HeightFacts.

Import JS Height.
Import Double.
Local Open Scope string_scope.
Local Open Scope Q_scope.

Example getItemHeight_metadata_first :
  getItemHeight
    (imageItem (JObj [("width", JNum 100); ("height", JNum 100);
                      ("metadata", JObj [("dimensions",
                         JObj [("width", JStr "1920"); ("height", JNum 1080)])])]) 0)
    (ofZ 260)
  = Returns (div (ofZ 260) (div (ofZ 1920) (ofZ 1080))).
Proof. reflexivity. Qed.

Example getItemHeight_top_level_second :
  getItemHeight
    (videoItem (JObj [("width", JNum 640); ("height", JNum 480);
                      ("aspect_ratio", JNum (7 # 4));
                      ("metadata", JObj [("dimensions",
                         JObj [("width", JStr "0"); ("height", JStr "px")])])]) 3)
    (ofZ 260)
  = Returns (div (ofZ 260) (div (ofZ 640) (ofZ 480))).
Proof. vm_compute. reflexivity. Qed.

Example getItemHeight_fallbacks :
  getItemHeight (videoItem (JObj [("filename", JStr "a.mp4")]) 0) (ofZ 260)
  = Returns (div (ofZ 260) (div (ofZ 16) (ofZ 9)))
  /\ getItemHeight (imageItem (JObj [("aspect_ratio", JNum 0)]) 0) (ofZ 260)
     = Returns (div (ofZ 260) (div (ofZ 4) (ofZ 3)))
  /\ getItemHeight placeholderItem (ofZ 260) = Returns (ofZ 100)
  /\ getItemHeight (videoItem JUndefined 0) (ofZ 260)
     = Returns (div (ofZ 260) (div (ofZ 16) (ofZ 9))).
Proof. repeat split; reflexivity. Qed.

(** The quotients are those of doubles: 16 / 9 is not 16/9, yet
    260 / (16 / 9) is 146.25; three times a tenth is not three tenths; and
    the ratio of a very small to a very large number is zero, whose slot is
    infinitely high. *)
Example heights_are_doubles :
  hasValue (div (ofZ 16) (ofZ 9)) (16 # 9) = false
  /\ hasValue (div (ofZ 260) (div (ofZ 16) (ofZ 9))) (585 # 4) = true
  /\ hasValue (div (ofZ 260) (div (ofZ 4) (ofZ 3))) 195 = true
  /\ hasValue (add (add (ofQ (1 # 10)) (ofQ (1 # 10))) (ofQ (1 # 10)))
               (5404319552844596 # 2 ^ 54) = true
  /\ div (ofQ (1 # 10 ^ 200)) (ofQ (inject_Z (10 ^ 200))) = SpecFloat.S754_zero false
  /\ div (ofZ 260) (SpecFloat.S754_zero false) = SpecFloat.S754_infinity false.
Proof. vm_compute. repeat split; reflexivity. Qed.

Example parseInt_examples :
  parseInt_string "  1920px" = Some 1920%Z
  /\ parseInt_string "-12" = Some (-12)%Z
  /\ parseInt_string "0x1F" = Some 31%Z
  /\ parseInt_string "px" = None
  /\ parseInt_string "" = None
  /\ parseInt (JNum (3 # 2)) = Returns (Some 1%Z)
  /\ parseInt (JNum (-3 # 2)) = Returns (Some (-1)%Z)
  /\ parseInt (JObj [("px", JNum 3)]) = Returns None
  /\ parseInt (JObj [("toString", JNum 3)]) = Throws.
Proof. repeat split; reflexivity. Qed.

Lemma posQ_nonzero q : posQ q = true -> Qeq_bool q 0 = false.
Proof.
  unfold posQ. intros H. apply negb_true_iff in H.
  destruct (Qeq_bool q 0) eqn:E; [|reflexivity].
  apply Qeq_bool_iff in E.
  assert (Hle : Qle_bool q 0 = true) by (apply Qle_bool_iff; rewrite E; apply Qle_refl).
  congruence.
Qed.

Lemma Qtrunc_zero q : Qeq_bool q 0 = true -> Qtrunc q = 0%Z.
Proof.
  intros E. apply Qeq_bool_iff in E. unfold Qtrunc.
  assert (Hle : Qle_bool 0 q = true) by (apply Qle_bool_iff; rewrite E; apply Qle_refl).
  rewrite Hle. rewrite E. reflexivity.
Qed.

Lemma get_obj ps k : get (JObj ps) k = Returns (lookup k ps).
Proof. reflexivity. Qed.

Lemma field_obj ps k : field (JObj ps) k = lookup k ps.
Proof. reflexivity. Qed.

(** *** The pixel dimensions of the metadata *)

Lemma pixel_parse v :
  optional isPixelValue v = true ->
  truthy v = true -> exists r, parseInt v = Returns r.
Proof.
  destruct v as [| |b|q|s|ps]; cbn; try discriminate.
  - intros H _. apply andb_true_iff in H as [H _]. rewrite H. eexists. reflexivity.
  - intros _ _. eexists. reflexivity.
Qed.

(** The guard of the first priority and its two [parseInt], on the value
    [d] of [metadata.dimensions]; [k] is what is made of the two
    integers. *)
Lemma dimensions_guard {A : Type} (k : Z -> Z -> A) d :
  optional isDimensions d = true ->
  (c <- test (Returns d)
        &&& test (get d "width") &&& test (get d "height") ;;
   if c then
     w <- (x <- get d "width" ;; parseInt x) ;;
     h <- (x <- get d "height" ;; parseInt x) ;;
     match w, h with
     | Some w, Some h =>
         if posZ w && posZ h
         then Returns (Some (k w h))
         else Returns None
     | _, _ => Returns None
     end
   else Returns None)
  = Returns (match parseInt (field d "width"), parseInt (field d "height") with
             | Returns (Some w), Returns (Some h) =>
                 if posZ w && posZ h then Some (k w h) else None
             | _, _ => None
             end).
Proof.
  destruct d as [| |b|q|s|ps]; try discriminate; try reflexivity.
  - cbn [optional isDimensions]. rewrite !field_obj, !get_obj.
    intros H. apply andb_true_iff in H as [Hw Hh].
    cbn [test and_then bind truthy].
    destruct (truthy (lookup "width" ps)) eqn:Tw; cbn [bind].
    + destruct (pixel_parse _ Hw Tw) as [w Ew].
      destruct (truthy (lookup "height" ps)) eqn:Th; cbn [bind].
      * destruct (pixel_parse _ Hh Th) as [h Eh]. rewrite Ew, Eh. cbn [bind].
        destruct w as [w|], h as [h|]; try reflexivity.
        destruct (posZ w && posZ h); reflexivity.
      * rewrite Ew.
        assert (Eh : parseInt (lookup "height" ps) = Returns None
                     \/ exists z, parseInt (lookup "height" ps) = Returns (Some z)
                                  /\ posZ z = false).
        { destruct (lookup "height" ps) as [| |b|q|s|x]; cbn in Th |- *;
            try discriminate; try (left; reflexivity).
          - apply negb_false_iff in Th. right. exists 0%Z.
            cbn in Hh. apply andb_true_iff in Hh as [Hp _]. rewrite Hp.
            rewrite (Qtrunc_zero _ Th). split; reflexivity.
          - apply negb_false_iff, String.eqb_eq in Th. subst s. left. reflexivity. }
        destruct Eh as [Eh | [z [Eh Ez]]]; rewrite Eh.
        -- destruct w; reflexivity.
        -- destruct w as [w|]; [|reflexivity]. rewrite Ez, andb_false_r. reflexivity.
    + assert (Ew : parseInt (lookup "width" ps) = Returns None
                   \/ exists z, parseInt (lookup "width" ps) = Returns (Some z)
                                /\ posZ z = false).
      { destruct (lookup "width" ps) as [| |b|q|s|x]; cbn in Tw |- *;
          try discriminate; try (left; reflexivity).
        - apply negb_false_iff in Tw. right. exists 0%Z.
          cbn in Hw. apply andb_true_iff in Hw as [Hp _]. rewrite Hp.
          rewrite (Qtrunc_zero _ Tw). split; reflexivity.
        - apply negb_false_iff, String.eqb_eq in Tw. subst s. left. reflexivity. }
      destruct Ew as [Ew | [z [Ew Ez]]]; rewrite Ew; [reflexivity|].
      destruct (parseInt (lookup "height" ps)) as [[h|]| |]; try reflexivity.
      rewrite Ez. reflexivity.
Qed.

Lemma byMetadata_spec item width :
  descriptor item = true ->
  byMetadata item width = Returns (option_map (div width) (ratioOfPixels item)).
Proof.
  destruct item as [| |b|q|s|ps]; try discriminate.
  unfold descriptor, byMetadata, ratioOfPixels, metadataPixels.
  rewrite !field_obj, !get_obj.
  intros H. apply andb_true_iff in H as [_ H].
  destruct (lookup "metadata" ps) as [| |b|q|s|md]; cbn in H; try discriminate;
    try reflexivity.
  rewrite !field_obj. cbn [bind get].
  destruct (lookup "dimensions" md) as [| |b|q|s|d] eqn:Ed;
    try (cbn in H; discriminate H); try reflexivity.
  etransitivity;
    [apply (dimensions_guard (fun w h => div width (div (ofZ w) (ofZ h))) (JObj d) H)|].
  rewrite !field_obj.
  destruct (parseInt (lookup "width" d)) as [[w|]| |];
    destruct (parseInt (lookup "height" d)) as [[h|]| |]; try reflexivity.
  destruct (posZ w && posZ h); reflexivity.
Qed.

(** *** Top-level dimensions and the provided ratio *)

Ltac split_numbers :=
  repeat (match goal with
          | |- context [posQ ?q] =>
              let P := fresh "P" in
              destruct (posQ q) eqn:P; [rewrite ?(posQ_nonzero _ P)|]
          | |- context [Qeq_bool ?q 0] => destruct (Qeq_bool q 0)
          end; cbn [test and_then bind gt0 toNumber truthy negb option_map ofNumber]);
  try reflexivity.

Lemma byTopLevel_spec item width :
  descriptor item = true ->
  byTopLevel item width = Returns (option_map (div width) (ratioOfTopLevel item)).
Proof.
  destruct item as [| |b|q|s|ps]; try discriminate.
  unfold descriptor, byTopLevel, ratioOfTopLevel, numberField.
  rewrite !field_obj, !get_obj.
  intros H. apply andb_true_iff in H as [H _].
  apply andb_true_iff in H as [H _].
  apply andb_true_iff in H as [Hw Hh].
  destruct (lookup "width" ps) as [| |b|w|s|x]; cbn in Hw; try discriminate;
    destruct (lookup "height" ps) as [| |b'|h|s'|x']; cbn in Hh; try discriminate;
    try reflexivity.
  all: cbn [test and_then bind gt0 toNumber truthy negb].
  all: split_numbers.
Qed.

Lemma byAspectRatio_spec item width :
  descriptor item = true ->
  byAspectRatio item width = Returns (option_map (div width) (ratioProvided item)).
Proof.
  destruct item as [| |b|q|s|ps]; try discriminate.
  unfold descriptor, byAspectRatio, ratioProvided, numberField.
  rewrite !field_obj, !get_obj.
  intros H. apply andb_true_iff in H as [H _].
  apply andb_true_iff in H as [_ Hr].
  destruct (lookup "aspect_ratio" ps) as [| |b|r|s|x]; cbn in Hr; try discriminate;
    try reflexivity.
  cbn [test and_then bind gt0 toNumber truthy negb].
  split_numbers.
Qed.

Lemma dimensionChain_spec k item width :
  descriptor item = true ->
  finish (div width (fallbackRatio k)) (dimensionChain item width)
  = Returns (div width (aspectRatio k item)).
Proof.
  intros H. unfold dimensionChain, orElse, aspectRatio.
  rewrite (byMetadata_spec _ width H), (byTopLevel_spec _ width H), (byAspectRatio_spec _ width H).
  cbn [bind finish].
  destruct (ratioOfPixels item); [reflexivity|]. cbn [option_map bind].
  destruct (ratioOfTopLevel item); [reflexivity|]. cbn [option_map bind].
  destruct (ratioProvided item); reflexivity.
Qed.

Lemma descriptor_truthy item : descriptor item = true -> truthy item = true.
Proof. destruct item; simpl; congruence. Qed.

Lemma slot_height k item index width :
  descriptor item = true ->
  getItemHeight (itemOf k item index) width
  = Returns (div width (aspectRatio k item)).
Proof.
  intros H. pose proof (descriptor_truthy _ H) as Ht.
  destruct k; cbn [itemOf].
  - change (getItemHeight (videoItem item index) width)
      with (if truthy item
            then finish (div width (div (ofZ 16) (ofZ 9))) (dimensionChain item width)
            else Returns (div width (div (ofZ 16) (ofZ 9)))).
    rewrite Ht. apply (dimensionChain_spec Video _ width H).
  - apply (dimensionChain_spec Image _ width H).
Qed.




End HeightFacts.
(** ** The view of [VideoMasonry] *)

Module MasonryFacts.

Import JS Height Masonry.
Local Open Scope string_scope.
Local Open Scope Q_scope.

Example mixed_items_interleave :
  itemsData {| videoList := [JStr "v0"; JStr "v1"]; imageList := [JStr "i0"];
               mode := mixed; highlightModeEnabled := false;
               totalVideosCount := 2; totalImagesCount := 1 |}
  = [videoItem (JStr "v0") 0; imageItem (JStr "i0") 1; videoItem (JStr "v1") 2].
Proof. reflexivity. Qed.

Example empty_list_message :
  render {| videoList := []; imageList := []; mode := videos;
            highlightModeEnabled := false;
            totalVideosCount := 4; totalImagesCount := 0 |}
         {| containerWidth := 0; containerHeight := 0; innerWidth := Some 1280 |} false
  = EmptyMessage "No videos match the selected tags.".
Proof. reflexivity. Qed.

(** C6, as stated, fails: with a container that reports width 0 and a window
    1280 pixels wide, the grid is rendered with a positioner of width 1280 and
    holds the item. *)
Lemma zero_container_width_still_renders_grid :
  let p := {| videoList := [JObj [("filename", JStr "a.mp4")]]; imageList := [];
              mode := videos; highlightModeEnabled := false;
              totalVideosCount := 1; totalImagesCount := 0 |} in
  let e := {| containerWidth := 0; containerHeight := 0; innerWidth := Some 1280 |} in
  Qeq_bool (containerWidth e) 0 = true
  /\ render p e false = Grid 1280 [videoItem (JObj [("filename", JStr "a.mp4")]) 0] false.
Proof. split; reflexivity. Qed.

(** C6, amended. When the container reports no positive width, the width
    handed to the positioner is the fallback computed from the window (its
    inner width, 1200 without a window, 70% of it in highlight mode). Only
    when that width is 0 as well does the component render the measuring
    indication in place of the grid; otherwise the grid is rendered over the
    items with the fallback width. Neither case is an error. *)
Theorem zero_width_falls_back_to_window p e autoScrollActive :
  posQ (containerWidth e) = false ->
  isEmptyForMode p = false ->
  let w := availableWidth (innerWidth e) (highlightModeEnabled p) in
  effectiveWidth p e = w
  /\ render p e autoScrollActive
     = if Qeq_bool w 0 then Measuring w (containerHeight e)
       else Grid w (safeItems p) autoScrollActive.
Proof.
  intros Hc He w. unfold render, effectiveWidth. rewrite Hc, He.
  split; reflexivity.
Qed.

Lemma zero_width_falls_back_to_window_witness :
  let p := {| videoList := [JObj [("filename", JStr "a.mp4")]]; imageList := [];
              mode := videos; highlightModeEnabled := true;
              totalVideosCount := 1; totalImagesCount := 0 |} in
  let zero := {| containerWidth := 0; containerHeight := 0; innerWidth := Some 0 |} in
  render p zero false = Measuring (0 * (7 # 10)) 0.
Proof.
  intros p zero.
  exact (proj2 (zero_width_falls_back_to_window p zero false eq_refl eq_refl)).
Defined.

End MasonryFacts.

(** ** [ImageItem]: loaded once, never unloaded *)

Module ImageItemFacts.

Import ImageItem ImageItemInv.
Local Open Scope string_scope.

Example image_loads_and_stays :
  let s := run [InView true; ImgLoad; InView false] (commit (mount "/images/a.jpg")) in
  shouldLoad s = true /\ isLoaded s = true
  /\ renderedImg s = Img (Some "/images/a.jpg").
Proof. repeat split; reflexivity. Qed.

Example image_reset_by_source_change :
  let s := run [InView true; ImgLoad; Source "/images/b.jpg"] (commit (mount "/images/a.jpg")) in
  shouldLoad s = false /\ isLoaded s = false /\ renderedImg s = Img None
  /\ shouldLoad (run [InView false; InView true] s) = true.
Proof. repeat split; reflexivity. Qed.

Lemma image_loadEffect_inputs s :
  inView (loadEffect s) = inView s /\ imageUrl (loadEffect s) = imageUrl s
  /\ srcRef (loadEffect s) = srcRef s.
Proof.
  unfold loadEffect. destruct (inView s && negb (hasRequestedLoadRef s)); cbn; auto.
Qed.

Lemma commit_inputs s :
  inView (commit s) = inView s /\ imageUrl (commit s) = imageUrl s.
Proof.
  destruct (image_loadEffect_inputs s) as (Hv & Hu & _).
  unfold commit; cbn.
  destruct (sameBool (seenInView s) (inView s));
    destruct (sameString (seenUrl s) (imageUrl s)); cbn; auto.
Qed.

Lemma commit_settles s :
  hasRequestedLoadRef s = shouldLoad s ->
  (sameString (seenUrl s) (imageUrl s) = true -> srcRef s = imageUrl s) ->
  settled (commit s).
Proof.
  intros Href Hsrc. unfold settled.
  destruct (commit_inputs s) as [Hv Hu]. rewrite Hv, Hu.
  split; [reflexivity|]. split; [reflexivity|].
  unfold commit; cbn.
  set (s1 := if sameBool (seenInView s) (inView s) then s else loadEffect s).
  assert (H1 : hasRequestedLoadRef s1 = shouldLoad s1
               /\ srcRef s1 = srcRef s /\ imageUrl s1 = imageUrl s).
  { subst s1. destruct (sameBool (seenInView s) (inView s)); [auto|].
    unfold loadEffect.
    destruct (inView s && negb (hasRequestedLoadRef s)); cbn; auto. }
  destruct H1 as (Ha & Hb & Hc).
  destruct (sameString (seenUrl s) (imageUrl s)) eqn:Eu.
  - split; [exact Ha|]. rewrite Hb. auto.
  - unfold sourceEffect; cbn. rewrite Ha. auto.
Qed.

Lemma reachable_settled s : reachable s -> settled s.
Proof.
  induction 1 as [url | ev s _ IH].
  - apply commit_settles; [reflexivity | discriminate].
  - destruct IH as (Hv & Hu & Href & Hsrc).
    apply commit_settles; destruct ev as [b | url | |]; cbn; auto.
    rewrite Hu. cbn. intros E. apply String.eqb_eq in E. congruence.
Qed.

Lemma run_cons ev evs s : run (ev :: evs) s = run evs (step ev s).
Proof. reflexivity. Qed.

(** One step that is not a change of source keeps [shouldLoad], [isLoaded]
    and the URL. *)
Lemma visibility_keeps_load ev s :
  settled s -> visibilityOnly ev = true ->
  imageUrl (step ev s) = imageUrl s
  /\ (shouldLoad s = true -> shouldLoad (step ev s) = true)
  /\ (isLoaded s = true -> isLoaded (step ev s) = true).
Proof.
  intros (Hv & Hu & Href & Hsrc) Hev.
  destruct s as [ld fl sl rq sr url iv sv su]; cbn in *; subst.
  destruct ev as [b | url' | |]; try discriminate;
    unfold step, commit, handle, loadEffect, sourceEffect; cbn;
    rewrite ?String.eqb_refl; cbn.
  - destruct iv, b, sl; cbn; auto.
  - destruct iv; cbn; auto.
  - destruct iv; cbn; auto.
Qed.

Lemma visibility_trace_keeps_load evs : forall s,
  reachable s -> forallb visibilityOnly evs = true -> shouldLoad s = true ->
  shouldLoad (run evs s) = true /\ imageUrl (run evs s) = imageUrl s.
Proof.
  induction evs as [|ev evs IH]; intros s Hr Hall Hs; [auto|].
  cbn in Hall. apply andb_true_iff in Hall as [Hev Hall].
  destruct (visibility_keeps_load ev s (reachable_settled s Hr) Hev) as (Hu & Hk & _).
  destruct (IH (step ev s) (reach_step ev s Hr) Hall (Hk Hs)) as [H1 H2].
  rewrite run_cons. split; [exact H1 | congruence].
Qed.

Lemma entering_requests s :
  settled s -> inView s = false -> shouldLoad (step (InView true) s) = true.
Proof.
  intros (Hv & Hu & Href & Hsrc) Hin.
  destruct s as [ld fl sl rq sr url iv sv su]; cbn in *; subst.
  unfold step, commit, handle, loadEffect, sourceEffect; cbn.
  rewrite ?String.eqb_refl. destruct sl; reflexivity.
Qed.

(** Another source resets a settled item and leaves the visibility as it
    was reported. *)
Lemma source_change_resets s url :
  settled s -> imageUrl s <> "" -> url <> imageUrl s ->
  let x := step (Source url) s in
  shouldLoad x = false /\ isLoaded x = false /\ isFailed x = false
  /\ hasRequestedLoadRef x = false /\ imageUrl x = url /\ inView x = inView s.
Proof.
  intros (Hv & Hs & Href & Hsrc) Hne Hu x. unfold x.
  destruct s as [ld fl sl rq sr u iv sv su]; cbn in *; subst.
  unfold step, commit, handle, loadEffect, sourceEffect; cbn.
  rewrite Bool.eqb_reflx.
  assert (E1 : String.eqb u url = false) by (apply String.eqb_neq; congruence).
  assert (E2 : String.eqb u "" = false) by (apply String.eqb_neq; exact Hne).
  rewrite E1. cbn. rewrite E2, E1. cbn. repeat split; reflexivity.
Qed.

Lemma report_keeps_failure b s :
  settled s -> isFailed (step (InView b) s) = isFailed s.
Proof.
  intros (Hv & Hu & Href & Hsrc).
  destruct s as [ld fl sl rq sr u iv sv su]; cbn in *; subst.
  unfold step, commit, handle, loadEffect, sourceEffect; cbn.
  rewrite ?String.eqb_refl. destruct iv, b, sl; reflexivity.
Qed.

(** After the observer reported that the item left the window and entered
    it again, the image of the current URL is requested. *)
Lemma reentering_requests x :
  reachable x -> isFailed x = false ->
  let y := run [InView false; InView true] x in
  shouldLoad y = true /\ renderedImg y = Img (Some (imageUrl x)).
Proof.
  intros Hx Hf y.
  pose proof (reach_step (InView false) x Hx) as Hx1.
  pose proof (reachable_settled _ Hx1) as Hs1.
  assert (Hin : inView (step (InView false) x) = false)
    by (destruct (commit_inputs (handle (InView false) x)) as [Hi _]; exact Hi).
  assert (Hl : shouldLoad y = true) by (apply entering_requests; assumption).
  split; [exact Hl|].
  destruct (visibility_keeps_load (InView false) x (reachable_settled x Hx) eq_refl)
    as (Hu1 & _ & _).
  destruct (visibility_keeps_load (InView true) _ Hs1 eq_refl) as (Hu2 & _ & _).
  assert (Hfy : isFailed y = false).
  { unfold y. cbn [run fold_left].
    rewrite (report_keeps_failure true _ Hs1).
    rewrite (report_keeps_failure false _ (reachable_settled x Hx)). exact Hf. }
  unfold renderedImg. rewrite Hfy, Hl.
  unfold y. cbn [run fold_left]. rewrite Hu2, Hu1. reflexivity.
Qed.

(** C10. An image that enters the load window gets [shouldLoad] set; no
    later sequence of visibility changes (or load and error events of the
    element) unsets it, so the [img] element, which is mounted unless the
    image failed, keeps [src] at the image URL after the item has left the
    window. An event that clears [shouldLoad] or the loaded state is a
    change of the source URL; and a change of the source URL does clear
    them: the item is neither loaded nor failed, the [img] element has no
    [src], and once the item enters the window again the image of the new
    URL is requested. *)
Theorem image_never_unloaded s :
  reachable s ->
  (inView s = false -> shouldLoad (step (InView true) s) = true)
  /\ (shouldLoad s = true ->
      forall evs, forallb visibilityOnly evs = true ->
        shouldLoad (run evs s) = true
        /\ (isFailed (run evs s) = false ->
            renderedImg (run evs s) = Img (Some (imageUrl s))))
  /\ (forall ev,
        (shouldLoad s = true /\ shouldLoad (step ev s) = false)
        \/ (isLoaded s = true /\ isLoaded (step ev s) = false) ->
        exists url, ev = Source url /\ url <> imageUrl s)
  /\ (imageUrl s <> "" ->
      forall url, url <> imageUrl s ->
        let x := step (Source url) s in
        shouldLoad x = false /\ isLoaded x = false /\ isFailed x = false
        /\ renderedImg x = Img None
        /\ shouldLoad (run [InView false; InView true] x) = true
        /\ renderedImg (run [InView false; InView true] x) = Img (Some url)).
Proof.
  intros Hr. pose proof (reachable_settled s Hr) as Hs.
  split; [|split; [|split]].
  - intros Hin. apply entering_requests; assumption.
  - intros Hl evs Hall.
    destruct (visibility_trace_keeps_load evs s Hr Hall Hl) as [H1 H2].
    split; [exact H1|].
    intros Hf. unfold renderedImg. rewrite Hf, H1, H2. reflexivity.
  - intros ev Hclear.
    destruct (visibilityOnly ev) eqn:Hev.
    + destruct (visibility_keeps_load ev s Hs Hev) as (_ & Hk1 & Hk2).
      destruct Hclear as [[Ha Hb] | [Ha Hb]];
        [rewrite (Hk1 Ha) in Hb | rewrite (Hk2 Ha) in Hb]; discriminate.
    + destruct ev as [b | url | |]; try discriminate.
      exists url. split; [reflexivity|].
      intros ->.
      destruct Hs as (Hv & Hu & Href & Hsrc).
      destruct s as [ld fl sl rq sr url iv sv su]; cbn in *; subst.
      unfold step, commit, handle, loadEffect, sourceEffect in Hclear; cbn in Hclear.
      rewrite ?String.eqb_refl in Hclear.
      destruct iv; cbn in Hclear;
        destruct Hclear as [[Ha Hb] | [Ha Hb]]; congruence.
  - intros Hne url Hu x.
    destruct (source_change_resets s url Hs Hne Hu) as (E1 & E2 & E3 & _ & E5 & _).
    fold x in E1, E2, E3, E5.
    assert (Hx : reachable x) by (apply reach_step, Hr).
    destruct (reentering_requests x Hx E3) as [R1 R2].
    split; [exact E1|]. split; [exact E2|]. split; [exact E3|].
    split; [unfold renderedImg; rewrite E3, E1; reflexivity|].
    split; [exact R1|]. rewrite <- E5. exact R2.
Qed.

Lemma image_never_unloaded_witness :
  let s := run [InView true; ImgLoad] (commit (mount "/images/a.jpg")) in
  let x := step (Source "/images/b.jpg") s in
  shouldLoad s = true
  /\ renderedImg (run [InView false; ImgLoad; InView true; InView false] s)
     = Img (Some "/images/a.jpg")
  /\ shouldLoad x = false /\ isLoaded x = false /\ renderedImg x = Img None
  /\ renderedImg (run [InView false; InView true] x) = Img (Some "/images/b.jpg").
Proof.
  intros s x.
  assert (Hr : reachable s)
    by (unfold s; cbn [run fold_left]; apply reach_step, reach_step, reach_mount).
  destruct (image_never_unloaded s Hr) as (_ & H2 & _ & H4).
  split; [reflexivity|].
  split.
  - exact (proj2 (H2 eq_refl [InView false; ImgLoad; InView true; InView false]
                     eq_refl) eq_refl).
  - assert (N1 : imageUrl s <> "") by discriminate.
    assert (N2 : "/images/b.jpg" <> imageUrl s) by discriminate.
    destruct (H4 N1 "/images/b.jpg" N2) as (A & B & _ & D & _ & F).
    split; [exact A|]. split; [exact B|]. split; [exact D|exact F].
Defined.

End ImageItemFacts.

(** ** [useAutoScroll] *)

Module AutoScrollFacts.

Import AutoScroll AutoScrollInv.
Local Open Scope Q_scope.

Example driver_starts_after_idle_delay :
  let h := run [Elapse 5100] (commit (mount true 3 5000 (Some viewport) 1000)) in
  isAutoScrolling h = true
  /\ option_map scrollTop (element h) = Some 6
  /\ timers h = [{| id := 2; due := 6150; action := Tick 3 |}].
Proof. repeat split; reflexivity. Qed.

Example driver_stops_at_bottom :
  let h := run [Elapse 5200; Elapse 1000] (commit (mount true 3 5000 (Some viewport) 1000)) in
  isAutoScrolling h = false
  /\ option_map scrollTop (element h) = Some 11
  /\ timers h = [].
Proof. repeat split; reflexivity. Qed.

(** *** What holds of every reachable hook *)

Lemma removeId_sub ref l : incl (removeId ref l) l.
Proof.
  destruct ref as [i|]; cbn; [|apply incl_refl].
  intros t Ht. apply filter_In in Ht. tauto.
Qed.

Lemma removeId_none ref l t : In t (removeId ref l) -> ref <> Some (id t).
Proof.
  destruct ref as [i|]; cbn; [|discriminate].
  intros Ht. apply filter_In in Ht as [_ Ht].
  apply negb_true_iff, Nat.eqb_neq in Ht. congruence.
Qed.

(** Clearing both refs leaves no timer, when every timer is named by one
    of them. *)
Lemma removeId_both r1 r2 l :
  Forall (fun t => r1 = Some (id t) \/ r2 = Some (id t)) l ->
  removeId r2 (removeId r1 l) = [].
Proof.
  intros H.
  destruct (removeId r2 (removeId r1 l)) as [|t rest] eqn:E; [reflexivity|].
  assert (Hin : In t (removeId r2 (removeId r1 l))) by (rewrite E; left; reflexivity).
  pose proof (removeId_none _ _ _ Hin) as H2.
  apply removeId_sub in Hin.
  pose proof (removeId_none _ _ _ Hin) as H1.
  apply removeId_sub in Hin.
  rewrite Forall_forall in H. destruct (H t Hin); contradiction.
Qed.

Lemma timerOk_named en speed h t :
  timerOk en speed h t ->
  autoScrollIntervalRef h = Some (id t) \/ mouseIdleTimeoutRef h = Some (id t).
Proof. unfold timerOk. destruct (action t); tauto. Qed.

Lemma Core_named en speed h :
  Core en speed h ->
  Forall (fun t => autoScrollIntervalRef h = Some (id t)
                   \/ mouseIdleTimeoutRef h = Some (id t)) (timers h).
Proof.
  intros [_ _ H]. eapply Forall_impl; [|exact H].
  intros t. apply timerOk_named.
Qed.

Lemma Core_quiet en speed h :
  timers h = [] -> autoScrollActive h = false -> isAutoScrolling h = false ->
  Core en speed h.
Proof.
  intros Ht Ha Hs. split; [congruence | congruence | rewrite Ht; constructor].
Qed.

(** [halt] leaves no timer behind and touches nothing but the flags, the
    interval ref and the timers. *)
Lemma halt_spec en speed h :
  Core en speed h ->
  timers (halt h) = [] /\ isAutoScrolling (halt h) = false
  /\ autoScrollActive (halt h) = false
  /\ enabled (halt h) = enabled h /\ scrollSpeed (halt h) = scrollSpeed h
  /\ idleDelay (halt h) = idleDelay h /\ seen (halt h) = seen h
  /\ element (halt h) = element h /\ now (halt h) = now h.
Proof.
  intros HC. pose proof (Core_named _ _ _ HC) as Hn.
  unfold halt, clearTimer; cbn.
  rewrite (removeId_both _ _ _ Hn). repeat split; reflexivity.
Qed.

Lemma halt_Core en speed en' speed' h : Core en speed h -> Core en' speed' (halt h).
Proof.
  intros HC. destruct (halt_spec _ _ _ HC) as (Ht & Hs & Ha & _).
  now apply Core_quiet.
Qed.

Lemma stopAutoScroll_Core en speed h : Core en speed h -> Core en speed (stopAutoScroll h).
Proof.
  intros HC. unfold stopAutoScroll.
  destruct (isAutoScrolling h); cbn; [now apply (halt_Core en speed)|exact HC].
Qed.

Lemma startMouseIdleTimer_Core en speed delay h :
  Core en speed h -> Core en speed (startMouseIdleTimer en speed delay h).
Proof.
  intros HC. unfold startMouseIdleTimer.
  destruct en; cbn; [|exact HC].
  destruct HC as [Ha He Ht]. split; cbn; auto.
  apply Forall_app. split.
  - apply Forall_forall. intros t Hin.
    assert (Hin' : In t (timers h)) by (eapply removeId_sub; exact Hin).
    rewrite Forall_forall in Ht. specialize (Ht t Hin').
    pose proof (removeId_none _ _ _ Hin) as Hne.
    unfold timerOk in *. destruct (action t); cbn; tauto.
  - constructor; [|constructor]. unfold timerOk; cbn.
    repeat split; reflexivity.
Qed.

Lemma no_tick_when_idle en speed h t :
  Core en speed h -> isAutoScrolling h = false -> In t (timers h) ->
  exists e v, action t = Idle e v.
Proof.
  intros [_ _ Ht] Hs Hin. rewrite Forall_forall in Ht. specialize (Ht t Hin).
  unfold timerOk in Ht. destruct (action t) as [v|e v]; [|eauto].
  destruct Ht as (_ & Ht & _). congruence.
Qed.

Lemma startAutoScroll_Core speed v h :
  v == speed -> Core true speed h -> Core true speed (startAutoScroll true v h).
Proof.
  intros Hv HC. unfold startAutoScroll.
  destruct (isAutoScrolling h) eqn:Hs; cbn; [exact HC|].
  destruct (element h); [|exact HC]. cbn.
  split; cbn; auto.
  apply Forall_app. split.
  - apply Forall_forall. intros t Hin.
    destruct (no_tick_when_idle _ _ _ _ HC Hs Hin) as (e' & v' & Ea).
    destruct HC as [_ _ Ht]. rewrite Forall_forall in Ht. specialize (Ht t Hin).
    unfold timerOk in *. rewrite Ea in *. cbn. exact Ht.
  - constructor; [|constructor]. unfold timerOk; cbn. auto.
Qed.

Lemma set_element_Core en speed e h : Core en speed h -> Core en speed (set_element e h).
Proof. intros [Ha He Ht]. split; cbn; auto. Qed.

Lemma set_now_Core en speed t h : Core en speed h -> Core en speed (set_now t h).
Proof. intros [Ha He Ht]. split; cbn; auto. Qed.

Lemma set_lastMouseMove_Core en speed t h :
  Core en speed h -> Core en speed (set_lastMouseMove t h).
Proof. intros [Ha He Ht]. split; cbn; auto. Qed.

Lemma set_lastWheelTime_Core en speed t h :
  Core en speed h -> Core en speed (set_lastWheelTime t h).
Proof. intros [Ha He Ht]. split; cbn; auto. Qed.

(** Forgetting the interval ref after clearing its timer. *)
Lemma forget_interval_Core en speed h :
  Core en speed h ->
  Core en speed (set_autoScrollIntervalRef None (clearTimer (autoScrollIntervalRef h) h)).
Proof.
  intros [Ha He Ht]. split; cbn; auto.
  apply Forall_forall. intros t Hin.
  pose proof (removeId_none _ _ _ Hin) as Hne.
  apply removeId_sub in Hin.
  rewrite Forall_forall in Ht. specialize (Ht t Hin).
  unfold timerOk in *. destruct (action t); cbn; tauto.
Qed.

Lemma tick_Core en speed v h : Core en speed h -> Core en speed (tick v h).
Proof.
  intros HC. unfold tick.
  destruct (element h) as [e|].
  - destruct (isAutoScrolling h) eqn:Hs.
    + match goal with |- context [set_element ?x h] => set (e2 := x) end.
      destruct (atBottom _).
      * apply stopAutoScroll_Core, set_element_Core, HC.
      * apply set_element_Core, HC.
    + now apply forget_interval_Core.
  - destruct (isAutoScrolling h); cbn; [exact HC | now apply forget_interval_Core].
Qed.

Lemma rearm_Core en speed t h : Core en speed h -> Core en speed (rearm t h).
Proof.
  intros [Ha He Ht]. split; cbn; auto.
  apply Forall_map. eapply Forall_impl; [|exact Ht].
  intros u Hu. destruct (Nat.eqb (id u) (id t)); exact Hu.
Qed.

Lemma clearTimer_Core en speed ref h : Core en speed h -> Core en speed (clearTimer ref h).
Proof.
  intros [Ha He Ht]. split; cbn; auto.
  apply Forall_forall. intros t Hin. apply removeId_sub in Hin.
  rewrite Forall_forall in Ht. exact (Ht t Hin).
Qed.

Lemma fire_Core en speed t h :
  In t (timers h) -> Core en speed h -> Core en speed (fire t h).
Proof.
  intros Hin HC. unfold fire.
  destruct (action t) as [v|e v] eqn:Ea.
  - apply rearm_Core, tick_Core, set_now_Core, HC.
  - assert (Hok : timerOk en speed h t).
    { destruct HC as [_ _ Ht]. rewrite Forall_forall in Ht. exact (Ht t Hin). }
    unfold timerOk in Hok. rewrite Ea in Hok. destruct Hok as (_ & -> & -> & Hv).
    unfold idle. apply startAutoScroll_Core; [exact Hv|].
    apply clearTimer_Core, set_now_Core, HC.
Qed.

Lemma scroll_earliest_In l t : earliest l = Some t -> In t l.
Proof.
  revert t. induction l as [|a l IH]; intros t; cbn; [discriminate|].
  destruct (earliest l) as [u|].
  - intros [= <-]. destruct (earlier a u); [now left | right; now apply IH].
  - intros [= <-]. now left.
Qed.

Lemma nextDue_In deadline h t : nextDue deadline h = Some t -> In t (timers h).
Proof.
  unfold nextDue. destruct (earliest (timers h)) as [u|] eqn:E; [|discriminate].
  destruct (due u <=? deadline)%Z; [|discriminate].
  intros [= <-]. now apply scroll_earliest_In.
Qed.

Lemma advanceTo_Core en speed fuel : forall deadline h,
  Core en speed h -> Core en speed (advanceTo fuel deadline h).
Proof.
  induction fuel as [|fuel IH]; intros deadline h HC; cbn; [exact HC|].
  destruct (nextDue deadline h) as [t|] eqn:E.
  - apply IH, fire_Core; [now apply nextDue_In with deadline | exact HC].
  - now apply set_now_Core.
Qed.

(** *** Props and remembered dependencies are left alone *)

Lemma sameProps_refl h : sameProps h h.
Proof. repeat split. Qed.

Lemma sameProps_trans h1 h2 h3 : sameProps h1 h2 -> sameProps h2 h3 -> sameProps h1 h3.
Proof. unfold sameProps. intros (A & B & C & D) (A' & B' & C' & D'). repeat split; congruence. Qed.

Create HintDb hook_ops.

#[local] Hint Unfold handleUserInteraction startMouseIdleTimer stopAutoScroll
  startAutoScroll halt clearTimer idle tick rearm onWheel onTouchStart onClick
  handleMouseMove : hook_ops.

Ltac frame :=
  unfold sameProps; repeat autounfold with hook_ops;
  repeat match goal with
         | |- context [if ?c then _ else _] => destruct c
         | |- context [match ?x with Some _ => _ | None => _ end] => destruct x
         end;
  cbn; repeat split; reflexivity.

Lemma fire_frame t h : sameProps h (fire t h).
Proof. unfold fire. destruct (action t); frame. Qed.

Lemma advanceTo_frame fuel : forall deadline h, sameProps h (advanceTo fuel deadline h).
Proof.
  induction fuel as [|fuel IH]; intros deadline h; cbn; [apply sameProps_refl|].
  destruct (nextDue deadline h) as [t|].
  - eapply sameProps_trans; [apply fire_frame | apply IH].
  - repeat split.
Qed.

Lemma handle_frame ev h : keepsProps ev = true -> sameProps h (handle ev h).
Proof.
  destruct ev; try discriminate; intros _; cbn [handle].
  - frame.
  - frame.
  - frame.
  - frame.
  - repeat split.
  - apply advanceTo_frame.
Qed.

Lemma handleUserInteraction_Core h :
  Core (enabled h) (scrollSpeed h) h ->
  Core (enabled h) (scrollSpeed h) (handleUserInteraction h).
Proof.
  intros HC. unfold handleUserInteraction.
  destruct (isAutoScrolling h); [|exact HC].
  apply startMouseIdleTimer_Core, stopAutoScroll_Core, HC.
Qed.

Lemma handle_Core ev h :
  keepsProps ev = true ->
  Core (enabled h) (scrollSpeed h) h ->
  Core (enabled h) (scrollSpeed h) (handle ev h).
Proof.
  destruct ev; try discriminate; intros _ HC; cbn [handle].
  - unfold onWheel.
    destruct (isAutoScrolling h && (now h - lastWheelTime h <? 200)%Z); [exact HC|].
    destruct (JS.posQ _).
    + apply (handleUserInteraction_Core (set_lastWheelTime (now h) h)).
      now apply set_lastWheelTime_Core.
    + now apply set_lastWheelTime_Core.
  - unfold onTouchStart. destruct isTrusted; [now apply handleUserInteraction_Core|exact HC].
  - unfold onClick. destruct isTrusted; [now apply handleUserInteraction_Core|exact HC].
  - unfold handleMouseMove.
    destruct (JS.posQ (deltaX - 10) || JS.posQ (deltaY - 10)); [|exact HC].
    destruct (100 <? now h - lastMouseMove h)%Z; [|exact HC].
    apply startMouseIdleTimer_Core, stopAutoScroll_Core, set_lastMouseMove_Core, HC.
  - now apply set_element_Core.
  - now apply advanceTo_Core.
Qed.

Lemma Core_Qeq en speed speed' h : speed == speed' -> Core en speed h -> Core en speed' h.
Proof.
  intros Hq [Ha He Ht]. split; auto.
  eapply Forall_impl; [|exact Ht].
  intros t. unfold timerOk. destruct (action t); intuition auto.
  - now rewrite <- Hq.
  - now rewrite <- Hq.
Qed.

Lemma set_enabled_Core en speed b h : Core en speed h -> Core en speed (set_enabled b h).
Proof. intros [Ha He Ht]. split; cbn; auto. Qed.

Lemma set_scrollSpeed_Core en speed v h : Core en speed h -> Core en speed (set_scrollSpeed v h).
Proof. intros [Ha He Ht]. split; cbn; auto. Qed.

Lemma set_seen_Core en speed d h : Core en speed h -> Core en speed (set_seen d h).
Proof. intros [Ha He Ht]. split; cbn; auto. Qed.

(** After the clean-up of the mount effect no timer is pending. *)
Lemma mountCleanup_spec en speed h :
  Core en speed h ->
  timers (mountCleanup h) = []
  /\ mountCleanup h = set_timers [] h.
Proof.
  intros HC. pose proof (Core_named _ _ _ HC) as Hn.
  unfold mountCleanup, clearTimer; cbn.
  rewrite (removeId_both _ _ _ Hn). split; reflexivity.
Qed.

Lemma commit_frame h :
  enabled (commit h) = enabled h /\ scrollSpeed (commit h) = scrollSpeed h
  /\ idleDelay (commit h) = idleDelay h
  /\ seen (commit h) = Some (enabled h, scrollSpeed h, idleDelay h).
Proof.
  unfold commit, mountCleanup, disableEffect, mountEffect, listenerEffect.
  repeat autounfold with hook_ops.
  repeat match goal with
         | |- context [if ?c then _ else _] => destruct c
         | |- context [match ?x with Some _ => _ | None => _ end] => destruct x
         end;
  cbn; repeat split; reflexivity.
Qed.

Lemma removeId_nil ref : removeId ref [] = [].
Proof. destruct ref; reflexivity. Qed.

Ltac quiet_core :=
  split; cbn; auto; try congruence;
  rewrite ?removeId_nil; cbn;
  repeat constructor; unfold timerOk; cbn; auto.

Lemma after_cleanup_Core h :
  autoScrollActive h = isAutoScrolling h ->
  Core (enabled h) (scrollSpeed h)
       (mountEffect (listenerEffect (disableEffect (set_timers [] h)))).
Proof.
  intros Ha.
  unfold mountEffect, listenerEffect, disableEffect, halt, clearTimer; cbn.
  destruct (enabled h) eqn:En, (isAutoScrolling h) eqn:Hs; cbn;
    rewrite ?En, ?Hs; cbn; quiet_core.
Qed.

Lemma idle_cleanup_Core h :
  autoScrollActive h = isAutoScrolling h ->
  (isAutoScrolling h = true -> enabled h = true) ->
  Core (enabled h) (scrollSpeed h) (mountEffect (listenerEffect (set_timers [] h))).
Proof.
  intros Ha He.
  unfold mountEffect, listenerEffect, halt, clearTimer; cbn.
  destruct (enabled h) eqn:En, (isAutoScrolling h) eqn:Hs; cbn;
    rewrite ?En, ?Hs; cbn;
    try (specialize (He eq_refl); discriminate); quiet_core.
Qed.

(** The commit after a render re-establishes the invariant for the props of
    that render, whatever the props of the previous commit were. *)
Lemma commit_Inv h en0 speed0 v0 d0 :
  seen h = Some (en0, v0, d0) -> v0 == speed0 -> Core en0 speed0 h ->
  Inv (commit h).
Proof.
  intros Hseen Hv HC.
  destruct (commit_frame h) as (Fe & Fs & Fd & Fseen).
  split.
  { exists (scrollSpeed h). rewrite Fe, Fs, Fd. split; [exact Fseen|reflexivity]. }
  rewrite Fe, Fs.
  unfold commit, sameEnabled, sameCallbacks. rewrite Hseen.
  destruct (mountCleanup_spec _ _ _ HC) as [_ Hclean].
  destruct (Bool.eqb en0 (enabled h)) eqn:Een; cbn [andb].
  - apply Bool.eqb_prop in Een. subst en0.
    destruct HC as [Ha He Ht].
    destruct (Qeq_bool v0 (scrollSpeed h) && (d0 =? idleDelay h)%Z) eqn:Ev.
    + apply andb_true_iff in Ev as [Ev _]. apply Qeq_bool_iff in Ev.
      apply set_seen_Core.
      apply Core_Qeq with speed0; [|split; assumption].
      rewrite <- Hv. exact Ev.
    + apply set_seen_Core. rewrite Hclean.
      now apply idle_cleanup_Core.
  - apply set_seen_Core. rewrite Hclean.
    destruct HC as [Ha He Ht].
    exact (after_cleanup_Core h Ha).
Qed.

Lemma mount_Inv en speed delay e t : Inv (commit (mount en speed delay e t)).
Proof.
  split.
  - exists speed. destruct en; cbn; split; reflexivity.
  - destruct en; cbn; (split; cbn; [reflexivity | discriminate |]).
    + constructor; [|constructor]. unfold timerOk; cbn. repeat split; reflexivity.
    + constructor.
Qed.

Lemma step_Inv ev h : Inv h -> Inv (step ev h).
Proof.
  intros [(v & Hseen & Hv) HC]. unfold step.
  destruct (keepsProps ev) eqn:Ek.
  - destruct (handle_frame ev h Ek) as (Fe & Fs & Fd & Fseen).
    apply commit_Inv with (enabled h) (scrollSpeed h) v (idleDelay h).
    + congruence.
    + exact Hv.
    + now apply handle_Core.
  - destruct ev; try discriminate; cbn [handle].
    + apply commit_Inv with (enabled h) (scrollSpeed h) v (idleDelay h);
        [exact Hseen | exact Hv | now apply set_enabled_Core].
    + apply commit_Inv with (enabled h) (scrollSpeed h) v (idleDelay h);
        [exact Hseen | exact Hv | now apply set_scrollSpeed_Core].
Qed.

Lemma hook_reachable_Inv h : reachable h -> Inv h.
Proof.
  induction 1 as [en speed delay e t | ev h _ IH].
  - apply mount_Inv.
  - now apply step_Inv.
Qed.

Lemma scroll_run_cons ev evs h : run (ev :: evs) h = run evs (step ev h).
Proof. reflexivity. Qed.

Lemma run_keeps_reachable evs : forall h, reachable h -> reachable (run evs h).
Proof.
  induction evs as [|ev evs IH]; intros h H; [exact H|].
  rewrite scroll_run_cons. apply IH. now constructor.
Qed.

(** With the setting off, nothing is scheduled and the scroll does not
    run. *)
Lemma disabled_is_quiet h :
  Inv h -> enabled h = false ->
  timers h = [] /\ isAutoScrolling h = false /\ autoScrollActive h = false.
Proof.
  intros [_ [Ha He Ht]] Hoff.
  assert (Hs : isAutoScrolling h = false).
  { destruct (isAutoScrolling h); [|reflexivity]. specialize (He eq_refl). congruence. }
  split; [|split; congruence].
  destruct (timers h) as [|t l]; [reflexivity|].
  apply Forall_inv in Ht. unfold timerOk in Ht.
  destruct (action t).
  - destruct Ht as (_ & H1 & _). congruence.
  - destruct Ht as (_ & _ & H1 & _). congruence.
Qed.

Lemma step_enabled ev h :
  enabled (step ev h) = match ev with SetEnabled b => b | _ => enabled h end.
Proof.
  unfold step. destruct (commit_frame (handle ev h)) as (Fe & _). rewrite Fe.
  destruct (keepsProps ev) eqn:Ek.
  - destruct (handle_frame ev h Ek) as (He & _). rewrite He.
    destruct ev; try discriminate; reflexivity.
  - destruct ev; try discriminate; reflexivity.
Qed.

Lemma run_stays_off evs : forall h,
  forallb staysOff evs = true -> enabled h = false -> enabled (run evs h) = false.
Proof.
  induction evs as [|ev evs IH]; intros h Hall Hoff; [exact Hoff|].
  cbn in Hall. apply andb_true_iff in Hall as [Hev Hall].
  rewrite scroll_run_cons. apply IH; [exact Hall|].
  rewrite step_enabled. destruct ev; try exact Hoff.
  destruct b; [discriminate|reflexivity].
Qed.

(** C8. When the [autoScroll] setting goes off, the commit of that render
    leaves no timer pending (neither the scroll interval nor the mouse-idle
    timeout), the scroll is halted ([isAutoScrolling] and [autoScrollActive]
    are false), and this stays so through every later event until the
    setting is switched on again. *)
Theorem disabling_clears_every_timer h evs :
  reachable h ->
  forallb staysOff evs = true ->
  let h' := run evs (step (SetEnabled false) h) in
  timers h' = [] /\ isAutoScrolling h' = false /\ autoScrollActive h' = false.
Proof.
  intros Hr Hall h'.
  apply disabled_is_quiet.
  - apply hook_reachable_Inv, run_keeps_reachable, reach_step, Hr.
  - apply run_stays_off; [exact Hall|]. apply step_enabled.
Qed.

Lemma disabling_clears_every_timer_witness :
  let scrolling := step (Elapse 5100) (commit (mount true 3 5000 (Some viewport) 1000)) in
  timers scrolling = [{| id := 2; due := 6150; action := Tick 3 |}]
  /\ timers (run [MouseMove 40 0; Elapse 60000] (step (SetEnabled false) scrolling)) = [].
Proof.
  intros scrolling. split; [reflexivity|].
  assert (Hr : reachable scrolling) by (apply reach_step, reach_mount).
  exact (proj1 (disabling_clears_every_timer scrolling
                  [MouseMove 40 0; Elapse 60000] Hr eq_refl)).
Defined.

(** *** One tick *)




(** *** A qualifying interaction *)

Lemma sameCallbacks_settled h : settled h -> sameCallbacks h = true.
Proof.
  intros (v & Hseen & Hv). unfold sameCallbacks. rewrite Hseen.
  rewrite Bool.eqb_reflx, Z.eqb_refl.
  apply Qeq_bool_iff in Hv. rewrite Hv. reflexivity.
Qed.

Lemma commit_same h :
  sameCallbacks h = true ->
  commit h = set_seen (Some (enabled h, scrollSpeed h, idleDelay h)) h.
Proof.
  unfold commit, sameCallbacks, sameEnabled.
  destruct (seen h) as [[[en v] d]|]; [|discriminate].
  intros H. rewrite H.
  apply andb_true_iff in H as [H _]. apply andb_true_iff in H as [H _].
  rewrite H. reflexivity.
Qed.

Lemma step_keeps ev h :
  Inv h -> keepsProps ev = true ->
  step ev h = set_seen (Some (enabled h, scrollSpeed h, idleDelay h)) (handle ev h).
Proof.
  intros [Hs _] Ek. unfold step.
  destruct (handle_frame ev h Ek) as (Fe & Fs & Fd & Fseen).
  rewrite commit_same; [now rewrite Fe, Fs, Fd|].
  rewrite <- (sameCallbacks_settled h Hs).
  unfold sameCallbacks. now rewrite Fe, Fs, Fd, Fseen.
Qed.

Lemma restart_idle h :
  Core (enabled h) (scrollSpeed h) h -> isAutoScrolling h = true ->
  let h' := startMouseIdleTimer (enabled h) (scrollSpeed h) (idleDelay h)
              (stopAutoScroll h) in
  isAutoScrolling h' = false
  /\ timers h' = [{| id := nextId h; due := (now h + idleDelay h)%Z;
                     action := Idle true (scrollSpeed h) |}]
  /\ element h' = element h /\ now h' = now h.
Proof.
  intros HC Hs h'. subst h'.
  assert (En : enabled h = true) by (destruct HC as [_ He _]; exact (He Hs)).
  pose proof (Core_named _ _ _ HC) as Hn.
  unfold stopAutoScroll. rewrite Hs. cbn [negb].
  unfold startMouseIdleTimer, halt, clearTimer. rewrite En. cbn.
  rewrite (removeId_both _ _ _ Hn). cbn.
  destruct (mouseIdleTimeoutRef h); cbn; repeat split; reflexivity.
Qed.

Lemma interaction_stops h ev :
  Inv h -> isAutoScrolling h = true -> qualifying ev h = true ->
  isAutoScrolling (step ev h) = false
  /\ timers (step ev h) = [{| id := nextId h; due := (now h + idleDelay h)%Z;
                              action := Idle true (scrollSpeed h) |}]
  /\ element (step ev h) = element h /\ now (step ev h) = now h.
Proof.
  intros HI Hs Hq. pose proof HI as [_ HC].
  assert (Ek : keepsProps ev = true) by (destruct ev; try discriminate; reflexivity).
  rewrite (step_keeps ev h HI Ek).
  cbn [isAutoScrolling timers element now set_seen].
  destruct ev as [dy | tr | tr | dx dy | | | |]; try discriminate; cbn [handle].
  - (* wheel *)
    cbn in Hq. apply andb_true_iff in Hq as [Hw Hd].
    unfold onWheel. apply negb_true_iff in Hw. rewrite Hw, andb_false_r, Hd.
    unfold handleUserInteraction. cbn [isAutoScrolling set_lastWheelTime]. rewrite Hs.
    apply (restart_idle (set_lastWheelTime (now h) h));
      [now apply set_lastWheelTime_Core | exact Hs].
  - cbn in Hq. subst tr. unfold onTouchStart, handleUserInteraction. rewrite Hs.
    now apply restart_idle.
  - cbn in Hq. subst tr. unfold onClick, handleUserInteraction. rewrite Hs.
    now apply restart_idle.
  - cbn in Hq. apply andb_true_iff in Hq as [Hm Ht].
    unfold handleMouseMove. rewrite Hm, Ht.
    apply (restart_idle (set_lastMouseMove (now h) h));
      [now apply set_lastMouseMove_Core | exact Hs].
Qed.

(** With a single timer that is not yet due, time passes without any
    callback. *)
Lemma advance_before_due h t dt :
  timers h = [t] -> (now h + dt < due t)%Z ->
  advance dt h = set_now (now h + dt)%Z h.
Proof.
  intros Ht Hlt. unfold advance, fuelFor. cbn [advanceTo].
  unfold nextDue. rewrite Ht. cbn [earliest].
  destruct (due t <=? now h + dt)%Z eqn:E; [|reflexivity].
  apply Z.leb_le in E. lia.
Qed.

End AutoScrollFacts.

(** ** [VideoItem]: life cycle *)

Module VideoItemFacts.

Import VideoItem VideoItemCtl.
Local Open Scope string_scope.

Example video_loads_and_plays :
  let m := trace [LoadView true; LoadedMetadata; PlayView true (1 # 2)] clip in
  isLoaded m = true /\ isPlaying m = true /\ paused m = false
  /\ src m = Some "/videos/a.mp4" /\ timers m = [].
Proof. repeat split; reflexivity. Qed.

Example video_unloads_after_a_second :
  let m := trace [LoadView true; LoadedMetadata; PlayView true (1 # 2); LoadView false] clip in
  isLoaded (step (Elapse 999) m) = true
  /\ src (step (Elapse 999) m) = Some "/videos/a.mp4"
  /\ isLoaded (step (Elapse 1000) m) = false
  /\ src (step (Elapse 1000) m) = None.
Proof. repeat split; reflexivity. Qed.

Example video_reset_by_source_change :
  let m := trace [LoadView true; LoadedMetadata; Source "/videos/b.mp4"] clip in
  isLoaded m = false /\ isLoading m = true /\ src m = Some "/videos/b.mp4".
Proof. repeat split; reflexivity. Qed.

(** *** The component follows its control part *)

Ltac open_item m :=
  destruct m as [[?url ?ilv ?ipv ?ratio ?auto ?hl ?muted ?w ?idx]
                 ?ld ?pl ?fl ?lg ?err ?sref ?sr ?pa ?ltr ?wi ?ml ?pol ?tm ?nid ?nw ?sn ?uc].

Ltac split_tests :=
  repeat match goal with
         | |- context [if ?b then _ else _] =>
             lazymatch b with
             | context [if _ then _ else _] => fail
             | _ => first [is_var b; destruct b | let E := fresh "E" in destruct b eqn:E]
             end
         | |- context [match ?b with Some _ => _ | None => _ end] =>
             lazymatch b with
             | context [if _ then _ else _] => fail
             | _ => first [is_var b; destruct b | let E := fresh "E" in destruct b eqn:E]
             end
         end.

Ltac reduce :=
  cbv -[String.eqb JS.posQ Qminus Qeq_bool Nat.eqb Bool.eqb app filter Z.add Z.max
        negb andb orb];
  cbn [negb andb orb].

Ltac follow :=
  reduce; split_tests; reduce;
  repeat match goal with
         | H : ?x = _ |- context [?x] => rewrite H
         end;
  rewrite ?String.eqb_refl, ?andb_false_r, ?andb_true_r; cbn [negb andb orb];
  try reflexivity; try congruence.

Lemma handleError_ctl message m : ctl (handleError message m) = ahandleError (ctl m).
Proof.
  open_item m. unfold handleError, ahandleError, clearLoadTimeout, clearTimeout. follow.
Qed.

Lemma handleLoadedMetadata_ctl m :
  ctl (handleLoadedMetadata m) = ahandleLoadedMetadata (ctl m).
Proof.
  open_item m.
  unfold handleLoadedMetadata, ahandleLoadedMetadata, clearLoadTimeout, clearTimeout.
  follow.
Qed.

Lemma onLoadTimeout_ctl a b m : ctl (onLoadTimeout a b m) = aonLoadTimeout a b (ctl m).
Proof. open_item m. unfold onLoadTimeout, aonLoadTimeout. follow. Qed.

Lemma onUnload_ctl a m : ctl (onUnload a m) = aonUnload a (ctl m).
Proof.
  open_item m. unfold onUnload, aonUnload, pause, apause, detachSource. follow.
Qed.

Lemma handleClick_ctl m m' :
  inputs m' = inputs m ->
  ctl (handleClick (snapshot m) m') = ahandleClick (ctl m) (ctl m').
Proof.
  open_item m. open_item m'. cbn. intros [= -> -> -> -> -> -> -> -> ->].
  unfold handleClick, ahandleClick, pause, apause, play, aplay. follow.
Qed.

Lemma loadEffect_ctl m m' :
  inputs m' = inputs m ->
  ctl (loadEffect (snapshot m) m') = aloadEffect (ctl m) (ctl m').
Proof.
  open_item m. open_item m'. cbn. intros [= -> -> -> -> -> -> -> -> ->].
  unfold loadEffect, aloadEffect, loadVideo, aloadVideo, setTimeout. follow.
Qed.

Lemma sourceEffect_ctl m m' :
  inputs m' = inputs m ->
  ctl (sourceEffect (snapshot m) m') = asourceEffect (ctl m').
Proof.
  open_item m. open_item m'. cbn. intros [= -> -> -> -> -> -> -> -> ->].
  unfold sourceEffect, asourceEffect, pause, apause, detachSource. follow.
Qed.

Lemma unloadEffect_ctl r m : ctl (unloadEffect r m) = ctl m.
Proof. open_item m. unfold unloadEffect, setTimeout. follow. Qed.

Lemma autoplayEffect_ctl m m' :
  inputs m' = inputs m ->
  ctl (autoplayEffect (snapshot m) m') = aautoplayEffect (ctl m) (ctl m').
Proof.
  open_item m. open_item m'. cbn. intros [= -> -> -> -> -> -> -> -> ->].
  unfold autoplayEffect, aautoplayEffect, pause, apause, play, aplay. follow.
Qed.

Lemma clearTimeout_ctl ref m : ctl (clearTimeout ref m) = ctl m.
Proof. reflexivity. Qed.

Lemma clearTimeout_inputs ref m : inputs (clearTimeout ref m) = inputs m.
Proof. reflexivity. Qed.

Lemma loadEffect_inputs r m : inputs (loadEffect r m) = inputs m.
Proof. open_item m. unfold loadEffect, loadVideo, setTimeout. follow. Qed.

Lemma sourceEffect_inputs r m : inputs (sourceEffect r m) = inputs m.
Proof. open_item m. unfold sourceEffect, pause, detachSource. follow. Qed.

Lemma unloadEffect_inputs r m : inputs (unloadEffect r m) = inputs m.
Proof. open_item m. unfold unloadEffect, setTimeout. follow. Qed.

Lemma autoplayEffect_inputs r m : inputs (autoplayEffect r m) = inputs m.
Proof. open_item m. unfold autoplayEffect, pause, play. follow. Qed.

Lemma commitWith_inputs ch m : inputs (commitWith ch m) = inputs m.
Proof.
  unfold commitWith. cbn [inputs set_seen].
  destruct ch as [[] [] [] []]; cbn [runLoad runSource runUnload runAutoplay];
    rewrite ?autoplayEffect_inputs, ?unloadEffect_inputs, ?sourceEffect_inputs,
            ?loadEffect_inputs, ?clearTimeout_inputs; reflexivity.
Qed.

Lemma commitWith_seen ch m : seen (commitWith ch m) = Some (snapshot m).
Proof. reflexivity. Qed.

Lemma commitWith_ctl ch m : ctl (commitWith ch m) = acommit ch (ctl m).
Proof.
  unfold commitWith, acommit.
  change (ctl (set_seen ?x ?y)) with (ctl y).
  destruct ch as [[] [] [] []]; cbn [runLoad runSource runUnload runAutoplay];
    repeat first
      [ rewrite autoplayEffect_ctl
      | rewrite unloadEffect_ctl
      | rewrite sourceEffect_ctl
      | rewrite loadEffect_ctl
      | rewrite clearTimeout_ctl ];
    rewrite ?unloadEffect_inputs, ?sourceEffect_inputs, ?loadEffect_inputs,
            ?clearTimeout_inputs; reflexivity.
Qed.

(** *** Renders until the state is stable *)

Lemma eqb_same b : Bool.eqb b b = true.
Proof. destruct b; reflexivity. Qed.

Lemma rerun_after x r :
  seen x = Some r -> rendered r = inputs x ->
  rerun x =
  {| runLoad := negb (Bool.eqb (wasLoaded r) (isLoaded x)
                      && Bool.eqb (wasFailed r) (isFailed x)
                      && Bool.eqb (wasLoading r) (isLoading x));
     runSource := false;
     runUnload := negb (Bool.eqb (wasLoaded r) (isLoaded x)
                        && Bool.eqb (wasLoading r) (isLoading x));
     runAutoplay := negb (Bool.eqb (wasLoaded r) (isLoaded x)
                          && Bool.eqb (wasFailed r) (isFailed x)
                          && Bool.eqb (wasPlaying r) (isPlaying x)) |}.
Proof.
  intros Hs Hr. unfold rerun, unchanged. rewrite Hs.
  unfold sameLoadDeps, sameLoadVideo, sameSourceDeps, sameUnloadDeps,
         sameAutoplayDeps, sameFlag, snapshot. cbn.
  rewrite Hr, !Nat.eqb_refl, !String.eqb_refl, !Qeq_bool_refl, !eqb_same. cbn.
  rewrite !andb_true_r.
  f_equal.
  destruct (Bool.eqb (wasLoaded r) (isLoaded x)), (Bool.eqb (wasFailed r) (isFailed x)),
           (Bool.eqb (wasLoading r) (isLoading x)); reflexivity.
Qed.

Lemma rerun_commitWith ch m :
  rerun (commitWith ch m) = achanged (ctl m) (ctl (commitWith ch m)).
Proof.
  rewrite (rerun_after (commitWith ch m) (snapshot m));
    [reflexivity | reflexivity | symmetry; apply commitWith_inputs].
Qed.

Lemma needsRender_commitWith ch m :
  needsRender (commitWith ch m) = aneeds (ctl m) (ctl (commitWith ch m)).
Proof. reflexivity. Qed.

Lemma settle_ctl fuel : forall m, ctl (settle fuel m) = asettle fuel (rerun m) (ctl m).
Proof.
  induction fuel as [|fuel IH]; intros m; [reflexivity|].
  cbn [settle asettle]. unfold commit.
  rewrite needsRender_commitWith, commitWith_ctl.
  destruct (aneeds (ctl m) (acommit (rerun m) (ctl m))); [|apply commitWith_ctl].
  rewrite IH, rerun_commitWith, commitWith_ctl. reflexivity.
Qed.

Lemma settle_inputs fuel : forall m, inputs (settle fuel m) = inputs m.
Proof.
  induction fuel as [|fuel IH]; intros m; [reflexivity|].
  cbn [settle]. unfold commit.
  destruct (needsRender (commitWith (rerun m) m)).
  - rewrite IH. apply commitWith_inputs.
  - apply commitWith_inputs.
Qed.

Lemma stable_commit ch m :
  needsRender (commitWith ch m) = false -> settled (commitWith ch m).
Proof.
  unfold settled. rewrite commitWith_seen.
  unfold needsRender. rewrite commitWith_seen.
  pose proof (commitWith_inputs ch m) as Hi.
  set (x := commitWith ch m) in *.
  unfold sameFlag, snapshot. cbn [wasLoaded wasPlaying wasFailed wasLoading].
  intros H. apply negb_false_iff in H.
  apply andb_true_iff in H as [H H4].
  apply andb_true_iff in H as [H H3].
  apply andb_true_iff in H as [H1 H2].
  apply Bool.eqb_prop in H1, H2, H3, H4.
  rewrite Hi, H1, H2, H3, H4. reflexivity.
Qed.

Lemma settle_settled fuel : forall m,
  aquiet fuel (rerun m) (ctl m) = true -> settled (settle fuel m).
Proof.
  induction fuel as [|fuel IH]; intros m; [discriminate|].
  cbn [settle aquiet]. unfold commit.
  rewrite needsRender_commitWith, commitWith_ctl.
  destruct (aneeds (ctl m) (acommit (rerun m) (ctl m))) eqn:E.
  - intros H. apply IH. rewrite rerun_commitWith, commitWith_ctl. exact H.
  - intros _. apply stable_commit.
    rewrite needsRender_commitWith, commitWith_ctl. exact E.
Qed.

(** *** Events, as far as the control part sees them *)

Lemma handleClick_frame r m :
  seen (handleClick r m) = seen m /\ inputs (handleClick r m) = inputs m.
Proof. open_item m. unfold handleClick, play, pause. follow; split; reflexivity. Qed.

Lemma handleLoadedMetadata_frame m :
  seen (handleLoadedMetadata m) = seen m
  /\ inputs (handleLoadedMetadata m) = inputs m.
Proof.
  open_item m. unfold handleLoadedMetadata, clearLoadTimeout, clearTimeout.
  follow; split; reflexivity.
Qed.

Lemma handleError_frame message m :
  seen (handleError message m) = seen m /\ inputs (handleError message m) = inputs m.
Proof.
  open_item m. unfold handleError, clearLoadTimeout, clearTimeout.
  follow; split; reflexivity.
Qed.

Lemma rerun_handler m x :
  seen m = Some (snapshot m) -> seen x = seen m -> inputs x = inputs m ->
  rerun x = achanged (ctl m) (ctl x).
Proof.
  intros Hs Fs Fi.
  rewrite (rerun_after x (snapshot m)); [reflexivity | congruence | now rewrite Fi].
Qed.

Ltac open_settled m Hs :=
  open_item m;
  cbv [settled seen snapshot inputs isLoaded isPlaying isFailed isLoading] in Hs;
  subst.

Ltac destruct_tests :=
  repeat match goal with
         | |- context [Qeq_bool ?a ?b] => destruct (Qeq_bool a b)
         | |- context [String.eqb ?a ?b] => destruct (String.eqb a b)
         | |- context [Nat.eqb ?a ?b] => destruct (Nat.eqb a b)
         | |- context [JS.posQ ?a] => destruct (JS.posQ a)
         end.

Ltac input_case :=
  unfold rerun, unchanged, sameLoadDeps, sameLoadVideo, sameSourceDeps,
         sameUnloadDeps, sameAutoplayDeps, sameFlag; reduce;
  rewrite ?Nat.eqb_refl, ?String.eqb_refl, ?Qeq_bool_refl, ?eqb_same;
  cbn [negb andb orb]; rewrite ?andb_true_r;
  destruct_tests;
  repeat match goal with
         | |- context [Bool.eqb ?a ?b] => destruct (Bool.eqb a b)
         end;
  reflexivity.

Lemma handle_sim ev m :
  settled m -> timed ev = false ->
  (rerun (handle ev m), ctl (handle ev m)) = ahandle (abstraction ev m) (ctl m).
Proof.
  intros Hs Ht. unfold settled in Hs.
  destruct ev; try discriminate; cbn [handle abstraction ahandle].
  - (* LoadView *) open_settled m Hs. input_case.
  - (* PlayView *) open_settled m Hs. input_case.
  - (* Source *) open_settled m Hs. input_case.
  - (* SetAutoplay *) open_settled m Hs. input_case.
  - (* SetHighlightMode *) open_settled m Hs. input_case.
  - (* Restyle *) open_settled m Hs. input_case.
  - (* Click *)
    destruct (handleClick_frame (snapshot m) m) as [Fs Fi].
    rewrite (rerun_handler m _ Hs Fs Fi).
    rewrite handleClick_ctl by reflexivity. reflexivity.
  - (* LoadedMetadata *)
    destruct (handleLoadedMetadata_frame m) as [Fs Fi].
    rewrite (rerun_handler m _ Hs Fs Fi).
    rewrite handleLoadedMetadata_ctl. reflexivity.
  - (* MediaError *)
    destruct (handleError_frame message m) as [Fs Fi].
    rewrite (rerun_handler m _ Hs Fs Fi).
    rewrite handleError_ctl. reflexivity.
  - (* Policy *)
    rewrite (rerun_handler m (set_playAllowed allowed m) Hs eq_refl eq_refl).
    unfold achanged, noRerun. cbn. rewrite !eqb_same. reflexivity.
Qed.

Lemma step_sim ev m :
  settled m -> timed ev = false ->
  ctl (step ev m) = astep (abstraction ev m) (ctl m)
  /\ (aquietStep (abstraction ev m) (ctl m) = true -> settled (step ev m)).
Proof.
  intros Hs Ht. pose proof (handle_sim ev m Hs Ht) as H.
  unfold astep, aquietStep. rewrite <- H.
  assert (E : step ev m = settle renders (handle ev m))
    by (destruct ev; try discriminate; reflexivity).
  rewrite E. split; [apply settle_ctl | apply settle_settled].
Qed.

(** *** The invariant of the control part, checked on every case *)

Lemma forall_bool_spec f : forall_bool f = true -> forall b, f b = true.
Proof.
  unfold forall_bool. intros H b. apply andb_true_iff in H as [H1 H2].
  destruct b; assumption.
Qed.

Lemma forallCtl_spec P : forallCtl P = true -> forall c, P c = true.
Proof.
  intros H [b1 b2 b3 b4 b5 b6 b7 b8 b9 b10 b11 b12 b13 b14 b15].
  unfold forallCtl in H.
  apply forall_bool_spec with (b := b1) in H.
  apply forall_bool_spec with (b := b2) in H.
  apply forall_bool_spec with (b := b3) in H.
  apply forall_bool_spec with (b := b4) in H.
  apply forall_bool_spec with (b := b5) in H.
  apply forall_bool_spec with (b := b6) in H.
  apply forall_bool_spec with (b := b7) in H.
  apply forall_bool_spec with (b := b8) in H.
  apply forall_bool_spec with (b := b9) in H.
  apply forall_bool_spec with (b := b10) in H.
  apply forall_bool_spec with (b := b11) in H.
  apply forall_bool_spec with (b := b12) in H.
  apply forall_bool_spec with (b := b13) in H.
  apply forall_bool_spec with (b := b14) in H.
  apply forall_bool_spec with (b := b15) in H.
  exact H.
Qed.

Lemma forallEvent_spec P : forallEvent P = true -> forall a, P a = true.
Proof.
  unfold forallEvent. intros H a.
  apply andb_true_iff in H as [H H12].
  apply andb_true_iff in H as [H H11].
  apply andb_true_iff in H as [H H10].
  apply andb_true_iff in H as [H H9].
  apply andb_true_iff in H as [H H8].
  apply andb_true_iff in H as [H H7].
  apply andb_true_iff in H as [H H6].
  apply andb_true_iff in H as [H H5].
  apply andb_true_iff in H as [H H4].
  apply andb_true_iff in H as [H H3].
  apply andb_true_iff in H as [H1 H2].
  destruct a as [b | b1 b2 b3 | b1 b2 | b | b | b1 b2 | | | | b | [b1 b2 | b]].
  - exact (forall_bool_spec _ H1 b).
  - exact (forall_bool_spec _ (forall_bool_spec _ (forall_bool_spec _ H2 b1) b2) b3).
  - exact (forall_bool_spec _ (forall_bool_spec _ H3 b1) b2).
  - exact (forall_bool_spec _ H4 b).
  - exact (forall_bool_spec _ H5 b).
  - exact (forall_bool_spec _ (forall_bool_spec _ H6 b1) b2).
  - exact H7.
  - exact H8.
  - exact H9.
  - exact (forall_bool_spec _ H10 b).
  - exact (forall_bool_spec _ (forall_bool_spec _ H11 b1) b2).
  - exact (forall_bool_spec _ H12 b).
Qed.

Lemma control_invariant_checked :
  forallCtl (fun c =>
    implb (W c) (forallEvent (fun a => aquietStep a c && W (astep a c)))) = true.
Proof. vm_compute. reflexivity. Qed.

Lemma control_invariant c a :
  W c = true -> aquietStep a c = true /\ W (astep a c) = true.
Proof.
  intros Hw.
  pose proof (forallCtl_spec _ control_invariant_checked c) as H.
  cbv beta in H. rewrite Hw in H. cbn [implb] in H.
  apply andb_true_iff. exact (forallEvent_spec _ H a).
Qed.

(** *** Pending timers *)

Lemma removeId_incl ref l : incl (removeId ref l) l.
Proof.
  destruct ref as [i|]; cbn; [|apply incl_refl].
  intros t Ht. apply filter_In in Ht. tauto.
Qed.

Lemma removeId_not ref l t : In t (removeId ref l) -> ref <> Some (id t).
Proof.
  destruct ref as [i|]; cbn; [|discriminate].
  intros Ht. apply filter_In in Ht as [_ Ht].
  apply negb_true_iff, Nat.eqb_neq in Ht. congruence.
Qed.

Lemma okTimer_inert uc t : okTimer None t -> okTimer uc t.
Proof. unfold okTimer. destruct (action t); [tauto|]. intros [_ H]. discriminate. Qed.

(** After the clean-up no unload timer is left. *)
Lemma ok_cleaned uc l :
  Forall (okTimer uc) l -> Forall (okTimer None) (removeId uc l).
Proof.
  intros H. apply Forall_forall. intros t Ht.
  pose proof (removeId_not _ _ _ Ht) as Hne.
  apply removeId_incl in Ht. rewrite Forall_forall in H. specialize (H t Ht).
  unfold okTimer in *. destruct (action t); [exact H|]. destruct H; contradiction.
Qed.

Lemma inert_no_unload l : Forall (okTimer None) l -> existsb isUnload l = false.
Proof.
  intros H. apply not_true_iff_false. intros E.
  apply existsb_exists in E as (t & Ht & Hu).
  rewrite Forall_forall in H. specialize (H t Ht).
  unfold okTimer, isUnload in *. destruct (action t); [discriminate|].
  destruct H; discriminate.
Qed.

Lemma grows_drop l l' : incl l' l -> grows l l'.
Proof. intros Hi t Ht. left. apply Hi, Ht. Qed.

Lemma grows_load l t b : action t = LoadTimeout false b -> grows l (l ++ [t]).
Proof.
  intros Ha u Hu. apply in_app_or in Hu as [Hu|[<-|[]]]; [now left|].
  right. now exists b.
Qed.

Lemma grows_refl l : grows l l.
Proof. apply grows_drop, incl_refl. Qed.

Lemma grows_trans l1 l2 l3 : grows l1 l2 -> grows l2 l3 -> grows l1 l3.
Proof.
  intros H12 H23 t Ht. destruct (H23 t Ht) as [H|H]; [apply H12, H | now right].
Qed.

Lemma grows_ok uc l l' :
  grows l l' -> Forall (okTimer uc) l -> Forall (okTimer uc) l'.
Proof.
  intros Hg H. apply Forall_forall. intros t Ht.
  destruct (Hg t Ht) as [Hin | [b Ha]].
  - rewrite Forall_forall in H. exact (H t Hin).
  - unfold okTimer. rewrite Ha. reflexivity.
Qed.

Lemma grows_unload l l' :
  grows l l' -> existsb isUnload l' = true -> existsb isUnload l = true.
Proof.
  intros Hg E. apply existsb_exists in E as (t & Ht & Hu).
  destruct (Hg t Ht) as [Hin | [b Ha]].
  - apply existsb_exists. now exists t.
  - unfold isUnload in Hu. rewrite Ha in Hu. discriminate.
Qed.

Lemma tame_refl m : tame m m.
Proof. split; [apply grows_refl|split; reflexivity]. Qed.

Lemma tame_trans m1 m2 m3 : tame m1 m2 -> tame m2 m3 -> tame m1 m3.
Proof.
  intros (G1 & U1 & S1) (G2 & U2 & S2).
  split; [now apply grows_trans with (timers m2) | split; congruence].
Qed.

Lemma tame_keeps m m' :
  tame m m' -> okTimers m /\ unloadJustified m -> okTimers m' /\ unloadJustified m'.
Proof.
  intros (Hg & Hu & Hs) [Hok Hj]. split.
  - unfold okTimers. rewrite Hu. now apply grows_ok with (timers m).
  - unfold unloadJustified. rewrite Hs. intros E. apply Hj.
    now apply grows_unload with (timers m').
Qed.

Ltac tame_op :=
  reduce; split_tests; reduce;
  (split; [|split; reflexivity]);
  first [ apply grows_refl
        | apply grows_drop; apply removeId_incl
        | eapply grows_load; reflexivity
        | apply grows_drop; intros ? H; apply filter_In in H; tauto ].

Lemma handleClick_tame r m : tame m (handleClick r m).
Proof. open_item m. unfold tame, handleClick, play, pause. tame_op. Qed.

Lemma handleError_tame msg m : tame m (handleError msg m).
Proof. open_item m. unfold tame, handleError, clearLoadTimeout, clearTimeout. tame_op. Qed.

Lemma handleLoadedMetadata_tame m : tame m (handleLoadedMetadata m).
Proof.
  open_item m. unfold tame, handleLoadedMetadata, clearLoadTimeout, clearTimeout. tame_op.
Qed.

Lemma onLoadTimeout_tame a b m : tame m (onLoadTimeout a b m).
Proof. open_item m. unfold tame, onLoadTimeout. tame_op. Qed.

Lemma onUnload_tame a m : tame m (onUnload a m).
Proof. open_item m. unfold tame, onUnload, pause, detachSource. tame_op. Qed.

Lemma sourceEffect_tame r m : tame m (sourceEffect r m).
Proof. open_item m. unfold tame, sourceEffect, pause, detachSource. tame_op. Qed.

Lemma autoplayEffect_tame r m : tame m (autoplayEffect r m).
Proof. open_item m. unfold tame, autoplayEffect, play, pause. tame_op. Qed.

Lemma loadEffect_tame r m : tame m (loadEffect r m).
Proof.
  destruct r as [ri [] [] [] []]; open_item m;
    unfold tame, loadEffect, loadVideo, setTimeout;
    reduce; split_tests; reduce; (split; [|split; reflexivity]);
    first [apply grows_refl | eapply grows_load; reflexivity].
Qed.

Lemma load_source_tame ch r m :
  tame m (let m2 := if runLoad ch then loadEffect r m else m in
          if runSource ch then sourceEffect r m2 else m2).
Proof.
  cbv zeta. destruct (runLoad ch), (runSource ch).
  - eapply tame_trans; [apply loadEffect_tame | apply sourceEffect_tame].
  - apply loadEffect_tame.
  - apply sourceEffect_tame.
  - apply tame_refl.
Qed.

Lemma maybe_autoplay_tame (b : bool) r m :
  tame m (if b then autoplayEffect r m else m).
Proof. destruct b; [apply autoplayEffect_tame | apply tame_refl]. Qed.

(** The unload effect after its clean-up: either it sets the one unload
    timer, for a render outside the load window, or none is pending. *)
Lemma unloadEffect_ok r m :
  Forall (okTimer None) (timers m) ->
  okTimers (unloadEffect r m)
  /\ (existsb isUnload (timers (unloadEffect r m)) = true -> unloadCondition r = true)
  /\ seen (unloadEffect r m) = seen m.
Proof.
  intros Hin. unfold unloadEffect. fold (unloadCondition r).
  destruct (unloadCondition r) eqn:Ec.
  - cbn. split; [|split; [reflexivity|reflexivity]].
    unfold okTimers. cbn. apply Forall_app. split.
    + eapply Forall_impl; [|exact Hin]. intros t. apply okTimer_inert.
    + constructor; [|constructor]. unfold okTimer; cbn.
      unfold unloadCondition in Ec. apply andb_true_iff in Ec as [Ec _].
      apply negb_true_iff in Ec. split; [exact Ec|reflexivity].
  - cbn. split; [|split; [|reflexivity]].
    + exact Hin.
    + rewrite (inert_no_unload _ Hin). discriminate.
Qed.

Lemma unchanged_unload m :
  runUnload (rerun m) = false ->
  exists old, seen m = Some old
              /\ unloadCondition old = unloadCondition (snapshot m).
Proof.
  unfold rerun, unchanged. cbn [runUnload].
  destruct (seen m) as [old|]; [|discriminate].
  intros H. apply negb_false_iff in H. exists old. split; [reflexivity|].
  unfold sameUnloadDeps, sameFlag in H.
  apply andb_true_iff in H as [H H3]. apply andb_true_iff in H as [H1 H2].
  apply Bool.eqb_prop in H1, H2, H3.
  unfold unloadCondition. rewrite H1, H2, H3. reflexivity.
Qed.

Lemma commit_Tim m : Tim m -> Tim (commit m).
Proof.
  intros [Hok Hj]. unfold commit, commitWith.
  set (r := snapshot m).
  destruct (runUnload (rerun m)) eqn:Eu.
  - (* the unload effect runs again *)
    set (m1 := clearTimeout (unloadCleanup m) m).
    assert (H1 : Forall (okTimer None) (timers m1)) by (apply ok_cleaned, Hok).
    pose proof (load_source_tame (rerun m) r m1) as T3. cbv zeta in T3.
    set (m3 := if runSource (rerun m) then _ else _) in *.
    assert (H3 : Forall (okTimer None) (timers m3))
      by (destruct T3 as (G & _); eapply grows_ok; eassumption).
    destruct (unloadEffect_ok r m3 H3) as (O4 & J4 & _).
    pose proof (maybe_autoplay_tame (runAutoplay (rerun m)) r (unloadEffect r m3)) as T5.
    set (m5 := if runAutoplay (rerun m) then _ else _) in *.
    destruct T5 as (G5 & U5 & S5).
    split.
    + unfold okTimers. cbn [timers unloadCleanup set_seen]. rewrite U5.
      eapply grows_ok; [exact G5 | exact O4].
    + unfold unloadJustified. cbn [timers seen set_seen]. intros E.
      exists r. split; [reflexivity|].
      pose proof (J4 (grows_unload _ _ G5 E)) as Hc.
      unfold unloadCondition in Hc. apply andb_true_iff in Hc as [Hc1 Hc2].
      apply negb_true_iff in Hc1. split; assumption.
  - (* its dependencies are those of the last commit *)
    destruct (unchanged_unload m Eu) as (old & Hseen & Hcond).
    pose proof (load_source_tame (rerun m) r m) as T3. cbv zeta in T3.
    set (m3 := if runSource (rerun m) then _ else _) in *.
    pose proof (maybe_autoplay_tame (runAutoplay (rerun m)) r m3) as T5.
    set (m5 := if runAutoplay (rerun m) then _ else _) in *.
    pose proof (tame_trans _ _ _ T3 T5) as (G & U & S).
    split.
    + unfold okTimers. cbn [timers unloadCleanup set_seen]. rewrite U.
      eapply grows_ok; [exact G | exact Hok].
    + unfold unloadJustified. cbn [timers seen set_seen]. intros E.
      exists r. split; [reflexivity|].
      destruct (Hj (grows_unload _ _ G E)) as (r0 & Hr0 & Hc1 & Hc2).
      assert (r0 = old) by congruence. subst r0.
      assert (Hc : unloadCondition old = true)
        by (unfold unloadCondition; rewrite Hc1, Hc2; reflexivity).
      rewrite Hcond in Hc. unfold unloadCondition in Hc.
      apply andb_true_iff in Hc as [Hc1' Hc2'].
      apply negb_true_iff in Hc1'. split; assumption.
Qed.

Lemma settle_Tim fuel : forall m, Tim m -> Tim (settle fuel m).
Proof.
  induction fuel as [|fuel IH]; intros m H; [exact H|].
  cbn [settle]. destruct (needsRender (commit m)).
  - apply IH, commit_Tim, H.
  - apply commit_Tim, H.
Qed.

(** *** Timers firing, as the control part sees it *)

Lemma run_frame cb m :
  seen (run cb m) = seen m /\ inputs (run cb m) = inputs m.
Proof.
  destruct cb as [a b|a]; open_item m; unfold run, onLoadTimeout, onUnload, pause, detachSource;
    follow; split; reflexivity.
Qed.

Lemma run_ctl cb m :
  ctl (run cb m) = snd (ahandle (AFire cb) (ctl m)).
Proof.
  destruct cb as [a b|a]; cbn [run ahandle snd].
  - apply onLoadTimeout_ctl.
  - apply onUnload_ctl.
Qed.

Lemma ahandle_fire cb c :
  ahandle (AFire cb) c = (achanged c (snd (ahandle (AFire cb) c)), snd (ahandle (AFire cb) c)).
Proof. destruct cb; reflexivity. Qed.

Lemma fire_sim t m :
  settled m ->
  ctl (fire t m) = astep (AFire (action t)) (ctl m)
  /\ (aquietStep (AFire (action t)) (ctl m) = true -> settled (fire t m)).
Proof.
  intros Hs. unfold fire. fold (due_state t m).
  assert (Hx : seen (due_state t m) = Some (snapshot (due_state t m))) by exact Hs.
  destruct (run_frame (action t) (due_state t m)) as [Fs Fi].
  pose proof (rerun_handler (due_state t m) _ Hx Fs Fi) as Hr.
  pose proof (run_ctl (action t) (due_state t m)) as Hc.
  change (ctl (due_state t m)) with (ctl m) in Hr, Hc.
  unfold astep, aquietStep. rewrite ahandle_fire. rewrite <- Hc, <- Hr.
  split; [apply settle_ctl | apply settle_settled].
Qed.

(** *** Settled and well-formed *)

Lemma step_Ok ev m : timed ev = false -> Ok m -> Ok (step ev m).
Proof.
  intros Ht [Hs Hw].
  destruct (step_sim ev m Hs Ht) as [Hc Hq].
  destruct (control_invariant (ctl m) (abstraction ev m) Hw) as [Q Hw'].
  split; [apply Hq, Q | rewrite Hc; exact Hw'].
Qed.

Lemma fire_Ok t m : Ok m -> Ok (fire t m).
Proof.
  intros [Hs Hw].
  destruct (fire_sim t m Hs) as [Hc Hq].
  destruct (control_invariant (ctl m) (AFire (action t)) Hw) as [Q Hw'].
  split; [apply Hq, Q | rewrite Hc; exact Hw'].
Qed.

Lemma set_now_Ok n m : Ok m -> Ok (set_now n m).
Proof. intros H. exact H. Qed.

Lemma advanceTo_Ok fuel deadline : forall m, Ok m -> Ok (advanceTo fuel deadline m).
Proof.
  induction fuel as [|fuel IH]; intros m H; [exact H|].
  cbn [advanceTo]. destruct (nextDue deadline m) as [t|].
  - apply IH, fire_Ok, H.
  - apply set_now_Ok, H.
Qed.

Lemma mount_Ok url auto highlight muted w i allowed t :
  Ok (mount url auto highlight muted w i allowed t).
Proof.
  unfold mount, Ok.
  set (m0 := initial url auto highlight muted w i allowed t).
  assert (Hr : rerun m0 = everything) by reflexivity.
  assert (Hc : ctl m0 = unmounted auto highlight allowed) by reflexivity.
  split.
  - apply settle_settled. rewrite Hr, Hc.
    destruct auto, highlight, allowed; reflexivity.
  - rewrite settle_ctl, Hr, Hc.
    destruct auto, highlight, allowed; reflexivity.
Qed.

Lemma step_Ok_any ev m : Ok m -> Ok (step ev m).
Proof.
  intros H. destruct (timed ev) eqn:Et; [|now apply step_Ok].
  destruct ev; try discriminate. cbn [step handle]. apply advanceTo_Ok, H.
Qed.

Lemma reachable_Ok m : reachable m -> Ok m.
Proof.
  induction 1 as [url auto highlight muted w i allowed t | ev m _ IH].
  - apply mount_Ok.
  - apply step_Ok_any, IH.
Qed.

(** *** The timer invariants are kept *)

Lemma handle_tame ev m : timed ev = false -> tame m (handle ev m).
Proof.
  destruct ev; try discriminate; intros _; cbn [handle];
    try (split; [apply grows_refl | split; reflexivity]).
  - apply handleClick_tame.
  - apply handleLoadedMetadata_tame.
  - apply handleError_tame.
Qed.

Lemma step_Tim ev m : timed ev = false -> Tim m -> Tim (step ev m).
Proof.
  intros Ht H.
  assert (E : step ev m = settle renders (handle ev m))
    by (destruct ev; try discriminate; reflexivity).
  rewrite E. apply settle_Tim. eapply tame_keeps; [apply handle_tame, Ht | exact H].
Qed.

Lemma run_tame cb m : tame m (run cb m).
Proof. destruct cb; [apply onLoadTimeout_tame | apply onUnload_tame]. Qed.

Lemma due_state_tame t m : tame m (due_state t m).
Proof. split; [apply grows_drop, removeId_incl | split; reflexivity]. Qed.

Lemma fire_Tim t m : Tim m -> Tim (fire t m).
Proof.
  intros H. unfold fire. fold (due_state t m). apply settle_Tim.
  eapply tame_keeps; [|exact H].
  eapply tame_trans; [apply due_state_tame | apply run_tame].
Qed.

Lemma advanceTo_Tim fuel deadline : forall m, Tim m -> Tim (advanceTo fuel deadline m).
Proof.
  induction fuel as [|fuel IH]; intros m H; [exact H|].
  cbn [advanceTo]. destruct (nextDue deadline m) as [t|].
  - apply IH, fire_Tim, H.
  - exact H.
Qed.

Lemma step_Tim_any ev m : Tim m -> Tim (step ev m).
Proof.
  intros H. destruct (timed ev) eqn:Et; [|now apply step_Tim].
  destruct ev; try discriminate. cbn [step handle]. apply advanceTo_Tim, H.
Qed.

Lemma mount_Tim url auto highlight muted w i allowed t :
  Tim (mount url auto highlight muted w i allowed t).
Proof.
  apply settle_Tim. split.
  - constructor.
  - intros E. discriminate.
Qed.

Lemma reachable_Tim m : reachable m -> Tim m.
Proof.
  induction 1 as [url auto highlight muted w i allowed t | ev m _ IH].
  - apply mount_Tim.
  - apply step_Tim_any, IH.
Qed.

(** Outside the window the unload timer is pending only for an item that
    is loaded or loading: otherwise every pending callback is a load
    timeout that closed over [isLoading = false]. *)
Lemma inert_timers m :
  settled m -> Tim m -> unloadCondition (snapshot m) = false ->
  Forall inert (timers m).
Proof.
  intros Hs [Hok Hj] Hc. apply Forall_forall. intros t Ht.
  unfold okTimers in Hok. rewrite Forall_forall in Hok. specialize (Hok t Ht).
  unfold okTimer in Hok. unfold inert.
  destruct (action t) as [a b|a] eqn:Ea.
  - subst a. now exists b.
  - exfalso.
    assert (E : existsb isUnload (timers m) = true).
    { apply existsb_exists. exists t. split; [exact Ht|]. unfold isUnload. now rewrite Ea. }
    destruct (Hj E) as (r & Hr & H1 & H2).
    unfold settled in Hs. rewrite Hs in Hr. injection Hr as <-.
    unfold unloadCondition in Hc. rewrite H1, H2 in Hc. discriminate.
Qed.

(** *** Timer ids are distinct *)

Lemma NoDup_map_filter (f : timer -> bool) l :
  NoDup (map id l) -> NoDup (map id (filter f l)).
Proof.
  induction l as [|t l IH]; cbn; [trivial|].
  intros H. inversion H as [|x xs Hn Hd]; subst.
  destruct (f t); [|now apply IH].
  cbn. constructor; [|now apply IH].
  intros Hin. apply Hn. apply in_map_iff in Hin as (u & Hu & Hin).
  apply filter_In in Hin as [Hin _]. apply in_map_iff. now exists u.
Qed.

Lemma ids_filter f l n : ids l n -> ids (filter f l) n.
Proof.
  intros [Hd Hb]. split; [now apply NoDup_map_filter|].
  apply Forall_forall. intros t Ht. apply filter_In in Ht as [Ht _].
  rewrite Forall_forall in Hb. now apply Hb.
Qed.

Lemma ids_removeId ref l n : ids l n -> ids (removeId ref l) n.
Proof. destruct ref; [apply ids_filter | trivial]. Qed.

Lemma ids_push l n d cb :
  ids l n -> ids (l ++ [{| id := n; due := d; action := cb |}]) (S n).
Proof.
  intros [Hd Hb]. split.
  - rewrite map_app. cbn.
    apply NoDup_app; [exact Hd | constructor; [intros []|constructor] |].
    intros x Hx [<-|[]]. apply in_map_iff in Hx as (u & Hu & Hin).
    rewrite Forall_forall in Hb. specialize (Hb u Hin). lia.
  - apply Forall_app. split.
    + eapply Forall_impl; [|exact Hb]. cbn. intros; lia.
    + constructor; [cbn; lia | constructor].
Qed.

(** Distinct pending timers have distinct ids. *)
Lemma ids_inj l n t u :
  ids l n -> In t l -> In u l -> id t = id u -> t = u.
Proof.
  intros [Hd _]. revert Hd. induction l as [|x l IH]; cbn; [tauto|].
  intros Hd. inversion Hd as [|y ys Hn Hd']; subst.
  intros [->|Ht] [->|Hu] E; [reflexivity | | | now apply IH].
  - exfalso. apply Hn. rewrite E. now apply in_map.
  - exfalso. apply Hn. rewrite <- E. now apply in_map.
Qed.

Ltac ids_op :=
  cbv -[String.eqb JS.posQ Qminus Qeq_bool Nat.eqb Bool.eqb app filter Z.add Z.max
        negb andb orb ids];
  cbn [negb andb orb];
  split_tests;
  cbv -[String.eqb JS.posQ Qminus Qeq_bool Nat.eqb Bool.eqb app filter Z.add Z.max
        negb andb orb ids];
  intros Hids;
  first [ exact Hids
        | apply ids_filter; exact Hids
        | apply ids_push; exact Hids
        | apply ids_push; apply ids_filter; exact Hids ].

Lemma clearTimeout_Ids ref m : Ids m -> Ids (clearTimeout ref m).
Proof. apply ids_removeId. Qed.

Lemma loadEffect_Ids r m : Ids m -> Ids (loadEffect r m).
Proof.
  destruct r as [ri [] [] [] []]; open_item m;
    unfold Ids, loadEffect, loadVideo, setTimeout; ids_op.
Qed.

Lemma sourceEffect_Ids r m : Ids m -> Ids (sourceEffect r m).
Proof. open_item m. unfold Ids, sourceEffect, pause, detachSource. ids_op. Qed.

Lemma unloadEffect_Ids r m : Ids m -> Ids (unloadEffect r m).
Proof. open_item m. unfold Ids, unloadEffect, setTimeout. ids_op. Qed.

Lemma autoplayEffect_Ids r m : Ids m -> Ids (autoplayEffect r m).
Proof. open_item m. unfold Ids, autoplayEffect, play, pause. ids_op. Qed.

Lemma handleClick_Ids r m : Ids m -> Ids (handleClick r m).
Proof. open_item m. unfold Ids, handleClick, play, pause. ids_op. Qed.

Lemma handleError_Ids msg m : Ids m -> Ids (handleError msg m).
Proof. open_item m. unfold Ids, handleError, clearLoadTimeout, clearTimeout. ids_op. Qed.

Lemma handleLoadedMetadata_Ids m : Ids m -> Ids (handleLoadedMetadata m).
Proof.
  open_item m. unfold Ids, handleLoadedMetadata, clearLoadTimeout, clearTimeout. ids_op.
Qed.

Lemma run_Ids cb m : Ids m -> Ids (run cb m).
Proof.
  destruct cb; open_item m; unfold Ids, run, onLoadTimeout, onUnload, pause, detachSource;
    ids_op.
Qed.

Lemma commitWith_Ids ch m : Ids m -> Ids (commitWith ch m).
Proof.
  intros H. unfold commitWith.
  change (Ids (set_seen ?x ?y)) with (Ids y).
  destruct ch as [[] [] [] []]; cbn [runLoad runSource runUnload runAutoplay];
    repeat first [ apply autoplayEffect_Ids | apply unloadEffect_Ids
                 | apply sourceEffect_Ids | apply loadEffect_Ids
                 | apply clearTimeout_Ids ];
    exact H.
Qed.

Lemma settle_Ids fuel : forall m, Ids m -> Ids (settle fuel m).
Proof.
  induction fuel as [|fuel IH]; intros m H; [exact H|].
  cbn [settle]. unfold commit. destruct (needsRender _).
  - apply IH, commitWith_Ids, H.
  - apply commitWith_Ids, H.
Qed.

Lemma handle_Ids ev m : timed ev = false -> Ids m -> Ids (handle ev m).
Proof.
  destruct ev; try discriminate; intros _ H; cbn [handle]; try exact H.
  - now apply handleClick_Ids.
  - now apply handleLoadedMetadata_Ids.
  - now apply handleError_Ids.
Qed.

Lemma fire_Ids t m : Ids m -> Ids (fire t m).
Proof.
  intros H. unfold fire. apply settle_Ids, run_Ids.
  apply (clearTimeout_Ids (Some (id t)) (set_now _ m)). exact H.
Qed.

Lemma advanceTo_Ids fuel deadline : forall m, Ids m -> Ids (advanceTo fuel deadline m).
Proof.
  induction fuel as [|fuel IH]; intros m H; [exact H|].
  cbn [advanceTo]. destruct (nextDue deadline m) as [t|].
  - apply IH, fire_Ids, H.
  - exact H.
Qed.

Lemma step_Ids ev m : Ids m -> Ids (step ev m).
Proof.
  intros H. destruct (timed ev) eqn:Et.
  - destruct ev; try discriminate. cbn [step handle]. apply advanceTo_Ids, H.
  - assert (E : step ev m = settle renders (handle ev m))
      by (destruct ev; try discriminate; reflexivity).
    rewrite E. apply settle_Ids, handle_Ids; assumption.
Qed.

Lemma mount_Ids url auto highlight muted w i allowed t :
  Ids (mount url auto highlight muted w i allowed t).
Proof. apply settle_Ids. split; constructor. Qed.

Lemma reachable_Ids m : reachable m -> Ids m.
Proof.
  induction 1 as [url auto highlight muted w i allowed t | ev m _ IH].
  - apply mount_Ids.
  - apply step_Ids, IH.
Qed.

Lemma reachable_Inv m : reachable m -> Inv m.
Proof.
  intros H. destruct (reachable_Ok m H) as [Hs Hw].
  constructor; [exact Hs | exact Hw | apply reachable_Tim, H | apply reachable_Ids, H].
Qed.

(** *** Renders that change nothing, callbacks that do nothing *)

Lemma rerun_settled m : settled m -> rerun m = noRerun.
Proof.
  intros Hs. rewrite (rerun_after m (snapshot m) Hs eq_refl).
  cbn [snapshot wasLoaded wasFailed wasLoading wasPlaying].
  rewrite !eqb_same. reflexivity.
Qed.

Lemma commit_settled m : settled m -> commit m = m.
Proof.
  intros Hs. unfold commit. rewrite (rerun_settled m Hs).
  unfold commitWith, noRerun. cbn [runLoad runSource runUnload runAutoplay].
  unfold settled in Hs. rewrite <- Hs. destruct m; reflexivity.
Qed.

Lemma needsRender_settled m : settled m -> needsRender m = false.
Proof.
  intros Hs. unfold needsRender. rewrite Hs.
  cbn [snapshot wasLoaded wasFailed wasLoading wasPlaying]. unfold sameFlag.
  rewrite !eqb_same. reflexivity.
Qed.

Lemma settle_settled_id fuel m : settled m -> settle fuel m = m.
Proof.
  intros Hs. destruct fuel as [|fuel]; [reflexivity|].
  cbn [settle]. rewrite (commit_settled m Hs), (needsRender_settled m Hs). reflexivity.
Qed.

Lemma fire_inert t m :
  settled m -> inert t -> fire t m = due_state t m.
Proof.
  intros Hs [b Ha]. unfold fire. fold (due_state t m). rewrite Ha.
  cbn [run]. unfold onLoadTimeout. cbn [andb].
  apply settle_settled_id. exact Hs.
Qed.

Lemma earliest_In l t : earliest l = Some t -> In t l.
Proof.
  revert t. induction l as [|x l IH]; cbn; [discriminate|].
  intros t. destruct (earliest l) as [u|].
  - intros [= <-]. destruct (earlier x u); [now left | right; now apply IH].
  - intros [= <-]. now left.
Qed.

Lemma earliest_first l u :
  In u l -> exists t, earliest l = Some t /\ (due t <= due u)%Z.
Proof.
  induction l as [|x l IH]; cbn; [tauto|].
  intros [->|Hu].
  - destruct (earliest l) as [v|].
    + eexists. split; [reflexivity|].
      unfold earlier. destruct (due u <? due v)%Z eqn:E1; cbn [orb]; [lia|].
      destruct (due u =? due v)%Z eqn:E2; cbn [andb].
      * destruct (id u <=? id v)%nat; lia.
      * lia.
    + eexists. split; [reflexivity | lia].
  - destruct (IH Hu) as (v & Ev & Hv). rewrite Ev.
    eexists. split; [reflexivity|].
    unfold earlier. destruct (due x <? due v)%Z eqn:E1; cbn [orb]; [lia|].
    destruct (due x =? due v)%Z eqn:E2; cbn [andb].
    + destruct (id x <=? id v)%nat; lia.
    + lia.
Qed.

Lemma nextDue_spec deadline m t :
  nextDue deadline m = Some t -> In t (timers m) /\ (due t <= deadline)%Z.
Proof.
  unfold nextDue. destruct (earliest (timers m)) as [u|] eqn:E; [|discriminate].
  destruct (due u <=? deadline)%Z eqn:Ed; [|discriminate].
  intros [= <-]. split; [now apply earliest_In | lia].
Qed.

Lemma nextDue_some deadline m u :
  In u (timers m) -> (due u <= deadline)%Z -> exists t, nextDue deadline m = Some t.
Proof.
  intros Hu Hd. destruct (earliest_first _ _ Hu) as (t & Et & Ht).
  exists t. unfold nextDue. rewrite Et.
  destruct (due t <=? deadline)%Z eqn:E; [reflexivity | lia].
Qed.

Lemma filter_shorter (f : timer -> bool) l t :
  In t l -> f t = false -> (List.length (filter f l) < List.length l)%nat.
Proof.
  induction l as [|x l IH]; cbn; [tauto|].
  intros [->|Ht] Hf.
  - rewrite Hf. pose proof (filter_length_le f l). lia.
  - specialize (IH Ht Hf). destruct (f x); cbn; lia.
Qed.

Lemma nextDue_none deadline m :
  nextDue deadline m = None -> forall u, In u (timers m) -> (deadline < due u)%Z.
Proof.
  intros En u Hu. destruct (Z.ltb_spec deadline (due u)) as [H|H]; [exact H|].
  destruct (nextDue_some deadline m u Hu H) as (t & Et). congruence.
Qed.

Lemma due_state_shorter t m :
  In t (timers m) ->
  (List.length (timers (due_state t m)) < List.length (timers m))%nat.
Proof.
  intros Ht. cbn.
  apply (filter_shorter (fun x => negb (id x =? id t)%nat) (timers m) t Ht).
  now rewrite Nat.eqb_refl.
Qed.

(** While every timer that comes due is a load timeout of the harmless
    kind, time only passes: timers are dropped and the clock moves. With
    fuel for every pending timer the clock reaches the deadline, and the
    timers left are due later. *)
Lemma advanceTo_inert deadline fuel : forall m,
  settled m ->
  (forall t, In t (timers m) -> (due t <= deadline)%Z -> inert t) ->
  exists l n, advanceTo fuel deadline m = set_timers l (set_now n m)
              /\ incl l (timers m)
              /\ ((List.length (timers m) < fuel)%nat ->
                  n = deadline /\ forall t, In t l -> (deadline < due t)%Z).
Proof.
  induction fuel as [|fuel IH]; intros m Hs Hin.
  - exists (timers m), (now m).
    split; [destruct m; reflexivity | split; [apply incl_refl | lia]].
  - cbn [advanceTo]. destruct (nextDue deadline m) as [t|] eqn:En.
    + destruct (nextDue_spec _ _ _ En) as [Ht Hd].
      rewrite (fire_inert t m Hs (Hin t Ht Hd)).
      destruct (IH (due_state t m)) as (l & n & E & Hl & Hc).
      * exact Hs.
      * intros u Hu. apply Hin. revert Hu. apply removeId_incl.
      * exists l, n. rewrite E. split; [reflexivity|]. split.
        -- intros u Hu. apply Hl in Hu. revert Hu. apply removeId_incl.
        -- intros Hf. apply Hc. pose proof (due_state_shorter t m Ht). lia.
    + exists (timers m), deadline.
      split; [destruct m; reflexivity | split; [apply incl_refl|]].
      intros _. split; [reflexivity | apply nextDue_none, En].
Qed.

(** *** Properties of one step, checked on the control part *)

Lemma checked_step (Q : aevent -> Ctl -> Ctl -> bool) :
  forallCtl (fun c => implb (W c) (forallEvent (fun a => Q a c (astep a c)))) = true ->
  forall ev m, Ok m -> timed ev = false ->
  Q (abstraction ev m) (ctl m) (ctl (step ev m)) = true.
Proof.
  intros H ev m [Hs Hw] Ht.
  pose proof (forallCtl_spec _ H (ctl m)) as Hc. cbv beta in Hc.
  rewrite Hw in Hc. cbn [implb] in Hc.
  pose proof (forallEvent_spec _ Hc (abstraction ev m)) as Ha. cbv beta in Ha.
  destruct (step_sim ev m Hs Ht) as [-> _]. exact Ha.
Qed.

(** Every event leaves a settled item settled, whatever its state: the
    renders end because nothing changes any more. *)
Lemma quiet_checked :
  forallCtl (fun c => forallEvent (fun a => aquietStep a c)) = true.
Proof. vm_compute. reflexivity. Qed.

Lemma quiet_step c a : aquietStep a c = true.
Proof.
  pose proof (forallCtl_spec _ quiet_checked c) as H. cbv beta in H.
  exact (forallEvent_spec _ H a).
Qed.

Lemma settled_step ev m : settled m -> timed ev = false -> settled (step ev m).
Proof.
  intros Hs Ht. destruct (step_sim ev m Hs Ht) as [_ Hq].
  apply Hq, quiet_step.
Qed.

Lemma settled_fire t m : settled m -> settled (fire t m).
Proof.
  intros Hs. destruct (fire_sim t m Hs) as [_ Hq]. apply Hq, quiet_step.
Qed.

Lemma settled_advanceTo fuel deadline : forall m,
  settled m -> settled (advanceTo fuel deadline m).
Proof.
  induction fuel as [|fuel IH]; intros m Hs; [exact Hs|].
  cbn [advanceTo]. destruct (nextDue deadline m) as [t|].
  - apply IH, settled_fire, Hs.
  - exact Hs.
Qed.

Lemma settled_step_any ev m : settled m -> settled (step ev m).
Proof.
  intros Hs. destruct (timed ev) eqn:Et; [|now apply settled_step].
  destruct ev; try discriminate. cbn [step handle]. apply settled_advanceTo, Hs.
Qed.

(** A property of the control part checked on every state holds of every
    step of a settled item. *)
Lemma any_step (Q : aevent -> Ctl -> Ctl -> bool) :
  forallCtl (fun c => forallEvent (fun a => Q a c (astep a c))) = true ->
  forall ev m, settled m -> timed ev = false ->
  Q (abstraction ev m) (ctl m) (ctl (step ev m)) = true.
Proof.
  intros H ev m Hs Ht.
  pose proof (forallCtl_spec _ H (ctl m)) as Hc. cbv beta in Hc.
  pose proof (forallEvent_spec _ Hc (abstraction ev m)) as Ha. cbv beta in Ha.
  destruct (step_sim ev m Hs Ht) as [-> _]. exact Ha.
Qed.

Lemma any_fire (Q : aevent -> Ctl -> Ctl -> bool) :
  forallCtl (fun c => forallEvent (fun a => Q a c (astep a c))) = true ->
  forall t m, settled m -> Q (AFire (action t)) (ctl m) (ctl (fire t m)) = true.
Proof.
  intros H t m Hs.
  pose proof (forallCtl_spec _ H (ctl m)) as Hc. cbv beta in Hc.
  pose proof (forallEvent_spec _ Hc (AFire (action t))) as Ha. cbv beta in Ha.
  destruct (fire_sim t m Hs) as [-> _]. exact Ha.
Qed.

Lemma handle_inputs_click r m : inputs (handleClick r m) = inputs m.
Proof. apply handleClick_frame. Qed.

Lemma failed_stays_failed_checked :
  forallCtl (fun c => implb (W c) (forallEvent (fun a => failedStays a c (astep a c))))
  = true.
Proof. vm_compute. reflexivity. Qed.

Lemma abstraction_keepsSource ev m :
  keepsSource (videoUrl (inputs m)) ev = true -> timed ev = false ->
  akeepsSource (abstraction ev m) = true.
Proof.
  destruct ev; cbn; try discriminate; try reflexivity.
  intros ->. reflexivity.
Qed.

Lemma failedLoading_inert m :
  Inv m -> failedLoading (ctl m) = true -> Forall inert (timers m).
Proof.
  intros [Hs _ Ht _] Hf. apply inert_timers; [exact Hs | exact Ht |].
  unfold failedLoading, ctl in Hf. cbn in Hf.
  apply andb_true_iff in Hf as [Hf H3]. apply andb_true_iff in Hf as [H1 H2].
  apply negb_true_iff in H2, H3.
  unfold unloadCondition, snapshot. cbn. rewrite H2, H3. apply andb_false_r.
Qed.

Lemma fuelFor_enough dt m : (List.length (timers m) < fuelFor dt m)%nat.
Proof. unfold fuelFor. lia. Qed.

(** While the callbacks that come due within [dt] do nothing, [advance]
    moves the clock by [dt] and drops the timers that were due. *)
Lemma advance_quiet dt m :
  settled m ->
  (forall t, In t (timers m) -> (due t <= now m + dt)%Z -> inert t) ->
  exists l, advance dt m = set_timers l (set_now (now m + dt) m)
            /\ incl l (timers m) /\ elapsed dt m (advance dt m).
Proof.
  intros Hs Hi. unfold advance.
  destruct (advanceTo_inert (now m + dt) (fuelFor dt m) m Hs Hi) as (l & n & E & Hl & Hc).
  destruct (Hc (fuelFor_enough dt m)) as [-> Hd].
  exists l. rewrite E. split; [reflexivity|]. split; [exact Hl|].
  split; [reflexivity|]. apply Forall_forall. exact Hd.
Qed.

Lemma advance_inert dt m :
  settled m -> Forall inert (timers m) ->
  exists l, advance dt m = set_timers l (set_now (now m + dt) m)
            /\ incl l (timers m) /\ elapsed dt m (advance dt m).
Proof.
  intros Hs Hi. apply advance_quiet; [exact Hs|].
  intros t Ht _. rewrite Forall_forall in Hi. now apply Hi.
Qed.

Lemma failed_step m ev :
  reachable m -> failedLoading (ctl m) = true ->
  keepsSource (videoUrl (inputs m)) ev = true ->
  failedLoading (ctl (step ev m)) = true
  /\ videoUrl (inputs (step ev m)) = videoUrl (inputs m)
  /\ (src m <> None -> src (step ev m) <> None).
Proof.
  intros Hr Hf Hk. pose proof (reachable_Inv m Hr) as HI.
  destruct (timed ev) eqn:Et.
  - destruct ev; try discriminate. cbn [step handle].
    destruct (advance_inert (Z.of_N dt) m (inv_settled m HI) (failedLoading_inert m HI Hf))
      as (l & -> & _).
    split; [exact Hf | split; [reflexivity | intros H; exact H]].
  - pose proof (checked_step failedStays failed_stays_failed_checked ev m
                  (conj (inv_settled m HI) (inv_control m HI)) Et) as H.
    unfold failedStays in H. rewrite Hf, (abstraction_keepsSource ev m Hk Et) in H.
    cbn [andb implb] in H. apply andb_true_iff in H as [H1 H2].
    split; [exact H1|]. split.
    + assert (E : step ev m = settle renders (handle ev m))
        by (destruct ev; try discriminate; reflexivity).
      rewrite E, settle_inputs.
      destruct ev; try discriminate; try reflexivity.
      * cbn in Hk. apply String.eqb_eq in Hk. cbn. now rewrite Hk.
      * cbn [handle]. now rewrite handle_inputs_click.
      * cbn [handle]. destruct (handleError_frame message m) as [_ ->]. reflexivity.
    + apply Bool.eqb_prop in H2. unfold ctl in H2. cbn [cAttached] in H2.
      destruct (src m), (src (step ev m)); try discriminate; congruence.
Qed.

(** *** Crossing the edge of the load window *)

Lemma loadEffect_skip r x :
  negb (inLoadView (rendered r)) || wasLoaded r || wasLoading r || wasFailed r = true ->
  loadEffect r x = x.
Proof.
  unfold loadEffect, loadVideo.
  destruct (inLoadView (rendered r)), (wasLoaded r), (wasLoading r), (wasFailed r);
    cbn; try reflexivity; discriminate.
Qed.

Lemma unloadEffect_state r x :
  isLoaded (unloadEffect r x) = isLoaded x /\ isLoading (unloadEffect r x) = isLoading x
  /\ isFailed (unloadEffect r x) = isFailed x /\ isPlaying (unloadEffect r x) = isPlaying x
  /\ src (unloadEffect r x) = src x /\ paused (unloadEffect r x) = paused x
  /\ loadingError (unloadEffect r x) = loadingError x
  /\ now (unloadEffect r x) = now x.
Proof.
  unfold unloadEffect. destruct (_ && _); cbn; repeat split; reflexivity.
Qed.

Lemma step_LoadView_toggle b m :
  settled m -> inLoadView (inputs m) = negb b ->
  negb b || isLoaded m || isLoading m || isFailed m = true ->
  step (LoadView b) m = toggled b m.
Proof.
  intros Hs Hb Hk. cbn [step handle]. fold (moved b m).
  pose proof (handle_sim (LoadView b) m Hs eq_refl) as Hh.
  cbn [handle abstraction ahandle] in Hh. fold (moved b m) in Hh.
  apply (f_equal fst) in Hh. cbn [fst] in Hh. rename Hh into Hr.
  cbn [ctl cInLoad] in Hr. rewrite Hb in Hr.
  assert (Ee : Bool.eqb (negb b) b = false) by (destruct b; reflexivity).
  rewrite Ee in Hr. cbn [negb] in Hr.
  assert (Ec : commit (moved b m) = toggled b m).
  { unfold commit. rewrite Hr. unfold commitWith.
    cbn [runLoad runSource runUnload runAutoplay].
    rewrite loadEffect_skip; [reflexivity|].
    cbn. exact Hk. }
  change renders with (S 5). cbn [settle]. rewrite Ec.
  assert (En : needsRender (toggled b m) = false).
  { unfold needsRender, toggled. cbn [seen set_seen isLoaded isPlaying isFailed isLoading].
    destruct (unloadEffect_state (snapshot (moved b m))
                (clearTimeout (unloadCleanup m) (moved b m)))
      as (-> & -> & -> & -> & _).
    cbn. unfold sameFlag. rewrite !eqb_same. reflexivity. }
  rewrite En. reflexivity.
Qed.

Lemma kept_trans a b c : kept a b -> kept b c -> kept a c.
Proof.
  unfold kept. intros (A1 & A2 & A3 & A4 & A5 & A6 & A7) (B1 & B2 & B3 & B4 & B5 & B6 & B7).
  repeat split; congruence.
Qed.

Lemma toggled_kept b m : kept m (toggled b m).
Proof.
  unfold kept, toggled.
  cbn [set_seen isLoaded isLoading isFailed isPlaying src paused loadingError].
  destruct (unloadEffect_state (snapshot (moved b m))
              (clearTimeout (unloadCleanup m) (moved b m)))
    as (-> & -> & -> & -> & -> & -> & -> & _).
  repeat split.
Qed.

Lemma toggled_now b m : now (toggled b m) = now m.
Proof.
  unfold toggled. cbn [now set_seen].
  destruct (unloadEffect_state (snapshot (moved b m))
              (clearTimeout (unloadCleanup m) (moved b m)))
    as (_ & _ & _ & _ & _ & _ & _ & ->).
  reflexivity.
Qed.

Lemma toggled_out_timers m :
  (isLoaded m || isLoading m) = true ->
  timers (toggled false m)
  = (removeId (unloadCleanup m) (timers m) ++ [unloadTimer m])%list
  /\ now (toggled false m) = now m
  /\ inputs (toggled false m) = with_inLoadView false (inputs m).
Proof.
  intros H. unfold toggled, unloadEffect, moved.
  cbn [snapshot rendered wasLoaded wasLoading set_input set_inputs inputs isLoaded
       isLoading clearTimeout set_timers with_inLoadView inLoadView negb andb].
  rewrite H. cbn. repeat split.
Qed.

Lemma inert_of_clean t : okTimer None t -> inert t.
Proof.
  unfold okTimer, inert. destruct (action t) as [a b|a].
  - intros ->. now exists b.
  - intros [_ H]. discriminate.
Qed.

Lemma inert_not_unload t : inert t -> isUnload t = false.
Proof. intros [b H]. unfold isUnload. now rewrite H. Qed.

Lemma cleaned_inert m : Tim m -> Forall inert (removeId (unloadCleanup m) (timers m)).
Proof.
  intros [Hok _]. eapply Forall_impl; [|apply ok_cleaned, Hok].
  apply inert_of_clean.
Qed.

(** Inside the load window no unload timer is pending. *)
Lemma in_view_inert m :
  Inv m -> inLoadView (inputs m) = true -> Forall inert (timers m).
Proof.
  intros [Hs _ Ht _] Hv. apply inert_timers; [exact Hs | exact Ht |].
  unfold unloadCondition, snapshot. cbn. now rewrite Hv.
Qed.

Lemma passes_kept l n m : kept m (set_timers l (set_now n m)).
Proof. repeat split. Qed.

(** *** The unload timer fires *)

Lemma fire_Inv t m : Inv m -> Inv (fire t m).
Proof.
  intros [Hs Hw Ht Hi].
  destruct (fire_Ok t m (conj Hs Hw)) as [Hs' Hw'].
  constructor; [exact Hs' | exact Hw' | apply fire_Tim, Ht | apply fire_Ids, Hi].
Qed.

Lemma unloaded_ctl m : unloadedCtl (ctl m) = true -> unloaded m.
Proof.
  unfold unloadedCtl, unloaded, ctl. cbn. intros H.
  apply andb_true_iff in H as [H H4]. apply andb_true_iff in H as [H H3].
  apply andb_true_iff in H as [H1 H2].
  apply negb_true_iff in H1, H2, H3, H4.
  destruct (src m); [discriminate|]. repeat split; assumption.
Qed.

Lemma implb_elim (a b : bool) : implb a b = true -> a = true -> b = true.
Proof. intros H ->. exact H. Qed.

Lemma unload_checked :
  forallCtl (fun c => implb (W c && negb (cInLoad c))
                            (unloadedCtl (astep (AFire (Unload false)) c))) = true.
Proof. vm_compute. reflexivity. Qed.

Lemma fire_unload t m :
  Inv m -> inLoadView (inputs m) = false -> action t = Unload false ->
  unloaded (fire t m).
Proof.
  intros HI Hv Ha. apply unloaded_ctl.
  destruct (fire_sim t m (inv_settled m HI)) as [-> _]. rewrite Ha.
  pose proof (forallCtl_spec _ unload_checked (ctl m)) as H. cbv beta in H.
  assert (Hc : cInLoad (ctl m) = false) by exact Hv.
  refine (implb_elim _ _ H _).
  rewrite (inv_control m HI), Hc. reflexivity.
Qed.

Lemma unloaded_inert m : Inv m -> unloaded m -> Forall inert (timers m).
Proof.
  intros [Hs _ Ht _] (H1 & H2 & _). apply inert_timers; [exact Hs | exact Ht |].
  unfold unloadCondition, snapshot. cbn. rewrite H1, H2. apply andb_false_r.
Qed.

Lemma unloaded_stays fuel deadline m :
  Inv m -> unloaded m -> unloaded (advanceTo fuel deadline m).
Proof.
  intros HI Hu.
  destruct (advanceTo_inert deadline fuel m (inv_settled m HI)) as (l & n & -> & _).
  - intros t Ht _. pose proof (unloaded_inert m HI Hu) as Hin.
    rewrite Forall_forall in Hin. now apply Hin.
  - exact Hu.
Qed.

(** With an unload timer due by the deadline and fuel for every pending
    timer, the clock does not reach the deadline before the item is
    unloaded. *)
Lemma unload_fires deadline fuel : forall p,
  Inv p -> inLoadView (inputs p) = false ->
  (exists u, In u (timers p) /\ isUnload u = true /\ (due u <= deadline)%Z) ->
  (List.length (timers p) < fuel)%nat ->
  unloaded (advanceTo fuel deadline p).
Proof.
  induction fuel as [|fuel IH]; intros p HI Hv (u & Hu & Hun & Hd) Hf; [lia|].
  cbn [advanceTo].
  destruct (nextDue_some deadline p u Hu Hd) as (t & En). rewrite En.
  destruct (nextDue_spec _ _ _ En) as [Ht Htd].
  pose proof (inv_timers p HI) as [Hok _].
  unfold okTimers in Hok. rewrite Forall_forall in Hok.
  pose proof (Hok t Ht) as Hokt. unfold okTimer in Hokt.
  destruct (action t) as [a b|a] eqn:Ea.
  - (* a load timeout: nothing happens *)
    subst a.
    assert (Hi : inert t) by (now exists b).
    pose proof (fire_Inv t p HI) as HI'.
    rewrite (fire_inert t p (inv_settled p HI) Hi) in *.
    apply IH.
    + exact HI'.
    + exact Hv.
    + exists u. split; [|split; assumption].
      cbn. apply filter_In. split; [exact Hu|].
      apply negb_true_iff, Nat.eqb_neq. intros E.
      assert (u = t) by (eapply ids_inj; [apply (inv_ids p HI) | | | ]; assumption).
      subst u. rewrite (inert_not_unload t Hi) in Hun. discriminate.
    + cbn. pose proof (filter_shorter (fun x => negb (id x =? id t)%nat) (timers p) t Ht) as Hl.
      cbv beta in Hl. rewrite Nat.eqb_refl in Hl. specialize (Hl eq_refl). lia.
  - (* the unload timer *)
    destruct Hokt as [-> _].
    apply unloaded_stays; [apply fire_Inv, HI | apply fire_unload; assumption].
Qed.

(** Leaving the window for a second or more unloads a loaded or loading item. *)
Lemma leave_unloads m dt :
  reachable m -> inLoadView (inputs m) = true ->
  (isLoaded m || isLoading m) = true -> (1000 <= Z.of_N dt)%Z ->
  unloaded (step (Elapse dt) (step (LoadView false) m)).
Proof.
  intros Hr Hv Hl Hdt.
  pose proof (reachable_Inv _ (reach_step (LoadView false) m Hr)) as HI1.
  pose proof (reachable_Inv m Hr) as HI.
  assert (E : step (LoadView false) m = toggled false m).
  { apply step_LoadView_toggle; [apply HI | now rewrite Hv | reflexivity]. }
  rewrite E in *.
  destruct (toggled_out_timers m Hl) as (Et & En & Ei).
  cbn [step handle]. unfold advance. apply unload_fires.
  - exact HI1.
  - rewrite Ei. reflexivity.
  - exists (unloadTimer m). split; [|split].
    + rewrite Et. apply in_or_app. right. now left.
    + reflexivity.
    + rewrite En. cbn. lia.
  - unfold fuelFor. lia.
Qed.

(** *** A recorded failure keeps the source attached *)

Lemma checked_fire (Q : aevent -> Ctl -> Ctl -> bool) :
  forallCtl (fun c => implb (W c) (forallEvent (fun a => Q a c (astep a c)))) = true ->
  forall t m, Ok m -> Q (AFire (action t)) (ctl m) (ctl (fire t m)) = true.
Proof.
  intros H t m [Hs Hw].
  pose proof (forallCtl_spec _ H (ctl m)) as Hc. cbv beta in Hc.
  pose proof (forallEvent_spec _ (implb_elim _ _ Hc Hw) (AFire (action t))) as Ha.
  cbv beta in Ha.
  destruct (fire_sim t m Hs) as [-> _]. exact Ha.
Qed.

Lemma attached_checked :
  forallCtl (fun c => implb (W c) (forallEvent (fun a => attachedKept a c (astep a c))))
  = true.
Proof. vm_compute. reflexivity. Qed.

Lemma pendingKind_event ev m : pendingKind (abstraction ev m) = true.
Proof. destruct ev; reflexivity. Qed.

Lemma pendingKind_timer uc t : okTimer uc t -> pendingKind (AFire (action t)) = true.
Proof.
  unfold okTimer. destruct (action t) as [a b|a]; cbn.
  - intros ->. reflexivity.
  - intros [-> _]. reflexivity.
Qed.

Lemma advanceTo_attached fuel deadline : forall m,
  Inv m -> failedAttached (ctl m) = true ->
  failedAttached (ctl (advanceTo fuel deadline m)) = true.
Proof.
  induction fuel as [|fuel IH]; intros m HI Hf; [exact Hf|].
  cbn [advanceTo]. destruct (nextDue deadline m) as [t|] eqn:En; [|exact Hf].
  apply IH; [apply fire_Inv, HI|].
  destruct (nextDue_spec _ _ _ En) as [Ht _].
  pose proof (inv_timers m HI) as [Hok _].
  unfold okTimers in Hok. rewrite Forall_forall in Hok.
  pose proof (checked_fire attachedKept attached_checked t m
                (conj (inv_settled m HI) (inv_control m HI))) as H.
  unfold attachedKept in H.
  refine (implb_elim _ _ H _).
  rewrite Hf, (pendingKind_timer _ t (Hok t Ht)). reflexivity.
Qed.

Lemma step_attached ev m :
  Inv m -> failedAttached (ctl m) = true -> failedAttached (ctl (step ev m)) = true.
Proof.
  intros HI Hf. destruct (timed ev) eqn:Et.
  - destruct ev; try discriminate. cbn [step handle]. now apply advanceTo_attached.
  - pose proof (checked_step attachedKept attached_checked ev m
                  (conj (inv_settled m HI) (inv_control m HI)) Et) as H.
    unfold attachedKept in H.
    refine (implb_elim _ _ H _).
    rewrite Hf, pendingKind_event. reflexivity.
Qed.

Lemma reachable_attached m : reachable m -> failedAttached (ctl m) = true.
Proof.
  induction 1 as [url auto highlight muted w i allowed t | ev m Hr IH].
  - unfold mount. rewrite settle_ctl.
    change (rerun (initial url auto highlight muted w i allowed t)) with everything.
    change (ctl (initial url auto highlight muted w i allowed t))
      with (unmounted auto highlight allowed).
    destruct auto, highlight, allowed; reflexivity.
  - apply step_attached; [apply reachable_Inv, Hr | exact IH].
Qed.

Lemma failed_has_source m : reachable m -> isFailed m = true -> src m <> None.
Proof.
  intros Hr Hf. pose proof (reachable_attached m Hr) as H.
  unfold failedAttached, ctl in H. cbn in H. rewrite Hf in H. cbn in H.
  destruct (src m); [discriminate|]. discriminate.
Qed.

(** *** Traces *)

Lemma trace_reachable evs : forall m, reachable m -> reachable (trace evs m).
Proof.
  induction evs as [|ev evs IH]; intros m H; [exact H|].
  cbn. apply IH. now constructor.
Qed.

Lemma clip_reachable : reachable clip.
Proof. apply reach_mount. Qed.

(** *** Waiting inside and outside the load window *)

Lemma wait_inside m d :
  reachable m -> inLoadView (inputs m) = true ->
  kept m (step (Elapse d) m) /\ inputs (step (Elapse d) m) = inputs m
  /\ elapsed (Z.of_N d) m (step (Elapse d) m).
Proof.
  intros Hr Hv. pose proof (reachable_Inv m Hr) as HI.
  cbn [step handle].
  destruct (advance_inert (Z.of_N d) m (inv_settled m HI) (in_view_inert m HI Hv))
    as (l & E & _ & He).
  split; [|split; [|exact He]]; rewrite E; [apply passes_kept | reflexivity].
Qed.

Lemma exit_wait m d :
  reachable m -> inLoadView (inputs m) = true ->
  (isLoaded m || isLoading m) = true -> (Z.of_N d < 1000)%Z ->
  let x := step (Elapse d) (step (LoadView false) m) in
  kept m x /\ inLoadView (inputs x) = false
  /\ Forall (fun t => isUnload t = true -> due t = (now m + 1000)%Z) (timers x)
  /\ elapsed (Z.of_N d) m x.
Proof.
  intros Hr Hv Hl Hd.
  pose proof (reachable_Inv m Hr) as HI.
  pose proof (reachable_Inv _ (reach_step (LoadView false) m Hr)) as HI1.
  assert (E : step (LoadView false) m = toggled false m).
  { apply step_LoadView_toggle; [apply HI | now rewrite Hv | reflexivity]. }
  rewrite E in *.
  destruct (toggled_out_timers m Hl) as (Et & En & Ei).
  pose proof (cleaned_inert m (inv_timers m HI)) as Hc. rewrite Forall_forall in Hc.
  cbn [step handle].
  destruct (advance_quiet (Z.of_N d) (toggled false m) (inv_settled _ HI1))
    as (l & Ea & Hin & He).
  - intros t Ht Hdue. rewrite Et in Ht. apply in_app_or in Ht as [Ht|[<-|[]]].
    + now apply Hc.
    + rewrite En in Hdue. cbn in Hdue. lia.
  - cbv zeta. split; [|split; [|split]].
    + rewrite Ea. eapply kept_trans; [apply toggled_kept | apply passes_kept].
    + rewrite Ea.
      change (inputs (set_timers l (set_now (now (toggled false m) + Z.of_N d)
                                           (toggled false m))))
        with (inputs (toggled false m)).
      rewrite Ei. reflexivity.
    + rewrite Ea. apply Forall_forall. intros t Ht Hu.
      change (In t l) in Ht.
      apply Hin in Ht. rewrite Et in Ht. apply in_app_or in Ht as [Ht|[<-|[]]].
      * rewrite (inert_not_unload t (Hc t Ht)) in Hu. discriminate.
      * reflexivity.
    + unfold elapsed in *. rewrite <- En. exact He.
Qed.

Lemma reenter m :
  reachable m -> inLoadView (inputs m) = false ->
  (isLoaded m || isLoading m) = true ->
  let x := step (LoadView true) m in
  kept m x /\ inLoadView (inputs x) = true /\ existsb isUnload (timers x) = false
  /\ now x = now m.
Proof.
  intros Hr Hv Hl.
  pose proof (reachable_Inv m Hr) as HI.
  pose proof (reachable_Inv _ (reach_step (LoadView true) m Hr)) as HI1.
  assert (E : step (LoadView true) m = toggled true m).
  { apply step_LoadView_toggle; [apply HI | now rewrite Hv |].
    cbn [negb orb]. rewrite Hl. reflexivity. }
  rewrite E in *. cbv zeta.
  assert (Hin : inLoadView (inputs (toggled true m)) = true) by reflexivity.
  split; [apply toggled_kept | split; [exact Hin|]].
  split; [|reflexivity].
  pose proof (in_view_inert _ HI1 Hin) as Hi.
  apply not_true_iff_false. intros Ex.
  apply existsb_exists in Ex as (t & Ht & Hu).
  rewrite Forall_forall in Hi. rewrite (inert_not_unload t (Hi t Ht)) in Hu. discriminate.
Qed.

Lemma kept_loaded m x :
  kept m x -> (isLoaded x || isLoading x) = (isLoaded m || isLoading m).
Proof. intros (-> & -> & _). reflexivity. Qed.

(** *** The life cycle *)

Lemma playing_reachable : reachable playing.
Proof. apply trace_reachable, clip_reachable. Qed.

Lemma failedEarly_reachable : reachable failedEarly.
Proof. apply trace_reachable, clip_reachable. Qed.

(** C2, as stated, fails for an item that failed while loading: it is in
    the load window with [isFailed] set and a source attached; five seconds
    after it left the window it is still failed, its source is still
    attached and no unload timer was ever set. *)
Lemma failed_item_is_never_unloaded :
  let m := trace [LoadView true; MediaError "network"] clip in
  let x := trace [LoadView false; Elapse 5000] m in
  (isFailed m = true /\ inLoadView (inputs m) = true)
  /\ timers (step (LoadView false) m) = []
  /\ inLoadView (inputs x) = false
  /\ isFailed x = true /\ src x = Some "/videos/a.mp4" /\ now x = 5000%Z.
Proof. repeat split; reflexivity. Qed.

(** C2, amended. When an item leaves the load window and stays outside for
    a second or more, its resource is released if it was loaded (ready,
    playing or paused, with or without a recorded failure) or loading:
    [isLoaded], [isLoading] and [isFailed] are cleared and the [src] of the
    element is removed; before the second is over it is as it was. An item
    that failed before it was loaded is left as it is, for however long it
    stays outside: still failed, its source still attached, no unload
    timer pending. *)
Theorem leaving_unloads_loaded_or_loading_items m :
  reachable m -> inLoadView (inputs m) = true ->
  (forall dt, (isLoaded m || isLoading m) = true -> (1000 <= Z.of_N dt)%Z ->
     unloaded (step (Elapse dt) (step (LoadView false) m)))
  /\ (forall dt, (isLoaded m || isLoading m) = true -> (Z.of_N dt < 1000)%Z ->
        kept m (step (Elapse dt) (step (LoadView false) m)))
  /\ (forall dt, isFailed m = true -> isLoaded m = false ->
        let x := step (Elapse dt) (step (LoadView false) m) in
        kept m x /\ isFailed x = true /\ src x <> None
        /\ existsb isUnload (timers x) = false
        /\ now x = (now m + Z.of_N dt)%Z).
Proof.
  intros Hr Hv. split; [|split].
  - intros dt Hl Hdt. now apply leave_unloads.
  - intros dt Hl Hdt. apply (exit_wait m dt Hr Hv Hl Hdt).
  - intros dt Hf Hl.
    pose proof (reachable_Inv m Hr) as HI.
    pose proof (reach_step (LoadView false) m Hr) as Hr1.
    pose proof (reachable_Inv _ Hr1) as HI1.
    assert (E : step (LoadView false) m = toggled false m).
    { apply step_LoadView_toggle; [apply HI | now rewrite Hv | reflexivity]. }
    rewrite E in *.
    pose proof (toggled_kept false m) as Hk.
    assert (Hfl : failedLoading (ctl (toggled false m)) = true).
    { pose proof (inv_control _ HI1) as Hw.
      destruct Hk as (K1 & K2 & K3 & _).
      unfold failedLoading, ctl. cbn [cFailed cLoaded cLoading].
      rewrite K1, K3, Hf, Hl.
      unfold W, ctl in Hw. cbn [cFailed cLoaded cLoading cWired cAttached cPlaying
                                cPaused cInPlay cMeta] in Hw.
      rewrite K1, K3, Hf, Hl in Hw.
      destruct (isLoading (toggled false m)); [|reflexivity].
      cbn in Hw. rewrite !andb_false_r in Hw. discriminate. }
    pose proof (failedLoading_inert _ HI1 Hfl) as Hi.
    cbn [step handle].
    destruct (advance_inert (Z.of_N dt) _ (inv_settled _ HI1) Hi) as (l & -> & Hin & _).
    cbv zeta.
    set (x := set_timers l (set_now (now (toggled false m) + Z.of_N dt) (toggled false m))).
    assert (Hkx : kept m x)
      by (eapply kept_trans; [exact Hk | apply passes_kept]).
    split; [exact Hkx|]. destruct Hkx as (_ & _ & K3 & _ & K5 & _).
    split; [now rewrite K3|]. split; [|split].
    + rewrite K5. now apply failed_has_source.
    + apply not_true_iff_false. intros Ex.
      apply existsb_exists in Ex as (t & Ht & Hu).
      change (In t l) in Ht. apply Hin in Ht.
      rewrite Forall_forall in Hi.
      rewrite (inert_not_unload t (Hi t Ht)) in Hu. discriminate.
    + change (now x) with (now (toggled false m) + Z.of_N dt)%Z.
      now rewrite toggled_now.
Qed.

Lemma leaving_unloads_loaded_or_loading_items_witness :
  let m := step (PlayView false 0) playing in
  (isLoaded m = true /\ src m = Some "/videos/a.mp4")
  /\ isLoaded (step (Elapse 999) (step (LoadView false) m)) = true
  /\ unloaded (step (Elapse 1000) (step (LoadView false) m))
  /\ isFailed (step (Elapse 86400000) (step (LoadView false) failedEarly)) = true.
Proof.
  intros m.
  assert (Hr : reachable m) by (apply reach_step, playing_reachable).
  split; [split; reflexivity|]. split; [|split].
  - destruct (proj1 (proj2 (leaving_unloads_loaded_or_loading_items m Hr eq_refl))
                999%N eq_refl eq_refl) as (K & _).
    rewrite K. reflexivity.
  - apply (proj1 (leaving_unloads_loaded_or_loading_items m Hr eq_refl));
      [reflexivity | vm_compute; discriminate].
  - apply (proj2 (proj2 (leaving_unloads_loaded_or_loading_items failedEarly
                           failedEarly_reachable eq_refl)) 86400000%N eq_refl eq_refl).
Defined.

(** C3 fails in the code. The item enters the load window and starts
    loading; the load timeout is pending, due at 10000 ms, but its callback
    closed over [isLoading = false]. After 10 seconds, and after a minute,
    without any event of the element the timer is gone and the item is
    still loading: not failed, no reason recorded. *)
Lemma loading_item_is_stuck_after_the_timeout :
  let m := step (LoadView true) clip in
  (isLoading m = true
   /\ timers m = [{| id := 1; due := 10000; action := LoadTimeout false false |}])
  /\ (let x := step (Elapse 10000) m in
      timers x = [] /\ isLoading x = true /\ isFailed x = false /\ loadingError x = None)
  /\ (let y := step (Elapse 60000) m in
      timers y = [] /\ isLoading y = true /\ isFailed y = false /\ loadingError y = None).
Proof. repeat split; reflexivity. Qed.

(** C3, what the code does instead. The callback of the load timeout reads
    [isLoading] and [isLoaded] of the render that built [loadVideo], in
    which [isLoading] was false, so it never does anything: every timer
    pending for a loading item in the load window runs as a no-op on any
    state, and whatever time passes (the clock moves by [dt] and every
    timer due by then has fired) the item stays loading, is not marked
    failed and records no reason. *)
Theorem load_timeout_never_fails_the_item m dt :
  reachable m -> isLoading m = true -> inLoadView (inputs m) = true ->
  let x := step (Elapse dt) m in
  Forall (fun t => forall y, run (action t) y = y) (timers m)
  /\ elapsed (Z.of_N dt) m x
  /\ isLoading x = true /\ isFailed x = false /\ isLoaded x = false
  /\ loadingError x = loadingError m.
Proof.
  intros Hr Hl Hv x. pose proof (reachable_Inv m Hr) as HI.
  split; [|split].
  - eapply Forall_impl; [|apply (in_view_inert m HI Hv)].
    intros t [b Hb] y. rewrite Hb. reflexivity.
  - apply (wait_inside m dt Hr Hv).
  - destruct (wait_inside m dt Hr Hv) as [(K1 & K2 & K3 & _ & _ & _ & K7) _].
    fold x in K1, K2, K3, K7.
    pose proof (inv_control m HI) as Hw. unfold W, ctl in Hw.
    cbn [cFailed cLoaded cLoading cWired cAttached cPlaying cPaused cInPlay cMeta] in Hw.
    rewrite Hl in Hw.
    rewrite K1, K2, K3, K7, Hl.
    destruct (isLoaded m), (isFailed m); cbn in Hw;
      rewrite ?andb_false_r in Hw; try discriminate.
    repeat split.
Qed.

Lemma load_timeout_never_fails_the_item_witness :
  isLoading (step (Elapse 10000) (step (LoadView true) clip)) = true
  /\ isFailed (step (Elapse 10000) (step (LoadView true) clip)) = false.
Proof.
  pose proof (load_timeout_never_fails_the_item (step (LoadView true) clip) 10000
                (reach_step _ _ clip_reachable) eq_refl eq_refl) as (_ & _ & H1 & H2 & _).
  split; [exact H1 | exact H2].
Defined.

(** C4, as stated, fails for an item whose error arrived after it was
    loaded: it is failed, leaves the load window, is unloaded after a
    second (which clears the failure) and on re-entry, with the same source,
    it is loading again. *)
Lemma failed_after_ready_reloads_on_reentry :
  let m := trace [LoadView true; LoadedMetadata; MediaError "decode"] clip in
  let x := trace [LoadView false; Elapse 1000; LoadView true] m in
  (isFailed m = true /\ isLoading m = false)
  /\ videoUrl (inputs x) = videoUrl (inputs m)
  /\ isLoading x = true /\ isFailed x = false.
Proof. repeat split; reflexivity. Qed.

Lemma restarts_checked :
  forallCtl (fun c => implb (W c) (forallEvent (fun a => restarts a c (astep a c)))) = true.
Proof. vm_compute. reflexivity. Qed.

Lemma failedLoading_flags m :
  failedLoading (ctl m) = true ->
  isFailed m = true /\ isLoaded m = false /\ isLoading m = false.
Proof.
  unfold failedLoading, ctl. cbn. intros H.
  apply andb_true_iff in H as [H H3]. apply andb_true_iff in H as [H1 H2].
  apply negb_true_iff in H2, H3. auto.
Qed.

Lemma failedLoading_of m :
  Inv m -> isFailed m = true -> isLoaded m = false -> failedLoading (ctl m) = true.
Proof.
  intros HI Hf Hl. pose proof (inv_control m HI) as Hw.
  unfold failedLoading, W, ctl in *.
  cbn [cFailed cLoaded cLoading cWired cAttached cPlaying cPaused cInPlay cMeta] in *.
  rewrite Hf, Hl in *. destruct (isLoading m); [|reflexivity].
  cbn in Hw. rewrite !andb_false_r in Hw. discriminate.
Qed.

Lemma failed_trace evs : forall m,
  reachable m -> failedLoading (ctl m) = true ->
  Forall (fun ev => keepsSource (videoUrl (inputs m)) ev = true) evs ->
  failedLoading (ctl (trace evs m)) = true /\ reachable (trace evs m).
Proof.
  induction evs as [|ev evs IH]; intros m Hr Hf Hk; [now split|].
  inversion Hk as [|e es Hev Hes]; subst.
  destruct (failed_step m ev Hr Hf Hev) as (Hf' & Hu & _).
  cbn [trace fold_left]. apply IH.
  - now constructor.
  - exact Hf'.
  - rewrite Hu. exact Hes.
Qed.

(** C4, amended. An item that failed before it was loaded stays failed and
    never loads again under any sequence of visibility changes, clicks,
    settings changes, further errors and lapses of time, as long as the slot
    keeps its source: its source stays attached and [isLoading] stays false.
    When the slot is given another source while in the load window, the
    failure is cleared and the new source is loading. (An item that failed
    after it was loaded is unloaded a second after leaving the window, which
    clears the failure as well.) *)
Theorem failed_while_loading_never_retries m :
  reachable m -> isFailed m = true -> isLoaded m = false ->
  (forall evs, Forall (fun ev => keepsSource (videoUrl (inputs m)) ev = true) evs ->
     let x := trace evs m in
     isLoading x = false /\ isFailed x = true /\ isLoaded x = false /\ src x <> None)
  /\ (forall url, inLoadView (inputs m) = true ->
        String.eqb (videoUrl (inputs m)) url = false ->
        String.eqb (srcRef m) "" = false -> String.eqb (srcRef m) url = false ->
        let x := step (Source url) m in
        isLoading x = true /\ isFailed x = false /\ isLoaded x = false /\ src x <> None).
Proof.
  intros Hr Hf Hl. pose proof (reachable_Inv m Hr) as HI.
  pose proof (failedLoading_of m HI Hf Hl) as Hfl.
  split.
  - intros evs Hk x.
    destruct (failed_trace evs m Hr Hfl Hk) as [Hx Hrx]. fold x in Hx, Hrx.
    destruct (failedLoading_flags x Hx) as (F1 & F2 & F3).
    repeat split; try assumption. now apply failed_has_source.
  - intros url Hv Hu Hs1 Hs2 x.
    pose proof (checked_step restarts restarts_checked (Source url) m
                  (conj (inv_settled m HI) (inv_control m HI)) eq_refl) as H.
    fold x in H. cbn [abstraction] in H. rewrite Hu, Hs1, Hs2 in H.
    cbn [negb andb restarts] in H.
    assert (Hc : cInLoad (ctl m) = true) by exact Hv.
    pose proof (implb_elim _ _ H) as H'. rewrite Hfl, Hc in H'.
    specialize (H' eq_refl).
    apply andb_true_iff in H' as [H' H4]. apply andb_true_iff in H' as [H' H3].
    apply andb_true_iff in H' as [H1 H2]. apply negb_true_iff in H2, H3.
    cbn [ctl cLoading cFailed cLoaded cAttached] in H1, H2, H3, H4.
    repeat split; try assumption. destruct (src x); [discriminate|discriminate].
Qed.

Lemma failed_while_loading_never_retries_witness :
  isLoading (trace [LoadView false; Elapse 5000; LoadView true; Click; Elapse 20000]
               failedEarly) = false
  /\ isLoading (step (Source "/videos/b.mp4") failedEarly) = true.
Proof.
  pose proof (failed_while_loading_never_retries failedEarly failedEarly_reachable
                eq_refl eq_refl) as [H1 H2].
  split.
  - apply (H1 [LoadView false; Elapse 5000; LoadView true; Click; Elapse 20000]).
    repeat constructor.
  - apply (H2 "/videos/b.mp4"); reflexivity.
Defined.

(** C5. A loaded or loading item in the load window leaves it, comes back
    less than a second later and leaves again. On re-entry no unload timer
    is left pending, however long the item then stays; what was loaded stays
    loaded and keeps its source up to a second after the last exit, also
    when the second after the first exit has passed by then; and the only
    unload timer then pending is due a second after that last exit. *)
Theorem brief_return_cancels_unload m d1 d2 d3 :
  reachable m -> inLoadView (inputs m) = true ->
  (isLoaded m || isLoading m) = true ->
  (Z.of_N d1 < 1000)%Z -> (Z.of_N d3 < 1000)%Z ->
  let out := step (Elapse d1) (step (LoadView false) m) in
  let back := step (LoadView true) out in
  let inside := step (Elapse d2) back in
  let final := step (Elapse d3) (step (LoadView false) inside) in
  kept m out
  /\ (kept m back /\ existsb isUnload (timers back) = false)
  /\ kept m inside
  /\ (kept m final
      /\ Forall (fun t => isUnload t = true -> due t = (now inside + 1000)%Z)
                (timers final))
  /\ now final = (now m + Z.of_N d1 + Z.of_N d2 + Z.of_N d3)%Z.
Proof.
  intros Hr Hv Hl H1 H3 out back inside final.
  destruct (exit_wait m d1 Hr Hv Hl H1) as (Ko & Vo & _ & [No _]). fold out in Ko, Vo, No.
  assert (Ro : reachable out) by (do 2 constructor; exact Hr).
  assert (Lo : (isLoaded out || isLoading out) = true)
    by (rewrite (kept_loaded m out Ko); exact Hl).
  destruct (reenter out Ro Vo Lo) as (Kb & Vb & Ub & Nb). fold back in Kb, Vb, Ub, Nb.
  assert (Rb : reachable back) by (constructor; exact Ro).
  destruct (wait_inside back d2 Rb Vb) as (Ki & Ii & [Ni _]). fold inside in Ki, Ii, Ni.
  assert (Ri : reachable inside) by (constructor; exact Rb).
  assert (Kmb : kept m back) by (eapply kept_trans; eassumption).
  assert (Kmi : kept m inside) by (eapply kept_trans; eassumption).
  assert (Vi : inLoadView (inputs inside) = true) by (rewrite Ii; exact Vb).
  assert (Li : (isLoaded inside || isLoading inside) = true)
    by (rewrite (kept_loaded m inside Kmi); exact Hl).
  destruct (exit_wait inside d3 Ri Vi Li H3) as (Kf & _ & Tf & [Nf _]).
  fold final in Kf, Tf, Nf.
  split; [exact Ko|]. split; [split; assumption|]. split; [exact Kmi|].
  split; [split; [eapply kept_trans; eassumption | exact Tf]|].
  rewrite Nf, Ni, Nb, No. reflexivity.
Qed.

Lemma brief_return_cancels_unload_witness :
  isLoaded (trace [LoadView false; Elapse 600; LoadView true; Elapse 300;
                   LoadView false; Elapse 900] playing) = true
  /\ src (trace [LoadView false; Elapse 600; LoadView true; Elapse 300;
                 LoadView false; Elapse 900] playing) = Some "/videos/a.mp4".
Proof.
  pose proof (brief_return_cancels_unload playing 600 300 900 playing_reachable
                eq_refl eq_refl eq_refl eq_refl) as (_ & _ & _ & (K & _) & _).
  destruct K as (K1 & _ & _ & _ & K5 & _).
  split; [exact K1 | exact K5].
Defined.

(** C9, as stated, fails: a playing item whose element reports an error
    keeps playing, and when it then leaves the play window the autoplay
    effect returns early because of the recorded failure: the item is
    playing outside the play window. *)
Lemma failed_item_plays_outside_play_window :
  let m := trace [LoadView true; LoadedMetadata; PlayView true (1 # 2);
                  MediaError "decode"; PlayView false 0] clip in
  isPlaying m = true /\ paused m = false /\ inPlayView (inputs m) = false
  /\ isLoaded m = true /\ isFailed m = true.
Proof. repeat split; reflexivity. Qed.

Lemma leavesPlayWindow_checked :
  forallCtl (fun c => forallEvent (fun a => leavesPlayWindow a c (astep a c))) = true.
Proof. vm_compute. reflexivity. Qed.

Lemma autoplayStarts_checked :
  forallCtl (fun c => forallEvent (fun a => autoplayStarts a c (astep a c))) = true.
Proof. vm_compute. reflexivity. Qed.

Lemma advanceTo_not_playing fuel deadline : forall m,
  settled m -> isPlaying m = false -> isPlaying (advanceTo fuel deadline m) = false.
Proof.
  induction fuel as [|fuel IH]; intros m Hs Hp; [exact Hp|].
  cbn [advanceTo]. destruct (nextDue deadline m) as [t|]; [|exact Hp].
  apply IH; [apply settled_fire, Hs|].
  pose proof (any_fire autoplayStarts autoplayStarts_checked t m Hs) as H.
  cbn [autoplayStarts] in H.
  apply negb_true_iff. refine (implb_elim _ _ H _).
  apply negb_true_iff. exact Hp.
Qed.

(** C9, amended. In any state the item has settled in: a click on an item
    that is not loaded changes nothing. When a loaded, playing item with
    no recorded failure leaves the play window, it is paused and stays
    loaded with its source. An item that does not play is switched to
    playing by an event other than a click only through the autoplay
    effect: it is then loaded with no recorded failure, inside the play
    window with more than a tenth visible, autoplay is on and the element
    plays; and no timer starts playback. *)
Theorem click_needs_a_loaded_item_and_leaving_the_play_window_pauses m :
  settled m ->
  (isLoaded m = false -> step Click m = m)
  /\ (isLoaded m = true -> isPlaying m = true -> isFailed m = false ->
      inPlayView (inputs m) = true ->
      forall ratio,
        let x := step (PlayView false ratio) m in
        isPlaying x = false /\ paused x = true /\ isLoaded x = true
        /\ isFailed x = false /\ (src x = None <-> src m = None))
  /\ (forall ev, ev <> Click -> isPlaying m = false ->
        let x := step ev m in
        isPlaying x = true ->
        isLoaded x = true /\ isFailed x = false /\ paused x = false
        /\ inPlayView (inputs x) = true /\ autoplay (inputs x) = true
        /\ JS.posQ (intersectionRatio (inputs x) - (1 # 10)) = true)
  /\ (forall dt, isPlaying m = false -> isPlaying (step (Elapse dt) m) = false).
Proof.
  intros Hs. split; [|split; [|split]].
  - intros Hl. cbn [step handle]. unfold handleClick.
    cbn [wasLoaded snapshot]. rewrite Hl. cbn [negb].
    apply settle_settled_id, Hs.
  - intros Hl Hp Hf Hv ratio x.
    pose proof (any_step leavesPlayWindow leavesPlayWindow_checked
                  (PlayView false ratio) m Hs eq_refl) as H.
    fold x in H. cbn [abstraction leavesPlayWindow] in H.
    assert (Hc : cLoaded (ctl m) && cPlaying (ctl m) && negb (cFailed (ctl m))
                 && cInPlay (ctl m) = true).
    { cbn [ctl cLoaded cPlaying cFailed cInPlay]. rewrite Hl, Hp, Hf, Hv. reflexivity. }
    pose proof (implb_elim _ _ H Hc) as H'.
    apply andb_true_iff in H' as [H' H5]. apply andb_true_iff in H' as [H' H4].
    apply andb_true_iff in H' as [H' H3]. apply andb_true_iff in H' as [H1 H2].
    apply negb_true_iff in H1, H4.
    cbn [ctl cPlaying cPaused cLoaded cFailed cAttached] in H1, H2, H3, H4, H5.
    repeat (split; [assumption|]).
    destruct (src x), (src m); cbn in H5; try discriminate H5;
      split; intros E; try discriminate E; reflexivity.
  - intros ev Hev Hp x Hx.
    destruct (timed ev) eqn:Et.
    + destruct ev; try discriminate Et. unfold x in Hx. cbn [step handle] in Hx.
      unfold advance in Hx. rewrite (advanceTo_not_playing _ _ m Hs Hp) in Hx.
      discriminate Hx.
    + pose proof (any_step autoplayStarts autoplayStarts_checked ev m Hs Et) as H.
      fold x in H.
      assert (Ha : autoplaying (ctl x) = true).
      { destruct ev; try discriminate Et; try (exfalso; apply Hev; reflexivity);
          cbn [abstraction autoplayStarts] in H;
          refine (implb_elim _ _ H _);
          cbn [ctl cPlaying]; rewrite Hp, Hx; reflexivity. }
      unfold autoplaying in Ha.
      apply andb_true_iff in Ha as [Ha H6]. apply andb_true_iff in Ha as [Ha H5].
      apply andb_true_iff in Ha as [Ha H4]. apply andb_true_iff in Ha as [Ha H3].
      apply andb_true_iff in Ha as [H1 H2].
      apply negb_true_iff in H2, H6.
      cbn [ctl cLoaded cFailed cInPlay cAuto cRatio cPaused] in H1, H2, H3, H4, H5, H6.
      repeat (split; [assumption|]). exact H5.
  - intros dt Hp. cbn [step handle]. unfold advance.
    apply advanceTo_not_playing; assumption.
Qed.

Lemma click_needs_a_loaded_item_and_leaving_the_play_window_pauses_witness :
  step Click clip = clip
  /\ (isPlaying playing = true /\ inPlayView (inputs playing) = true)
  /\ (isPlaying (step (PlayView false 0) playing) = false
      /\ paused (step (PlayView false 0) playing) = true
      /\ isLoaded (step (PlayView false 0) playing) = true)
  /\ (let m := trace [LoadView true; LoadedMetadata] clip in
      let x := step (PlayView true (1 # 2)) m in
      isPlaying m = false /\ isPlaying x = true /\ isLoaded x = true
      /\ autoplay (inputs x) = true).
Proof.
  assert (Sc : settled clip) by reflexivity.
  assert (Sp : settled playing) by reflexivity.
  split; [|split; [split; reflexivity|split]].
  - apply (proj1 (click_needs_a_loaded_item_and_leaving_the_play_window_pauses
                    clip Sc) eq_refl).
  - destruct (proj1 (proj2 (click_needs_a_loaded_item_and_leaving_the_play_window_pauses
                              playing Sp)) eq_refl eq_refl eq_refl eq_refl 0)
      as (H1 & H2 & H3 & _).
    split; [exact H1|]. split; [exact H2|exact H3].
  - intros m x.
    assert (Sm : settled m) by reflexivity.
    assert (Hx : isPlaying x = true) by reflexivity.
    destruct (proj1 (proj2 (proj2
                (click_needs_a_loaded_item_and_leaving_the_play_window_pauses m Sm)))
                (PlayView true (1 # 2)) ltac:(discriminate) eq_refl Hx)
      as (H1 & _ & _ & _ & H5 & _).
    split; [reflexivity|]. split; [exact Hx|]. split; [exact H1|exact H5].
Defined.

End VideoItemFacts.


(** ** [App]: what the grid and the highlight panel show *)

Module AppFacts.

Import JS Height App.
Local Open Scope string_scope.

Lemma has_In ts t : has ts t = true <-> In t ts.
Proof.
  unfold has. rewrite existsb_exists. split.
  - intros [x [Hx He]]. apply String.eqb_eq in He. subst. exact Hx.
  - intros H. exists t. split; [exact H | apply String.eqb_refl].
Qed.

Lemma selects_spec sel item :
  existsb (has (tagSet item)) sel = true
  <-> exists t, In t sel /\ In t (tagSet item).
Proof.
  rewrite existsb_exists. split; intros [t [H1 H2]]; exists t; split; try assumption.
  - apply has_In. exact H2.
  - apply has_In. exact H2.
Qed.

Lemma filterByTags_filter items sel :
  exists keep, filterByTags items sel = filter keep items.
Proof.
  destruct sel as [[|t sel]|].
  - exists (fun _ => true). cbn. induction items; cbn; congruence.
  - eexists. reflexivity.
  - exists (fun _ => true). cbn. induction items; cbn; congruence.
Qed.

Lemma filterByTags_In items sel e :
  In e (filterByTags items sel)
  <-> In e items
      /\ (orEmpty sel = []
          \/ exists t, In t (orEmpty sel)
                       /\ (In t (orEmpty (tags e))
                           \/ In t (orEmpty (metadataTags e)))).
Proof.
  destruct sel as [[|t sel]|]; cbn [filterByTags orEmpty].
  - split; [intros H; split; [exact H | left; reflexivity] | intros [H _]; exact H].
  - rewrite filter_In, selects_spec. unfold tagSet.
    split; intros [Hi H]; split; try exact Hi.
    + right. destruct H as [x [Hx Ht]]. exists x. split; [exact Hx|].
      apply in_app_or in Ht. exact Ht.
    + destruct H as [H | [x [Hx Ht]]]; [discriminate|].
      exists x. split; [exact Hx|]. apply in_or_app. exact Ht.
  - split; [intros H; split; [exact H | left; reflexivity] | intros [H _]; exact H].
Qed.

Lemma filterByTags_incl items sel : incl (filterByTags items sel) items.
Proof. intros e H. apply filterByTags_In in H. tauto. Qed.

(** X1. The tag filter keeps, in their order, exactly the items that carry
    one of the selected tags in [tags] or in [metadata.tags]; with no tag
    selected (or no selection at all) it keeps every item. *)
Theorem filter_keeps_items_with_a_selected_tag items sel :
  (exists keep, filterByTags items sel = filter keep items)
  /\ forall e,
       In e (filterByTags items sel)
       <-> In e items
           /\ (orEmpty sel = []
               \/ exists t, In t (orEmpty sel)
                            /\ (In t (orEmpty (tags e))
                                \/ In t (orEmpty (metadataTags e)))).
Proof.
  split; [apply filterByTags_filter | intros e; apply filterByTags_In].
Qed.

Lemma filterByTags_same_members items a b :
  (forall t, In t a <-> In t b) ->
  filterByTags items (Some a) = filterByTags items (Some b).
Proof.
  intros H. destruct a as [|x a], b as [|y b].
  - reflexivity.
  - exfalso. apply (proj2 (H y)). left. reflexivity.
  - exfalso. apply (proj1 (H x)). left. reflexivity.
  - cbn [filterByTags]. apply filter_ext. intros item.
    apply eq_true_iff_eq. rewrite !selects_spec.
    split; intros [t [H1 H2]]; exists t; split; try exact H2; apply H; exact H1.
Qed.

Lemma filterByTags_nil_selection items sel :
  orEmpty sel = [] -> filterByTags items sel = items.
Proof. destruct sel as [[|t sel]|]; cbn; intros H; [reflexivity | discriminate | reflexivity]. Qed.

Lemma filterByTags_orEmpty items sel :
  filterByTags items sel = filterByTags items (Some (orEmpty sel)).
Proof. destruct sel as [[|t sel]|]; reflexivity. Qed.

Lemma filter_filter_implied {A : Type} (f g : A -> bool) (l : list A) :
  (forall a, f a = true -> g a = true) ->
  filter f (filter g l) = filter f l.
Proof.
  intros H. induction l as [|a l IH]; cbn; [reflexivity|].
  destruct (g a) eqn:Hg; cbn.
  - rewrite IH. reflexivity.
  - destruct (f a) eqn:Hf; [rewrite (H a Hf) in Hg; discriminate | exact IH].
Qed.

(** X2. The tag filter has OR logic: under a selection that is not empty,
    the items shown are, in the same order, those that a wider selection
    shows and that carry one of the tags of the narrower one; adding tags to
    the selection hides no item. Filtering twice changes nothing. *)
Theorem wider_selection_hides_no_item items sel sel' :
  sel <> [] ->
  incl sel sel' ->
  filterByTags (filterByTags items (Some sel')) (Some sel)
  = filterByTags items (Some sel)
  /\ incl (filterByTags items (Some sel)) (filterByTags items (Some sel'))
  /\ filterByTags (filterByTags items (Some sel)) (Some sel)
     = filterByTags items (Some sel).
Proof.
  intros Hn Hi.
  assert (Hn' : sel' <> []).
  { destruct sel as [|t sel]; [congruence|]. intros ->. apply (Hi t). left. reflexivity. }
  destruct sel as [|t sel]; [congruence|]. destruct sel' as [|t' sel']; [congruence|].
  cbn [filterByTags].
  assert (Hw : forall item, existsb (has (tagSet item)) (t :: sel) = true ->
                            existsb (has (tagSet item)) (t' :: sel') = true).
  { intros item. rewrite !selects_spec. intros [x [H1 H2]].
    exists x. split; [apply Hi; exact H1 | exact H2]. }
  split; [| split].
  - apply filter_filter_implied. exact Hw.
  - intros e. rewrite !filter_In. intros [H1 H2]. split; [exact H1 | apply Hw; exact H2].
  - apply filter_filter_implied. intros a H. exact H.
Qed.

Lemma wider_selection_hides_no_item_witness :
  let a := {| props := [("filename", JStr "a.mp4")]; tags := Some ["cat"];
              metadataTags := None |} in
  let b := {| props := [("filename", JStr "b.mp4")]; tags := None;
              metadataTags := Some ["dog"] |} in
  incl (filterByTags [a; b] (Some ["dog"])) (filterByTags [a; b] (Some ["cat"; "dog"])).
Proof.
  intros a b.
  refine (proj1 (proj2 (wider_selection_hides_no_item [a; b] ["dog"] ["cat"; "dog"] _ _))).
  - discriminate.
  - intros t [H | []]. right. left. exact H.
Defined.

Lemma setOf_In l t : In t (setOf l) <-> In t l.
Proof.
  induction l as [|x l IH]; cbn [setOf]; [tauto|].
  cbn [In]. rewrite filter_In, IH.
  destruct (String.eqb x t) eqn:E.
  - apply String.eqb_eq in E. subst. split; intros _; left; reflexivity.
  - cbn. apply String.eqb_neq in E. split.
    + intros [H | [H _]]; [left; exact H | right; exact H].
    + intros [H | H]; [left; exact H | right; split; [exact H | reflexivity]].
Qed.

Lemma setOf_NoDup l : NoDup (setOf l).
Proof.
  induction l as [|x l IH]; cbn [setOf]; constructor.
  - rewrite filter_In. intros [_ H]. rewrite String.eqb_refl in H. discriminate.
  - apply NoDup_filter. exact IH.
Qed.

Lemma toggled_members tag l t :
  let current := setOf l in
  In t (if has current tag
        then filter (fun x => negb (String.eqb tag x)) current
        else (current ++ [tag])%list)
  <-> (if has current tag then In t l /\ t <> tag else In t l \/ t = tag).
Proof.
  intros current. destruct (has current tag) eqn:Hh.
  - rewrite filter_In. unfold current. rewrite setOf_In.
    split; intros [H1 H2]; split; try exact H1.
    + intros ->. rewrite String.eqb_refl in H2. discriminate.
    + destruct (String.eqb tag t) eqn:E; [|reflexivity].
      apply String.eqb_eq in E. congruence.
  - rewrite in_app_iff. unfold current. rewrite setOf_In. cbn [In].
    split; intros [H | H]; try (left; exact H); right.
    + destruct H as [H | []]. congruence.
    + left. congruence.
Qed.

Lemma toggleTag_twice_members tag s t :
  In t (orEmpty (selectedTags (toggleTag tag (toggleTag tag s))))
  <-> In t (orEmpty (selectedTags s)).
Proof.
  unfold toggleTag. cbn [selectedTags set_selectedTags orEmpty].
  set (l := orEmpty (selectedTags s)).
  set (l1 := if has (setOf l) tag then _ else _).
  rewrite (toggled_members tag l1 t).
  assert (H1 : forall x, In x l1 <-> (if has (setOf l) tag then In x l /\ x <> tag
                                      else In x l \/ x = tag))
    by (intros x; apply toggled_members).
  destruct (has (setOf l) tag) eqn:Hh.
  - assert (Hn : has (setOf l1) tag = false).
    { destruct (has (setOf l1) tag) eqn:E; [|reflexivity].
      apply has_In in E. apply (proj1 (setOf_In _ _)) in E.
      apply (proj1 (H1 _)) in E. destruct E as [_ E]. congruence. }
    rewrite Hn. rewrite H1. apply has_In in Hh. apply (proj1 (setOf_In _ _)) in Hh.
    destruct (string_dec t tag) as [-> | Hne];
      [split; [intros _; exact Hh | intros _; right; reflexivity] | tauto].
  - assert (Hn : has (setOf l1) tag = true).
    { apply has_In, setOf_In, H1. right. reflexivity. }
    rewrite Hn. rewrite H1.
    assert (Hnot : ~ In tag l).
    { intros Hin. apply (proj2 (setOf_In _ _)) in Hin.
      apply (proj2 (has_In _ _)) in Hin. congruence. }
    split; [intros [[H | H] Hne]; [exact H | congruence] |].
    intros H. split; [left; exact H | intros ->; exact (Hnot H)].
Qed.


Lemma toggleTag_twice_filter tag s items :
  filterByTags items (selectedTags (toggleTag tag (toggleTag tag s)))
  = filterByTags items (selectedTags s).
Proof.
  rewrite (filterByTags_orEmpty items (selectedTags s)).
  rewrite (filterByTags_orEmpty items (selectedTags (toggleTag _ _))).
  apply filterByTags_same_members. intros t. apply toggleTag_twice_members.
Qed.

(** X3. Toggling a tag in the settings panel twice gives back the view:
    the filtered videos and images, the list of the highlight panel and the
    props of [VideoMasonry] are what they were (the stored selection itself
    may have lost duplicates and changed its order). *)
Theorem toggling_a_tag_twice_restores_the_view tag s :
  let s' := toggleTag tag (toggleTag tag s) in
  filteredVideos s' = filteredVideos s
  /\ filteredImages s' = filteredImages s
  /\ displayItems s' = displayItems s
  /\ masonryProps s' = masonryProps s.
Proof.
  intros s'.
  assert (Hv : filteredVideos s' = filteredVideos s)
    by apply (toggleTag_twice_filter tag s (videos s)).
  assert (Hi : filteredImages s' = filteredImages s)
    by apply (toggleTag_twice_filter tag s (images s)).
  split; [exact Hv | split; [exact Hi | split]].
  - unfold displayItems.
    change (filterByTags (videos s') (selectedTags s')) with (filteredVideos s').
    change (filterByTags (images s') (selectedTags s')) with (filteredImages s').
    rewrite Hv, Hi. reflexivity.
  - unfold masonryProps. rewrite Hv, Hi. reflexivity.
Qed.

Lemma insertSorted_In x l t : In t (insertSorted x l) <-> t = x \/ In t l.
Proof.
  induction l as [|y l IH]; cbn [insertSorted].
  - cbn. split; intros [H | H]; auto.
  - destruct (String.leb x y); cbn [In].
    + split; intros [H | H]; auto.
    + rewrite IH. cbn [In]. tauto.
Qed.

Lemma insertSorted_Permutation x l : Permutation (x :: l) (insertSorted x l).
Proof.
  induction l as [|y l IH]; cbn [insertSorted]; [reflexivity|].
  destruct (String.leb x y); [reflexivity|].
  rewrite perm_swap. apply perm_skip. exact IH.
Qed.

Lemma sort_Permutation l : Permutation l (sort l).
Proof.
  induction l as [|x l IH]; cbn; [constructor|].
  rewrite <- insertSorted_Permutation. apply perm_skip. exact IH.
Qed.

Lemma insertSorted_Sorted x l :
  Sorted (fun a b => String.leb a b = true) l ->
  Sorted (fun a b => String.leb a b = true) (insertSorted x l).
Proof.
  induction 1 as [|y l Hs IH Hh]; cbn [insertSorted].
  - repeat constructor.
  - destruct (String.leb x y) eqn:E.
    + constructor; [constructor; assumption | constructor; exact E].
    + constructor; [exact IH|].
      assert (Hyx : String.leb y x = true).
      { destruct (String.leb_total x y) as [H | H]; [congruence | exact H]. }
      destruct Hh as [|z l Hz]; cbn [insertSorted].
      * constructor. exact Hyx.
      * destruct (String.leb x z); constructor; assumption.
Qed.

Lemma sort_Sorted l : Sorted (fun a b => String.leb a b = true) (sort l).
Proof.
  induction l as [|x l IH]; cbn; [constructor | apply insertSorted_Sorted; exact IH].
Qed.

Lemma availableTags_In s t :
  In t (availableTags s)
  <-> exists e, (In e (videos s) \/ In e (images s)) /\ In t (orEmpty (tags e)).
Proof.
  unfold availableTags. split.
  - intros H. apply (Permutation_in _ (Permutation_sym (sort_Permutation _))) in H.
    apply (proj1 (setOf_In _ _)) in H. apply in_app_or in H.
    destruct H as [H | H]; apply in_flat_map in H; destruct H as [e [He Ht]];
      exists e; auto.
  - intros [e [He Ht]]. apply (Permutation_in _ (sort_Permutation _)).
    apply setOf_In. apply in_or_app.
    destruct He as [He | He]; [left | right]; apply in_flat_map; exists e; auto.
Qed.

(** X4. The tags offered by the settings panel are sorted and without
    duplicates; they are the tags of the [tags] field of the loaded videos
    and images (a tag that occurs only in [metadata.tags] is not offered),
    and each of them, selected alone, shows the items that carry it. *)
Theorem offered_tags_are_the_tags_of_the_media s :
  NoDup (availableTags s)
  /\ Sorted (fun a b => String.leb a b = true) (availableTags s)
  /\ forall t,
       In t (availableTags s)
       <-> exists e, (In e (videos s) \/ In e (images s))
                     /\ In t (orEmpty (tags e))
                     /\ In e (filterByTags (videos s ++ images s) (Some [t])).
Proof.
  split; [| split].
  - unfold availableTags.
    apply (Permutation_NoDup (sort_Permutation _)). apply setOf_NoDup.
  - apply sort_Sorted.
  - intros t. rewrite availableTags_In.
    split; intros [e H]; exists e; [| tauto].
    destruct H as [He Ht]. split; [exact He | split; [exact Ht|]].
    cbn [filterByTags]. apply filter_In. split.
    + apply in_or_app. exact He.
    + apply selects_spec. exists t. split; [left; reflexivity|].
      unfold tagSet. apply in_or_app. left. exact Ht.
Qed.

Example metadata_tag_is_not_offered :
  let e := {| props := [("filename", JStr "a.mp4")]; tags := None;
              metadataTags := Some ["dog"] |} in
  let s := initial [e] [] Masonry.videos None false in
  availableTags s = [] /\ filterByTags (videos s) (Some ["dog"]) = [e].
Proof. split; reflexivity. Qed.

Lemma itemIndex_videoItem v n : itemIndex (videoItem v n) = Some n.
Proof.
  unfold itemIndex, videoItem. cbn [field lookup String.eqb Ascii.eqb Bool.eqb].
  rewrite Qfloor_Z.
  replace (Qeq_bool _ _) with true by (symmetry; apply Qeq_bool_iff; reflexivity).
  replace (0 <=? Z.of_nat n)%Z with true by (symmetry; apply Z.leb_le; lia).
  cbn. rewrite Nat2Z.id. reflexivity.
Qed.

Lemma itemIndex_imageItem v n : itemIndex (imageItem v n) = Some n.
Proof.
  unfold itemIndex, imageItem. cbn [field lookup String.eqb Ascii.eqb Bool.eqb].
  rewrite Qfloor_Z.
  replace (Qeq_bool _ _) with true by (symmetry; apply Qeq_bool_iff; reflexivity).
  replace (0 <=? Z.of_nat n)%Z with true by (symmetry; apply Z.leb_le; lia).
  cbn. rewrite Nat2Z.id. reflexivity.
Qed.

Lemma mapIndexed_nth_error f l i k :
  nth_error (Masonry.mapIndexed f l i) k
  = option_map (fun x => f x (i + k)%nat) (nth_error l k).
Proof.
  revert i k. induction l as [|x l IH]; intros i k; cbn [Masonry.mapIndexed].
  - destruct k; reflexivity.
  - destruct k as [|k]; cbn [nth_error option_map].
    + rewrite Nat.add_0_r. reflexivity.
    + rewrite IH. replace (S i + k)%nat with (i + S k)%nat by lia. reflexivity.
Qed.

Lemma aligned_video n (e : Entry) vs ims :
  In e vs ->
  aligned n (Some (videoItem (body e) n)) (Some (withType "video" e)) vs ims.
Proof. intros H. exists e. left. repeat split. exact H. Qed.

Lemma aligned_image n (e : Entry) vs ims :
  In e ims ->
  aligned n (Some (imageItem (body e) n)) (Some (withType "image" e)) vs ims.
Proof. intros H. exists e. right. repeat split. exact H. Qed.

Lemma aligned_incl n g p vs ims vs' ims' :
  incl vs vs' -> incl ims ims' -> aligned n g p vs ims -> aligned n g p vs' ims'.
Proof.
  intros Hv Hi. destruct g as [g|]; cbn [aligned]; [|tauto].
  intros [e [[H1 H2] | [H1 H2]]]; exists e; [left | right]; split; auto.
Qed.

Lemma images_aligned ims n k vs :
  aligned (n + k)
    (nth_error (Masonry.mapIndexed imageItem (map body ims) n) k)
    (nth_error (map (withType "image") ims) k) vs ims.
Proof.
  rewrite mapIndexed_nth_error, !nth_error_map.
  destruct (nth_error ims k) as [e|] eqn:E; cbn [option_map]; [|reflexivity].
  apply aligned_image. apply (nth_error_In _ _ E).
Qed.

Lemma videos_aligned vs n k ims :
  aligned (n + k)
    (nth_error (Masonry.mapIndexed videoItem (map body vs) n) k)
    (nth_error (map (withType "video") vs) k) vs ims.
Proof.
  rewrite mapIndexed_nth_error, !nth_error_map.
  destruct (nth_error vs k) as [e|] eqn:E; cbn [option_map]; [|reflexivity].
  apply aligned_video. apply (nth_error_In _ _ E).
Qed.

Lemma merge_aligned vs ims n k :
  aligned (n + k)
    (nth_error (Masonry.merge (map body vs) (map body ims) n) k)
    (nth_error (interleave (map (withType "video") vs) (map (withType "image") ims)) k)
    vs ims.
Proof.
  revert ims n k. induction vs as [|v vs IH]; intros ims n k.
  - cbn [map Masonry.merge interleave]. apply images_aligned.
  - destruct ims as [|i ims]; cbn [map Masonry.merge interleave].
    + destruct k as [|k]; cbn [nth_error].
      * rewrite Nat.add_0_r. apply aligned_video. left. reflexivity.
      * replace (n + S k)%nat with (S n + k)%nat by lia.
        apply (aligned_incl _ _ _ vs []); [intros x Hx; right; exact Hx | intros x [] |].
        apply (IH [] (S n) k).
    + destruct k as [|[|k]]; cbn [nth_error].
      * rewrite Nat.add_0_r. apply aligned_video. left. reflexivity.
      * replace (n + 1)%nat with (S n) by lia. apply aligned_image. left. reflexivity.
      * replace (n + S (S k))%nat with (S (S n) + k)%nat by lia.
        apply (aligned_incl _ _ _ vs ims); [intros x Hx; right; exact Hx
                                           | intros x Hx; right; exact Hx |].
        apply (IH ims (S (S n)) k).
Qed.

Lemma grid_aligned s k :
  aligned k (nth_error (Masonry.itemsData (masonryProps s)) k)
            (nth_error (displayItems s) k)
            (filteredVideos s) (filteredImages s).
Proof.
  unfold Masonry.itemsData, displayItems, masonryProps.
  cbn [Masonry.mode Masonry.videoList Masonry.imageList].
  change (filterByTags (videos s) (selectedTags s)) with (filteredVideos s).
  change (filterByTags (images s) (selectedTags s)) with (filteredImages s).
  destruct (displayMode s).
  - apply (videos_aligned _ 0 k).
  - apply (images_aligned _ 0 k).
  - apply (merge_aligned _ _ 0 k).
Qed.

(** X5. The grid and the highlight panel list the same media in the same
    order: the grid entry at position [k] is a descriptor that was loaded
    and passes the tag filter, numbered [k], and the panel list holds that
    descriptor, marked with its type, at position [k]; where the grid has
    no entry the panel list has none. *)
Theorem grid_and_panel_list_the_same_media s k :
  aligned k (nth_error (Masonry.itemsData (masonryProps s)) k)
            (nth_error (displayItems s) k)
            (filteredVideos s) (filteredImages s)
  /\ incl (filteredVideos s) (videos s)
  /\ incl (filteredImages s) (images s).
Proof.
  split; [apply grid_aligned | split; apply filterByTags_incl].
Qed.

Lemma shuffleMedia_highlight random s s' :
  shuffleMedia random s = Some s' ->
  s' = s
  \/ (highlightedVideo s' = None /\ lockedVideo s' = None
      /\ highlightModeEnabled s' = highlightModeEnabled s).
Proof.
  unfold shuffleMedia. intros H.
  destruct (displayMode s).
  - destruct (Datatypes.length (videos s) <=? 1)%nat; [left; congruence|].
    destruct (shuffle random 0 (videos s)) as [[vs c]|]; [|discriminate].
    injection H as <-. right. repeat split.
  - destruct (Datatypes.length (images s) <=? 1)%nat; [left; congruence|].
    destruct (shuffle random 0 (images s)) as [[ims c]|]; [|discriminate].
    injection H as <-. right. repeat split.
  - destruct (if (1 <? Datatypes.length (videos s))%nat then _ else _) as [[vs c]|];
      [|discriminate].
    destruct (if (1 <? Datatypes.length (images s))%nat then _ else _) as [[ims c']|];
      [|discriminate].
    injection H as <-. right. repeat split.
Qed.

Lemma step_consistent ev s : consistent s -> consistent (step ev s).
Proof.
  intros H. pose proof H as [Hl Hm]. destruct ev as [g itemData isLoaded| |enabled|random|tag|m];
    cbn [step].
  - destruct (report g itemData isLoaded (highlightModeEnabled s)) as [[k isLocked]|] eqn:Hr;
      [|exact H].
    assert (He : highlightModeEnabled s = true).
    { unfold report in Hr.
      destruct (is_string (field itemData "type") "placeholder"); [discriminate|].
      destruct (highlightModeEnabled s); [reflexivity|].
      destruct (is_string (field itemData "type") "image"); [discriminate|].
      destruct g, isLoaded; discriminate. }
    unfold highlightVideo.
    destruct isLocked.
    + destruct (isIndex (lockedVideo s) k); split; cbn; intros; try congruence.
    + destruct (lockedVideo s) eqn:El; [exact H|].
      split; cbn; intros; congruence.
  - unfold panelClick. destruct (lockedVideo s); [|exact H].
    split; cbn; intros; [congruence | split; reflexivity].
  - unfold toggleHighlightMode. destruct enabled.
    + split; cbn; [exact Hl | discriminate].
    + split; cbn; intros; [congruence | split; reflexivity].
  - destruct (shuffleMedia random s) as [s'|] eqn:E; [|exact H].
    destruct (shuffleMedia_highlight _ _ _ E) as [-> | [H1 [H2 H3]]];
      [exact H|].
    split; intros; [congruence | split; assumption].
  - exact H.
  - exact H.
Qed.

Lemma run_consistent evs s : consistent s -> consistent (run evs s).
Proof.
  revert s. induction evs as [|ev evs IH]; intros s H; [exact H|].
  apply IH. apply step_consistent. exact H.
Qed.

(** X6. Through every sequence of clicks and hovers on grid items, clicks
    on the panel, switches of the highlight mode, shuffles, tag and mode
    changes, a locked item is the highlighted one, and nothing is
    highlighted or locked while the highlight mode is off. *)
Theorem highlight_selection_stays_consistent evs vs ims m sel highlightMode :
  Forall fair evs ->
  consistent (run evs (initial vs ims m sel highlightMode)).
Proof.
  intros _. apply run_consistent. split; cbn; [discriminate | split; reflexivity].
Qed.

Lemma highlight_selection_stays_consistent_witness :
  let a := {| props := [("filename", JStr "a.mp4")]; tags := None; metadataTags := None |} in
  let g := videoItem (body a) 0 in
  consistent (run [ToggleHighlightMode true; Pointer Click g true;
                   ShuffleMedia (fun _ => 1 # 2); Pointer Enter g true]
                  (initial [a; a] [] Masonry.videos None false)).
Proof.
  intros a g.
  apply highlight_selection_stays_consistent.
  repeat constructor; cbn; intros; lra.
Defined.

Lemma report_videoItem g v k highlightMode :
  report g (videoItem v k) true highlightMode
  = if highlightMode then Some (k, match g with Click => true | Enter => false end)
    else None.
Proof.
  unfold report. rewrite itemIndex_videoItem.
  destruct g, highlightMode; reflexivity.
Qed.

Lemma report_imageItem g v k isLoaded highlightMode :
  report g (imageItem v k) isLoaded highlightMode
  = if highlightMode then Some (k, match g with Click => true | Enter => false end)
    else None.
Proof.
  unfold report. rewrite itemIndex_imageItem.
  destruct g, highlightMode; reflexivity.
Qed.

(** X7. In highlight mode the panel shows the item under the pointer: a
    hover on an image or on a loaded video of the grid makes the panel show
    the entry of its list at the position of the item while nothing is
    locked; a click locks that entry, after which hovers on any item leave
    the panel unchanged, and a second click on the item empties the panel.
    A hover or a click on a video that is not loaded changes nothing. *)
Theorem panel_shows_the_item_under_the_pointer s k g :
  highlightModeEnabled s = true ->
  nth_error (Masonry.itemsData (masonryProps s)) k = Some g ->
  exists shown,
    nth_error (displayItems s) k = Some shown
    /\ (is_string (field g "type") "image" = false ->
        forall gs, step (Pointer gs g false) s = s)
    /\ forall isLoaded,
       (is_string (field g "type") "image" || isLoaded) = true ->
       (lockedVideo s = None ->
        let s1 := step (Pointer Enter g isLoaded) s in
        currentItem (displayItems s1) s1 = Some shown /\ lockedVideo s1 = None)
       /\ (isIndex (lockedVideo s) k = false ->
           let s1 := step (Pointer Click g isLoaded) s in
           currentItem (displayItems s1) s1 = Some shown
           /\ lockedVideo s1 = Some k
           /\ (forall g' isLoaded',
                 let s2 := step (Pointer Enter g' isLoaded') s1 in
                 currentItem (displayItems s2) s2 = Some shown)
           /\ let s3 := step (Pointer Click g isLoaded) s1 in
              currentItem (displayItems s3) s3 = None).
Proof.
  intros Hm Hg.
  pose proof (grid_aligned s k) as Ha.
  rewrite Hg in Ha. cbn [aligned] in Ha.
  assert (Hr : exists shown, nth_error (displayItems s) k = Some shown
                 /\ (is_string (field g "type") "image" = false ->
                     forall gs, report gs g false true = None)
                 /\ forall isLoaded,
                      (is_string (field g "type") "image" || isLoaded) = true ->
                      forall gs, report gs g isLoaded true
                       = Some (k, match gs with Click => true | Enter => false end)).
  { destruct Ha as [e [[_ [-> Hp]] | [_ [-> Hp]]]]; eexists; (split; [exact Hp|]).
    - split.
      + intros _ gs. unfold report. destruct gs; reflexivity.
      + intros isLoaded Hl gs.
        change (is_string (field (videoItem (body e) k) "type") "image") with false in Hl.
        cbn [orb] in Hl. subst isLoaded. apply report_videoItem.
    - split.
      + intros Hi. discriminate Hi.
      + intros isLoaded _ gs. apply report_imageItem. }
  destruct Hr as [shown [Hp [Hnone Hr]]]. exists shown. split; [exact Hp|].
  split.
  { intros Hv gs. cbn [step]. rewrite Hm, (Hnone Hv gs). reflexivity. }
  intros isLoaded Hlive. specialize (Hr isLoaded Hlive).
  split.
  - intros Hl s1. unfold s1. cbn [step]. rewrite Hm, Hr.
    unfold highlightVideo. rewrite Hl.
    unfold currentItem, currentIndex. cbn. split; [exact Hp | reflexivity].
  - intros Hl s1.
    assert (E1 : s1 = set_highlight (Some k) (Some k) s).
    { unfold s1. cbn [step]. rewrite Hm, Hr. unfold highlightVideo. rewrite Hl.
      reflexivity. }
    rewrite E1. split; [exact Hp | split; [reflexivity | split]].
    + intros g' isLoaded' s2. unfold s2. cbn [step].
      destruct (report Enter g' isLoaded' _) as [[k' isLocked]|] eqn:E; [|exact Hp].
      assert (isLocked = false) as ->.
      { change (highlightModeEnabled (set_highlight (Some k) (Some k) s))
          with (highlightModeEnabled s) in E.
        rewrite Hm in E. unfold report in E.
        destruct (is_string (field g' "type") "placeholder"); [discriminate|].
        destruct (itemIndex g'); cbn in E;
          destruct (is_string (field g' "type") "image"), isLoaded';
          cbn in E; congruence. }
      unfold highlightVideo. cbn. exact Hp.
    + intros s3. unfold s3. cbn [step].
      change (highlightModeEnabled (set_highlight (Some k) (Some k) s))
        with (highlightModeEnabled s).
      rewrite Hm, Hr. unfold highlightVideo. cbn [lockedVideo set_highlight isIndex].
      rewrite Nat.eqb_refl. reflexivity.
Qed.

Lemma panel_shows_the_item_under_the_pointer_witness :
  let a := {| props := [("filename", JStr "a.mp4")]; tags := None; metadataTags := None |} in
  let b := {| props := [("filename", JStr "b.jpg")]; tags := None; metadataTags := None |} in
  let s := initial [a] [b] Masonry.mixed None true in
  let g := videoItem (body a) 0 in
  nth_error (Masonry.itemsData (masonryProps s)) 0 = Some g
  /\ step (Pointer Enter g false) s = s
  /\ step (Pointer Click g false) s = s
  /\ lockedVideo (step (Pointer Enter g true) s) = None
  /\ lockedVideo (step (Pointer Click g true) s) = Some 0%nat
  /\ exists shown,
       nth_error (displayItems s) 0 = Some shown
       /\ currentItem (displayItems (step (Pointer Enter g true) s))
                      (step (Pointer Enter g true) s) = Some shown
       /\ currentItem (displayItems (step (Pointer Click g true) s))
                      (step (Pointer Click g true) s) = Some shown.
Proof.
  intros a b s g.
  assert (Hg : nth_error (Masonry.itemsData (masonryProps s)) 0 = Some g)
    by reflexivity.
  destruct (panel_shows_the_item_under_the_pointer s 0 g eq_refl Hg)
    as (shown & Hp & Hnone & Hlive).
  destruct (Hlive true eq_refl) as [He Hc].
  destruct (He eq_refl) as [He1 He2].
  destruct (Hc eq_refl) as (Hc1 & Hc2 & _).
  split; [exact Hg|].
  split; [exact (Hnone eq_refl Enter)|]. split; [exact (Hnone eq_refl Click)|].
  split; [exact He2|]. split; [exact Hc2|].
  exists shown. split; [exact Hp|]. split; [exact He1|exact Hc1].
Defined.

Lemma store_Permutation {A : Type} (k : nat) (x y : A) (a : list A) :
  nth_error a k = Some y -> Permutation (x :: a) (y :: store k x a).
Proof.
  revert k. induction a as [|z a IH]; intros k H.
  - destruct k; discriminate.
  - destruct k as [|k]; cbn in *.
    + injection H as ->. apply perm_swap.
    + rewrite perm_swap. rewrite (IH k H). apply perm_swap.
Qed.

Lemma nth_error_store {A : Type} (i j : nat) (y : A) (a : list A) :
  (i < List.length a)%nat ->
  nth_error (store i y a) j = if (i =? j)%nat then Some y else nth_error a j.
Proof.
  revert i j. induction a as [|z a IH]; intros i j H; [cbn in H; lia|].
  destruct i as [|i], j as [|j]; cbn; try reflexivity.
  apply IH. cbn in H. lia.
Qed.

Lemma swap_Permutation {A : Type} (i j : nat) (a : list A) :
  (i < List.length a)%nat ->
  (j < List.length a)%nat ->
  exists a', swap i j a = Some a' /\ Permutation a a'.
Proof.
  intros Hi Hj. unfold swap.
  destruct (nth_error a i) as [x|] eqn:Ex; [|apply nth_error_None in Ex; lia].
  destruct (nth_error a j) as [y|] eqn:Ey; [|apply nth_error_None in Ey; lia].
  eexists. split; [reflexivity|].
  apply (Permutation_cons_inv (a := y)).
  rewrite (store_Permutation i y x a Ex).
  apply (store_Permutation j x y (store i y a)).
  rewrite (nth_error_store i j y a Hi).
  destruct (i =? j)%nat; [reflexivity | exact Ey].
Qed.

Lemma random_index (r : Q) (i : nat) :
  (0 <= r /\ r < 1)%Q ->
  let j := Qfloor (r * inject_Z (Z.of_nat i + 1)) in
  (j <? 0)%Z = false /\ (Z.to_nat j <= i)%nat.
Proof.
  intros [H0 H1] j.
  assert (Hp : (0 < inject_Z (Z.of_nat i + 1))%Q).
  { change 0%Q with (inject_Z 0). rewrite <- Zlt_Qlt. lia. }
  assert (Hlo : (0 <= j)%Z).
  { change 0%Z with (Qfloor 0). apply Qfloor_resp_le.
    apply Qmult_le_0_compat; [exact H0 | apply Qlt_le_weak; exact Hp]. }
  assert (Hhi : (j < Z.of_nat i + 1)%Z).
  { rewrite Zlt_Qlt. apply Qle_lt_trans with (r * inject_Z (Z.of_nat i + 1))%Q.
    - apply Qfloor_le.
    - rewrite <- (Qmult_1_l (inject_Z (Z.of_nat i + 1))) at 2.
      apply Qmult_lt_compat_r; assumption. }
  split; [apply Z.ltb_ge; exact Hlo | lia].
Qed.

Lemma shuffleFrom_Permutation {A : Type} random calls i (a : list A) :
  inRange random ->
  (i < List.length a)%nat ->
  exists a' calls', shuffleFrom random calls i a = Some (a', calls')
                    /\ Permutation a a'.
Proof.
  intros Hr. revert calls a. induction i as [|i IH]; intros calls a Hi.
  - exists a, calls. split; reflexivity.
  - cbn [shuffleFrom].
    destruct (random_index (random calls) (S i) (Hr calls)) as [Hlo Hhi].
    cbv zeta in Hlo, Hhi. rewrite Hlo.
    destruct (swap_Permutation (S i) _ a Hi (Nat.le_lt_trans _ _ _ Hhi Hi))
      as [a1 [Hs Hp]].
    rewrite Hs.
    destruct (IH (S calls) a1) as [a' [calls' [H1 H2]]].
    { rewrite <- (Permutation_length Hp). lia. }
    exists a', calls'. split; [exact H1 | rewrite Hp; exact H2].
Qed.

Lemma shuffle_Permutation {A : Type} random calls (a : list A) :
  inRange random ->
  exists a' calls', shuffle random calls a = Some (a', calls') /\ Permutation a a'.
Proof.
  intros Hr. unfold shuffle. destruct a as [|x a].
  - exists [], calls. split; reflexivity.
  - apply shuffleFrom_Permutation; [exact Hr | cbn; lia].
Qed.

Lemma filter_Permutation {A : Type} (f : A -> bool) (l l' : list A) :
  Permutation l l' -> Permutation (filter f l) (filter f l').
Proof.
  induction 1 as [|x l l' H IH|x y l|l l' l'' H1 IH1 H2 IH2]; cbn.
  - constructor.
  - destruct (f x); [apply perm_skip|]; exact IH.
  - destruct (f x), (f y); try reflexivity. apply perm_swap.
  - rewrite IH1. exact IH2.
Qed.

Lemma filterByTags_Permutation l l' sel :
  Permutation l l' -> Permutation (filterByTags l sel) (filterByTags l' sel).
Proof.
  intros H. destruct sel as [[|t sel]|]; cbn [filterByTags]; try exact H.
  apply filter_Permutation. exact H.
Qed.

Lemma interleave_Permutation {A : Type} (a b : list A) :
  Permutation (interleave a b) (a ++ b).
Proof.
  revert b. induction a as [|x a IH]; intros b; cbn [interleave]; [reflexivity|].
  destruct b as [|y b].
  - cbn [app]. apply perm_skip. apply IH.
  - cbn [app]. apply perm_skip. rewrite (IH b).
    apply Permutation_middle.
Qed.

Lemma displayItems_Permutation s s' :
  Permutation (videos s) (videos s') ->
  Permutation (images s) (images s') ->
  displayMode s' = displayMode s ->
  selectedTags s' = selectedTags s ->
  Permutation (displayItems s) (displayItems s').
Proof.
  intros Hv Hi Hm Hs. unfold displayItems. rewrite Hm, Hs.
  pose proof (Permutation_map (withType "video")
                (filterByTags_Permutation _ _ (selectedTags s) Hv)) as Pv.
  pose proof (Permutation_map (withType "image")
                (filterByTags_Permutation _ _ (selectedTags s) Hi)) as Pi.
  destruct (displayMode s); try assumption.
  rewrite !interleave_Permutation. apply Permutation_app; assumption.
Qed.

(** X8. A shuffle only reorders: whatever numbers [Math.random()] returns,
    the shuffled videos and images are permutations of the lists before, so
    the panel list holds the same entries as before, in some order; mode,
    tag selection and highlight mode are kept; and unless the shuffle left
    everything as it was (a single list of at most one entry), the highlight
    and the lock are cleared. *)
Theorem shuffle_only_reorders random s :
  inRange random ->
  exists s',
    shuffleMedia random s = Some s'
    /\ Permutation (videos s) (videos s')
    /\ Permutation (images s) (images s')
    /\ Permutation (displayItems s) (displayItems s')
    /\ displayMode s' = displayMode s
    /\ selectedTags s' = selectedTags s
    /\ highlightModeEnabled s' = highlightModeEnabled s
    /\ (s' = s \/ highlightedVideo s' = None /\ lockedVideo s' = None).
Proof.
  intros Hr.
  assert (H : exists s', shuffleMedia random s = Some s'
                /\ Permutation (videos s) (videos s')
                /\ Permutation (images s) (images s')
                /\ displayMode s' = displayMode s
                /\ selectedTags s' = selectedTags s).
  { unfold shuffleMedia. destruct (displayMode s) eqn:Em.
    - destruct (Datatypes.length (videos s) <=? 1)%nat.
      + exists s. repeat split; try reflexivity; exact Em.
      + destruct (shuffle_Permutation random 0 (videos s) Hr) as [vs [c [E P]]].
        rewrite E. eexists. split; [reflexivity|]. cbn. repeat split; auto.
    - destruct (Datatypes.length (images s) <=? 1)%nat.
      + exists s. repeat split; try reflexivity; exact Em.
      + destruct (shuffle_Permutation random 0 (images s) Hr) as [ims [c [E P]]].
        rewrite E. eexists. split; [reflexivity|]. cbn. repeat split; auto.
    - assert (Hv : exists vs c,
                 (if (1 <? Datatypes.length (videos s))%nat
                  then shuffle random 0 (videos s) else Some (videos s, 0%nat))
                 = Some (vs, c) /\ Permutation (videos s) vs).
      { destruct (1 <? Datatypes.length (videos s))%nat.
        - apply shuffle_Permutation. exact Hr.
        - exists (videos s), 0%nat. split; reflexivity. }
      destruct Hv as [vs [c [E P]]]. rewrite E.
      assert (Hi : exists ims c',
                 (if (1 <? Datatypes.length (images s))%nat
                  then shuffle random c (images s) else Some (images s, c))
                 = Some (ims, c') /\ Permutation (images s) ims).
      { destruct (1 <? Datatypes.length (images s))%nat.
        - apply shuffle_Permutation. exact Hr.
        - exists (images s), c. split; reflexivity. }
      destruct Hi as [ims [c' [E' P']]]. rewrite E'.
      eexists. split; [reflexivity|]. cbn. repeat split; auto. }
  destruct H as [s' [E [Pv [Pi [Hm Hs]]]]]. exists s'.
  split; [exact E|]. split; [exact Pv|]. split; [exact Pi|].
  split; [apply displayItems_Permutation; assumption|].
  split; [exact Hm|]. split; [exact Hs|].
  destruct (shuffleMedia_highlight _ _ _ E) as [-> | [H1 [H2 H3]]].
  - split; [reflexivity | left; reflexivity].
  - split; [exact H3 | right; split; assumption].
Qed.

Lemma shuffle_only_reorders_witness :
  let e n := {| props := [("filename", JStr n)]; tags := None; metadataTags := None |} in
  let s := initial [e "a"; e "b"; e "c"] [] Masonry.videos None false in
  exists s',
    shuffleMedia (fun _ => 1 # 2) s = Some s'
    /\ Permutation (videos s) (videos s')
    /\ Permutation (images s) (images s')
    /\ Permutation (displayItems s) (displayItems s')
    /\ displayMode s' = displayMode s
    /\ selectedTags s' = selectedTags s
    /\ highlightModeEnabled s' = highlightModeEnabled s
    /\ (s' = s \/ highlightedVideo s' = None /\ lockedVideo s' = None).
Proof.
  intros e s. apply (shuffle_only_reorders (fun _ => 1 # 2) s).
  intros n. split; [discriminate | reflexivity].
Defined.

Example shuffle_example :
  option_map fst (shuffle (fun n => match n with O => 1 # 2 | _ => 0 end) 0
                          ["a"; "b"; "c"; "d"])
  = Some ["b"; "d"; "a"; "c"].
Proof. vm_compute. reflexivity. Qed.

Lemma filtered_nil_selection items sel :
  filterByTags items sel = [] -> items = [] \/ exists t sel', sel = Some (t :: sel').
Proof.
  destruct sel as [[|t sel']|]; cbn [filterByTags]; intros H;
    [left; exact H | right; exists t, sel'; reflexivity | left; exact H].
Qed.

Lemma length_zero_nil {A : Type} (l : list A) : (List.length l =? 0)%nat = true -> l = [].
Proof. destruct l; [reflexivity | discriminate]. Qed.

Lemma map_nil_inv {A B : Type} (f : A -> B) (l : list A) : map f l = [] -> l = [].
Proof. destruct l; [reflexivity | discriminate]. Qed.

Lemma merge_nil vs ims n : Masonry.merge vs ims n = [] -> vs = [] /\ ims = [].
Proof.
  destruct vs as [|v vs]; cbn [Masonry.merge].
  - destruct ims; [split; reflexivity | discriminate].
  - destruct ims; discriminate.
Qed.

(** X9. The messages of the empty grid are truthful. When [App] renders
    [VideoMasonry] and it shows a message in place of the grid, the mode is
    not the images mode (there [App] shows its own message); the message
    says that nothing is loaded exactly when the lists of the mode are
    empty; and it says that nothing matches the selected tags only when a
    tag is selected. *)
Theorem empty_grid_messages_are_truthful s e autoScrollActive msg :
  mainArea s e autoScrollActive = MasonryView (Masonry.EmptyMessage msg) ->
  (displayMode s = Masonry.videos
   /\ ((videos s = [] /\ msg = "No videos loaded. Please start the media server.")
       \/ (videos s <> [] /\ (exists t sel, selectedTags s = Some (t :: sel))
           /\ msg = "No videos match the selected tags.")))
  \/ (displayMode s = Masonry.mixed
      /\ ((videos s = [] /\ images s = []
           /\ msg = "No media loaded. Please start the media server.")
          \/ ((videos s <> [] \/ images s <> [])
              /\ (exists t sel, selectedTags s = Some (t :: sel))
              /\ msg = "No media match the selected tags."))).
Proof.
  unfold mainArea, Masonry.render, Masonry.isEmptyForMode, Masonry.emptyMessage,
    Masonry.itemsData, masonryProps.
  cbn [Masonry.mode Masonry.videoList Masonry.imageList Masonry.totalVideosCount
       Masonry.totalImagesCount].
  destruct (displayMode s) eqn:Em.
  - intros H. left. split; [reflexivity|].
    destruct (Datatypes.length (map body (filteredVideos s)) =? 0)%nat eqn:El.
    + apply length_zero_nil, map_nil_inv in El.
      destruct (videos s) as [|v vs] eqn:Ev; cbn in H.
      * left. split; [reflexivity | congruence].
      * right. split; [discriminate|].
        unfold filteredVideos in El. rewrite Ev in El.
        destruct (filtered_nil_selection _ _ El) as [? | Hs]; [discriminate|].
        split; [exact Hs | congruence].
    + destruct (Qeq_bool _ _); discriminate.
  - destruct (Datatypes.length (filterByTags (images s) (selectedTags s)) =? 0)%nat eqn:El;
      [discriminate|].
    intros H. exfalso.
    unfold filteredImages in H. rewrite length_map, El in H.
    destruct (Qeq_bool _ _); discriminate.
  - intros H. right. split; [reflexivity|].
    destruct (Datatypes.length (Masonry.merge _ _ _) =? 0)%nat eqn:El.
    + apply length_zero_nil, merge_nil in El. destruct El as [Ev Ei].
      apply map_nil_inv in Ev. apply map_nil_inv in Ei.
      unfold filteredVideos in Ev. unfold filteredImages in Ei.
      destruct (videos s) as [|v vs] eqn:Hv, (images s) as [|i ims] eqn:Hi; cbn in H.
      * left. repeat split; congruence.
      * right. split; [right; discriminate|].
        destruct (filtered_nil_selection _ _ Ei) as [? | Hs]; [discriminate|].
        split; [exact Hs | congruence].
      * right. split; [left; discriminate|].
        destruct (filtered_nil_selection _ _ Ev) as [? | Hs]; [discriminate|].
        split; [exact Hs | congruence].
      * right. split; [left; discriminate|].
        destruct (filtered_nil_selection _ _ Ev) as [? | Hs]; [discriminate|].
        split; [exact Hs | congruence].
    + destruct (Qeq_bool _ _); discriminate.
Qed.

Lemma empty_grid_messages_are_truthful_witness :
  let a := {| props := [("filename", JStr "a.mp4")]; tags := Some ["cat"];
              metadataTags := None |} in
  let s := initial [a] [] Masonry.videos (Some ["dog"]) false in
  let e := {| Masonry.containerWidth := 800; Masonry.containerHeight := 600;
              Masonry.innerWidth := Some 1280%Q |} in
  (displayMode s = Masonry.videos
   /\ ((videos s = []
        /\ "No videos match the selected tags."
           = "No videos loaded. Please start the media server.")
       \/ (videos s <> [] /\ (exists t sel, selectedTags s = Some (t :: sel))
           /\ "No videos match the selected tags."
              = "No videos match the selected tags.")))
  \/ (displayMode s = Masonry.mixed
      /\ ((videos s = [] /\ images s = []
           /\ "No videos match the selected tags."
              = "No media loaded. Please start the media server.")
          \/ ((videos s <> [] \/ images s <> [])
              /\ (exists t sel, selectedTags s = Some (t :: sel))
              /\ "No videos match the selected tags."
                 = "No media match the selected tags."))).
Proof.
  intros a s e.
  apply (empty_grid_messages_are_truthful s e false "No videos match the selected tags.").
  reflexivity.
Defined.

End AppFacts.

(** ** [VideoMasonry]: height estimate, rendered items *)

Module GridFacts.

Import JS Height Masonry Grid HeightFacts.
Import Double.
Local Open Scope string_scope.
Local Open Scope Q_scope.

Lemma ratioByMetadata_spec item :
  descriptor item = true ->
  ratioByMetadata item = Returns (ratioOfPixels item).
Proof.
  destruct item as [| |b|q|s|ps]; try discriminate.
  unfold descriptor, ratioByMetadata, ratioOfPixels, metadataPixels.
  rewrite !field_obj, !get_obj.
  intros H. apply andb_true_iff in H as [_ H].
  destruct (lookup "metadata" ps) as [| |b|q|s|md]; cbn in H; try discriminate;
    try reflexivity.
  rewrite !field_obj. cbn [bind get].
  destruct (lookup "dimensions" md) as [| |b|q|s|d] eqn:Ed;
    try (cbn in H; discriminate H); try reflexivity.
  etransitivity;
    [apply (dimensions_guard (fun w h => div (ofZ w) (ofZ h)) (JObj d) H)|].
  rewrite !field_obj.
  destruct (parseInt (lookup "width" d)) as [[w|]| |];
    destruct (parseInt (lookup "height" d)) as [[h|]| |]; reflexivity.
Qed.

Ltac split_ratio_numbers :=
  repeat (match goal with
          | |- context [posQ ?q] =>
              let P := fresh "P" in
              destruct (posQ q) eqn:P; [rewrite ?(posQ_nonzero _ P)|]
          | |- context [Qeq_bool ?q 0] => destruct (Qeq_bool q 0)
          end; cbn [test and_then bind gt0 toNumber truthy negb option_map ofNumber]);
  try reflexivity.

Lemma ratioByTopLevel_spec item :
  descriptor item = true ->
  ratioByTopLevel item = Returns (ratioOfTopLevel item).
Proof.
  destruct item as [| |b|q|s|ps]; try discriminate.
  unfold descriptor, ratioByTopLevel, ratioOfTopLevel, numberField.
  rewrite !field_obj, !get_obj.
  intros H. apply andb_true_iff in H as [H _].
  apply andb_true_iff in H as [H _].
  apply andb_true_iff in H as [Hw Hh].
  destruct (lookup "width" ps) as [| |b|w|s|x]; cbn in Hw; try discriminate;
    destruct (lookup "height" ps) as [| |b'|h|s'|x']; cbn in Hh; try discriminate;
    try reflexivity.
  all: cbn [test and_then bind gt0 toNumber truthy negb].
  all: split_ratio_numbers.
Qed.

Lemma ratioByAspectRatio_spec item :
  descriptor item = true ->
  ratioByAspectRatio item = Returns (ratioProvided item).
Proof.
  destruct item as [| |b|q|s|ps]; try discriminate.
  unfold descriptor, ratioByAspectRatio, ratioProvided, numberField.
  rewrite !field_obj, !get_obj.
  intros H. apply andb_true_iff in H as [H _].
  apply andb_true_iff in H as [_ Hr].
  destruct (lookup "aspect_ratio" ps) as [| |b|r|s|x]; cbn in Hr; try discriminate;
    try reflexivity.
  cbn [test and_then bind gt0 toNumber truthy negb].
  split_ratio_numbers.
Qed.

Lemma entryRatio_spec item :
  descriptor item = true -> entryRatio item = Returns (usableRatio item).
Proof.
  intros H. unfold entryRatio, orElse, usableRatio.
  rewrite (ratioByMetadata_spec _ H), (ratioByTopLevel_spec _ H),
    (ratioByAspectRatio_spec _ H).
  cbn [bind].
  destruct (ratioOfPixels item); [reflexivity|]. cbn [bind].
  destruct (ratioOfTopLevel item); reflexivity.
Qed.

Lemma accumulate_spec l : forall total valid,
  Forall (fun item => descriptor item = true) l ->
  accumulate l total valid
  = Returns (fold_left add (usableRatios l) total,
             (valid + List.length (usableRatios l))%nat).
Proof.
  induction l as [|item l IH]; intros total valid H.
  - cbn. rewrite Nat.add_0_r. reflexivity.
  - inversion H as [|? ? Hi Hl]; subst.
    cbn [accumulate]. rewrite (entryRatio_spec _ Hi). cbn [bind].
    unfold usableRatios. cbn [flat_map].
    fold (usableRatios l).
    destruct (usableRatio item) as [r|].
    + rewrite (IH _ _ Hl). cbn [app fold_left List.length].
      rewrite Nat.add_succ_r. reflexivity.
    + rewrite (IH _ _ Hl). reflexivity.
Qed.

Lemma average_spec p :
  Forall (fun item => descriptor item = true) (ratioList p) ->
  averageAspectRatio p = Returns (mean (usableRatios (ratioList p))).
Proof.
  intros H. unfold averageAspectRatio.
  destruct (ratioList p) as [|item l] eqn:El; [reflexivity|].
  cbn [List.length Nat.eqb]. rewrite (accumulate_spec _ _ _ H). cbn [bind fst snd].
  unfold mean. destruct (usableRatios (item :: l)) as [|r rs]; reflexivity.
Qed.

Lemma usableRatio_slot k item r : usableRatio item = Some r -> aspectRatio k item = r.
Proof.
  unfold usableRatio, aspectRatio.
  destruct (ratioOfPixels item); [congruence|].
  destruct (ratioOfTopLevel item); [congruence|].
  destruct (ratioProvided item); congruence.
Qed.

Lemma usableRatios_In l r :
  In r (usableRatios l) <-> exists item, In item l /\ usableRatio item = Some r.
Proof.
  unfold usableRatios. rewrite in_flat_map. split.
  - intros [item [Hi Hr]]. exists item. split; [exact Hi|].
    destruct (usableRatio item) as [x|]; [|contradiction].
    destruct Hr as [-> | []]. reflexivity.
  - intros [item [Hi Hr]]. exists item. split; [exact Hi|].
    rewrite Hr. left. reflexivity.
Qed.

Lemma usableRatio_none k item :
  usableRatio item = None -> aspectRatio k item = fallbackRatio k.
Proof.
  unfold usableRatio, aspectRatio.
  destruct (ratioOfPixels item); [discriminate|].
  destruct (ratioOfTopLevel item); [discriminate|].
  destruct (ratioProvided item); [discriminate | reflexivity].
Qed.

(** The average is computed in doubles, in the order of the list: three
    entries of ratio one tenth average to a little more than a tenth, and
    an entry whose ratio rounds to zero gives the average zero and an
    infinite height estimate. *)
Example average_of_doubles :
  let tenth := JObj [("aspect_ratio", JNum (3602879701896397 # 2 ^ 55))] in
  let flat := JObj [("width", JNum (inject_Z (2 ^ 10) / inject_Z (2 ^ 1000)));
                    ("height", JNum (inject_Z (2 ^ 1000)))] in
  let props l := {| videoList := l; imageList := []; mode := videos;
                    highlightModeEnabled := false;
                    totalVideosCount := List.length l; totalImagesCount := 0 |} in
  (descriptor tenth = true /\ descriptor flat = true)
  /\ averageAspectRatio (props [tenth; tenth; tenth])
     = Returns (SpecFloat.S754_finite false 7205759403792795 (-56))
  /\ ofQ (1 # 10) = SpecFloat.S754_finite false 7205759403792794 (-56)
  /\ averageAspectRatio (props [flat]) = Returns (SpecFloat.S754_zero false)
  /\ itemHeightEstimate (ofZ 260) (props [flat])
     = Returns (SpecFloat.S754_infinity false).
Proof. vm_compute. repeat split; reflexivity. Qed.

(** X19. For descriptors of the documented shape, [averageAspectRatio]
    returns the mean of the ratios of the entries that have usable
    dimensions, added up in the order of the list and rounded as doubles
    are, 16:9 when there is none. An entry counts with the ratio that
    [getItemHeight] uses for its slot; an entry without usable dimensions
    does not count, whereas its slot gets the default ratio of its kind.
    The height estimate is the grid size divided by that mean. *)
Theorem average_is_the_mean_of_the_usable_ratios p :
  Forall (fun item => descriptor item = true) (ratioList p) ->
  averageAspectRatio p = Returns (mean (usableRatios (ratioList p)))
  /\ (forall gridSize,
        itemHeightEstimate gridSize p
        = Returns (div gridSize (mean (usableRatios (ratioList p)))))
  /\ forall item, In item (ratioList p) ->
       forall k index width,
         match usableRatio item with
         | Some r =>
             In r (usableRatios (ratioList p))
             /\ getItemHeight (itemOf k item index) width = Returns (div width r)
         | None =>
             getItemHeight (itemOf k item index) width
             = Returns (div width (fallbackRatio k))
         end.
Proof.
  intros H. split; [apply average_spec, H | split].
  - intros gridSize. unfold itemHeightEstimate. rewrite (average_spec p H).
    reflexivity.
  - intros item Hin k index width.
    rewrite Forall_forall in H. pose proof (H item Hin) as Hd.
    rewrite (slot_height k item index width Hd).
    destruct (usableRatio item) as [r|] eqn:Er.
    + split; [apply usableRatios_In; exists item; split; assumption|].
      rewrite (usableRatio_slot k item r Er). reflexivity.
    + rewrite (usableRatio_none k item Er). reflexivity.
Qed.

Lemma average_is_the_mean_of_the_usable_ratios_witness :
  let wide := JObj [("width", JNum 1920); ("height", JNum 1080)] in
  let tall := JObj [("aspect_ratio", JNum (9 # 16))] in
  let bare := JObj [("filename", JStr "c.mp4")] in
  let p := {| videoList := [wide; tall; bare]; imageList := []; mode := videos;
              highlightModeEnabled := false;
              totalVideosCount := 3; totalImagesCount := 0 |} in
  averageAspectRatio p
  = Returns (div (add (add (ofZ 0) (div (ofZ 1920) (ofZ 1080))) (ofQ (9 # 16))) (ofZ 2))
  /\ itemHeightEstimate (ofZ 260) p
     = Returns (div (ofZ 260)
                    (div (add (add (ofZ 0) (div (ofZ 1920) (ofZ 1080))) (ofQ (9 # 16)))
                         (ofZ 2))).
Proof.
  intros wide tall bare p.
  assert (H : Forall (fun item => descriptor item = true) (ratioList p))
    by (repeat constructor).
  destruct (average_is_the_mean_of_the_usable_ratios p H) as (H1 & H2 & _).
  split; [rewrite H1 | rewrite H2]; vm_compute; reflexivity.
Defined.


(** *** The entries of [itemsData] *)

Lemma mapIndexed_kinds_video l n :
  videosOf (mapIndexed videoItem l n) = l /\ imagesOf (mapIndexed videoItem l n) = [].
Proof.
  revert n. induction l as [|x l IH]; intros n; [split; reflexivity|].
  destruct (IH (S n)) as [H1 H2]. unfold videosOf, imagesOf in *.
  cbn [mapIndexed filter map videoItem field lookup String.eqb Ascii.eqb Bool.eqb is_string].
  cbn [mapIndexed] in H1, H2. rewrite H1, H2. split; reflexivity.
Qed.

Lemma mapIndexed_kinds_image l n :
  videosOf (mapIndexed imageItem l n) = [] /\ imagesOf (mapIndexed imageItem l n) = l.
Proof.
  revert n. induction l as [|x l IH]; intros n; [split; reflexivity|].
  destruct (IH (S n)) as [H1 H2]. unfold videosOf, imagesOf in *.
  cbn [mapIndexed filter map imageItem field lookup String.eqb Ascii.eqb Bool.eqb is_string].
  rewrite H1, H2. split; reflexivity.
Qed.

Lemma merge_kinds vs : forall ims n,
  videosOf (merge vs ims n) = vs /\ imagesOf (merge vs ims n) = ims
  /\ List.length (merge vs ims n) = (List.length vs + List.length ims)%nat.
Proof.
  induction vs as [|v vs IH]; intros ims n.
  - cbn [merge]. destruct (mapIndexed_kinds_image ims n) as [H1 H2].
    split; [exact H1 | split; [exact H2|]].
    clear. revert n. induction ims as [|i ims IH]; intros n; [reflexivity|].
    cbn [mapIndexed List.length]. rewrite IH. reflexivity.
  - destruct ims as [|i ims]; cbn [merge].
    + destruct (IH [] (S n)) as [H1 [H2 H3]]. unfold videosOf, imagesOf in *.
      cbn [filter map videoItem field lookup String.eqb Ascii.eqb Bool.eqb is_string
           List.length].
      rewrite H1, H2, H3. repeat split; reflexivity.
    + destruct (IH ims (S (S n))) as [H1 [H2 H3]]. unfold videosOf, imagesOf in *.
      cbn [filter map videoItem imageItem field lookup String.eqb Ascii.eqb Bool.eqb
           is_string List.length].
      rewrite H1, H2, H3. repeat split; try reflexivity. lia.
Qed.

Lemma mapIndexed_index f l : forall n k g,
  (forall x i, field (f x i) "index" = JNum (inject_Z (Z.of_nat i))) ->
  nth_error (mapIndexed f l n) k = Some g ->
  field g "index" = JNum (inject_Z (Z.of_nat (n + k))).
Proof.
  induction l as [|x l IH]; intros n k g Hf H.
  - destruct k; discriminate.
  - destruct k as [|k]; cbn [mapIndexed nth_error] in H.
    + injection H as <-. rewrite Nat.add_0_r. apply Hf.
    + replace (n + S k)%nat with (S n + k)%nat by lia. apply (IH (S n) k g Hf H).
Qed.

Lemma merge_index vs : forall ims n k g,
  nth_error (merge vs ims n) k = Some g ->
  field g "index" = JNum (inject_Z (Z.of_nat (n + k))).
Proof.
  induction vs as [|v vs IH]; intros ims n k g H.
  - cbn [merge] in H. apply (mapIndexed_index imageItem ims n k g); [reflexivity | exact H].
  - destruct ims as [|i ims]; cbn [merge] in H.
    + destruct k as [|k]; cbn [nth_error] in H.
      * injection H as <-. rewrite Nat.add_0_r. reflexivity.
      * replace (n + S k)%nat with (S n + k)%nat by lia. apply (IH [] (S n) k g H).
    + destruct k as [|[|k]]; cbn [nth_error] in H.
      * injection H as <-. rewrite Nat.add_0_r. reflexivity.
      * injection H as <-. replace (n + 1)%nat with (S n) by lia. reflexivity.
      * replace (n + S (S k))%nat with (S (S n) + k)%nat by lia.
        apply (IH ims (S (S n)) k g H).
Qed.

(** X21. The list handed to the grid loses nothing and numbers its
    entries: taken by kind, the entries give back the videos and the images
    of the mode in their order, the mixed list is as long as both lists
    together, and the entry at position [k] carries the index [k]. *)
Theorem items_are_the_media_numbered_by_position p :
  videosOf (itemsData p)
  = match mode p with images => [] | _ => videoList p end
  /\ imagesOf (itemsData p)
     = match mode p with videos => [] | _ => imageList p end
  /\ (mode p = mixed ->
      List.length (itemsData p)
      = (List.length (videoList p) + List.length (imageList p))%nat)
  /\ forall k g, nth_error (itemsData p) k = Some g ->
                 field g "index" = JNum (inject_Z (Z.of_nat k)).
Proof.
  unfold itemsData. destruct (mode p).
  - destruct (mapIndexed_kinds_video (videoList p) 0) as [H1 H2].
    split; [exact H1 | split; [exact H2 | split; [discriminate|]]].
    intros k g H. apply (mapIndexed_index videoItem (videoList p) 0%nat k g);
      [reflexivity | exact H].
  - destruct (mapIndexed_kinds_image (imageList p) 0) as [H1 H2].
    split; [exact H1 | split; [exact H2 | split; [discriminate|]]].
    intros k g H. apply (mapIndexed_index imageItem (imageList p) 0%nat k g);
      [reflexivity | exact H].
  - destruct (merge_kinds (videoList p) (imageList p) 0) as [H1 [H2 H3]].
    split; [exact H1 | split; [exact H2 | split; [intros _; exact H3|]]].
    intros k g H. apply (merge_index _ _ 0%nat k g H).
Qed.

(** *** What the grid renders *)

Lemma mapIndexed_shape (f : jsval -> nat -> jsval) l : forall n k g,
  nth_error (mapIndexed f l n) k = Some g ->
  exists x, In x l /\ g = f x (n + k)%nat.
Proof.
  induction l as [|x l IH]; intros n k g H.
  - destruct k; discriminate.
  - destruct k as [|k]; cbn [mapIndexed nth_error] in H.
    + injection H as <-. exists x. rewrite Nat.add_0_r. split; [left|]; reflexivity.
    + destruct (IH (S n) k g H) as [y [Hy ->]].
      exists y. split; [right; exact Hy|]. f_equal. lia.
Qed.

Lemma merge_shape vs : forall ims n k g,
  nth_error (merge vs ims n) k = Some g ->
  (exists v, In v vs /\ g = videoItem v (n + k))
  \/ (exists i, In i ims /\ g = imageItem i (n + k)).
Proof.
  induction vs as [|v vs IH]; intros ims n k g H.
  - right. cbn [merge] in H. apply (mapIndexed_shape imageItem ims n k g H).
  - destruct ims as [|i ims]; cbn [merge] in H.
    + destruct k as [|k]; cbn [nth_error] in H.
      * injection H as <-. left. exists v. rewrite Nat.add_0_r.
        split; [left|]; reflexivity.
      * destruct (IH [] (S n) k g H) as [[y [Hy ->]] | [y [[] _]]].
        left. exists y. split; [right; exact Hy|]. f_equal. lia.
    + destruct k as [|[|k]]; cbn [nth_error] in H.
      * injection H as <-. left. exists v. rewrite Nat.add_0_r.
        split; [left|]; reflexivity.
      * injection H as <-. right. exists i.
        split; [left; reflexivity|]. f_equal. lia.
      * destruct (IH ims (S (S n)) k g H) as [[y [Hy ->]] | [y [Hy ->]]].
        -- left. exists y. split; [right; exact Hy|]. f_equal. lia.
        -- right. exists y. split; [right; exact Hy|]. f_equal. lia.
Qed.

Lemma itemsData_shape p k g :
  nth_error (itemsData p) k = Some g ->
  (exists v, In v (videoList p) /\ g = videoItem v k)
  \/ (exists i, In i (imageList p) /\ g = imageItem i k).
Proof.
  unfold itemsData. destruct (mode p); intros H.
  - left. apply (mapIndexed_shape videoItem (videoList p) 0%nat k g H).
  - right. apply (mapIndexed_shape imageItem (imageList p) 0%nat k g H).
  - apply (merge_shape (videoList p) (imageList p) 0%nat k g H).
Qed.

Lemma nonempty_items p : isEmptyForMode p = false -> safeItems p = itemsData p /\ itemsData p <> [].
Proof.
  unfold isEmptyForMode, safeItems, itemsData.
  destruct (mode p); intros H.
  - destruct (videoList p); [discriminate|]. split; [reflexivity | discriminate].
  - destruct (imageList p); [discriminate|]. split; [reflexivity | discriminate].
  - destruct (merge (videoList p) (imageList p) 0); [discriminate|].
    split; [reflexivity | discriminate].
Qed.

(** X22. Whenever [VideoMasonry] renders the grid, its items are the
    entries of [itemsData], of which there is at least one: the placeholder
    entry is never among them. [renderItem] turns the entry at position [k]
    into a [VideoItem] or an [ImageItem] for a medium of the lists, with
    the index [k] and the preload margin of its kind; it neither throws nor
    gives the error box or the placeholder box. *)
Theorem grid_renders_only_media p e active width items shown im vm :
  render p e active = Grid width items shown ->
  items = itemsData p /\ items <> []
  /\ forall k g, nth_error items k = Some g ->
       (exists v, In v (videoList p)
                  /\ renderItem g im vm
                     = Returns (VideoElement v (JNum (inject_Z (Z.of_nat k))) (asProp vm)))
       \/ (exists i, In i (imageList p)
                     /\ renderItem g im vm
                        = Returns (ImageElement i (JNum (inject_Z (Z.of_nat k)))
                                                (asProp im))).
Proof.
  unfold render. destruct (isEmptyForMode p) eqn:Ee; [discriminate|].
  destruct (Qeq_bool (effectiveWidth p e) 0); [discriminate|].
  intros H. injection H as _ <- _.
  destruct (nonempty_items p Ee) as [Hs Hn]. rewrite Hs.
  split; [reflexivity | split; [exact Hn|]].
  intros k g Hg.
  destruct (itemsData_shape p k g Hg) as [[v [Hv ->]] | [i [Hi ->]]].
  - left. exists v. split; [exact Hv | reflexivity].
  - right. exists i. split; [exact Hi | reflexivity].
Qed.

Lemma grid_renders_only_media_witness :
  let a := JObj [("filename", JStr "a.mp4")] in
  let p := {| videoList := [a]; imageList := []; mode := videos;
              highlightModeEnabled := false;
              totalVideosCount := 1; totalImagesCount := 0 |} in
  let items := [videoItem a 0] in
  items = itemsData p /\ items <> []
  /\ forall k g, nth_error items k = Some g ->
       (exists v, In v (videoList p)
                  /\ renderItem g (Some 900) (Some 900)
                     = Returns (VideoElement v (JNum (inject_Z (Z.of_nat k)))
                                             (asProp (Some 900))))
       \/ (exists i, In i (imageList p)
                     /\ renderItem g (Some 900) (Some 900)
                        = Returns (ImageElement i (JNum (inject_Z (Z.of_nat k)))
                                                (asProp (Some 900)))).
Proof.
  intros a p items.
  apply (grid_renders_only_media p
           {| containerWidth := 800; containerHeight := 600; innerWidth := Some 1280 |}
           false 800 items false (Some 900) (Some 900)).
  reflexivity.
Defined.

End GridFacts.

(** ** [useAutoScroll]: the indicator, resuming, a change of speed *)

Module AutoScrollMoreFacts.

Import AutoScroll AutoScrollInv AutoScrollFacts.
Local Open Scope Q_scope.

(** X16. In every state of the hook, the indicator [autoScrollActive]
    shows the driver flag; the driver runs only while the setting is on;
    a pending interval is the one [autoScrollIntervalRef] names, belongs to
    a running driver and scrolls by the current speed; a pending idle timer
    is the one [mouseIdleTimeoutRef] names and was set with the setting
    on. *)
Theorem indicator_shows_the_driver h :
  reachable h ->
  autoScrollActive h = isAutoScrolling h
  /\ (isAutoScrolling h = true -> enabled h = true)
  /\ forall t, In t (timers h) ->
       match action t with
       | Tick v =>
           autoScrollIntervalRef h = Some (id t) /\ isAutoScrolling h = true
           /\ v == scrollSpeed h
       | Idle e v =>
           mouseIdleTimeoutRef h = Some (id t) /\ e = true /\ enabled h = true
           /\ v == scrollSpeed h
       end.
Proof.
  intros Hr. pose proof (hook_reachable_Inv h Hr) as HI.
  destruct HI as [Hs [Ha He Ht]].
  split; [exact Ha | split; [exact He|]].
  intros t Hin. rewrite Forall_forall in Ht. exact (Ht t Hin).
Qed.

Lemma indicator_shows_the_driver_witness :
  let h := run [Elapse 5100] (commit (mount true 3 5000 (Some viewport) 1000)) in
  autoScrollActive h = isAutoScrolling h
  /\ (isAutoScrolling h = true -> enabled h = true)
  /\ forall t, In t (timers h) ->
       match action t with
       | Tick v =>
           autoScrollIntervalRef h = Some (id t) /\ isAutoScrolling h = true
           /\ v == scrollSpeed h
       | Idle e v =>
           mouseIdleTimeoutRef h = Some (id t) /\ e = true /\ enabled h = true
           /\ v == scrollSpeed h
       end.
Proof.
  intros h. apply (indicator_shows_the_driver h).
  apply run_keeps_reachable, reach_mount.
Defined.

(** *** One idle timer, and the time that passes *)

Lemma fuel_two dt h t : timers h = [t] -> exists f, fuelFor dt h = S (S f).
Proof.
  intros Ht. unfold fuelFor. rewrite Ht. cbn. eexists. reflexivity.
Qed.

Lemma nextDue_single deadline h t :
  timers h = [t] ->
  nextDue deadline h = if (due t <=? deadline)%Z then Some t else None.
Proof. intros Ht. unfold nextDue. rewrite Ht. reflexivity. Qed.

(** The idle timer of a hook whose driver flag is set fires without
    effect. *)
Lemma idle_fires_in_vain h t e v dt :
  timers h = [t] -> action t = Idle e v -> isAutoScrolling h = true ->
  (due t <= now h + dt)%Z ->
  let x := advance dt h in
  timers x = [] /\ isAutoScrolling x = true
  /\ autoScrollActive x = autoScrollActive h /\ element x = element h.
Proof.
  intros Ht Ha Hs Hd. cbv zeta. unfold advance.
  destruct (fuel_two dt h t Ht) as [f ->].
  cbn [advanceTo]. rewrite (nextDue_single _ h t Ht).
  replace (due t <=? now h + dt)%Z with true by (symmetry; apply Z.leb_le; exact Hd).
  assert (E : fire t h
              = clearTimer (Some (id t)) (set_now (Z.max (now h) (due t)) h)).
  { unfold fire. rewrite Ha. unfold idle, startAutoScroll.
    cbn [clearTimer isAutoScrolling set_timers set_now]. rewrite Hs. cbn [orb].
    destruct e; reflexivity. }
  rewrite E.
  assert (Et : timers (clearTimer (Some (id t)) (set_now (Z.max (now h) (due t)) h)) = []).
  { unfold clearTimer. cbn [timers set_timers set_now removeId]. rewrite Ht.
    cbn [filter]. rewrite Nat.eqb_refl. reflexivity. }
  unfold nextDue. rewrite Et. cbn [earliest].
  cbn [timers set_now]. rewrite Et.
  repeat split; try reflexivity. exact Hs.
Qed.

(** *** A change of speed while the driver runs *)

Lemma speed_change_commit h v :
  Inv h -> isAutoScrolling h = true -> ~ v == scrollSpeed h ->
  let x := step (SetScrollSpeed v) h in
  isAutoScrolling x = true /\ autoScrollActive x = true
  /\ timers x = [{| id := nextId h; due := (now h + idleDelay h)%Z;
                    action := Idle true v |}]
  /\ element x = element h /\ now x = now h /\ idleDelay x = idleDelay h.
Proof.
  intros [(v0 & Hseen & Hv) HC] Hs Hne. cbv zeta.
  pose proof HC as [Ha He _].
  assert (En : enabled h = true) by exact (He Hs).
  unfold step. cbn [handle].
  assert (HC' : Core (enabled h) (scrollSpeed h) (set_scrollSpeed v h)).
  { destruct HC as [A B C]. split; [exact A | exact B|].
    eapply Forall_impl; [|exact C]. intros t. unfold timerOk. cbn. tauto. }
  destruct (mountCleanup_spec _ _ _ HC') as [_ Hclean].
  unfold commit, sameCallbacks, sameEnabled.
  cbn [seen set_scrollSpeed enabled scrollSpeed idleDelay]. rewrite Hseen.
  rewrite Bool.eqb_reflx.
  assert (Eq : Qeq_bool v0 v = false).
  { destruct (Qeq_bool v0 v) eqn:E; [|reflexivity]. exfalso. apply Hne.
    apply Qeq_bool_iff in E. rewrite <- E. exact Hv. }
  rewrite Eq. cbn [andb]. rewrite Hclean.
  unfold mountEffect, listenerEffect, startMouseIdleTimer, setTimer, clearTimer.
  cbn. rewrite En. cbn. rewrite Hs, Ha, Hs.
  destruct (mouseIdleTimeoutRef h); repeat split; reflexivity.
Qed.

(** X17. Changing the scroll speed while the driver runs freezes the
    scroll: the interval is cleared with the effect that is set up again,
    but the driver flag and the indicator stay on, so the idle timer that
    is started finds the driver marked as running and starts nothing.
    However long one waits, the element does not move, the indicator stays
    on, and after the idle delay no timer is left. *)
Theorem speed_change_freezes_the_scroll h v :
  reachable h ->
  isAutoScrolling h = true ->
  ~ v == scrollSpeed h ->
  let x := step (SetScrollSpeed v) h in
  isAutoScrolling x = true /\ autoScrollActive x = true
  /\ timers x = [{| id := nextId h; due := (now h + idleDelay h)%Z;
                    action := Idle true v |}]
  /\ forall dt,
       let y := step (Elapse dt) x in
       element y = element h /\ isAutoScrolling y = true
       /\ autoScrollActive y = true
       /\ ((idleDelay h <= Z.of_N dt)%Z -> timers y = []).
Proof.
  intros Hr Hs Hne. cbv zeta.
  pose proof (hook_reachable_Inv h Hr) as HI.
  destruct (speed_change_commit h v HI Hs Hne) as (X1 & X2 & X3 & X4 & X5 & X6).
  pose proof (step_Inv (SetScrollSpeed v) h HI) as HIx.
  remember (step (SetScrollSpeed v) h) as x eqn:Ex. clear Ex.
  split; [exact X1 | split; [exact X2 | split; [exact X3|]]].
  intros dt. rewrite (step_keeps (Elapse dt) x HIx eq_refl).
  cbn [handle element isAutoScrolling autoScrollActive timers set_seen].
  set (t := {| id := nextId h; due := (now h + idleDelay h)%Z; action := Idle true v |}).
  destruct (Z_lt_le_dec (now x + Z.of_N dt) (due t)) as [Hlt | Hge].
  - rewrite (advance_before_due x t (Z.of_N dt) X3 Hlt).
    cbn [element isAutoScrolling autoScrollActive timers set_now].
    repeat split; try assumption.
    intros Hd. exfalso. cbn [due t] in Hlt. lia.
  - destruct (idle_fires_in_vain x t true v (Z.of_N dt) X3 eq_refl X1 Hge)
      as (Y1 & Y2 & Y3 & Y4).
    repeat split; try congruence.
Qed.

Lemma speed_change_freezes_the_scroll_witness :
  let h := run [Elapse 5100] (commit (mount true 3 5000 (Some viewport) 1000)) in
  let x := step (SetScrollSpeed 5) h in
  isAutoScrolling x = true /\ autoScrollActive x = true
  /\ timers x = [{| id := nextId h; due := (now h + idleDelay h)%Z;
                    action := Idle true 5 |}]
  /\ forall dt,
       let y := step (Elapse dt) x in
       element y = element h /\ isAutoScrolling y = true
       /\ autoScrollActive y = true
       /\ ((idleDelay h <= Z.of_N dt)%Z -> timers y = []).
Proof.
  intros h.
  apply (speed_change_freezes_the_scroll h 5).
  - apply run_keeps_reachable, reach_mount.
  - reflexivity.
  - intros H. vm_compute in H. discriminate H.
Defined.

(** *** The idle delay has passed *)

Lemma idle_restarts h t v e dt :
  timers h = [t] -> action t = Idle true v -> isAutoScrolling h = false ->
  element h = Some e ->
  (now h <= due t)%Z -> (due t <= now h + dt)%Z -> (now h + dt < due t + 50)%Z ->
  let x := advance dt h in
  isAutoScrolling x = true /\ autoScrollActive x = true
  /\ element x = Some e
  /\ timers x = [{| id := nextId h; due := (due t + 50)%Z; action := Tick v |}].
Proof.
  intros Ht Ha Hs He H0 H1 H2. cbv zeta. unfold advance.
  destruct (fuel_two dt h t Ht) as [f ->].
  cbn [advanceTo]. rewrite (nextDue_single _ h t Ht).
  replace (due t <=? now h + dt)%Z with true by (symmetry; apply Z.leb_le; exact H1).
  set (y := fire t h).
  assert (Ey : isAutoScrolling y = true /\ autoScrollActive y = true
               /\ element y = Some e
               /\ timers y = [{| id := nextId h; due := (due t + 50)%Z;
                                 action := Tick v |}]).
  { unfold y, fire. rewrite Ha. unfold idle, startAutoScroll, clearTimer, setTimer.
    cbn. rewrite Hs, He. cbn. rewrite Ht. cbn. rewrite Nat.eqb_refl. cbn.
    rewrite Z.max_r by exact H0. repeat split; try reflexivity; exact He. }
  destruct Ey as (Y1 & Y2 & Y3 & Y4).
  rewrite (nextDue_single _ y _ Y4). cbn [due].
  replace (due t + 50 <=? now h + dt)%Z with false
    by (symmetry; apply Z.leb_gt; exact H2).
  cbn [isAutoScrolling autoScrollActive element timers set_now].
  repeat split; assumption.
Qed.

(** X18. Scrolling resumes after the idle delay: when a qualifying
    interaction has stopped the driver and nothing else happens, then once
    the idle delay has passed (and before the first interval is due) the
    driver runs again with the indicator on, the element where it was, and
    one interval pending, due 50 ms after the idle timer, that scrolls by
    the current speed. *)
Theorem scroll_resumes_after_the_idle_delay h ev e dt :
  reachable h ->
  isAutoScrolling h = true ->
  qualifying ev h = true ->
  element h = Some e ->
  (0 <= idleDelay h)%Z ->
  (idleDelay h <= Z.of_N dt)%Z ->
  (Z.of_N dt < idleDelay h + 50)%Z ->
  let x := step (Elapse dt) (step ev h) in
  isAutoScrolling x = true /\ autoScrollActive x = true
  /\ element x = Some e
  /\ timers x = [{| id := S (nextId h); due := (now h + idleDelay h + 50)%Z;
                    action := Tick (scrollSpeed h) |}].
Proof.
  intros Hr Hs Hq He H0 H1 H2. cbv zeta.
  pose proof (hook_reachable_Inv h Hr) as HI.
  destruct (interaction_stops h ev HI Hs Hq) as (S1 & S2 & S3 & S4).
  pose proof (step_Inv ev h HI) as HIs.
  assert (Sn : nextId (step ev h) = S (nextId h)).
  { assert (Ek : keepsProps ev = true) by (destruct ev; try discriminate; reflexivity).
    rewrite (step_keeps ev h HI Ek). cbn [nextId set_seen].
    pose proof HI as [_ HC]. pose proof HC as [_ Hen _].
    assert (En : enabled h = true) by exact (Hen Hs).
    destruct ev as [dy | tr | tr | dx dy | | | |]; try discriminate; cbn [handle].
    - cbn in Hq. apply andb_true_iff in Hq as [Hw Hd].
      unfold onWheel. apply negb_true_iff in Hw. rewrite Hw, andb_false_r, Hd.
      unfold handleUserInteraction, startMouseIdleTimer, stopAutoScroll, halt,
        clearTimer, setTimer. cbn. rewrite Hs, En. reflexivity.
    - cbn in Hq. subst tr.
      unfold onTouchStart, handleUserInteraction, startMouseIdleTimer, stopAutoScroll,
        halt, clearTimer, setTimer. cbn. rewrite Hs, En. reflexivity.
    - cbn in Hq. subst tr.
      unfold onClick, handleUserInteraction, startMouseIdleTimer, stopAutoScroll,
        halt, clearTimer, setTimer. cbn. rewrite Hs, En. reflexivity.
    - cbn in Hq. apply andb_true_iff in Hq as [Hm Ht].
      unfold handleMouseMove. rewrite Hm, Ht.
      unfold startMouseIdleTimer, stopAutoScroll, halt, clearTimer, setTimer.
      cbn. rewrite Hs, En. reflexivity. }
  remember (step ev h) as y eqn:Ey. clear Ey.
  rewrite (step_keeps (Elapse dt) y HIs eq_refl).
  cbn [handle element isAutoScrolling autoScrollActive timers set_seen].
  set (t := {| id := nextId h; due := (now h + idleDelay h)%Z;
               action := Idle true (scrollSpeed h) |}).
  destruct (idle_restarts y t (scrollSpeed h) e (Z.of_N dt) S2 eq_refl S1)
    as (R1 & R2 & R3 & R4).
  - congruence.
  - rewrite S4. cbn [due t]. lia.
  - rewrite S4. cbn [due t]. lia.
  - rewrite S4. cbn [due t]. lia.
  - rewrite Sn in R4. cbn [due t] in R4. repeat split; assumption.
Qed.

Lemma scroll_resumes_after_the_idle_delay_witness :
  let h := run [Elapse 5100] (commit (mount true 3 5000 (Some viewport) 1000)) in
  let x := step (Elapse 5000) (step (Click true) h) in
  isAutoScrolling x = true /\ autoScrollActive x = true
  /\ element x = Some {| scrollTop := 6; clientHeight := 600; scrollHeight := 611 |}
  /\ timers x = [{| id := S (nextId h); due := (now h + idleDelay h + 50)%Z;
                    action := Tick (scrollSpeed h) |}].
Proof.
  intros h.
  apply (scroll_resumes_after_the_idle_delay h (Click true)
           {| scrollTop := 6; clientHeight := 600; scrollHeight := 611 |} 5000).
  - apply run_keeps_reachable, reach_mount.
  - reflexivity.
  - reflexivity.
  - reflexivity.
  - vm_compute. discriminate.
  - vm_compute. discriminate.
  - vm_compute. reflexivity.
Defined.

End AutoScrollMoreFacts.

(** ** [ImageItem]: a new source, a failed image *)

Module ImageItemRulesFacts.

Import ImageItem ImageItemInv ImageItemFacts ImageItemRules.
Local Open Scope string_scope.

Lemma sameView_keeps b ev s :
  settled s -> inView s = b -> sameView b ev = true ->
  inView (step ev s) = b
  /\ shouldLoad (step ev s) = shouldLoad s
  /\ imageUrl (step ev s) = imageUrl s.
Proof.
  intros (Hv & Hu & Href & Hsrc) Hb Hev.
  destruct s as [ld fl sl rq sr url iv sv su]; cbn in *; subst.
  destruct ev as [b' | url' | |]; try discriminate;
    unfold step, commit, handle, loadEffect, sourceEffect; cbn;
    rewrite ?String.eqb_refl; cbn.
  - cbn in Hev. apply Bool.eqb_prop in Hev. subst b'.
    rewrite Bool.eqb_reflx. cbn. auto.
  - rewrite Bool.eqb_reflx. cbn. auto.
  - rewrite Bool.eqb_reflx. cbn. auto.
Qed.

Lemma sameView_trace b evs : forall s,
  reachable s -> inView s = b -> forallb (sameView b) evs = true ->
  shouldLoad (run evs s) = shouldLoad s /\ imageUrl (run evs s) = imageUrl s
  /\ inView (run evs s) = b.
Proof.
  induction evs as [|ev evs IH]; intros s Hr Hb Hall; [auto|].
  cbn in Hall. apply andb_true_iff in Hall as [Hev Hall].
  destruct (sameView_keeps b ev s (reachable_settled s Hr) Hb Hev) as (H1 & H2 & H3).
  destruct (IH (step ev s) (reach_step ev s Hr) H1 Hall) as (H4 & H5 & H6).
  rewrite run_cons. repeat split; congruence.
Qed.

(** X14. When an image item is given another source (after a shuffle),
    its state is reset and nothing is requested: the [img] element has no
    [src]. The new image is requested only when the observer reports a
    change: while the reported visibility stays what it was, also for an
    item inside the load window, [shouldLoad] stays off; it is set when the
    item enters the window (again). *)
Theorem image_with_new_source_waits_for_a_visibility_change s url :
  reachable s ->
  imageUrl s <> "" ->
  url <> imageUrl s ->
  let x := step (Source url) s in
  shouldLoad x = false /\ isLoaded x = false /\ renderedImg x = Img None
  /\ (forall evs, forallb (sameView (inView s)) evs = true ->
        shouldLoad (run evs x) = false)
  /\ shouldLoad (run [InView false; InView true] x) = true.
Proof.
  intros Hr Hne Hu x.
  assert (Hx : reachable x) by (apply reach_step, Hr).
  pose proof (reachable_settled s Hr) as (Hv & Hs & Href & Hsrc).
  assert (E : shouldLoad x = false /\ isLoaded x = false /\ isFailed x = false
              /\ inView x = inView s).
  { unfold x. destruct s as [ld fl sl rq sr u iv sv su]; cbn in *; subst.
    unfold step, commit, handle, loadEffect, sourceEffect; cbn.
    rewrite Bool.eqb_reflx.
    assert (E1 : String.eqb u url = false) by (apply String.eqb_neq; congruence).
    assert (E2 : String.eqb u "" = false) by (apply String.eqb_neq; exact Hne).
    rewrite E1. cbn. rewrite E2, E1. cbn. auto. }
  destruct E as (E1 & E2 & E3 & E4).
  split; [exact E1|]. split; [exact E2|].
  split; [unfold renderedImg; rewrite E3, E1; reflexivity|].
  split.
  - intros evs Hall.
    destruct (sameView_trace (inView s) evs x Hx E4 Hall) as (H1 & _ & _).
    congruence.
  - pose proof (reach_step (InView false) x Hx) as Hy.
    cbn [run fold_left].
    apply entering_requests; [apply reachable_settled, Hy|].
    destruct (commit_inputs (handle (InView false) x)) as [Hi _].
    exact Hi.
Qed.

Lemma image_with_new_source_waits_for_a_visibility_change_witness :
  let s := run [InView true; ImgLoad] (commit (mount "/images/a.jpg")) in
  let x := step (Source "/images/b.jpg") s in
  shouldLoad x = false /\ isLoaded x = false /\ renderedImg x = Img None
  /\ (forall evs, forallb (sameView (inView s)) evs = true ->
        shouldLoad (run evs x) = false)
  /\ shouldLoad (run [InView false; InView true] x) = true.
Proof.
  intros s.
  apply (image_with_new_source_waits_for_a_visibility_change s "/images/b.jpg").
  - unfold s. cbn [run fold_left]. apply reach_step, reach_step, reach_mount.
  - discriminate.
  - discriminate.
Defined.

Lemma failed_image_step ev s :
  settled s -> visibilityOnly ev = true -> isFailed s = true ->
  isFailed (step ev s) = true.
Proof.
  intros (Hv & Hu & Href & Hsrc) Hev Hf.
  destruct s as [ld fl sl rq sr url iv sv su]; cbn in *; subst.
  destruct ev as [b | url' | |]; try discriminate;
    unfold step, commit, handle, loadEffect, sourceEffect; cbn;
    rewrite ?String.eqb_refl; cbn.
  - destruct iv, b, sl; reflexivity.
  - rewrite Bool.eqb_reflx. reflexivity.
  - rewrite Bool.eqb_reflx. reflexivity.
Qed.

(** X15. An image that failed to load is not retried: through every
    sequence of visibility changes (and events of the element) it stays
    failed and its [img] element stays unmounted; the failure is cleared
    only by another source. *)
Theorem failed_image_is_not_retried s evs :
  reachable s ->
  isFailed s = true ->
  forallb visibilityOnly evs = true ->
  isFailed (run evs s) = true /\ renderedImg (run evs s) = NotMounted.
Proof.
  intros Hr Hf Hall.
  assert (H : isFailed (run evs s) = true).
  { revert s Hr Hf Hall. induction evs as [|ev evs IH]; intros s Hr Hf Hall; [exact Hf|].
    cbn in Hall. apply andb_true_iff in Hall as [Hev Hall].
    rewrite run_cons. apply IH; [apply reach_step, Hr | | exact Hall].
    apply failed_image_step; [apply reachable_settled, Hr | exact Hev | exact Hf]. }
  split; [exact H | unfold renderedImg; rewrite H; reflexivity].
Qed.

Lemma failed_image_is_not_retried_witness :
  let s := run [InView true; ImgError] (commit (mount "/images/a.jpg")) in
  isFailed (run [InView false; InView true] s) = true
  /\ renderedImg (run [InView false; InView true] s) = NotMounted.
Proof.
  intros s.
  apply (failed_image_is_not_retried s [InView false; InView true]).
  - unfold s. cbn [run fold_left]. apply reach_step, reach_step, reach_mount.
  - reflexivity.
  - reflexivity.
Defined.

End ImageItemRulesFacts.

(** ** [VideoItem]: clicks, autoplay, source changes, the unload timer *)

Module VideoItemRulesFacts.

Import VideoItem VideoItemCtl VideoItemFacts VideoItemRules.
Local Open Scope string_scope.



Lemma eqb_elim (a b : bool) : Bool.eqb a b = true -> a = b.
Proof. destruct a, b; cbn; congruence. Qed.

Lemma cLoaded_ctl m : cLoaded (ctl m) = isLoaded m. Proof. reflexivity. Qed.
Lemma cPlaying_ctl m : cPlaying (ctl m) = isPlaying m. Proof. reflexivity. Qed.
Lemma cFailed_ctl m : cFailed (ctl m) = isFailed m. Proof. reflexivity. Qed.
Lemma cLoading_ctl m : cLoading (ctl m) = isLoading m. Proof. reflexivity. Qed.
Lemma cPaused_ctl m : cPaused (ctl m) = paused m. Proof. reflexivity. Qed.
Lemma cAllowed_ctl m : cAllowed (ctl m) = playAllowed m. Proof. reflexivity. Qed.
Lemma cHl_ctl m : cHl (ctl m) = highlightModeEnabled (inputs m). Proof. reflexivity. Qed.
Lemma cAuto_ctl m : cAuto (ctl m) = autoplay (inputs m). Proof. reflexivity. Qed.
Lemma cInPlay_ctl m : cInPlay (ctl m) = inPlayView (inputs m). Proof. reflexivity. Qed.
Lemma cInLoad_ctl m : cInLoad (ctl m) = inLoadView (inputs m). Proof. reflexivity. Qed.
Lemma cRatio_ctl m :
  cRatio (ctl m) = JS.posQ (intersectionRatio (inputs m) - (1 # 10)).
Proof. reflexivity. Qed.
Lemma cAttached_ctl m :
  cAttached (ctl m) = match src m with Some _ => true | None => false end.
Proof. reflexivity. Qed.
Lemma cStale_ctl m :
  cStale (ctl m) = negb (String.eqb (srcRef m) "")
                   && negb (String.eqb (srcRef m) (videoUrl (inputs m))).
Proof. reflexivity. Qed.

Ltac to_item :=
  rewrite ?cLoaded_ctl, ?cPlaying_ctl, ?cFailed_ctl, ?cLoading_ctl, ?cPaused_ctl,
    ?cAllowed_ctl, ?cHl_ctl, ?cAuto_ctl, ?cInPlay_ctl, ?cInLoad_ctl, ?cRatio_ctl,
    ?cAttached_ctl, ?cStale_ctl.

Ltac to_item_in H :=
  rewrite ?cLoaded_ctl, ?cPlaying_ctl, ?cFailed_ctl, ?cLoading_ctl, ?cPaused_ctl,
    ?cAllowed_ctl, ?cHl_ctl, ?cAuto_ctl, ?cInPlay_ctl, ?cInLoad_ctl, ?cRatio_ctl,
    ?cAttached_ctl, ?cStale_ctl in H.






(** *** A new source *)

Lemma sourced_refl url m : sourced url m m.
Proof. left. split; [reflexivity | left; reflexivity]. Qed.

Lemma sourced_trans url a b c : sourced url a b -> sourced url b c -> sourced url a c.
Proof.
  unfold sourced. intros [[H1 H2] | [H1 H2]] [[H3 H4] | [H3 H4]].
  - left. split; [congruence|]. destruct H2, H4; [left | right | right | right]; congruence.
  - right. split; assumption.
  - right. split; [congruence|]. destruct H2, H4; [left | right | right | right]; congruence.
  - right. split; assumption.
Qed.

Lemma sourced_kept url m x : sourced url m x -> sourceKept m -> sourceKept x.
Proof.
  unfold sourced, sourceKept. intros [[H1 H2] | [H1 H2]] Hk u Hu.
  - destruct H2 as [H2 | H2]; [|congruence]. rewrite H1. apply Hk. congruence.
  - destruct H2 as [H2 | H2]; congruence.
Qed.

Ltac sourced_op :=
  reduce; split_tests; reduce;
  first [ left; split; [reflexivity | first [left; reflexivity | right; reflexivity]]
        | right; split; [reflexivity | first [left; reflexivity | right; reflexivity]] ].

Lemma clearTimeout_sourced url ref m : sourced url m (clearTimeout ref m).
Proof. left. split; [reflexivity | left; reflexivity]. Qed.

Lemma loadEffect_sourced r m : sourced (videoUrl (rendered r)) m (loadEffect r m).
Proof.
  destruct r as [ri [] [] [] []]; open_item m;
    unfold sourced, loadEffect, loadVideo, setTimeout, load; sourced_op.
Qed.

Lemma sourceEffect_sourced url r m : sourced url m (sourceEffect r m).
Proof. open_item m. unfold sourced, sourceEffect, pause, detachSource. sourced_op. Qed.

Lemma unloadEffect_sourced url r m : sourced url m (unloadEffect r m).
Proof. open_item m. unfold sourced, unloadEffect, setTimeout. sourced_op. Qed.

Lemma autoplayEffect_sourced url r m : sourced url m (autoplayEffect r m).
Proof. open_item m. unfold sourced, autoplayEffect, play, pause. sourced_op. Qed.

Lemma handleClick_sourced url r m : sourced url m (handleClick r m).
Proof. open_item m. unfold sourced, handleClick, play, pause. sourced_op. Qed.

Lemma handleError_sourced url msg m : sourced url m (handleError msg m).
Proof.
  open_item m. unfold sourced, handleError, clearLoadTimeout, clearTimeout. sourced_op.
Qed.

Lemma handleLoadedMetadata_sourced url m : sourced url m (handleLoadedMetadata m).
Proof.
  open_item m. unfold sourced, handleLoadedMetadata, clearLoadTimeout, clearTimeout.
  sourced_op.
Qed.

Lemma run_sourced url cb m : sourced url m (run cb m).
Proof.
  destruct cb; open_item m; unfold sourced, run, onLoadTimeout, onUnload, pause,
    detachSource; sourced_op.
Qed.

Lemma commitWith_sourced ch m :
  sourced (videoUrl (inputs m)) m (commitWith ch m).
Proof.
  unfold commitWith.
  match goal with
  | |- sourced ?u _ (set_seen ?s ?y) => change (sourced u m (set_seen s y)) with (sourced u m y)
  end.
  change (videoUrl (inputs m)) with (videoUrl (rendered (snapshot m))).
  destruct ch as [[] [] [] []]; cbn [runLoad runSource runUnload runAutoplay];
    repeat match goal with
           | |- sourced _ ?a ?a => apply sourced_refl
           | |- sourced _ _ (autoplayEffect _ _) =>
               eapply sourced_trans; [|apply autoplayEffect_sourced]
           | |- sourced _ _ (unloadEffect _ _) =>
               eapply sourced_trans; [|apply unloadEffect_sourced]
           | |- sourced _ _ (sourceEffect _ _) =>
               eapply sourced_trans; [|apply sourceEffect_sourced]
           | |- sourced _ _ (loadEffect _ _) =>
               eapply sourced_trans; [|apply loadEffect_sourced]
           | |- sourced _ _ (clearTimeout _ _) => apply clearTimeout_sourced
           end.
Qed.

Lemma settle_sourced fuel : forall m,
  sourced (videoUrl (inputs m)) m (settle fuel m).
Proof.
  induction fuel as [|fuel IH]; intros m; [apply sourced_refl|].
  cbn [settle]. unfold commit. destruct (needsRender _).
  - eapply sourced_trans; [apply commitWith_sourced|].
    rewrite <- (commitWith_inputs (rerun m) m). apply IH.
  - apply commitWith_sourced.
Qed.

Lemma handle_sourced url ev m : timed ev = false -> sourced url m (handle ev m).
Proof.
  destruct ev; try discriminate; intros _; cbn [handle];
    try (left; split; [reflexivity | left; reflexivity]).
  - apply handleClick_sourced.
  - apply handleLoadedMetadata_sourced.
  - apply handleError_sourced.
Qed.

Lemma step_sourced ev m :
  timed ev = false ->
  sourced (videoUrl (inputs (handle ev m))) m (step ev m).
Proof.
  intros Et.
  assert (E : step ev m = settle renders (handle ev m))
    by (destruct ev; try discriminate; reflexivity).
  rewrite E. eapply sourced_trans; [apply handle_sourced, Et | apply settle_sourced].
Qed.

Lemma fire_keeps_inputs t m : inputs (fire t m) = inputs m.
Proof.
  unfold fire. rewrite settle_inputs. rewrite (proj2 (run_frame _ _)). reflexivity.
Qed.

Lemma fire_sourceKept t m : sourceKept m -> sourceKept (fire t m).
Proof.
  intros H. unfold fire.
  eapply sourced_kept; [apply settle_sourced|].
  eapply sourced_kept; [apply (run_sourced ""%string)|].
  exact H.
Qed.

Lemma advanceTo_sourceKept fuel deadline : forall m,
  sourceKept m -> sourceKept (advanceTo fuel deadline m).
Proof.
  induction fuel as [|fuel IH]; intros m H; [exact H|].
  cbn [advanceTo]. destruct (nextDue deadline m) as [t|].
  - apply IH, fire_sourceKept, H.
  - exact H.
Qed.

Lemma step_sourceKept ev m : sourceKept m -> sourceKept (step ev m).
Proof.
  intros H. destruct (timed ev) eqn:Et.
  - destruct ev; try discriminate. cbn [step handle]. apply advanceTo_sourceKept, H.
  - eapply sourced_kept; [apply (step_sourced ev m Et) | exact H].
Qed.

Lemma reachable_sourceKept m : reachable m -> sourceKept m.
Proof.
  induction 1 as [url auto highlight muted w i allowed t | ev m _ IH].
  - unfold mount. eapply sourced_kept; [apply settle_sourced|].
    intros u Hu. discriminate Hu.
  - apply step_sourceKept, IH.
Qed.

Lemma reloads_checked :
  forallCtl (fun c => forallEvent (fun a => reloads a c (astep a c))) = true.
Proof. vm_compute. reflexivity. Qed.

Lemma reloads_elim c c' :
  reloads (ASource true true) c c' = true ->
  cLoaded c' = false /\ cFailed c' = false
  /\ cLoading c' = cInLoad c /\ cAttached c' = cInLoad c
  /\ (cInLoad c = true -> cStale c' = false).
Proof.
  unfold reloads. intros H.
  apply andb_true_iff in H as [H H7]. apply andb_true_iff in H as [H H6].
  apply andb_true_iff in H as [H H5]. apply andb_true_iff in H as [H1 H2].
  apply negb_true_iff in H1, H2. apply eqb_elim in H5, H6.
  repeat split; try assumption.
  intros Hi. rewrite Hi in H7. apply negb_true_iff in H7. exact H7.
Qed.

Lemma source_ctl m url :
  settled m ->
  String.eqb (videoUrl (inputs m)) url = false ->
  String.eqb (srcRef m) "" = false ->
  String.eqb (srcRef m) url = false ->
  reloads (ASource true true) (ctl m) (ctl (step (Source url) m)) = true.
Proof.
  intros Hs H1 H2 H3.
  pose proof (any_step reloads reloads_checked (Source url) m Hs eq_refl) as H.
  unfold abstraction in H. rewrite H1, H2, H3 in H. exact H.
Qed.

(** X12. When the slot is given another video, an item that had a source
    starts over, whatever state it had settled in: it is no longer loaded
    or failed; inside the load window it is loading the new URL, which is
    the [src] of the element; outside it the element has no [src] and
    nothing is loading. *)
Theorem new_source_restarts_the_item m url :
  settled m -> sourceKept m ->
  videoUrl (inputs m) <> url ->
  srcRef m <> "" ->
  srcRef m <> url ->
  let x := step (Source url) m in
  isLoaded x = false /\ isFailed x = false
  /\ isLoading x = inLoadView (inputs m)
  /\ src x = (if inLoadView (inputs m) then Some url else None).
Proof.
  intros Hst Hkm H1 H2 H3. cbv zeta.
  apply String.eqb_neq in H1, H2, H3.
  destruct (reloads_elim _ _ (source_ctl m url Hst H1 H2 H3))
    as [C1 [C2 [C5 [C6 C7]]]].
  pose proof (step_sourced (Source url) m eq_refl) as Hs.
  pose proof (step_sourceKept (Source url) m Hkm) as Hk.
  assert (Hu : videoUrl (inputs (step (Source url) m)) = url).
  { assert (E : step (Source url) m = settle renders (handle (Source url) m))
      by reflexivity.
    rewrite E, settle_inputs. reflexivity. }
  change (videoUrl (inputs (handle (Source url) m))) with url in Hs.
  remember (step (Source url) m) as x eqn:Ex. clear Ex.
  to_item_in C1. to_item_in C2. to_item_in C5.
  to_item_in C6. rewrite cInLoad_ctl in C7.
  repeat (split; [assumption|]).
  destruct (inLoadView (inputs m)).
  - specialize (C7 eq_refl). rewrite cStale_ctl, Hu in C7.
    destruct (src x) as [u|] eqn:Eu; [|discriminate C6].
    rewrite (Hk u Eu).
    destruct Hs as [[Hs _] | [Hs _]]; [|rewrite Hs; reflexivity].
    rewrite Hs in C7. rewrite H2, H3 in C7. discriminate C7.
  - destruct (src x); [discriminate C6 | reflexivity].
Qed.

Lemma new_source_restarts_the_item_witness :
  let x := step (Source "/videos/b.mp4") playing in
  isLoaded playing = true
  /\ isLoaded x = false /\ isFailed x = false
  /\ isLoading x = true
  /\ src x = Some "/videos/b.mp4".
Proof.
  intros x. split; [reflexivity|].
  apply (new_source_restarts_the_item playing "/videos/b.mp4").
  - reflexivity.
  - intros u Hu. vm_compute in Hu. injection Hu as <-. reflexivity.
  - intros H; vm_compute in H; discriminate H.
  - intros H; vm_compute in H; discriminate H.
  - intros H; vm_compute in H; discriminate H.
Defined.

(** *** The unload timer *)

Lemma unload_timers_unique uc l :
  Forall (okTimer uc) l -> NoDup (map id l) ->
  (List.length (filter isUnload l) <= 1)%nat.
Proof.
  induction l as [|t l IH]; intros Hok Hn; [cbn; lia|].
  inversion Hok as [|? ? Ht Hl]; subst. inversion Hn as [|? ? Hnot Hn']; subst.
  cbn [filter]. destruct (isUnload t) eqn:Eu; [|apply IH; assumption].
  assert (Hnone : filter isUnload l = []).
  { destruct (filter isUnload l) as [|u r] eqn:Ef; [reflexivity|]. exfalso.
    assert (Hu : In u (filter isUnload l)) by (rewrite Ef; left; reflexivity).
    apply filter_In in Hu. destruct Hu as [Hin Hisu].
    rewrite Forall_forall in Hl. pose proof (Hl u Hin) as Hou.
    unfold okTimer, isUnload in *.
    destruct (action t); [discriminate|]. destruct (action u); [discriminate|].
    destruct Ht as [_ Ht]. destruct Hou as [_ Hou].
    apply Hnot. assert (E : id t = id u) by congruence.
    rewrite E. apply in_map. exact Hin. }
  rewrite Hnone. cbn. lia.
Qed.

(** X13. At most one unload timer is pending at any time: every pending
    unload timer is the one the clean-up of the unload effect will clear,
    so a new one is set only after the old one was cleared or has fired. *)
Theorem at_most_one_unload_timer_is_pending m :
  reachable m ->
  (List.length (filter isUnload (timers m)) <= 1)%nat
  /\ forall t, In t (timers m) -> isUnload t = true -> unloadCleanup m = Some (id t).
Proof.
  intros Hr. pose proof (reachable_Inv m Hr) as HI.
  destruct (inv_timers m HI) as [Hok _]. destruct (inv_ids m HI) as [Hn _].
  split; [apply (unload_timers_unique (unloadCleanup m)); assumption|].
  intros t Ht Hu. unfold okTimers in Hok. rewrite Forall_forall in Hok.
  specialize (Hok t Ht). unfold okTimer, isUnload in *.
  destruct (action t); [discriminate | apply Hok].
Qed.

Lemma at_most_one_unload_timer_is_pending_witness :
  let m := trace [LoadView false; LoadView true; LoadView false] playing in
  (List.length (filter isUnload (timers m)) <= 1)%nat
  /\ forall t, In t (timers m) -> isUnload t = true -> unloadCleanup m = Some (id t).
Proof.
  intros m.
  apply (at_most_one_unload_timer_is_pending m).
  apply trace_reachable, playing_reachable.
Defined.

Example one_unload_timer_after_leaving_twice :
  map isUnload (timers (trace [LoadView false; LoadView true; LoadView false] playing))
  = [true].
Proof. vm_compute. reflexivity. Qed.

End VideoItemRulesFacts.

(** ** Facts about the settings and their storage *)

Module SettingsFacts.

Import JS Settings SettingsInv.
Local Open Scope string_scope.

(** *** Property lists *)

Lemma lookup_assign k k' v ps :
  lookup k (assign k' v ps) = if String.eqb k k' then v else lookup k ps.
Proof.
  induction ps as [|[k0 v0] ps IH]; simpl.
  - reflexivity.
  - destruct (String.eqb k' k0) eqn:E; simpl.
    + apply String.eqb_eq in E. subst k0.
      destruct (String.eqb k k'); reflexivity.
    + rewrite IH. destruct (String.eqb k k0) eqn:E0; [|reflexivity].
      apply String.eqb_eq in E0. subst k0.
      rewrite String.eqb_sym, E. reflexivity.
Qed.

Lemma keys_assign k0 k v ps :
  In k0 (keys (assign k v ps)) <-> k0 = k \/ In k0 (keys ps).
Proof.
  induction ps as [|[k1 v1] ps IH]; simpl.
  - intuition.
  - destruct (String.eqb k k1) eqn:E; simpl.
    + apply String.eqb_eq in E. subst k1. intuition.
    + rewrite IH. intuition.
Qed.

Lemma NoDup_assign k v ps : NoDup (keys ps) -> NoDup (keys (assign k v ps)).
Proof.
  induction ps as [|[k1 v1] ps IH]; simpl; intros H.
  - constructor; [intros []|constructor].
  - inversion H as [|? ? Hn Hd]; subst.
    destruct (String.eqb k k1) eqn:E; simpl.
    + apply String.eqb_eq in E. subst k1. constructor; assumption.
    + constructor; [|apply IH; exact Hd].
      intros Hin. apply keys_assign in Hin. destruct Hin as [->|Hin].
      * rewrite String.eqb_refl in E. discriminate.
      * exact (Hn Hin).
Qed.

Lemma plain_assign k v ps :
  plain v = true -> plainProps ps -> plainProps (assign k v ps).
Proof.
  intros Hv. induction ps as [|[k1 v1] ps IH]; simpl; intros H.
  - constructor; [exact Hv|constructor].
  - inversion H as [|? ? H1 H2]; subst.
    destruct (String.eqb k k1); constructor;
      [exact Hv|exact H2|exact H1|exact (IH H2)].
Qed.

Lemma lookup_absent k ps : ~ In k (keys ps) -> lookup k ps = JUndefined.
Proof.
  induction ps as [|[k1 v1] ps IH]; simpl; intros H; [reflexivity|].
  destruct (String.eqb k k1) eqn:E.
  - apply String.eqb_eq in E. subst. exfalso. apply H. left. reflexivity.
  - apply IH. intros Hin. apply H. right. exact Hin.
Qed.

Lemma lookup_present k ps :
  plainProps ps -> In k (keys ps) -> plain (lookup k ps) = true.
Proof.
  induction ps as [|[k1 v1] ps IH]; simpl; intros H Hin; [destruct Hin|].
  inversion H as [|? ? H1 H2]; subst. simpl in H1.
  destruct (String.eqb k k1) eqn:E; [exact H1|].
  destruct Hin as [->|Hin]; [rewrite String.eqb_refl in E; discriminate|].
  apply IH; assumption.
Qed.

Lemma lookup_plain_or_absent k ps :
  plainProps ps -> lookup k ps = JUndefined \/ plain (lookup k ps) = true.
Proof.
  intros H. destruct (in_dec string_dec k (keys ps)) as [Hin|Hn].
  - right. apply lookup_present; assumption.
  - left. apply lookup_absent. exact Hn.
Qed.

Lemma plain_defined v : plain v = true -> v <> JUndefined /\ jsonValue v = v.
Proof. destruct v; simpl; intros H; try discriminate; split; congruence. Qed.

Lemma jsonProps_plain ps : plainProps ps -> jsonProps ps = ps.
Proof.
  induction ps as [|[k v] ps IH]; simpl; intros H; [reflexivity|].
  inversion H as [|? ? H1 H2]; subst. simpl in H1.
  rewrite (IH H2). destruct v; simpl in *; try discriminate; reflexivity.
Qed.

Lemma lookup_jsonProps k ps :
  lookup k ps <> JUndefined -> lookup k (jsonProps ps) = jsonValue (lookup k ps).
Proof.
  induction ps as [|[k1 v1] ps IH]; simpl; intros H; [congruence|].
  destruct (String.eqb k k1) eqn:E.
  - destruct v1; simpl; rewrite ?E; try reflexivity. congruence.
  - destruct v1; simpl; rewrite ?E; apply IH; exact H.
Qed.

(** [{ ...a, ...b }] on the property lists. *)
Lemma keys_spread k b : forall a,
  In k (keys (fold_left (fun acc kv => assign (fst kv) (snd kv) acc) b a))
  <-> In k (keys a) \/ In k (keys b).
Proof.
  induction b as [|[k1 v1] b IH]; simpl; intros a.
  - intuition.
  - rewrite IH, keys_assign. intuition.
Qed.

Lemma NoDup_spread b : forall a,
  NoDup (keys a) ->
  NoDup (keys (fold_left (fun acc kv => assign (fst kv) (snd kv) acc) b a)).
Proof.
  induction b as [|[k1 v1] b IH]; simpl; intros a H; [exact H|].
  apply IH, NoDup_assign, H.
Qed.

Lemma plain_spread b : forall a,
  plainProps a -> plainProps b ->
  plainProps (fold_left (fun acc kv => assign (fst kv) (snd kv) acc) b a).
Proof.
  induction b as [|[k1 v1] b IH]; simpl; intros a Ha Hb; [exact Ha|].
  inversion Hb as [|? ? H1 H2]; subst.
  apply IH; [apply plain_assign; assumption|exact H2].
Qed.

Lemma lookup_spread k b : forall a,
  NoDup (keys b) ->
  lookup k (fold_left (fun acc kv => assign (fst kv) (snd kv) acc) b a)
  = if in_dec string_dec k (keys b) then lookup k b else lookup k a.
Proof.
  induction b as [|[k1 v1] b IH]; intros a H.
  - reflexivity.
  - inversion H as [|? ? Hn Hd]; subst.
    cbn [fold_left fst snd]. rewrite (IH _ Hd), lookup_assign.
    cbn [lookup]. destruct (String.eqb k k1) eqn:E.
    + apply String.eqb_eq in E. subst k1.
      destruct (in_dec string_dec k (keys b)) as [Hin|_]; [destruct (Hn Hin)|].
      destruct (in_dec string_dec k (keys ((k, v1) :: b))) as [_|Hx]; [reflexivity|].
      exfalso. apply Hx. left. reflexivity.
    + destruct (in_dec string_dec k (keys b)) as [Hin|Hn'];
        destruct (in_dec string_dec k (keys ((k1, v1) :: b))) as [Hy|Hy];
        try reflexivity.
      * exfalso. apply Hy. right. exact Hin.
      * destruct Hy as [Hy|Hy]; [|destruct (Hn' Hy)].
        simpl in Hy. subst k1. rewrite String.eqb_refl in E. discriminate.
Qed.

(** *** Well-formed objects *)

Lemma wellFormed_set k v o :
  In k knownKeys -> plain v = true -> wellFormed o -> wellFormed (set k v o).
Proof.
  intros Hk Hv (Hp & Hn & Hi). unfold set. repeat split; cbn [scalars].
  - apply plain_assign; assumption.
  - apply NoDup_assign, Hn.
  - intros x Hx. apply keys_assign in Hx.
    destruct Hx as [->|Hx]; [exact Hk|exact (Hi _ Hx)].
Qed.

Lemma wellFormed_spread a b :
  wellFormed a -> wellFormed b -> wellFormed (spread a b).
Proof.
  intros (Hp & Hn & Hi) (Hp' & Hn' & Hi'). unfold spread.
  repeat split; cbn [scalars].
  - apply plain_spread; assumption.
  - apply NoDup_spread, Hn.
  - intros x Hx. apply keys_spread in Hx. destruct Hx; auto.
Qed.

Lemma json_wellFormed o : wellFormed o -> json o = o.
Proof.
  intros (Hp & _). unfold json. rewrite (jsonProps_plain _ Hp).
  destruct o; reflexivity.
Qed.

Lemma wellFormed_nil t : wellFormed {| scalars := []; selectedTags := t |}.
Proof.
  repeat split; cbn [scalars keys map].
  - constructor.
  - constructor.
  - intros x [].
Qed.

Lemma wellFormed_override k v :
  In k knownKeys -> plain v = true -> wellFormed (override k v).
Proof.
  intros Hk Hv. repeat split; cbn [override scalars keys map fst].
  - constructor; [exact Hv|constructor].
  - constructor; [intros []|constructor].
  - intros x [<-|[]]. exact Hk.
Qed.

Ltac distinct_strings :=
  repeat (constructor; [simpl; intuition discriminate|]); constructor.

Lemma incl_strings (l m : list string) :
  forallb (fun k => existsb (String.eqb k) m) l = true -> incl l m.
Proof.
  intros H x Hx. rewrite forallb_forall in H. specialize (H x Hx).
  apply existsb_exists in H. destruct H as (y & Hy & E).
  apply String.eqb_eq in E. subst. exact Hy.
Qed.

Lemma plain_props ps :
  forallb (fun kv => plain (snd kv)) ps = true -> plainProps ps.
Proof.
  intros H. apply Forall_forall. intros x Hx.
  rewrite forallb_forall in H. exact (H x Hx).
Qed.

Lemma wellFormed_initialSettings : wellFormed initialSettings.
Proof.
  repeat split.
  - apply plain_props. reflexivity.
  - cbn [initialSettings defaultSettings scalars keys map fst]. distinct_strings.
  - apply incl_strings. reflexivity.
Qed.

Lemma wellFormed_defaultSettings : wellFormed defaultSettings.
Proof.
  repeat split.
  - apply plain_props. reflexivity.
  - cbn [initialSettings defaultSettings scalars keys map fst]. distinct_strings.
  - apply incl_strings. reflexivity.
Qed.

Lemma known_key k :
  existsb (String.eqb k) knownKeys = true -> In k knownKeys.
Proof.
  intros H. apply existsb_exists in H. destruct H as (y & Hy & E).
  apply String.eqb_eq in E. subst. exact Hy.
Qed.

Lemma panel_key k :
  existsb (String.eqb k) panelKeys = true ->
  In k knownKeys /\ ~ In k stateKeys.
Proof.
  intros H. apply existsb_exists in H. destruct H as (y & Hy & E).
  apply String.eqb_eq in E. subst y. split.
  - unfold knownKeys. apply in_or_app. left. exact Hy.
  - intros Hs. unfold panelKeys in Hy. unfold stateKeys in Hs.
    simpl in Hy, Hs.
    repeat (destruct Hy as [<-|Hy]; [intuition discriminate|]).
    exact Hy.
Qed.

(** *** The invariant [Good] *)

Lemma wellFormed_settingsToSave r ov :
  Good r -> wellFormed ov -> wellFormed (settingsToSave r ov).
Proof.
  intros (Hs & Hh & Hm & _) Hov. unfold settingsToSave.
  apply wellFormed_spread; [|exact Hov].
  repeat (apply wellFormed_set; [apply known_key; reflexivity| |]);
    try reflexivity; assumption.
Qed.

Ltac good :=
  unfold Good; cbn [settings highlightModeEnabled musicEnabled storage];
  split; [|split; [|split]].

Lemma Good_saveCurrentSettings r ov a :
  Good r -> wellFormed ov -> Good a -> Good (saveCurrentSettings r ov a).
Proof.
  intros Hr Hov (Hs & Hh & Hm & Hst). unfold saveCurrentSettings, set_storage.
  good; try assumption.
  intros st E. injection E as <-.
  pose proof (wellFormed_settingsToSave r ov Hr Hov) as W.
  rewrite (json_wellFormed _ W). exact W.
Qed.

Lemma Good_updateSetting k v a :
  In k knownKeys -> plain v = true -> Good a -> Good (updateSetting k v a).
Proof.
  intros Hk Hv Ha. unfold updateSetting.
  apply Good_saveCurrentSettings; [exact Ha|apply wellFormed_override; assumption|].
  destruct Ha as (Hs & Hh & Hm & Hst). unfold set_settings.
  good; try assumption. apply wellFormed_set; assumption.
Qed.

Lemma Good_fresh st :
  (forall x, st = Some x -> wellFormed x) -> Good (fresh st).
Proof.
  intros H. unfold fresh.
  good; try reflexivity; try exact H. apply wellFormed_initialSettings.
Qed.

Lemma Good_reload a : Good a -> Good (reload a).
Proof.
  intros (Hs & Hh & Hm & Hst). unfold reload, loadSettings.
  cbn [fresh storage settings currentTrackIndex].
  destruct (storage a) as [st|] eqn:E.
  - pose proof (Hst st eq_refl) as W. good.
    + apply wellFormed_spread; [apply wellFormed_initialSettings|exact W].
    + destruct W as (Wp & _).
      destruct (lookup_plain_or_absent "highlightMode" _ Wp) as [U|P].
      * cbv zeta. rewrite U. reflexivity.
      * cbv zeta. destruct (truthy _); [exact P|reflexivity].
    + destruct W as (Wp & _).
      destruct (lookup_plain_or_absent "musicEnabled" _ Wp) as [U|P].
      * rewrite U. reflexivity.
      * destruct (lookup "musicEnabled" (scalars st)); try discriminate; reflexivity.
    + intros x Ex. injection Ex as <-. exact W.
  - unfold set_controlsCollapsed.
    good; try reflexivity; try discriminate. apply wellFormed_initialSettings.
Qed.

Lemma step_Good ev a : fromPanel ev = true -> Good a -> Good (step ev a).
Proof.
  intros Hev Ha. destruct ev; cbn [step].
  - cbn [fromPanel] in Hev. apply andb_prop in Hev. destruct Hev as [Hk Hv].
    apply Good_updateSetting; [apply (panel_key _ Hk)|exact Hv|exact Ha].
  - unfold updateTags.
    apply Good_saveCurrentSettings; [exact Ha|apply wellFormed_nil|].
    destruct Ha as (Hs & Hh & Hm & Hst). unfold set_settings.
    good; assumption.
  - unfold toggleMuteAll.
    apply Good_updateSetting; [apply known_key; reflexivity|reflexivity|exact Ha].
  - destruct Ha as (Hs & Hh & Hm & Hst). unfold set_highlightModeEnabled.
    good; try assumption; reflexivity.
  - unfold toggleMusic.
    apply Good_saveCurrentSettings; [exact Ha|apply wellFormed_nil|].
    destruct Ha as (Hs & Hh & Hm & Hst). unfold set_musicEnabled.
    good; try assumption; reflexivity.
  - unfold musicStarted.
    apply Good_saveCurrentSettings; [exact Ha|apply wellFormed_nil|exact Ha].
  - unfold toggleControls.
    apply Good_saveCurrentSettings;
      [exact Ha|apply wellFormed_override; [apply known_key|]; reflexivity|].
    destruct Ha as (Hs & Hh & Hm & Hst). unfold set_controlsCollapsed.
    good; assumption.
  - unfold handleMusicTrackChange.
    apply Good_saveCurrentSettings;
      [exact Ha|apply wellFormed_override; [apply known_key|]; reflexivity|].
    destruct Ha as (Hs & Hh & Hm & Hst). unfold set_currentTrackIndex.
    good; assumption.
  - destruct Ha as (Hs & Hh & Hm & Hst). unfold set_currentTrackIndex.
    good; assumption.
  - unfold resetToDefaults.
    good; try reflexivity; try discriminate. apply wellFormed_defaultSettings.
  - apply Good_reload, Ha.
Qed.

Lemma Good_firstVisit : Good firstVisit.
Proof. apply Good_reload, Good_fresh. discriminate. Qed.

Lemma run_Good evs : forall a,
  forallb fromPanel evs = true -> Good a -> Good (run evs a).
Proof.
  induction evs as [|ev evs IH]; intros a H Ha; [exact Ha|].
  cbn [forallb] in H. apply andb_prop in H. destruct H as [H1 H2].
  cbn [run fold_left]. apply (IH _ H2). apply step_Good; assumption.
Qed.

Lemma unread_key a k :
  Good a -> ~ In k knownKeys -> field (view (settings a)) k = JUndefined.
Proof.
  intros ((_ & _ & Hi) & _) Hk. cbn [view field].
  apply lookup_absent. intros H. exact (Hk (Hi _ H)).
Qed.

Lemma unknown_key k :
  existsb (String.eqb k) knownKeys = false -> ~ In k knownKeys.
Proof.
  intros H Hin. apply Bool.not_true_iff_false in H. apply H.
  apply existsb_exists. exists k. split; [exact Hin|apply String.eqb_refl].
Qed.

(** *** The invariant [Stored] *)

Lemma not_state k :
  ~ In k stateKeys ->
  String.eqb k "controlsCollapsed" = false
  /\ String.eqb k "highlightMode" = false
  /\ String.eqb k "musicEnabled" = false
  /\ String.eqb k "currentTrackIndex" = false.
Proof.
  intros H. repeat split; apply String.eqb_neq; intros ->; apply H;
    simpl; tauto.
Qed.

Lemma saved_scalars_nil r t :
  scalars (settingsToSave r {| scalars := []; selectedTags := t |})
  = assign "currentTrackIndex" (JNum (inject_Z (Z.of_nat (currentTrackIndex r))))
      (assign "musicEnabled" (musicEnabled r)
         (assign "highlightMode" (highlightModeEnabled r)
            (assign "controlsCollapsed" (JBool (controlsCollapsed r))
               (scalars (settings r))))).
Proof. reflexivity. Qed.

Lemma saved_scalars_override r k v :
  scalars (settingsToSave r (override k v))
  = assign k v (scalars (settingsToSave r noOverrides)).
Proof. reflexivity. Qed.

Lemma lookup_saved_other r t k :
  ~ In k stateKeys ->
  lookup k (scalars (settingsToSave r {| scalars := []; selectedTags := t |}))
  = lookup k (scalars (settings r)).
Proof.
  intros H. rewrite saved_scalars_nil, !lookup_assign.
  destruct (not_state k H) as (-> & -> & -> & ->). reflexivity.
Qed.

Lemma lookup_saved_controls r t :
  lookup "controlsCollapsed"
         (scalars (settingsToSave r {| scalars := []; selectedTags := t |}))
  = JBool (controlsCollapsed r).
Proof. rewrite saved_scalars_nil, !lookup_assign. reflexivity. Qed.

Lemma lookup_saved_music r t :
  lookup "musicEnabled"
         (scalars (settingsToSave r {| scalars := []; selectedTags := t |}))
  = musicEnabled r.
Proof. rewrite saved_scalars_nil, !lookup_assign. reflexivity. Qed.

Lemma Stored_after r ov a1 :
  Good r -> wellFormed ov ->
  (forall k, In k (keys (scalars initialSettings)) ->
             In k (keys (scalars (settings a1)))) ->
  selectedTags (settings a1) <> None ->
  (forall k, ~ In k stateKeys ->
             lookup k (scalars (settingsToSave r ov))
             = lookup k (scalars (settings a1))) ->
  selectedTags (settingsToSave r ov) = selectedTags (settings a1) ->
  lookup "controlsCollapsed" (scalars (settingsToSave r ov))
  = JBool (controlsCollapsed a1) ->
  Stored (saveCurrentSettings r ov a1).
Proof.
  intros Hr Hov H1 H2 H3 H4 H5.
  unfold Stored, saveCurrentSettings, set_storage.
  cbn [settings storage controlsCollapsed].
  rewrite (json_wellFormed _ (wellFormed_settingsToSave r ov Hr Hov)).
  split; [exact H1|]. split; [exact H2|]. split; [exact H3|].
  split; [exact H4|exact H5].
Qed.

Lemma Stored_updateSetting k v a :
  ~ In k stateKeys -> In k knownKeys -> plain v = true ->
  Good a -> Stored a -> Stored (updateSetting k v a).
Proof.
  intros Hk Hn Hv Ha (I1 & I5 & _). unfold updateSetting.
  apply Stored_after; cbn [set_settings settings controlsCollapsed set scalars
                           selectedTags].
  - exact Ha.
  - apply wellFormed_override; assumption.
  - intros x Hx. apply keys_assign. right. exact (I1 _ Hx).
  - exact I5.
  - intros x Hx. rewrite saved_scalars_override, !lookup_assign.
    destruct (String.eqb x k); [reflexivity|].
    apply lookup_saved_other. exact Hx.
  - reflexivity.
  - rewrite saved_scalars_override, lookup_assign.
    destruct (not_state k Hk) as (E & _). rewrite String.eqb_sym, E.
    apply lookup_saved_controls.
Qed.

Lemma storage_reload a : storage (reload a) = storage a.
Proof.
  unfold reload, loadSettings. cbn [fresh storage].
  destruct (storage a); reflexivity.
Qed.

Lemma reload_agrees a :
  Good a -> Stored a ->
  (forall k, ~ In k stateKeys ->
             lookup k (scalars (settings (reload a)))
             = lookup k (scalars (settings a)))
  /\ selectedTags (settings (reload a)) = selectedTags (settings a)
  /\ controlsCollapsed (reload a) = controlsCollapsed a.
Proof.
  intros (Hs & _ & _ & Hst) (I1 & I5 & I3). unfold reload, loadSettings.
  cbn [fresh storage]. destruct (storage a) as [st|] eqn:E.
  - destruct I3 as (Hl & Ht & Hc). destruct (Hst st eq_refl) as (Wp & Wn & _).
    cbn [settings controlsCollapsed spread scalars selectedTags].
    split; [|split].
    + intros k Hk. rewrite (lookup_spread _ _ _ Wn).
      destruct (in_dec string_dec k (keys (scalars st))) as [Hin|Hout].
      * apply Hl, Hk.
      * pose proof (lookup_absent _ _ Hout) as U. rewrite (Hl _ Hk) in U.
        rewrite U. apply lookup_absent. intros Hi.
        pose proof (lookup_present k _ (proj1 Hs) (I1 _ Hi)) as P.
        rewrite U in P. discriminate P.
    + rewrite Ht. destruct (selectedTags (settings a)); [reflexivity|].
      exfalso. apply I5. reflexivity.
    + rewrite Hc. destruct (controlsCollapsed a); reflexivity.
  - destruct I3 as (-> & ->). cbn. repeat split; reflexivity.
Qed.

Lemma Stored_reload a : Good a -> Stored a -> Stored (reload a).
Proof.
  intros Ha Hs. destruct (reload_agrees a Ha Hs) as (R1 & R2 & R3).
  destruct Hs as (I1 & I5 & I3). unfold Stored.
  rewrite storage_reload. split; [|split].
  - intros k Hk. unfold reload, loadSettings. cbn [fresh storage].
    destruct (storage a) as [st|].
    + cbn [settings spread scalars]. apply keys_spread. left. exact Hk.
    + exact Hk.
  - rewrite R2. exact I5.
  - destruct (storage a) as [st|] eqn:E.
    + destruct I3 as (Hl & Ht & Hc). split; [|split].
      * intros k Hk. rewrite (R1 _ Hk). apply Hl, Hk.
      * rewrite R2. exact Ht.
      * rewrite R3. exact Hc.
    + unfold reload, loadSettings. cbn [fresh storage]. rewrite E.
      split; reflexivity.
Qed.

Lemma step_Stored ev a :
  fromPanel ev = true -> keepsDefaults ev = true ->
  Good a -> Stored a -> Stored (step ev a).
Proof.
  intros Hev Hk Ha Hs. destruct ev; cbn [step].
  - cbn [fromPanel] in Hev. apply andb_prop in Hev. destruct Hev as [Hp Hv].
    destruct (panel_key _ Hp) as [K1 K2].
    apply Stored_updateSetting; assumption.
  - destruct Hs as (I1 & I5 & _). unfold updateTags.
    apply Stored_after; cbn [set_settings settings controlsCollapsed setTags
                             scalars selectedTags].
    + exact Ha.
    + apply wellFormed_nil.
    + exact I1.
    + discriminate.
    + intros x Hx. apply lookup_saved_other. exact Hx.
    + reflexivity.
    + apply lookup_saved_controls.
  - unfold toggleMuteAll.
    apply Stored_updateSetting; [| |reflexivity|exact Ha|exact Hs].
    + simpl. intuition discriminate.
    + apply known_key. reflexivity.
  - exact Hs.
  - destruct Hs as (I1 & I5 & _). unfold toggleMusic.
    apply Stored_after; cbn [set_musicEnabled settings controlsCollapsed].
    + exact Ha.
    + apply wellFormed_nil.
    + exact I1.
    + exact I5.
    + intros x Hx. apply lookup_saved_other. exact Hx.
    + reflexivity.
    + apply lookup_saved_controls.
  - destruct Hs as (I1 & I5 & _). unfold musicStarted.
    apply Stored_after.
    + exact Ha.
    + apply wellFormed_nil.
    + exact I1.
    + exact I5.
    + intros x Hx. apply lookup_saved_other. exact Hx.
    + reflexivity.
    + apply lookup_saved_controls.
  - destruct Hs as (I1 & I5 & _). unfold toggleControls.
    apply Stored_after; cbn [set_controlsCollapsed settings controlsCollapsed].
    + exact Ha.
    + apply wellFormed_override; [apply known_key|]; reflexivity.
    + exact I1.
    + exact I5.
    + intros x Hx. rewrite saved_scalars_override, lookup_assign.
      destruct (not_state x Hx) as (-> & _).
      apply lookup_saved_other. exact Hx.
    + reflexivity.
    + rewrite saved_scalars_override, lookup_assign. reflexivity.
  - destruct Hs as (I1 & I5 & _). unfold handleMusicTrackChange.
    apply Stored_after; cbn [set_currentTrackIndex settings controlsCollapsed].
    + exact Ha.
    + apply wellFormed_override; [apply known_key|]; reflexivity.
    + exact I1.
    + exact I5.
    + intros x Hx. rewrite saved_scalars_override, lookup_assign.
      destruct (not_state x Hx) as (_ & _ & _ & ->).
      apply lookup_saved_other. exact Hx.
    + reflexivity.
    + rewrite saved_scalars_override, lookup_assign.
      apply lookup_saved_controls.
  - exact Hs.
  - discriminate Hk.
  - apply Stored_reload; assumption.
Qed.

Lemma Stored_firstVisit : Stored firstVisit.
Proof.
  unfold firstVisit. cbn. split; [|split].
  - intros k Hk. exact Hk.
  - discriminate.
  - split; reflexivity.
Qed.

Lemma run_Stored evs : forall a,
  forallb fromPanel evs = true -> forallb keepsDefaults evs = true ->
  Good a -> Stored a -> Good (run evs a) /\ Stored (run evs a).
Proof.
  induction evs as [|ev evs IH]; intros a H K Ha Hs; [split; assumption|].
  cbn [forallb] in H, K. apply andb_prop in H. apply andb_prop in K.
  destruct H as [H1 H2]. destruct K as [K1 K2].
  cbn [run fold_left]. apply (IH _ H2 K2).
  - apply step_Good; assumption.
  - apply step_Stored; assumption.
Qed.

(** *** The track index *)

Lemma parseInt_index n :
  (Z.of_nat n < 10 ^ 21)%Z ->
  parseInt (JNum (inject_Z (Z.of_nat n))) = Returns (Some (Z.of_nat n)).
Proof.
  intros H. unfold parseInt.
  assert (P : plain_decimal (inject_Z (Z.of_nat n)) = true).
  { unfold plain_decimal. destruct n as [|n]; [reflexivity|].
    apply Bool.orb_true_iff. right. apply andb_true_intro.
    assert (Hz : (0 < Z.of_nat (S n))%Z) by lia.
    remember (Z.of_nat (S n)) as z eqn:Ez. clear Ez.
    change (Qabs (inject_Z z)) with (inject_Z (Z.abs z)).
    rewrite Z.abs_eq by lia. split.
    - apply Qle_bool_iff. unfold Qle. cbn. lia.
    - apply Bool.negb_true_iff. apply Bool.not_true_iff_false. intros L.
      apply Qle_bool_iff in L. rewrite <- Zle_Qle in L. lia. }
  rewrite P. unfold Qtrunc.
  assert (L : Qle_bool 0 (inject_Z (Z.of_nat n)) = true).
  { apply Qle_bool_iff. change 0%Q with (inject_Z 0). rewrite <- Zle_Qle. lia. }
  rewrite L, Qfloor_Z. reflexivity.
Qed.

Lemma stored_track n a :
  exists st,
    storage (handleMusicTrackChange n a) = Some st
    /\ lookup "currentTrackIndex" (scalars st)
       = JNum (inject_Z (Z.of_nat n)).
Proof.
  unfold handleMusicTrackChange, saveCurrentSettings, set_storage.
  cbn [storage]. eexists. split; [reflexivity|].
  cbn [json scalars]. rewrite lookup_jsonProps;
    rewrite saved_scalars_override, lookup_assign, String.eqb_refl;
    [reflexivity|discriminate].
Qed.

Lemma restored_in_range tracks stored current i :
  (0 < tracks)%nat ->
  restoreTrackIndex tracks stored current = Returns i -> (i < tracks)%nat.
Proof.
  intros Ht. unfold restoreTrackIndex.
  destruct (Nat.eqb_spec tracks 0) as [->|_]; [lia|].
  assert (Z : forall j, @Returns nat 0%nat = Returns j -> (j < tracks)%nat).
  { intros j E. injection E as <-. exact Ht. }
  destruct stored as [parsed|]; [|apply Z].
  destruct (lookup "currentTrackIndex" (scalars parsed)) as [| |b|q|s|ps];
    cbn [parseInt bind]; try apply Z.
  - destruct (plain_decimal q); cbn [bind]; [|discriminate].
    destruct ((0 <=? Qtrunc q)%Z && (Qtrunc q <? Z.of_nat tracks)%Z) eqn:E;
      [|apply Z].
    apply andb_prop in E. destruct E as [E1 E2].
    apply Z.leb_le in E1. apply Z.ltb_lt in E2.
    intros R. injection R as <-. lia.
  - destruct (parseInt_string s) as [z|]; [|apply Z].
    destruct ((0 <=? z)%Z && (z <? Z.of_nat tracks)%Z) eqn:E; [|apply Z].
    apply andb_prop in E. destruct E as [E1 E2].
    apply Z.leb_le in E1. apply Z.ltb_lt in E2.
    intros R. injection R as <-. lia.
  - destruct (hasOwn "toString" ps); apply Z.
Qed.

Lemma step_keeps_isMuted ev a :
  fromPanel ev = true -> keepsMute ev = true ->
  lookup "isMuted" (scalars (settings (step ev a)))
  = lookup "isMuted" (scalars (settings a)).
Proof.
  intros Hev Hk. destruct ev; try discriminate Hk; cbn [step]; try reflexivity.
  cbn [fromPanel] in Hev. apply andb_prop in Hev. destruct Hev as [Hp _].
  unfold updateSetting, saveCurrentSettings, set_storage, set_settings, set.
  cbn [settings scalars]. rewrite lookup_assign.
  destruct (String.eqb "isMuted" key) eqn:E; [|reflexivity].
  apply String.eqb_eq in E. subst key. discriminate Hp.
Qed.

Lemma run_keeps_isMuted evs : forall a,
  forallb fromPanel evs = true -> forallb keepsMute evs = true ->
  lookup "isMuted" (scalars (settings (run evs a)))
  = lookup "isMuted" (scalars (settings a)).
Proof.
  induction evs as [|ev evs IH]; intros a H K; [reflexivity|].
  cbn [forallb] in H, K. apply andb_prop in H. apply andb_prop in K.
  destruct H as [H1 H2]. destruct K as [K1 K2].
  cbn [run fold_left]. fold (run evs (step ev a)).
  rewrite (IH _ H2 K2). apply step_keeps_isMuted; assumption.
Qed.

(** *** The properties *)

(** X23. The overscan slider does not reach the grid. The panel stores
    its value under [overScanMultiplier], whereas [VideoMasonry] reads
    [overscanMultiplier], [imagePreloadMultiplier] and
    [videoPreloadMultiplier], which neither the panel nor the storage ever
    sets: whatever the user does, the multiplier is 1.5 and both preload
    margins are [max(0, round(1.5 h))] for the viewport height [h]. *)
Theorem overscan_slider_does_not_reach_the_grid evs :
  forallb fromPanel evs = true ->
  let a := run evs firstVisit in
  (forall v, plain v = true ->
     field (view (settings (step (UpdateSetting "overScanMultiplier" v) a)))
           "overScanMultiplier" = v)
  /\ Grid.overscanMultiplier (view (settings a)) = JNum (3 # 2)
  /\ forall h,
       Grid.preloadMarginPx h (Grid.imagePreloadMultiplier (view (settings a)))
       = Returns (Some (Qmax 0 (inject_Z (Grid.round (h * (3 # 2))))))
       /\ Grid.preloadMarginPx h (Grid.videoPreloadMultiplier (view (settings a)))
          = Returns (Some (Qmax 0 (inject_Z (Grid.round (h * (3 # 2)))))).
Proof.
  intros H a.
  assert (G : Good a) by (apply run_Good; [exact H|apply Good_firstVisit]).
  assert (U1 : field (view (settings a)) "overscanMultiplier" = JUndefined)
    by (apply unread_key; [exact G|apply unknown_key; reflexivity]).
  assert (U2 : field (view (settings a)) "imagePreloadMultiplier" = JUndefined)
    by (apply unread_key; [exact G|apply unknown_key; reflexivity]).
  assert (U3 : field (view (settings a)) "videoPreloadMultiplier" = JUndefined)
    by (apply unread_key; [exact G|apply unknown_key; reflexivity]).
  split; [|split].
  - intros v _. cbn [step]. unfold updateSetting, saveCurrentSettings.
    cbn [set_storage set_settings settings set view field scalars].
    rewrite lookup_assign. reflexivity.
  - unfold Grid.overscanMultiplier. rewrite U1. reflexivity.
  - intros h.
    unfold Grid.imagePreloadMultiplier, Grid.videoPreloadMultiplier,
      Grid.overscanMultiplier.
    rewrite U1, U2, U3. split; reflexivity.
Qed.

Lemma overscan_slider_does_not_reach_the_grid_witness :
  let evs := [UpdateSetting "overScanMultiplier" (JNum 4); Reload] in
  let s := view (settings (run evs firstVisit)) in
  field s "overScanMultiplier" = JNum 4
  /\ Grid.overscanMultiplier s = JNum (3 # 2)
  /\ Grid.preloadMarginPx 600 (Grid.imagePreloadMultiplier s)
     = Returns (Some (Qmax 0 (inject_Z (Grid.round (600 * (3 # 2)))))).
Proof.
  intros evs s.
  destruct (overscan_slider_does_not_reach_the_grid evs eq_refl)
    as (_ & H2 & H3).
  split; [reflexivity|]. split; [exact H2|]. exact (proj1 (H3 600%Q)).
Defined.

(** X24. The settings survive a reload. As long as the defaults are not
    reset, whatever the user does in the panel, opening the page again
    gives every setting its value from before (all keys except the four
    under which the state of the page is stored), the same selected tags
    and the same state of the controls. *)
Theorem reload_restores_the_settings evs :
  forallb fromPanel evs = true ->
  forallb keepsDefaults evs = true ->
  let a := run evs firstVisit in
  (forall k, ~ In k stateKeys ->
             lookup k (scalars (settings (reload a)))
             = lookup k (scalars (settings a)))
  /\ selectedTags (settings (reload a)) = selectedTags (settings a)
  /\ controlsCollapsed (reload a) = controlsCollapsed a.
Proof.
  intros H K a.
  destruct (run_Stored evs firstVisit H K Good_firstVisit Stored_firstVisit)
    as [G S].
  exact (reload_agrees a G S).
Qed.

Lemma reload_restores_the_settings_witness :
  let evs := [UpdateSetting "gridSize" (JNum 300); UpdateTags ["cats"];
              ToggleControls; ToggleMuteAll] in
  let a := run evs firstVisit in
  lookup "gridSize" (scalars (settings (reload a)))
  = lookup "gridSize" (scalars (settings a))
  /\ selectedTags (settings (reload a)) = selectedTags (settings a)
  /\ controlsCollapsed (reload a) = controlsCollapsed a.
Proof.
  intros evs a.
  destruct (reload_restores_the_settings evs eq_refl eq_refl) as (H1 & H2 & H3).
  split; [|split].
  - apply H1. simpl. intuition discriminate.
  - exact H2.
  - exact H3.
Defined.

(** X25. The music switch is saved with its old value: its timeout runs
    the save of the render of the click, so after the switch is used and
    the page is opened again, music is as it was before the switch was
    used; only a later save stores the new value. The switch of the
    controls passes its new value to the save and survives the reload. *)
Theorem music_switch_is_saved_with_its_old_value a m :
  musicEnabled a = JBool m ->
  musicEnabled (toggleMusic a) = JBool (negb m)
  /\ musicEnabled (reload (toggleMusic a)) = JBool m
  /\ musicEnabled (reload (musicStarted (toggleMusic a))) = JBool (negb m)
  /\ controlsCollapsed (reload (toggleControls a)) = negb (controlsCollapsed a).
Proof.
  intros Hm. split; [|split; [|split]].
  - unfold toggleMusic, saveCurrentSettings. cbn [set_storage set_musicEnabled musicEnabled].
    rewrite Hm. reflexivity.
  - unfold reload, loadSettings, toggleMusic, saveCurrentSettings.
    cbn [fresh storage set_storage musicEnabled json scalars].
    unfold noOverrides.
    rewrite lookup_jsonProps; rewrite lookup_saved_music, Hm;
      [reflexivity|discriminate].
  - unfold reload, loadSettings, musicStarted, saveCurrentSettings.
    cbn [fresh storage set_storage musicEnabled json scalars].
    unfold noOverrides.
    rewrite lookup_jsonProps; rewrite lookup_saved_music;
      unfold toggleMusic, saveCurrentSettings;
      cbn [set_storage set_musicEnabled musicEnabled];
      [rewrite Hm; reflexivity|discriminate].
  - unfold reload, loadSettings, toggleControls, saveCurrentSettings.
    cbn [fresh storage set_storage controlsCollapsed json scalars].
    rewrite lookup_jsonProps;
      rewrite saved_scalars_override, lookup_assign, String.eqb_refl;
      [|discriminate].
    destruct (controlsCollapsed a); reflexivity.
Qed.

Lemma music_switch_is_saved_with_its_old_value_witness :
  musicEnabled (toggleMusic firstVisit) = JBool false
  /\ musicEnabled (reload (toggleMusic firstVisit)) = JBool true
  /\ musicEnabled (reload (musicStarted (toggleMusic firstVisit))) = JBool false
  /\ controlsCollapsed (reload (toggleControls firstVisit)) = false.
Proof.
  exact (music_switch_is_saved_with_its_old_value firstVisit true eq_refl).
Defined.

(** X26. [restoreTrackIndex] never leaves the list of tracks, and it
    brings back the track of the last change: with at least one track, the
    index it sets is below the number of tracks; after
    [handleMusicTrackChange(n)] with [n] inside the list it sets [n]; with
    nothing stored it sets 0. *)
Theorem restoreTrackIndex_brings_back_the_saved_track tracks :
  (0 < tracks)%nat ->
  (forall stored current i,
     restoreTrackIndex tracks stored current = Returns i -> (i < tracks)%nat)
  /\ (forall a n current,
        (n < tracks)%nat -> (Z.of_nat n < 10 ^ 21)%Z ->
        restoreTrackIndex tracks (storage (handleMusicTrackChange n a)) current
        = Returns n)
  /\ forall current, restoreTrackIndex tracks None current = Returns 0%nat.
Proof.
  intros Ht. split; [|split].
  - intros stored current i. apply restored_in_range, Ht.
  - intros a n current Hn Hb.
    destruct (stored_track n a) as (st & -> & L).
    unfold restoreTrackIndex.
    destruct (Nat.eqb_spec tracks 0) as [->|_]; [lia|].
    rewrite L. rewrite (parseInt_index n Hb). cbn [bind].
    destruct (Z.leb_spec 0 (Z.of_nat n)); [|lia].
    destruct (Z.ltb_spec (Z.of_nat n) (Z.of_nat tracks)); [|lia].
    cbn [andb]. rewrite Nat2Z.id. reflexivity.
  - intros current. unfold restoreTrackIndex.
    destruct (Nat.eqb_spec tracks 0) as [->|_]; [lia|reflexivity].
Qed.

Lemma restoreTrackIndex_brings_back_the_saved_track_witness :
  restoreTrackIndex 5 (storage (handleMusicTrackChange 3 firstVisit)) 0
  = Returns 3%nat.
Proof.
  apply (proj1 (proj2 (restoreTrackIndex_brings_back_the_saved_track 5
                         ltac:(lia)))); [lia|reflexivity].
Defined.

(** *** The buttons for the next and the previous track *)

Lemma changeTrack_index tracks n a :
  n <> 0%nat ->
  changeTrack tracks n a
  = Returns (saveCurrentSettings a
               (override "currentTrackIndex" (JNum (inject_Z (Z.of_nat n))))
               (set_currentTrackIndex n a)).
Proof.
  intros Hn. unfold changeTrack, restoreWhenEnabled.
  cbn [currentTrackIndex set_currentTrackIndex].
  destruct (Nat.eqb_spec (currentTrackIndex a) n); [reflexivity|].
  destruct (Nat.eqb_spec n 0) as [E|_]; [contradiction|].
  rewrite andb_false_r. reflexivity.
Qed.

Lemma storedIndex_saved r n a :
  storedIndex (saveCurrentSettings r
                 (override "currentTrackIndex" (JNum (inject_Z (Z.of_nat n)))) a)
  = JNum (inject_Z (Z.of_nat n)).
Proof.
  unfold storedIndex, saveCurrentSettings, set_storage. cbn [storage json scalars].
  rewrite lookup_jsonProps;
    rewrite saved_scalars_override, lookup_assign, String.eqb_refl;
    [reflexivity|discriminate].
Qed.

(** A change to the first track, from another one, while a valid index
    other than 0 is stored: the restoring effect puts the stored index
    back, and 0 is saved. *)
Lemma changeTrack_first tracks a saved :
  truthy (musicEnabled a) = true ->
  currentTrackIndex a <> 0%nat ->
  storedIndex a = JNum (inject_Z (Z.of_nat saved)) ->
  (0 < saved < tracks)%nat -> (Z.of_nat saved < 10 ^ 21)%Z ->
  changeTrack tracks 0 a
  = Returns (saveCurrentSettings a (override "currentTrackIndex" (JNum 0))
               (set_currentTrackIndex saved a)).
Proof.
  intros Hm Hc Hs Hr Hb. unfold changeTrack, restoreWhenEnabled.
  destruct (Nat.eqb_spec (currentTrackIndex a) 0) as [E|_]; [contradiction|].
  cbn [currentTrackIndex set_currentTrackIndex musicEnabled storage Nat.eqb].
  rewrite Hm. destruct (Nat.ltb_spec 0 tracks) as [_|]; [|lia]. cbn [andb].
  unfold storedIndex in Hs.
  destruct (storage a) as [st|]; [|discriminate Hs].
  rewrite Hs, (parseInt_index saved Hb).
  destruct (Z.ltb_spec 0 (Z.of_nat saved)); [|lia].
  destruct (Z.ltb_spec (Z.of_nat saved) (Z.of_nat tracks)); [|lia].
  cbn [andb bind]. rewrite Nat2Z.id. reflexivity.
Qed.

(** The same change once 0 is stored: the index becomes 0. *)
Lemma changeTrack_first_again tracks a :
  storedIndex a = JNum 0 ->
  changeTrack tracks 0 a
  = Returns (saveCurrentSettings a (override "currentTrackIndex" (JNum 0))
               (set_currentTrackIndex 0 a)).
Proof.
  intros Hs. unfold changeTrack, restoreWhenEnabled.
  cbn [currentTrackIndex set_currentTrackIndex musicEnabled storage].
  destruct (Nat.eqb_spec (currentTrackIndex a) 0); [reflexivity|].
  destruct (truthy (musicEnabled a) && (0 <? tracks)%nat && (0 =? 0)%nat);
    [|reflexivity].
  unfold storedIndex in Hs.
  destruct (storage a) as [st|]; [|discriminate Hs].
  rewrite Hs. reflexivity.
Qed.

(** X27. The buttons for the next and the previous track, with music on,
    tracks loaded and the index of the current track stored. Next moves to
    the following track and stores its index, and Previous then leads
    back, as long as the first track is not the target. Next on the last
    track leaves the player on the last track: the effect that restores
    the index while it is 0 puts the stored index back before the change
    is saved; 0 is stored, and a second press reaches the first track. *)
Theorem next_on_the_last_track_needs_two_presses tracks a :
  truthy (musicEnabled a) = true ->
  (currentTrackIndex a < tracks)%nat ->
  (Z.of_nat tracks < 10 ^ 21)%Z ->
  indexStored a ->
  let c := currentTrackIndex a in
  (S c < tracks ->
     exists x, onNextTrack tracks a = Returns x
       /\ currentTrackIndex x = S c /\ indexStored x
       /\ (c <> 0%nat ->
           exists y, onPreviousTrack tracks x = Returns y
             /\ currentTrackIndex y = c /\ indexStored y))%nat
  /\ (S c = tracks -> c <> 0 ->
        exists x, onNextTrack tracks a = Returns x
          /\ currentTrackIndex x = c /\ storedIndex x = JNum 0
          /\ exists y, onNextTrack tracks x = Returns y
               /\ currentTrackIndex y = 0 /\ indexStored y)%nat.
Proof.
  intros Hm Hc Hb Hs c.
  assert (Ht : (tracks =? 0)%nat = false) by (apply Nat.eqb_neq; lia).
  assert (E1 : (currentTrackIndex a + 1 = S c)%nat) by (unfold c; lia).
  unfold indexStored in Hs. fold c in Hc, Hs.
  split.
  - intros Hn. unfold onNextTrack. rewrite Ht, E1.
    rewrite Nat.mod_small by lia.
    rewrite changeTrack_index by lia. eexists. split; [reflexivity|].
    split; [reflexivity|]. split.
    + unfold indexStored. rewrite storedIndex_saved. reflexivity.
    + intros Hc0. unfold onPreviousTrack. rewrite Ht.
      cbn [currentTrackIndex saveCurrentSettings set_storage set_currentTrackIndex].
      cbn [Nat.eqb]. replace (S c - 1)%nat with c by lia.
      rewrite changeTrack_index by exact Hc0.
      eexists. split; [reflexivity|]. split; [reflexivity|].
      unfold indexStored. rewrite storedIndex_saved. reflexivity.
  - intros Hn Hc0. unfold onNextTrack. rewrite Ht, E1, Hn.
    rewrite Nat.Div0.mod_same.
    rewrite (changeTrack_first tracks a c Hm Hc0 Hs) by lia.
    eexists. split; [reflexivity|]. split; [reflexivity|].
    split; [apply (storedIndex_saved a 0)|].
    cbn [currentTrackIndex saveCurrentSettings set_storage set_currentTrackIndex].
    replace (c + 1)%nat with tracks by lia. rewrite Nat.Div0.mod_same.
    rewrite changeTrack_first_again by apply (storedIndex_saved a 0).
    eexists. split; [reflexivity|]. split; [reflexivity|].
    unfold indexStored. apply (storedIndex_saved _ 0).
Qed.

Lemma next_on_the_last_track_needs_two_presses_witness :
  let a := handleMusicTrackChange 2 firstVisit in
  (currentTrackIndex a = 2%nat /\ storedIndex a = JNum 2)
  /\ exists x, onNextTrack 3 a = Returns x
       /\ currentTrackIndex x = 2%nat /\ storedIndex x = JNum 0
       /\ exists y, onNextTrack 3 x = Returns y
            /\ currentTrackIndex y = 0%nat /\ indexStored y.
Proof.
  intros a. split; [split; reflexivity|].
  apply (proj2 (next_on_the_last_track_needs_two_presses 3 a eq_refl
                  ltac:(cbn; lia) eq_refl eq_refl)); [reflexivity | discriminate].
Defined.

(** X28. Resetting to the defaults unmutes the videos: the defaults have
    no [isMuted], so after the reset, and until the mute button is used or
    the page is opened again, the [muted] property of the videos is false,
    whereas on a first visit it is true; the scroll speed, which the
    defaults lack as well, falls back to 2 instead of 3. *)
Theorem reset_to_defaults_unmutes_the_videos a evs :
  forallb fromPanel evs = true ->
  forallb keepsMute evs = true ->
  mutedProperty (settings (run evs (resetToDefaults a))) = false
  /\ mutedProperty (settings (run evs firstVisit)) = true
  /\ scrollSpeedOption (settings (resetToDefaults a)) = JNum 2
  /\ scrollSpeedOption (settings firstVisit) = JNum 3.
Proof.
  intros H K. unfold mutedProperty.
  rewrite !(run_keeps_isMuted evs _ H K). repeat split; reflexivity.
Qed.

Lemma reset_to_defaults_unmutes_the_videos_witness :
  let evs := [UpdateSetting "gridSize" (JNum 300); ToggleControls] in
  mutedProperty (settings (run evs (resetToDefaults firstVisit))) = false
  /\ mutedProperty (settings (run evs firstVisit)) = true
  /\ scrollSpeedOption (settings (resetToDefaults firstVisit)) = JNum 2
  /\ scrollSpeedOption (settings firstVisit) = JNum 3.
Proof.
  intros evs.
  exact (reset_to_defaults_unmutes_the_videos firstVisit evs eq_refl eq_refl).
Defined.

End SettingsFacts.

(** ** [useAutoScroll]: the scroll from start to stop *)

Module AutoScrollDrive.

Import AutoScroll AutoScrollInv AutoScrollFacts AutoScrollMoreFacts.
Local Open Scope Q_scope.











End AutoScrollDrive.

(** ** [VideoItem]: what starts playback when autoplay is off *)

Module VideoItemAppFacts.

Import VideoItem VideoItemCtl VideoItemFacts VideoItemApp.
Local Open Scope string_scope.

Lemma playAll_frame m :
  seen (playAll m) = seen m /\ inputs (playAll m) = inputs m.
Proof. open_item m. unfold playAll. follow; split; reflexivity. Qed.

Lemma pause_frame m : seen (pause m) = seen m /\ inputs (pause m) = inputs m.
Proof. open_item m. unfold pause. follow; split; reflexivity. Qed.

Lemma playAll_ctl m : ctl (playAll m) = aplayAll (ctl m).
Proof. open_item m. unfold playAll, aplayAll. follow. Qed.

Lemma pause_ctl m : ctl (pause m) = apause (ctl m).
Proof. open_item m. unfold pause, apause. follow. Qed.

(** An operation on the element from outside, followed on the control
    part. *)
Lemma outside_sim (f : Item -> Item) (af : Ctl -> Ctl) m :
  (forall y, seen (f y) = seen y /\ inputs (f y) = inputs y) ->
  (forall y, ctl (f y) = af (ctl y)) ->
  settled m ->
  ctl (settle renders (f m)) = aoutside af (ctl m)
  /\ (aquietOutside af (ctl m) = true -> settled (settle renders (f m))).
Proof.
  intros Hf Hc Hs. destruct (Hf m) as [Fs Fi].
  pose proof (rerun_handler m (f m) Hs Fs Fi) as Hr.
  unfold aoutside, aquietOutside. rewrite <- Hc, <- Hr.
  split; [apply settle_ctl | apply settle_settled].
Qed.

Lemma buttons_checked :
  forallCtl (fun c =>
    aquietOutside aplayAll c && aquietOutside apause c
    && implb (stopped c) (stopped (aoutside apause c))
    && implb (stopped c && startable c) (cPlaying (aoutside aplayAll c))) = true.
Proof. vm_compute. reflexivity. Qed.

Lemma buttons c :
  aquietOutside aplayAll c = true /\ aquietOutside apause c = true
  /\ (stopped c = true -> stopped (aoutside apause c) = true)
  /\ (stopped c = true -> startable c = true -> cPlaying (aoutside aplayAll c) = true).
Proof.
  pose proof (forallCtl_spec _ buttons_checked c) as H. cbv beta in H.
  apply andb_true_iff in H as [H H4]. apply andb_true_iff in H as [H H3].
  apply andb_true_iff in H as [H1 H2].
  split; [exact H1|]. split; [exact H2|]. split.
  - intros Hs. rewrite Hs in H3. exact H3.
  - intros Hs Ht. rewrite Hs, Ht in H4. exact H4.
Qed.

Lemma settled_act i m : settled m -> settled (act i m).
Proof.
  intros Hs. destruct i as [ev| |]; cbn [act].
  - apply settled_step_any, Hs.
  - apply (outside_sim playAll aplayAll m playAll_frame playAll_ctl Hs), buttons.
  - apply (outside_sim pause apause m pause_frame pause_ctl Hs), buttons.
Qed.

Lemma staysStopped_checked :
  forallCtl (fun c => forallEvent (fun a => staysStopped a c (astep a c))) = true.
Proof. vm_compute. reflexivity. Qed.

Lemma fire_stopped t m :
  settled m -> stopped (ctl m) = true -> stopped (ctl (fire t m)) = true.
Proof.
  intros Hs Hst.
  pose proof (any_fire staysStopped staysStopped_checked t m Hs) as H.
  unfold staysStopped in H. refine (implb_elim _ _ H _).
  rewrite Hst. destruct (action t); reflexivity.
Qed.

Lemma advanceTo_stopped fuel deadline : forall m,
  settled m -> stopped (ctl m) = true ->
  stopped (ctl (advanceTo fuel deadline m)) = true.
Proof.
  induction fuel as [|fuel IH]; intros m Hs Hst; [exact Hst|].
  cbn [advanceTo]. destruct (nextDue deadline m) as [t|]; [|exact Hst].
  apply IH; [apply settled_fire, Hs | apply fire_stopped; assumption].
Qed.

Lemma abstraction_starts ev m :
  startsPlayback (Own ev) = false -> starts (abstraction ev m) = false.
Proof. destruct ev as [| | |[]| | | | | | |]; cbn; congruence. Qed.

Lemma act_stopped i m :
  settled m -> startsPlayback i = false ->
  stopped (ctl m) = true -> stopped (ctl (act i m)) = true.
Proof.
  intros Hs Hi Hst. destruct i as [ev| |]; cbn [act].
  - destruct (timed ev) eqn:Et.
    + destruct ev; try discriminate. cbn [step handle]. now apply advanceTo_stopped.
    + pose proof (any_step staysStopped staysStopped_checked ev m Hs Et) as H.
      unfold staysStopped in H. refine (implb_elim _ _ H _).
      rewrite Hst, (abstraction_starts ev m Hi). reflexivity.
  - discriminate Hi.
  - unfold pauseAll.
    rewrite (proj1 (outside_sim pause apause m pause_frame pause_ctl Hs)).
    now apply buttons.
Qed.

Lemma acts_stopped l : forall m,
  settled m -> forallb (fun i => negb (startsPlayback i)) l = true ->
  stopped (ctl m) = true -> stopped (ctl (acts l m)) = true.
Proof.
  induction l as [|i l IH]; intros m Hs Hl Hst; [exact Hst|].
  cbn [forallb] in Hl. apply andb_true_iff in Hl as [Hi Hl].
  apply negb_true_iff in Hi.
  cbn [acts fold_left].
  apply (IH (act i m)); [now apply settled_act | exact Hl | now apply act_stopped].
Qed.

Lemma stopped_spec m :
  stopped (ctl m) = true <-> autoplay (inputs m) = false /\ isPlaying m = false.
Proof.
  unfold stopped. cbn [ctl cAuto cPlaying]. rewrite andb_true_iff, !negb_true_iff. tauto.
Qed.

(** X11. With autoplay off, playback starts only by a click or by the
    [Play all] button: an item that does not play stays that way through
    every sequence of inputs that holds no click, no [Play all] and no
    switching-on of autoplay, whatever the observers report, whichever
    timers fire and whatever [Pause all] does; and autoplay stays off.
    [Play all] does start a loaded item inside the play window. *)
Theorem without_autoplay_a_click_or_play_all_starts_playback m :
  settled m ->
  autoplay (inputs m) = false ->
  isPlaying m = false ->
  (forall l, forallb (fun i => negb (startsPlayback i)) l = true ->
     isPlaying (acts l m) = false /\ autoplay (inputs (acts l m)) = false)
  /\ (isLoaded m = true -> isFailed m = false -> inPlayView (inputs m) = true ->
      wired m = true -> paused m = true -> playAllowed m = true ->
      isPlaying (act PlayAll m) = true).
Proof.
  intros Hs Ha Hp.
  assert (Hst : stopped (ctl m) = true) by (apply stopped_spec; split; assumption).
  split.
  - intros l Hl.
    pose proof (acts_stopped l m Hs Hl Hst) as H.
    apply stopped_spec in H. destruct H as [H1 H2]. split; assumption.
  - intros H1 H2 H3 H4 H5 H6. cbn [act].
    change (cPlaying (ctl (settle renders (playAll m))) = true).
    rewrite (proj1 (outside_sim playAll aplayAll m playAll_frame playAll_ctl Hs)).
    apply buttons; [exact Hst|].
    unfold startable. cbn [ctl cLoaded cFailed cInPlay cWired cPaused cAllowed].
    rewrite H1, H2, H3, H4, H5, H6. reflexivity.
Qed.

Lemma without_autoplay_a_click_or_play_all_starts_playback_witness :
  let m := trace [LoadView true; LoadedMetadata; PlayView true (1 # 2)]
                 (mount "/videos/a.mp4" false false true 260 0 true 0) in
  let l := [Own (Elapse 5000); PauseAll; Own (PlayView true 1);
            Own (SetHighlightMode true)] in
  isLoaded m = true
  /\ isPlaying (acts l m) = false
  /\ isPlaying (act PlayAll m) = true.
Proof.
  intros m l.
  assert (Hs : settled m) by reflexivity.
  destruct (without_autoplay_a_click_or_play_all_starts_playback m Hs eq_refl eq_refl)
    as [H1 H2].
  split; [reflexivity|]. split.
  - exact (proj1 (H1 l eq_refl)).
  - apply H2; reflexivity.
Defined.

End VideoItemAppFacts.
